(** * ReACTor-SQL: the agent orchestrator of [services/llmService.ts]

    A shallow embedding of the TypeScript sources and the properties of the
    specification checked against it.

    - JavaScript strings are sequences of UTF-16 code units ([jsstring]);
      string literals of the source are written as Rocq literals (UTF-8) and
      decoded by [js].
    - Regular expressions of the source are terms of [regex], run by a
      backtracking matcher that follows the ECMAScript priorities (first
      alternative first, greedy or lazy quantifiers as written).
    - JavaScript numbers are IEEE 754 binary64 values ([spec_float] of the
      Standard Library, [prec = 53], [emax = 1024]).
    - The language model, the query engine and the clock are the fields of
      [World]; the agent is a function of the world it runs in. Logging
      ([logger], [console]) changes no value the agent reads and is left out. *)

From Stdlib Require Import Ascii String DecimalString.
From Stdlib Require Import List Bool Arith NArith ZArith Lia SpecFloat.
From Stdlib Require QArith Qround Qminmax.
Import ListNotations.

Set Implicit Arguments.

(* ================================================================== *)
(** * Part I: definitions *)
(* ================================================================== *)

(** ** JavaScript strings *)

(** A string is its sequence of UTF-16 code units. *)
Definition jsstring : Type := list N.

Fixpoint bytes_of_string (s : string) : list N :=
  match s with
  | EmptyString => []
  | String c r => N_of_ascii c :: bytes_of_string r
  end.

(** Code points of a UTF-8 byte sequence (the encoding of this file). *)
Fixpoint utf8_code_points (bs : list N) : list N :=
  match bs with
  | [] => []
  | b :: r =>
      if (b <? 128)%N then b :: utf8_code_points r
      else if (b <? 224)%N then
        match r with
        | c1 :: r1 => ((b mod 32) * 64 + c1 mod 64)%N :: utf8_code_points r1
        | _ => []
        end
      else if (b <? 240)%N then
        match r with
        | c1 :: c2 :: r2 =>
            ((b mod 16) * 4096 + (c1 mod 64) * 64 + c2 mod 64)%N :: utf8_code_points r2
        | _ => []
        end
      else
        match r with
        | c1 :: c2 :: c3 :: r3 =>
            ((b mod 8) * 262144 + (c1 mod 64) * 4096 + (c2 mod 64) * 64 + c3 mod 64)%N
              :: utf8_code_points r3
        | _ => []
        end
  end.

Definition utf16_units (cp : N) : list N :=
  if (cp <? 65536)%N then [cp]
  else let v := (cp - 65536)%N in [(55296 + v / 1024)%N; (56320 + v mod 1024)%N].

(** [js "..."] is the JavaScript string written by the literal. *)
Definition js (s : string) : jsstring :=
  flat_map utf16_units (utf8_code_points (bytes_of_string s)).

(** Characters that a Rocq literal cannot hold or that are clearer by name. *)
Definition DQUOTE : N := 34.
Definition SQUOTE : N := 39.
Definition BACKTICK : N := 96.
Definition BACKSLASH : N := 92.
Definition LF : N := 10.

Fixpoint jseqb (a b : jsstring) : bool :=
  match a, b with
  | [], [] => true
  | x :: a', y :: b' => (x =? y)%N && jseqb a' b'
  | _, _ => false
  end.

(** [s.startsWith(p)] *)
Fixpoint startsWith (s p : jsstring) {struct p} : bool :=
  match p, s with
  | [], _ => true
  | y :: p', x :: s' => (x =? y)%N && startsWith s' p'
  | _ :: _, [] => false
  end.

(** [s.indexOf(p)]: the first position where [p] occurs. *)
Fixpoint indexOf (s p : jsstring) : option nat :=
  if startsWith s p then Some 0
  else match s with
       | [] => None
       | _ :: s' => option_map S (indexOf s' p)
       end.

(** [s.includes(p)] *)
Definition includes (s p : jsstring) : bool :=
  match indexOf s p with Some _ => true | None => false end.

(** ECMAScript [WhiteSpace] and [LineTerminator]: the class [\s] of a regular
    expression and what [trim] removes. *)
Definition isWhiteSpace (c : N) : bool :=
  ((9 <=? c) && (c <=? 13) || (c =? 32) || (c =? 160) || (c =? 5760)
   || (8192 <=? c) && (c <=? 8202) || (c =? 8232) || (c =? 8233)
   || (c =? 8239) || (c =? 8287) || (c =? 12288) || (c =? 65279))%N.

Fixpoint trimStart (s : jsstring) : jsstring :=
  match s with
  | c :: r => if isWhiteSpace c then trimStart r else s
  | [] => []
  end.

(** [s.trim()] *)
Definition trim (s : jsstring) : jsstring :=
  rev (trimStart (rev (trimStart s))).

Definition isUpperAscii (c : N) : bool := ((65 <=? c) && (c <=? 90))%N.
Definition isLowerAscii (c : N) : bool := ((97 <=? c) && (c <=? 122))%N.
Definition isDigit (c : N) : bool := ((48 <=? c) && (c <=? 57))%N.

Definition lowerAscii (c : N) : N := if isUpperAscii c then (c + 32)%N else c.
Definition upperAscii (c : N) : N := if isLowerAscii c then (c - 32)%N else c.

(** Decimal digits of a non-negative integer, as [String(n)] prints it. *)
Definition decimal (n : N) : jsstring :=
  bytes_of_string (NilEmpty.string_of_uint (N.to_uint n)).

(** A JavaScript value is truthy or falsy; for a string, [!s] is [s === ""]. *)
Definition truthyStr (s : jsstring) : bool :=
  match s with [] => false | _ => true end.

(** ** Regular expressions *)

(** The constructs the regular expressions of the source use. None of them has
    the [u] flag, so they read code units. *)
Inductive regex : Type :=
| Eps                                   (* the empty pattern *)
| Class (p : N -> bool)                 (* one code unit in a class *)
| Seq (r1 r2 : regex)                   (* r1 r2 *)
| Alt (r1 r2 : regex)                   (* r1|r2 *)
| Star (greedy : bool) (r : regex)      (* r* and r*? *)
| Group (i : nat) (r : regex)           (* the i-th capture group *)
| Bol                                   (* ^ without the m flag *)
| Eol                                   (* $ without the m flag *)
| WordBoundary.                         (* \b *)

(** A position in the subject: the code units behind it (nearest first), the
    ones ahead, and the captures made so far. *)
Record mstate : Type := MState {
  behind : jsstring;
  ahead : jsstring;
  caps : list (nat * jsstring)
}.

Definition isWordChar (c : N) : bool :=
  isUpperAscii c || isLowerAscii c || isDigit c || (c =? 95)%N.

Definition headIsWord (s : jsstring) : bool :=
  match s with c :: _ => isWordChar c | [] => false end.

Definition setCap (i : nat) (v : jsstring) (cs : list (nat * jsstring)) :=
  (i, v) :: filter (fun p => negb (Nat.eqb (fst p) i)) cs.

Fixpoint getCap (cs : list (nat * jsstring)) (i : nat) : option jsstring :=
  match cs with
  | [] => None
  | (j, v) :: r => if Nat.eqb j i then Some v else getCap r i
  end.

(** The backtracking matcher, in continuation-passing style: [rmatch r k st]
    is the first way, in ECMAScript's order of preference, to match [r] at
    [st] and then have [k] succeed. An iteration of a quantifier that
    consumes nothing is rejected, as in ECMAScript. *)
Fixpoint rmatch (r : regex) (k : mstate -> option mstate) (st : mstate)
  : option mstate :=
  match r with
  | Eps => k st
  | Class p =>
      match ahead st with
      | c :: rest => if p c then k (MState (c :: behind st) rest (caps st)) else None
      | [] => None
      end
  | Seq r1 r2 => rmatch r1 (rmatch r2 k) st
  | Alt r1 r2 =>
      match rmatch r1 k st with
      | Some res => Some res
      | None => rmatch r2 k st
      end
  | Star greedy r1 =>
      (fix loop (fuel : nat) (st0 : mstate) {struct fuel} : option mstate :=
         match fuel with
         | O => k st0
         | S fuel' =>
             let again :=
               rmatch r1
                 (fun st1 =>
                    if Nat.ltb (length (ahead st1)) (length (ahead st0))
                    then loop fuel' st1 else None) in
             if greedy then
               match again st0 with
               | Some res => Some res
               | None => k st0
               end
             else
               match k st0 with
               | Some res => Some res
               | None => again st0
               end
         end) (length (ahead st)) st
  | Group i r1 =>
      rmatch r1
        (fun st1 =>
           let n := length (ahead st) - length (ahead st1) in
           k (MState (behind st1) (ahead st1)
                (setCap i (firstn n (ahead st)) (caps st1))))
        st
  | Bol => match behind st with [] => k st | _ => None end
  | Eol => match ahead st with [] => k st | _ => None end
  | WordBoundary =>
      if xorb (headIsWord (behind st)) (headIsWord (ahead st)) then k st else None
  end.

(** Derived forms. *)
Definition Plus (greedy : bool) (r : regex) : regex := Seq r (Star greedy r).
Definition Opt (r : regex) : regex := Alt r Eps.
Definition Chr (c : N) : regex := Class (N.eqb c).
(** A letter under the [i] flag. Without the [u] flag a code unit outside
    ASCII is never folded onto an ASCII letter. *)
Definition ChrI (c : N) : regex := Class (fun x => (upperAscii x =? upperAscii c)%N).
Fixpoint Lit (s : jsstring) : regex :=
  match s with [] => Eps | c :: r => Seq (Chr c) (Lit r) end.
Fixpoint LitI (s : jsstring) : regex :=
  match s with [] => Eps | c :: r => Seq (ChrI c) (LitI r) end.

(** The outcome of [RegExp.prototype.exec]: where the match starts and ends,
    and its captures. *)
Record rresult : Type := RResult {
  r_before : jsstring;     (* text before the match, nearest first *)
  r_text : jsstring;       (* the matched text *)
  r_after : jsstring;      (* text after the match *)
  r_caps : list (nat * jsstring)
}.

Definition matchAt (r : regex) (bh ah : jsstring) : option rresult :=
  match rmatch r Some (MState bh ah []) with
  | Some st =>
      Some (RResult bh (firstn (length ah - length (ahead st)) ah) (ahead st) (caps st))
  | None => None
  end.

(** The leftmost match at or after the current position. *)
Fixpoint searchFrom (r : regex) (bh ah : jsstring) {struct ah} : option rresult :=
  match matchAt r bh ah with
  | Some res => Some res
  | None =>
      match ah with
      | [] => None
      | c :: rest => searchFrom r (c :: bh) rest
      end
  end.

(** [s.match(r)] for a regular expression without the [g] flag. *)
Definition exec (r : regex) (s : jsstring) : option rresult := searchFrom r [] s.

(** [r.test(s)] *)
Definition test (r : regex) (s : jsstring) : bool :=
  match exec r s with Some _ => true | None => false end.

(** [s.replace(r, f)] for a regular expression with the [g] flag and a
    replacer function [f], which may update a state of its own (a counter it
    closes over). After an empty match the search resumes one code unit
    further. *)
Fixpoint replaceLoop {S : Type} (r : regex)
    (f : S -> rresult -> jsstring * S)
    (fuel : nat) (bh ah : jsstring) (s : S) : jsstring * S :=
  match fuel with
  | O => (ah, s)
  | S fuel' =>
      match matchAt r bh ah with
      | Some res =>
          let '(out, s1) := f s res in
          match r_text res with
          | [] =>
              match ah with
              | [] => (out, s1)
              | c :: rest =>
                  let '(tl, s2) := replaceLoop r f fuel' (c :: bh) rest s1 in
                  (out ++ c :: tl, s2)
              end
          | _ =>
              let '(tl, s2) :=
                replaceLoop r f fuel' (rev (r_text res) ++ bh) (r_after res) s1 in
              (out ++ tl, s2)
          end
      | None =>
          match ah with
          | [] => ([], s)
          | c :: rest =>
              let '(tl, s2) := replaceLoop r f fuel' (c :: bh) rest s in
              (c :: tl, s2)
          end
      end
  end.

Definition replaceAllWith {S : Type} (r : regex)
    (f : S -> rresult -> jsstring * S) (subject : jsstring) (s : S)
  : jsstring * S :=
  replaceLoop r f (Datatypes.S (length subject)) [] subject s.

(** [s.replace(r, t)] with the [g] flag and a replacement text without [$]. *)
Definition replaceAll (r : regex) (t : jsstring) (subject : jsstring) : jsstring :=
  fst (replaceAllWith r (fun (u : unit) _ => (t, u)) subject tt).

(** [GetSubstitution] for a string pattern, which has no captures: [$$],
    [$&], [$`] and [$'] are replaced, any other [$] stays. *)
Fixpoint getSubstitution (matched before after template : jsstring) : jsstring :=
  match template with
  | [] => []
  | d :: tl =>
      if (d =? 36)%N then
        match tl with
        | c :: rest =>
            if (c =? 36)%N then 36%N :: getSubstitution matched before after rest
            else if (c =? 38)%N then matched ++ getSubstitution matched before after rest
            else if (c =? 96)%N then before ++ getSubstitution matched before after rest
            else if (c =? 39)%N then after ++ getSubstitution matched before after rest
            else 36%N :: getSubstitution matched before after tl
        | [] => [36%N]
        end
      else d :: getSubstitution matched before after tl
  end.

(** [s.replace(p, t)] for a string pattern [p]: the first occurrence only. *)
Definition replaceFirst (s p t : jsstring) : jsstring :=
  match indexOf s p with
  | None => s
  | Some i =>
      let before := firstn i s in
      let after := skipn (i + length p) s in
      before ++ getSubstitution p before after t ++ after
  end.

(** ** The SQL identifier sanitizer ([sanitizeSql], llmService.ts 72-117) *)

Definition notIn (cs : list N) (c : N) : bool :=
  negb (existsb (N.eqb c) cs).

Definition LBRACKET : N := 91.
Definition RBRACKET : N := 93.

(** [[一-龥]] *)
Definition isCJK (c : N) : bool := ((19968 <=? c) && (c <=? 40869))%N.

(** [/\bAS\s+(\[[^\]]+\]|[^\s,\)\]]+)/gi] *)
Definition aliasPattern : regex :=
  Seq WordBoundary
    (Seq (LitI (js "AS"))
       (Seq (Plus true (Class isWhiteSpace))
          (Group 1
             (Alt
                (Seq (Chr LBRACKET)
                   (Seq (Plus true (Class (notIn [RBRACKET]))) (Chr RBRACKET)))
                (Plus true
                   (Class (fun c => negb (isWhiteSpace c) && notIn [44; 41; RBRACKET] c)%N)))))).

(** [/^["']|["']$/g] *)
Definition quoteEnds : regex :=
  Alt (Seq Bol (Class (fun c => (c =? DQUOTE) || (c =? SQUOTE))%N))
      (Seq (Class (fun c => (c =? DQUOTE) || (c =? SQUOTE))%N) Eol).

(** [/^\[[^\]]+\]$/] *)
Definition bracketQuoted : regex :=
  Seq Bol
    (Seq (Chr LBRACKET)
       (Seq (Plus true (Class (notIn [RBRACKET]))) (Seq (Chr RBRACKET) Eol))).

(** [/^\[|\]$/g] *)
Definition bracketEnds : regex :=
  Alt (Seq Bol (Chr LBRACKET)) (Seq (Chr RBRACKET) Eol).

(** [/^[A-Za-z_][A-Za-z0-9_]*$/] *)
Definition asciiIdentifier : regex :=
  Seq Bol
    (Seq (Class (fun c => isUpperAscii c || isLowerAscii c || (c =? 95))%N)
       (Seq (Star true (Class isWordChar)) Eol)).

(** [/[一-龥]/] *)
Definition hasCJK : regex := Class isCJK.

(** [/^[一-龥A-Za-z0-9_]+$/] *)
Definition cjkIdentifier : regex :=
  Seq Bol (Seq (Plus true (Class (fun c => isCJK c || isWordChar c))) Eol).

Definition cap (res : rresult) (i : nat) : jsstring :=
  match getCap (r_caps res) i with Some v => v | None => [] end.

(** The replacer of the alias pass (lines 76-90); its state is [aliasIndex]. *)
Definition aliasReplacer (aliasIndex : N) (res : rresult) : jsstring * N :=
  let match_ := r_text res in
  let alias := cap res 1 in
  let raw := alias in
  let trimmed := replaceAll quoteEnds [] (trim raw) in
  if negb (truthyStr trimmed) then (match_, aliasIndex)
  else if test bracketQuoted trimmed then (match_, aliasIndex)
  else
    let inner := replaceAll bracketEnds [] trimmed in
    if test asciiIdentifier inner then
      (replaceFirst match_ alias inner, aliasIndex)
    else if test hasCJK inner then
      (replaceFirst match_ alias ([LBRACKET] ++ inner ++ [RBRACKET]), aliasIndex)
    else
      let safeAlias := js "col_" ++ decimal aliasIndex in
      (replaceFirst match_ alias safeAlias, (aliasIndex + 1)%N).

(** The alias pass: [sql.replace(aliasPattern, ...)] with [aliasIndex = 1]. *)
Definition aliasPass (sql : jsstring) : jsstring :=
  fst (replaceAllWith aliasPattern aliasReplacer sql 1%N).

Inductive Clause : Type := ORDER_BY | GROUP_BY.

Definition clauseText (c : Clause) : jsstring :=
  match c with ORDER_BY => js "ORDER BY" | GROUP_BY => js "GROUP BY" end.

(** [/\bORDER\s+BY\s+([^;]+)/gi] and [/\bGROUP\s+BY\s+([^;]+)/gi] *)
Definition clausePattern (c : Clause) : regex :=
  Seq WordBoundary
    (Seq (LitI (match c with ORDER_BY => js "ORDER" | GROUP_BY => js "GROUP" end))
       (Seq (Plus true (Class isWhiteSpace))
          (Seq (LitI (js "BY"))
             (Seq (Plus true (Class isWhiteSpace))
                (Group 1 (Plus true (Class (notIn [59%N])))))))).

(** [/([^\s,]+)(\s+(ASC|DESC))?/gi] *)
Definition segmentPattern : regex :=
  Seq (Group 1 (Plus true (Class (fun c => negb (isWhiteSpace c) && notIn [44%N] c))))
      (Opt (Group 2
              (Seq (Plus true (Class isWhiteSpace))
                 (Group 3 (Alt (LitI (js "ASC")) (LitI (js "DESC"))))))).

(** The replacer of one segment of a clause body (lines 98-107). *)
Definition segmentReplacer (u : unit) (res : rresult) : jsstring * unit :=
  let segment := r_text res in
  let ident := cap res 1 in
  let orderPart := cap res 2 in          (* [orderPart || ''] *)
  let idTrim := trim ident in
  if negb (truthyStr idTrim) then (segment, u)
  else if test bracketQuoted idTrim then (segment, u)
  else if test hasCJK idTrim && test cjkIdentifier idTrim then
    (([LBRACKET] ++ idTrim ++ [RBRACKET]) ++ orderPart, u)
  else (segment, u).

(** [wrapChineseIdentifierInOrderGroup] (lines 92-111) *)
Definition wrapChineseIdentifierInOrderGroup (input : jsstring) (clause : Clause)
  : jsstring :=
  fst (replaceAllWith (clausePattern clause)
         (fun (u : unit) res =>
            let body := cap res 1 in
            let updated := fst (replaceAllWith segmentPattern segmentReplacer body tt) in
            (clauseText clause ++ js " " ++ updated, u))
         input tt).

(** [sanitizeSql] on a string argument. *)
Definition sanitizeSql (sql : jsstring) : jsstring :=
  if negb (truthyStr sql) then sql
  else
    let sanitized := aliasPass sql in
    let sanitized := wrapChineseIdentifierInOrderGroup sanitized ORDER_BY in
    let sanitized := wrapChineseIdentifierInOrderGroup sanitized GROUP_BY in
    sanitized.


(** ** JavaScript values and JSON *)

(** The values query results and parsed tool arguments are made of. An
    object is the list of its own enumerable string-keyed properties in
    property order; objects with a [toJSON] method, functions and symbols are
    outside the model. *)
#[local] Unset Elimination Schemes.
Inductive JSVal : Type :=
| VUndefined
| VNull
| VBool (b : bool)
| VNum (x : spec_float)
| VBigInt (z : Z)
| VStr (s : jsstring)
| VArr (items : list JSVal)
| VObj (fields : list (jsstring * JSVal)).
#[local] Set Elimination Schemes.

(** Binary64. *)
Definition prec : Z := 53.
Definition emax : Z := 1024.

(** The binary64 value nearest to [m * 10^e] (ties to even), for [m >= 0]:
    what a decimal literal of the source or of a JSON text denotes. *)
Definition numberOfDecimal (neg : bool) (m : Z) (e : Z) : spec_float :=
  match m with
  | Z0 => S754_zero neg
  | Zneg _ => S754_nan
  | Zpos _ =>
      match e with
      | Zneg k =>
          let '(qt, ez, lz) := SFdiv_core_binary prec emax m 0 (Z.pow 10 (Zpos k)) 0 in
          binary_round_aux prec emax neg qt ez lz
      | _ => binary_normalize prec emax (if neg then Z.opp (m * Z.pow 10 e) else m * Z.pow 10 e) 0 neg
      end
  end.

(** The value of an integer. *)
Definition numberOfZ (z : Z) : spec_float := binary_normalize prec emax z 0 false.

Definition toHexDigit (n : N) : N := if (n <? 10)%N then (48 + n)%N else (87 + n)%N.

(** [\uXXXX] with lower-case digits. *)
Definition unicodeEscape (c : N) : jsstring :=
  [BACKSLASH; 117%N; toHexDigit (c / 4096 mod 16); toHexDigit (c / 256 mod 16);
   toHexDigit (c / 16 mod 16); toHexDigit (c mod 16)]%N.

Definition isHighSurrogate (c : N) : bool := ((55296 <=? c) && (c <=? 56319))%N.
Definition isLowSurrogate (c : N) : bool := ((56320 <=? c) && (c <=? 57343))%N.

(** The inside of [QuoteJSONString]. *)
Fixpoint quoteJSONBody (s : jsstring) : jsstring :=
  match s with
  | [] => []
  | c :: r =>
      if (c =? 8)%N then [BACKSLASH; 98%N] ++ quoteJSONBody r
      else if (c =? 9)%N then [BACKSLASH; 116%N] ++ quoteJSONBody r
      else if (c =? 10)%N then [BACKSLASH; 110%N] ++ quoteJSONBody r
      else if (c =? 12)%N then [BACKSLASH; 102%N] ++ quoteJSONBody r
      else if (c =? 13)%N then [BACKSLASH; 114%N] ++ quoteJSONBody r
      else if (c =? DQUOTE)%N then [BACKSLASH; DQUOTE] ++ quoteJSONBody r
      else if (c =? BACKSLASH)%N then [BACKSLASH; BACKSLASH] ++ quoteJSONBody r
      else if (c <? 32)%N then unicodeEscape c ++ quoteJSONBody r
      else if isHighSurrogate c then
        match r with
        | d :: r' =>
            if isLowSurrogate d then c :: d :: quoteJSONBody r'
            else unicodeEscape c ++ quoteJSONBody r
        | [] => unicodeEscape c
        end
      else if isLowSurrogate c then unicodeEscape c ++ quoteJSONBody r
      else c :: quoteJSONBody r
  end.

Definition quoteJSONString (s : jsstring) : jsstring :=
  [DQUOTE] ++ quoteJSONBody s ++ [DQUOTE].

Fixpoint join (sep : jsstring) (l : list jsstring) : jsstring :=
  match l with
  | [] => []
  | [x] => x
  | x :: r => x ++ sep ++ join sep r
  end.

Definition isFiniteNumber (x : spec_float) : bool :=
  match x with S754_zero _ | S754_finite _ _ _ => true | _ => false end.

(** An array index, as a property key: the canonical decimal form of an
    integer below [2^32 - 1]. Such keys come first, in ascending order, in
    the property order of an object. *)
Definition arrayIndexOf (k : jsstring) : option N :=
  match k with
  | [] => None
  | c :: r =>
      if forallb isDigit k && (negb (c =? 48)%N || match r with [] => true | _ => false end)
      then
        let n := fold_left (fun acc d => (acc * 10 + (d - 48))%N) k 0%N in
        if (n <? 4294967295)%N then Some n else None
      else None
  end.

Fixpoint insertIndexKey (n : N) (kv : jsstring * JSVal) (l : list (jsstring * JSVal))
  : list (jsstring * JSVal) :=
  match l with
  | [] => [kv]
  | (k', v') :: r =>
      match arrayIndexOf k' with
      | Some n' => if (n <? n')%N then kv :: l else (k', v') :: insertIndexKey n kv r
      | None => kv :: l
      end
  end.

Fixpoint replaceField (k : jsstring) (v : JSVal) (l : list (jsstring * JSVal))
  : option (list (jsstring * JSVal)) :=
  match l with
  | [] => None
  | (k', v') :: r =>
      if jseqb k' k then Some ((k', v) :: r)
      else option_map (cons (k', v')) (replaceField k v r)
  end.

(** [CreateDataProperty(obj, k, v)] on the property list. *)
Definition defineField (l : list (jsstring * JSVal)) (k : jsstring) (v : JSVal)
  : list (jsstring * JSVal) :=
  match replaceField k v l with
  | Some l' => l'
  | None =>
      match arrayIndexOf k with
      | Some n => insertIndexKey n (k, v) l
      | None => l ++ [(k, v)]
      end
  end.

Fixpoint getField (l : list (jsstring * JSVal)) (k : jsstring) : JSVal :=
  match l with
  | [] => VUndefined
  | (k', v) :: r => if jseqb k' k then v else getField r k
  end.

(** *** JSON.parse *)

Definition isJSONSpace (c : N) : bool :=
  ((c =? 9) || (c =? 10) || (c =? 13) || (c =? 32))%N.

Fixpoint skipJSONSpace (s : jsstring) : jsstring :=
  match s with
  | c :: r => if isJSONSpace c then skipJSONSpace r else s
  | [] => []
  end.

Definition hexValue (c : N) : option N :=
  if isDigit c then Some (c - 48)%N
  else if ((97 <=? c) && (c <=? 102))%N then Some (c - 87)%N
  else if ((65 <=? c) && (c <=? 70))%N then Some (c - 55)%N
  else None.

(** The characters of a JSON string after its opening quote. *)
Fixpoint parseJSONChars (s : jsstring) : option (jsstring * jsstring) :=
  match s with
  | [] => None
  | c :: r =>
      if (c =? DQUOTE)%N then Some ([], r)
      else if (c <? 32)%N then None
      else if (c =? BACKSLASH)%N then
        match r with
        | e :: r1 =>
            let simple (u : N) :=
              option_map (fun p => (u :: fst p, snd p)) (parseJSONChars r1) in
            if (e =? DQUOTE)%N then simple DQUOTE
            else if (e =? BACKSLASH)%N then simple BACKSLASH
            else if (e =? 47)%N then simple 47%N
            else if (e =? 98)%N then simple 8%N
            else if (e =? 102)%N then simple 12%N
            else if (e =? 110)%N then simple 10%N
            else if (e =? 114)%N then simple 13%N
            else if (e =? 116)%N then simple 9%N
            else if (e =? 117)%N then
              match r1 with
              | h1 :: h2 :: h3 :: h4 :: r2 =>
                  match hexValue h1, hexValue h2, hexValue h3, hexValue h4 with
                  | Some a, Some b, Some c', Some d =>
                      option_map
                        (fun p => ((a * 4096 + b * 256 + c' * 16 + d)%N :: fst p, snd p))
                        (parseJSONChars r2)
                  | _, _, _, _ => None
                  end
              | _ => None
              end
            else None
        | [] => None
        end
      else option_map (fun p => (c :: fst p, snd p)) (parseJSONChars r)
  end.

Fixpoint takeDigits (s : jsstring) : jsstring * jsstring :=
  match s with
  | c :: r => if isDigit c then let '(d, t) := takeDigits r in (c :: d, t) else ([], s)
  | [] => ([], [])
  end.

Definition digitsValue (d : jsstring) : Z :=
  fold_left (fun acc c => (acc * 10 + Z.of_N (c - 48))%Z) d 0%Z.

(** A JSON number: [-? int frac? exp?]. *)
Definition parseJSONNumber (s : jsstring) : option (JSVal * jsstring) :=
  let '(neg, s1) :=
    match s with c :: r => if (c =? 45)%N then (true, r) else (false, s) | [] => (false, s) end in
  let '(int, s2) :=
    match s1 with
    | c :: r => if (c =? 48)%N then ([c], r) else takeDigits s1
    | [] => ([], s1)
    end in
  match int with
  | [] => None
  | _ =>
      let frac :=
        match s2 with
        | c :: r =>
            if (c =? 46)%N then
              let '(d, t) := takeDigits r in
              match d with [] => None | _ => Some (d, t) end
            else Some ([], s2)
        | [] => Some ([], s2)
        end in
      match frac with
      | None => None
      | Some (fr, s3) =>
          let expo :=
            match s3 with
            | c :: r =>
                if ((c =? 101) || (c =? 69))%N then
                  let '(eneg, r1) :=
                    match r with
                    | g :: r' =>
                        if (g =? 45)%N then (true, r')
                        else if (g =? 43)%N then (false, r') else (false, r)
                    | [] => (false, r)
                    end in
                  let '(d, t) := takeDigits r1 in
                  match d with
                  | [] => None
                  | _ => Some ((if eneg then - digitsValue d else digitsValue d)%Z, t)
                  end
                else Some (0%Z, s3)
            | [] => Some (0%Z, s3)
            end in
          match expo with
          | None => None
          | Some (ex, s4) =>
              Some (VNum (numberOfDecimal neg (digitsValue (int ++ fr))
                            (ex - Z.of_nat (length fr))), s4)
          end
      end
  end.

Fixpoint parseJSONValue (fuel : nat) (s : jsstring) {struct fuel}
  : option (JSVal * jsstring) :=
  match fuel with
  | O => None
  | S fuel' =>
      match skipJSONSpace s with
      | [] => None
      | c :: r =>
          if (c =? 123)%N then
            match skipJSONSpace r with
            | d :: r' =>
                if (d =? 125)%N then Some (VObj [], r')
                else parseJSONMembers fuel' (d :: r') []
            | [] => None
            end
          else if (c =? LBRACKET)%N then
            match skipJSONSpace r with
            | d :: r' =>
                if (d =? RBRACKET)%N then Some (VArr [], r')
                else parseJSONElements fuel' (d :: r') []
            | [] => None
            end
          else if (c =? DQUOTE)%N then
            option_map (fun p => (VStr (fst p), snd p)) (parseJSONChars r)
          else if startsWith (c :: r) (js "true") then Some (VBool true, skipn 4 (c :: r))
          else if startsWith (c :: r) (js "false") then Some (VBool false, skipn 5 (c :: r))
          else if startsWith (c :: r) (js "null") then Some (VNull, skipn 4 (c :: r))
          else parseJSONNumber (c :: r)
      end
  end
with parseJSONMembers (fuel : nat) (s : jsstring) (acc : list (jsstring * JSVal))
       {struct fuel} : option (JSVal * jsstring) :=
  match fuel with
  | O => None
  | S fuel' =>
      match skipJSONSpace s with
      | c :: r =>
          if (c =? DQUOTE)%N then
            match parseJSONChars r with
            | Some (k, r1) =>
                match skipJSONSpace r1 with
                | d :: r2 =>
                    if (d =? 58)%N then
                      match parseJSONValue fuel' r2 with
                      | Some (v, r3) =>
                          let acc' := defineField acc k v in
                          match skipJSONSpace r3 with
                          | e :: r4 =>
                              if (e =? 44)%N then parseJSONMembers fuel' r4 acc'
                              else if (e =? 125)%N then Some (VObj acc', r4)
                              else None
                          | [] => None
                          end
                      | None => None
                      end
                    else None
                | [] => None
                end
            | None => None
            end
          else None
      | [] => None
      end
  end
with parseJSONElements (fuel : nat) (s : jsstring) (acc : list JSVal)
       {struct fuel} : option (JSVal * jsstring) :=
  match fuel with
  | O => None
  | S fuel' =>
      match parseJSONValue fuel' s with
      | Some (v, r) =>
          match skipJSONSpace r with
          | e :: r1 =>
              if (e =? 44)%N then parseJSONElements fuel' r1 (acc ++ [v])
              else if (e =? RBRACKET)%N then Some (VArr (acc ++ [v]), r1)
              else None
          | [] => None
          end
      | None => None
      end
  end.

(** [JSON.parse(text)]: the value, or [None] when it throws a SyntaxError.
    Every step of the parser that spends fuel is followed by one that reads
    a code unit, so twice the length of the text is enough. *)
Definition JSON_parse (text : jsstring) : option JSVal :=
  match parseJSONValue (2 * length text + 2) text with
  | Some (v, rest) =>
      match skipJSONSpace rest with [] => Some v | _ => None end
  | None => None
  end.


(** ** Numbers *)

Definition isNegZero (x : spec_float) : bool :=
  match x with S754_zero true => true | _ => false end.
Definition isPosZero (x : spec_float) : bool :=
  match x with S754_zero false => true | _ => false end.

(** [Math.min(x, y)] and [Math.max(x, y)]: NaN if either is NaN, and [-0]
    below [+0]. *)
Definition Math_min (x y : spec_float) : spec_float :=
  match SFcompare x y with
  | None => S754_nan
  | Some Lt => x
  | Some Gt => y
  | Some Eq => if isNegZero x then x else y
  end.

Definition Math_max (x y : spec_float) : spec_float :=
  match SFcompare x y with
  | None => S754_nan
  | Some Lt => y
  | Some Gt => x
  | Some Eq => if isPosZero x then x else y
  end.

(** [Math.floor(x)] *)
Definition Math_floor (x : spec_float) : spec_float :=
  match x with
  | S754_finite s m e =>
      if (0 <=? e)%Z then x
      else binary_normalize prec emax (Z.div (cond_Zopp s (Zpos m)) (Z.pow 2 (- e))) 0 s
  | _ => x
  end.

Definition add := SFadd prec emax.
Definition sub := SFsub prec emax.
Definition mul := SFmul prec emax.
Definition div := SFdiv prec emax.

(** The integer part of a number, for the numbers that are counts of rows. *)
Definition integerOf (x : spec_float) : Z :=
  match x with
  | S754_finite s m e =>
      cond_Zopp s (if (0 <=? e)%Z then Zpos m * Z.pow 2 e else Z.div (Zpos m) (Z.pow 2 (- e)))%Z
  | _ => 0%Z
  end.

(** ** Exceptions *)

(** The places where the language itself raises a TypeError in this code.
    The text of such an error is the engine's. *)
Inductive TypeErrorSite : Type :=
| ReadOfNullish        (* a property read on [undefined] or [null] *)
| NotAFunction         (* a call of something that is not a function *)
| BigIntInJSON.        (* JSON.stringify of a BigInt *)

(** What a [throw] carries, as far as the code looks at it: the value of
    [error.message], if it has one. *)
Inductive Exn : Type :=
| TypeError (site : TypeErrorSite)
| Failure (message : option jsstring).

Inductive res (A : Type) : Type :=
| Val (a : A)
| Thrown (e : Exn).
Arguments Val {A} a.
Arguments Thrown {A} e.

(** ** The data of the agent ([types.ts]) *)

Record TableSchema : Type := {
  tableName : jsstring;
  originalName : option jsstring;
  columns : list jsstring;
  rowCount : N;
  samples : option (list JSVal)
}.

Record QueryResult : Type := {
  qr_columns : list jsstring;
  qr_data : list JSVal;
  qr_error : option jsstring
}.

Inductive StepType : Type := thought | action | observation | final.
Inductive StepStatus : Type := streaming | complete | error.

Inductive StepResult : Type :=
| ResultSchema (schema : list TableSchema)
| ResultQuery (r : QueryResult).

Record AgentStep : Type := {
  step_id : jsstring;
  step_type : StepType;
  step_content : jsstring;
  step_status : option StepStatus;
  step_toolName : option jsstring;
  step_result : option StepResult
}.

Record AppSettings : Type := {
  apiKey : jsstring;
  baseUrl : jsstring;
  model : jsstring
}.

(** A tool call as assembled from the stream or synthesized by the rescue. *)
Record ToolCall : Type := {
  tc_id : option jsstring;
  tc_name : jsstring;
  tc_arguments : jsstring
}.

(** The conversation sent to the model. An array of tool calls may have
    holes, when the stream names an index and skips a lower one. *)
Inductive Message : Type :=
| SystemMessage (content : jsstring)
| UserMessage (content : jsstring)
| AssistantToolCalls (tool_calls : list (option ToolCall))
| AssistantMessage (content : jsstring)
| ToolMessage (tool_call_id : option jsstring) (name : jsstring) (content : jsstring).

(** One fragment of a tool call in a streamed delta. *)
Record ToolCallDelta : Type := {
  d_index : nat;
  d_id : option jsstring;
  d_name : option jsstring;
  d_arguments : option jsstring
}.

Record Delta : Type := {
  delta_content : option jsstring;
  delta_tool_calls : option (list ToolCallDelta)
}.

(** A streamed completion: the deltas that arrive, and the error that ends
    the stream if it does not end normally (a request that fails at once
    delivers no delta). *)
Record StreamOutcome : Type := {
  deltas : list Delta;
  interrupted : option Exn
}.

(** A completion that is not streamed: the content of its first choice
    ([None] for [null]), or the error thrown by the request or by reading
    the response. *)
Inductive CompletionOutcome : Type :=
| Completed (content : option jsstring)
| Refused (e : Exn).

Inductive AlasqlOutcome : Type :=
| Returned (v : JSVal)
| Raised (message : option jsstring).

(** ** The world the agent runs in *)

(** The collaborators of the orchestrator. The model and the clock answer
    by the number of the call, so any sequence of answers is a world. *)
Class World : Type := {
  (** [Number.prototype.toString] *)
  Number_toString : spec_float -> jsstring;
  (** the message of a TypeError raised by the engine *)
  typeErrorMessage : TypeErrorSite -> jsstring;
  (** the in-memory database and [alasql(sql)] *)
  DB : Type;
  alasql : JSVal -> DB -> AlasqlOutcome * DB;
  (** [openai.chat.completions.create] with [stream: true] *)
  chatStream : nat -> list Message -> StreamOutcome;
  (** [openai.chat.completions.create] without streaming *)
  chatCompletion : nat -> jsstring -> CompletionOutcome;
  (** [Date.now()] *)
  Date_now : nat -> N;
  (** the system prompt of lines 322-391, a fixed text ending with the
      current date *)
  systemPrompt : jsstring
}.

Definition messageOf {W : World} (e : Exn) : option jsstring :=
  match e with
  | TypeError site => Some (typeErrorMessage site)
  | Failure m => m
  end.

(** ** Conversions and property reads *)

Definition truthy (v : JSVal) : bool :=
  match v with
  | VUndefined | VNull => false
  | VBool b => b
  | VNum (S754_zero _) | VNum S754_nan => false
  | VNum _ => true
  | VBigInt z => negb (z =? 0)%Z
  | VStr s => truthyStr s
  | VArr _ | VObj _ => true
  end.

Definition decimalZ (z : Z) : jsstring :=
  match z with
  | Zneg p => 45%N :: decimal (Npos p)
  | _ => decimal (Z.to_N z)
  end.

(** [String(v)], as a template literal applies it. *)
Fixpoint toStringJS {W : World} (v : JSVal) : jsstring :=
  match v with
  | VUndefined => js "undefined"
  | VNull => js "null"
  | VBool true => js "true"
  | VBool false => js "false"
  | VNum x => Number_toString x
  | VBigInt z => decimalZ z
  | VStr s => s
  | VArr items =>
      join (js ",")
        (map (fun x => match x with
                       | VUndefined | VNull => []
                       | _ => toStringJS x
                       end) items)
  | VObj _ => js "[object Object]"
  end.

(** [JSON.stringify(v)]: [Val None] is [undefined]. *)
Fixpoint JSON_stringify {W : World} (v : JSVal) : res (option jsstring) :=
  match v with
  | VUndefined => Val None
  | VNull => Val (Some (js "null"))
  | VBool true => Val (Some (js "true"))
  | VBool false => Val (Some (js "false"))
  | VNum x => Val (Some (if isFiniteNumber x then Number_toString x else js "null"))
  | VBigInt _ => Thrown (TypeError BigIntInJSON)
  | VStr s => Val (Some (quoteJSONString s))
  | VArr items =>
      let fix elements (l : list JSVal) : res (list jsstring) :=
        match l with
        | [] => Val []
        | x :: r =>
            match JSON_stringify x with
            | Thrown e => Thrown e
            | Val t =>
                match elements r with
                | Thrown e => Thrown e
                | Val ts => Val (match t with Some u => u | None => js "null" end :: ts)
                end
            end
        end in
      match elements items with
      | Thrown e => Thrown e
      | Val ts => Val (Some (js "[" ++ join (js ",") ts ++ js "]"))
      end
  | VObj fields =>
      let fix members (l : list (jsstring * JSVal)) : res (list jsstring) :=
        match l with
        | [] => Val []
        | (k, x) :: r =>
            match JSON_stringify x with
            | Thrown e => Thrown e
            | Val t =>
                match members r with
                | Thrown e => Thrown e
                | Val ts =>
                    Val (match t with
                         | Some u => (quoteJSONString k ++ js ":" ++ u) :: ts
                         | None => ts
                         end)
                end
            end
        end in
      match members fields with
      | Thrown e => Thrown e
      | Val ts => Val (Some (js "{" ++ join (js ",") ts ++ js "}"))
      end
  end.

Definition indexedFields (items : list JSVal) : list (jsstring * JSVal) :=
  combine (map (fun i => decimal (N.of_nat i)) (seq 0 (length items))) items.

(** The own enumerable properties [Object.keys] and [for...in] see. *)
Definition ownFields (v : JSVal) : list (jsstring * JSVal) :=
  match v with
  | VObj fields => fields
  | VArr items => indexedFields items
  | VStr s => indexedFields (map (fun c => VStr [c]) s)
  | _ => []
  end.

Definition Object_keys (v : JSVal) : list jsstring := map fst (ownFields v).

(** [v[k]]: own properties and [length]; a name found only on a prototype
    reads as [undefined] here. *)
Definition getProp (v : JSVal) (k : jsstring) : res JSVal :=
  match v with
  | VUndefined | VNull => Thrown (TypeError ReadOfNullish)
  | VArr items =>
      if jseqb k (js "length") then Val (VNum (numberOfZ (Z.of_nat (length items))))
      else Val (getField (ownFields v) k)
  | VStr s =>
      if jseqb k (js "length") then Val (VNum (numberOfZ (Z.of_nat (length s))))
      else Val (getField (ownFields v) k)
  | _ => Val (getField (ownFields v) k)
  end.

Definition isObjectType (v : JSVal) : bool :=
  match v with VNull | VArr _ | VObj _ => true | _ => false end.

(** ** The query engine's wrapper ([executeSql], dataService.ts 112-160) *)

Definition NO_RESULT_ERROR : jsstring :=
  js "SQL query returned no result (undefined). The table might not exist or the query format is invalid.".

(** [error.message || "Unknown SQL Error"] *)
Definition errorText (m : option jsstring) : jsstring :=
  match m with
  | Some t => if truthyStr t then t else js "Unknown SQL Error"
  | None => js "Unknown SQL Error"
  end.

(** [columns.forEach(col => newRow[col] = row[col])] *)
Fixpoint cleanRow (columns : list jsstring) (row : JSVal)
    (newRow : list (jsstring * JSVal)) : res JSVal :=
  match columns with
  | [] => Val (VObj newRow)
  | col :: rest =>
      match getProp row col with
      | Thrown e => Thrown e
      | Val v => cleanRow rest row (defineField newRow col v)
      end
  end.

Fixpoint cleanRows (columns : list jsstring) (rows : list JSVal) : res (list JSVal) :=
  match rows with
  | [] => Val []
  | row :: rest =>
      match cleanRow columns row [] with
      | Thrown e => Thrown e
      | Val r =>
          match cleanRows columns rest with
          | Thrown e => Thrown e
          | Val rs => Val (r :: rs)
          end
      end
  end.

Definition executeSql {W : World} (sql : JSVal) (db : DB) : QueryResult * DB :=
  let '(out, db') := alasql sql db in
  let failed (m : option jsstring) :=
    {| qr_columns := []; qr_data := []; qr_error := Some (errorText m) |} in
  (match out with
   | Raised m => failed m
   | Returned result =>
       match result with
       | VUndefined | VNull =>
           {| qr_columns := []; qr_data := []; qr_error := Some NO_RESULT_ERROR |}
       | VArr [] => {| qr_columns := []; qr_data := []; qr_error := None |}
       | VArr (first :: others) =>
           match first with
           | VArr _ | VObj _ =>
               let rawCols := Object_keys first in
               let columns :=
                 filter (fun k => negb (jseqb k (js "undefined")) && negb (jseqb k [])
                                  && negb (startsWith k (js "_"))) rawCols in
               match cleanRows columns (first :: others) with
               | Val cleanData =>
                   {| qr_columns := columns; qr_data := cleanData; qr_error := None |}
               | Thrown e => failed (messageOf e)
               end
           | _ =>
               {| qr_columns := [js "Value"];
                  qr_data := map (fun v => VObj [(js "Value", v)]) (first :: others);
                  qr_error := None |}
           end
       | _ =>
           let keys :=
             match result with
             | VObj _ => filter (fun k => negb (startsWith k (js "_"))) (Object_keys result)
             | _ => []
             end in
           match keys with
           | _ :: _ => {| qr_columns := keys; qr_data := [result]; qr_error := None |}
           | [] =>
               {| qr_columns := [js "Result"];
                  qr_data := [VObj [(js "Result", result)]];
                  qr_error := None |}
           end
       end
   end, db').

(** ** The adaptive batch sizer ([calculateAdaptiveBatchSize], 131-200) *)

Definition num (z : Z) : spec_float := numberOfZ z.

Record Tally : Type := {
  totalFields : spec_float;
  totalRowChars : spec_float;
  totalCells : spec_float;
  textCells : spec_float;
  longTextCells : spec_float
}.

Definition emptyTally : Tally :=
  {| totalFields := num 0; totalRowChars := num 0; totalCells := num 0;
     textCells := num 0; longTextCells := num 0 |}.

(** The body of [for (const key of keys)] (lines 158-166). *)
Definition tallyCell (t : Tally) (value : JSVal) : Tally :=
  match value with
  | VNull | VUndefined => t
  | VStr s =>
      {| totalFields := totalFields t; totalRowChars := totalRowChars t;
         totalCells := add (totalCells t) (num 1);
         textCells := add (textCells t) (num 1);
         longTextCells :=
           if (256 <=? length s) then add (longTextCells t) (num 1)
           else longTextCells t |}
  | _ =>
      {| totalFields := totalFields t; totalRowChars := totalRowChars t;
         totalCells := add (totalCells t) (num 1);
         textCells := textCells t; longTextCells := longTextCells t |}
  end.

(** The text whose length is counted for a row (lines 149-154). *)
Definition rowText {W : World} (row : JSVal) : jsstring :=
  match JSON_stringify row with
  | Val (Some t) => t
  | Val None => []
  | Thrown _ =>
      join (js " ")
        (map (fun kv => match snd kv with
                        | VUndefined | VNull => []
                        | v => toStringJS v
                        end) (ownFields row))
  end.

(** The body of the sampling loop (lines 142-167). *)
Definition tallyRow {W : World} (t : Tally) (row : JSVal) : Tally :=
  if negb (truthy row) || negb (isObjectType row) then t
  else
    let fields := ownFields row in
    let t1 :=
      {| totalFields := add (totalFields t) (num (Z.of_nat (length fields)));
         totalRowChars := add (totalRowChars t) (num (Z.of_nat (length (rowText row))));
         totalCells := totalCells t; textCells := textCells t;
         longTextCells := longTextCells t |} in
    fold_left tallyCell (map snd fields) t1.

(** [for (let i = 0; i < sampleCount; i++)] over [data[i]]. *)
Fixpoint sampleLoop {W : World} (data : list JSVal) (i : nat) (count : nat) (t : Tally)
  : Tally :=
  match count with
  | O => t
  | S count' => sampleLoop data (S i) count' (tallyRow t (nth i data VUndefined))
  end.

Definition F_NORM : spec_float := num 40.
Definition L_NORM : spec_float := num 4000.
Definition ALPHA : spec_float := numberOfDecimal false 5 (-1).
Definition BETA : spec_float := numberOfDecimal false 5 (-1).
Definition W_F : spec_float := numberOfDecimal false 4 (-1).
Definition W_L : spec_float := numberOfDecimal false 3 (-1).
Definition W_T : spec_float := numberOfDecimal false 3 (-1).
Definition B_MIN : spec_float := num 5.
Definition B_MAX : spec_float := num 100.

(** Lines 179-199: from the four metrics to the batch size. *)
Definition complexity (avgFields avgRowLen R_text R_long : spec_float) : spec_float :=
  let Cf := Math_min (div avgFields F_NORM) (num 1) in
  let Cl := Math_min (div avgRowLen L_NORM) (num 1) in
  let Ct := add (mul ALPHA R_text) (mul BETA R_long) in
  Math_min (Math_max (add (add (mul W_F Cf) (mul W_L Cl)) (mul W_T Ct)) (num 0)) (num 1).

Definition batchSizeOf (avgFields avgRowLen R_text R_long : spec_float) : spec_float :=
  let C := complexity avgFields avgRowLen R_text R_long in
  let B := sub B_MAX (mul (sub B_MAX B_MIN) C) in
  let batchSize := Math_floor B in
  Math_max B_MIN (Math_min batchSize B_MAX).

(** [a > b] on numbers. *)
Definition gt (a b : spec_float) : bool := SFltb b a.

Definition calculateAdaptiveBatchSize {W : World} (data : list JSVal) : spec_float :=
  match data with
  | [] => num 10
  | _ =>
      let sampleCount := Nat.min (length data) 20 in
      let t := sampleLoop data 0 sampleCount emptyTally in
      if Nat.eqb sampleCount 0 then num 10
      else
        let avgFields := div (totalFields t) (num (Z.of_nat sampleCount)) in
        let avgRowLen := div (totalRowChars t) (num (Z.of_nat sampleCount)) in
        let R_text :=
          if gt (totalCells t) (num 0) then div (textCells t) (totalCells t) else num 0 in
        let R_long :=
          if gt (totalCells t) (num 0) then div (longTextCells t) (totalCells t) else num 0 in
        batchSizeOf avgFields avgRowLen R_text R_long
  end.

(** ** The compression accumulator ([smartCompressData], 205-296) *)

(** [accumulatedResult || "(...)"] in the prompt. *)
Definition previousContext (accumulatedResult : jsstring) : jsstring :=
  if truthyStr accumulatedResult then accumulatedResult
  else js "(暂无，这是第一批数据)".

(** The prompt of one round (lines 237-274). *)
Definition compressionPrompt (question sql accumulatedResult batchJson : jsstring)
  : jsstring :=
  js "
你是一个智能数据分析师与数据压缩引擎。
你的任务是处理分批到达的数据库查询结果，根据用户问题，**提取核心数据**并**计算业务洞察**。

**任务上下文**:
- 用户问题: "
  ++ [DQUOTE]
  ++ question
  ++ [DQUOTE]
  ++ js "
- 当前执行SQL: "
  ++ [DQUOTE]
  ++ sql
  ++ [DQUOTE]
  ++ js "
- 之前的累积结果 (Previous Context):
"
  ++ [DQUOTE]
  ++ [DQUOTE]
  ++ [DQUOTE]
  ++ js "
"
  ++ previousContext accumulatedResult
  ++ js "
"
  ++ [DQUOTE]
  ++ [DQUOTE]
  ++ [DQUOTE]
  ++ js "

**当前新数据批次 (New Data Batch)**:
"
  ++ [DQUOTE]
  ++ [DQUOTE]
  ++ [DQUOTE]
  ++ js "
"
  ++ batchJson
  ++ js "
"
  ++ [DQUOTE]
  ++ [DQUOTE]
  ++ [DQUOTE]
  ++ js "

**处理指令 (Instructions)**:
请根据用户问题判断执行模式，并输出更新后的**完整累积结果**：

模式 A: **提取与明细 (Detail Extraction)** 
- 场景：用户查询列表、记录详情或寻找特定行。
- 行动：从新批次中提取关键字段 (格式: "
  ++ [DQUOTE]
  ++ js "字段:值"
  ++ [DQUOTE]
  ++ js ")，追加到结果中。
- 要求：保留回答问题所需的全部上下文，对长文本进行摘要。

模式 B: **计算与洞察 (Calculation & Insight)**
- 场景：用户查询统计数据（总和、平均、趋势、极值）。
- 行动：
  1. **聚合更新**: 利用新数据更新统计值 (如: 累加 Sum, 更新 Max/Min)。
  2. **洞察发现**: 关注数据中的异常值、显著趋势或分布特征。
- 示例：若之前 Sum=100，新批次 Sum=50，输出 Sum=150。同时标记 "
  ++ [DQUOTE]
  ++ js "发现单笔最大金额为 X"
  ++ [DQUOTE]
  ++ js "。

**输出要求**:
1. 请直接输出更新后的**最终纯文本**。
2. 必须使用清晰的格式（推荐 "
  ++ [DQUOTE]
  ++ js "字段名：值"
  ++ [DQUOTE]
  ++ js "）。
3. 必须包含数据背后的业务含义（如：不仅仅列出数字，还要通过上下文保留数据的定性描述）。
4. 请仅输出文本内容（Plain Text）。
".

(** ** The manual tool-call rescue ([detectManualToolCall], 40-70) *)

Definition anyChar (c : N) : bool := true.
Definition isQuote (c : N) : bool := ((c =? DQUOTE) || (c =? SQUOTE))%N.

(** [new RegExp('run_sql\\s*\\(\\s*["\'](.+?)["\']\\s*\\)', 's')] *)
Definition sqlCallQuoted : regex :=
  Seq (Lit (js "run_sql"))
    (Seq (Star true (Class isWhiteSpace))
       (Seq (Chr 40%N)
          (Seq (Star true (Class isWhiteSpace))
             (Seq (Class isQuote)
                (Seq (Group 1 (Plus false (Class anyChar)))
                   (Seq (Class isQuote)
                      (Seq (Star true (Class isWhiteSpace)) (Chr 41%N)))))))).

(** [new RegExp("run_sql\\s*\\(\\s*`(.+?)`\\s*\\)", "s")] *)
Definition sqlCallBacktick : regex :=
  Seq (Lit (js "run_sql"))
    (Seq (Star true (Class isWhiteSpace))
       (Seq (Chr 40%N)
          (Seq (Star true (Class isWhiteSpace))
             (Seq (Chr BACKTICK)
                (Seq (Group 1 (Plus false (Class anyChar)))
                   (Seq (Chr BACKTICK)
                      (Seq (Star true (Class isWhiteSpace)) (Chr 41%N)))))))).

(** [JSON.stringify({ query: s })] *)
Definition stringifyQuery (s : jsstring) : jsstring :=
  js "{" ++ quoteJSONString (js "query") ++ js ":" ++ quoteJSONString s ++ js "}".

(** [s.toLowerCase().includes("call")]. Only the letters of [CALL] lower to
    the letters of [call], one code unit each, so the test reads [s] itself
    without regard to ASCII case. *)
Definition includesCallIgnoringCase (s : jsstring) : bool :=
  includes (map lowerAscii s) (js "call").

(** [now] is the value of [Date.now()] when the call is built. *)
Definition detectManualToolCall (now : N) (content : jsstring) : option ToolCall :=
  let sqlMatchDouble := exec sqlCallQuoted content in
  let sqlMatchBacktick := exec sqlCallBacktick content in
  let sqlMatch :=
    match sqlMatchDouble with Some m => Some m | None => sqlMatchBacktick end in
  match sqlMatch with
  | Some m =>
      Some {| tc_id := Some (js "manual-sql-" ++ decimal now);
              tc_name := js "run_sql";
              tc_arguments := stringifyQuery (cap m 1) |}
  | None =>
      if includes content (js "get_database_schema")
         && (includes content (js "()") || includesCallIgnoringCase content)
      then Some {| tc_id := Some (js "manual-schema-" ++ decimal now);
                   tc_name := js "get_database_schema";
                   tc_arguments := js "{}" |}
      else None
  end.

(** ** Texts of the tool dispatcher *)

Definition INVALID_JSON_ARGUMENTS : jsstring :=
  js "Error: Invalid JSON arguments provided for tool call.".
Definition DATABASE_EMPTY : jsstring := js "数据库为空。请提示用户先上传 Excel 文件。".
Definition SQL_ERROR_PREFIX : jsstring := js "SQL 执行错误: ".
Definition UNKNOWN_TOOL : jsstring := js "错误: 未知工具调用".
Definition EMPTY_RESULT : jsstring :=
  js "查询结果: [] (0 行)。
⚠️ **结果为空！**
1. 请检查你的 WHERE 条件是否太严格。尝试把 AND 换成 OR。
2. 请确认你使用了 LIKE '%...%' 而不是 =。
3. 请尝试执行局部验证查询 (Partial Verification) 来检查数据是否存在。".
Definition COMPRESSED_PREFIX : jsstring := js "查询结果 (已分析与压缩):" ++ [LF].
Definition RAW_PREFIX : jsstring := js "查询结果 (压缩失败，展示前50行):" ++ [LF].

(** One line of the schema listing (lines 514-517). *)
Definition schemaLine (t : TableSchema) : jsstring :=
  let sourceInfo :=
    match originalName t with
    | Some n => if truthyStr n then js "(Source_File: " ++ n ++ js ")" else []
    | None => []
    end in
  js "[Table_SQL_ID: " ++ tableName t ++ js " " ++ sourceInfo ++ js ", Rows: "
    ++ decimal (rowCount t) ++ js "] Columns: " ++ join (js ", ") (columns t).

(** ** The agent's state and effects *)

(** What [runAgent] owns or reaches while it runs: the step log, the
    conversation, the database behind [executeSql], how often the clock and
    the model were asked, and what was reported through the two callbacks
    (latest first). A snapshot passed to [onStepUpdate] is recorded as it is
    at the call. *)
Record AgentState {W : World} : Type := {
  steps : list AgentStep;
  messages : list Message;
  database : DB;
  clock : nat;
  requests : nat;
  stepUpdates : list (list AgentStep);
  finalAnswers : list jsstring
}.

(** A computation that reads and writes the state and may throw; what it
    wrote before throwing stays written. *)
Definition M {W : World} (A : Type) : Type := AgentState -> res A * AgentState.

Definition ret {W : World} {A : Type} (a : A) : M A := fun st => (Val a, st).

Definition bind {W : World} {A B : Type} (c : M A) (k : A -> M B) : M B :=
  fun st =>
    match c st with
    | (Val a, st1) => k a st1
    | (Thrown e, st1) => (Thrown e, st1)
    end.

Definition throw {W : World} {A : Type} (e : Exn) : M A := fun st => (Thrown e, st).

(** [try { c } catch (e) { h e }] *)
Definition tryCatch {W : World} {A : Type} (c : M A) (h : Exn -> M A) : M A :=
  fun st =>
    match c st with
    | (Val a, st1) => (Val a, st1)
    | (Thrown e, st1) => h e st1
    end.

Definition lift {W : World} {A : Type} (r : res A) : M A :=
  match r with Val a => ret a | Thrown e => throw e end.

Declare Scope agent_scope.
Delimit Scope agent_scope with agent.
Notation "x <- c1 ;; c2" := (bind c1 (fun x => c2))
  (at level 61, c1 at next level, right associativity) : agent_scope.
Notation "c1 ;; c2" := (bind c1 (fun _ => c2))
  (at level 61, right associativity) : agent_scope.
Local Open Scope agent_scope.

(** The writes to the state. *)
Definition setSteps {W : World} (l : list AgentStep) (st : AgentState) : AgentState :=
  {| steps := l; messages := messages st; database := database st; clock := clock st;
     requests := requests st; stepUpdates := stepUpdates st;
     finalAnswers := finalAnswers st |}.

Definition setDatabase {W : World} (db : DB) (st : AgentState) : AgentState :=
  {| steps := steps st; messages := messages st; database := db; clock := clock st;
     requests := requests st; stepUpdates := stepUpdates st;
     finalAnswers := finalAnswers st |}.

Definition ticked {W : World} (st : AgentState) : AgentState :=
  {| steps := steps st; messages := messages st; database := database st;
     clock := S (clock st); requests := requests st;
     stepUpdates := stepUpdates st; finalAnswers := finalAnswers st |}.

Definition requested {W : World} (st : AgentState) : AgentState :=
  {| steps := steps st; messages := messages st; database := database st;
     clock := clock st; requests := S (requests st);
     stepUpdates := stepUpdates st; finalAnswers := finalAnswers st |}.

Definition reported {W : World} (st : AgentState) : AgentState :=
  {| steps := steps st; messages := messages st; database := database st;
     clock := clock st; requests := requests st;
     stepUpdates := steps st :: stepUpdates st; finalAnswers := finalAnswers st |}.

Definition answered {W : World} (answer : jsstring) (st : AgentState) : AgentState :=
  {| steps := steps st; messages := messages st; database := database st;
     clock := clock st; requests := requests st;
     stepUpdates := stepUpdates st; finalAnswers := answer :: finalAnswers st |}.

Definition told {W : World} (m : Message) (st : AgentState) : AgentState :=
  {| steps := steps st; messages := messages st ++ [m]; database := database st;
     clock := clock st; requests := requests st;
     stepUpdates := stepUpdates st; finalAnswers := finalAnswers st |}.

(** [Date.now()] *)
Definition now {W : World} : M N :=
  fun st => (Val (Date_now (clock st)), ticked st).

(** [onStepUpdate([...steps])] *)
Definition onStepUpdate {W : World} : M unit :=
  fun st => (Val tt, reported st).

(** [onFinalAnswer(answer)] *)
Definition onFinalAnswer {W : World} (answer : jsstring) : M unit :=
  fun st => (Val tt, answered answer st).

(** [messages.push(m)] *)
Definition pushMessage {W : World} (m : Message) : M unit :=
  fun st => (Val tt, told m st).

(** [pushStep] (lines 400-403) *)
Definition pushStep {W : World} (step : AgentStep) : M unit :=
  fun st => (Val tt, reported (setSteps (steps st ++ [step]) st)).

Definition setContent (content : jsstring) (s : AgentStep) : AgentStep :=
  {| step_id := step_id s; step_type := step_type s; step_content := content;
     step_status := step_status s; step_toolName := step_toolName s;
     step_result := step_result s |}.

Definition setStatus (status : StepStatus) (s : AgentStep) : AgentStep :=
  {| step_id := step_id s; step_type := step_type s; step_content := step_content s;
     step_status := Some status; step_toolName := step_toolName s;
     step_result := step_result s |}.

Fixpoint mapLast {A : Type} (f : A -> A) (l : list A) : list A :=
  match l with
  | [] => []
  | [x] => [f x]
  | x :: r => x :: mapLast f r
  end.

(** [updateLastStep] (lines 405-411) *)
Definition updateLastStep {W : World} (content : jsstring) (status : StepStatus) : M unit :=
  fun st =>
    match steps st with
    | [] => (Val tt, st)
    | _ =>
        (Val tt,
         reported
           (setSteps (mapLast (fun s => setStatus status (setContent content s)) (steps st))
              st))
    end.

(** An assignment [steps[steps.length - 1].field = ...]: a TypeError when the
    log is empty. *)
Definition assignLast {W : World} (f : AgentStep -> AgentStep) : M unit :=
  fun st =>
    match steps st with
    | [] => (Thrown (TypeError ReadOfNullish), st)
    | _ => (Val tt, setSteps (mapLast f (steps st)) st)
    end.

(** The streamed request of one turn: its outcome, and one more request
    counted. *)
Definition requestStream {W : World} : M StreamOutcome :=
  fun st => (Val (chatStream (requests st) (messages st)), requested st).

Definition requestCompletion {W : World} (prompt : jsstring) : M CompletionOutcome :=
  fun st => (Val (chatCompletion (requests st) prompt), requested st).

(** [executeSql(sql)] against the database of the state. *)
Definition runSql {W : World} (sql : JSVal) : M QueryResult :=
  fun st =>
    (Val (fst (executeSql sql (database st))),
     setDatabase (snd (executeSql sql (database st))) st).

(** ** The compression accumulator, continued *)

(** [for (i = 0; i < data.length; i += size) batches.push(data.slice(i, i + size))] *)
Fixpoint batchesOf {A : Type} (fuel : nat) (size : nat) (data : list A) : list (list A) :=
  match fuel with
  | O => []
  | S fuel' =>
      match data with
      | [] => []
      | _ => firstn size data :: batchesOf fuel' size (skipn size data)
      end
  end.

Definition progressMessage {W : World} (i total : nat) (BATCH_SIZE : spec_float) : jsstring :=
  js "正在进行智能迭代压缩... (第 " ++ decimal (N.of_nat (i + 1)) ++ js "/"
    ++ decimal (N.of_nat total) ++ js " 轮, 每轮 " ++ Number_toString BATCH_SIZE
    ++ js " 行) " ++ [LF] ++ js "处理模式: 提取/计算并合并...".

(** The fallback marker of a failed round (line 291). *)
Definition rawMarker (i : nat) (batchJson : jsstring) : jsstring :=
  [LF] ++ js "[Batch " ++ decimal (N.of_nat i) ++ js " Raw]: " ++ batchJson.

(** [response.choices[0].message.content?.trim() || ""] *)
Definition newContentOf (content : option jsstring) : jsstring :=
  match content with
  | Some t => trim t
  | None => []
  end.

Definition stringifyText {W : World} (v : JSVal) : M jsstring :=
  t <- lift (JSON_stringify v) ;;
  ret (match t with Some u => u | None => js "undefined" end).

(** One round of the serial loop (lines 228-293): the accumulated text
    after batch [i]. *)
Definition compressBatch {W : World} (question sql : jsstring) (total : nat)
    (BATCH_SIZE : spec_float) (onProgress : jsstring -> M unit)
    (i : nat) (batch : list JSVal) (accumulatedResult : jsstring) : M jsstring :=
  onProgress (progressMessage i total BATCH_SIZE) ;;
  batchJson <- stringifyText (VArr batch) ;;
  let prompt := compressionPrompt question sql accumulatedResult batchJson in
  response <- requestCompletion prompt ;;
  match response with
  | Completed content => ret (newContentOf content)
  | Refused _ => ret (accumulatedResult ++ rawMarker i batchJson)
  end.

Fixpoint compressLoop {W : World} (question sql : jsstring) (total : nat)
    (BATCH_SIZE : spec_float) (onProgress : jsstring -> M unit)
    (i : nat) (batches : list (list JSVal)) (accumulatedResult : jsstring)
  : M jsstring :=
  match batches with
  | [] => ret accumulatedResult
  | batch :: rest =>
      acc <- compressBatch question sql total BATCH_SIZE onProgress i batch
               accumulatedResult ;;
      compressLoop question sql total BATCH_SIZE onProgress (S i) rest acc
  end.

Definition smartCompressData {W : World} (data : list JSVal) (question sql : jsstring)
    (onProgress : jsstring -> M unit) : M jsstring :=
  match data with
  | [] => ret (js "[]")
  | _ =>
      let BATCH_SIZE := calculateAdaptiveBatchSize data in
      let batches :=
        batchesOf (length data) (Z.to_nat (integerOf BATCH_SIZE)) data in
      compressLoop question sql (length batches) BATCH_SIZE onProgress 0 batches []
  end.

(** ** The streaming response parser (lines 439-459) *)

(** [buffer[index] = v] on a JavaScript array: writing past the end leaves
    holes. *)
Fixpoint setAt {A : Type} (l : list (option A)) (index : nat) (v : A) : list (option A) :=
  match index, l with
  | O, [] => [Some v]
  | O, _ :: r => Some v :: r
  | S i, [] => None :: setAt [] i v
  | S i, x :: r => x :: setAt r i v
  end.

Definition getAt {A : Type} (l : list (option A)) (index : nat) : option A :=
  match nth_error l index with Some (Some v) => Some v | _ => None end.

Definition truthyOpt (s : option jsstring) : bool :=
  match s with Some t => truthyStr t | None => false end.

Definition textOf (s : option jsstring) : jsstring :=
  match s with Some t => t | None => [] end.

(** The body of [for (const tc of delta.tool_calls)] (lines 450-457). *)
Definition applyFragment (buffer : list (option ToolCall)) (tc : ToolCallDelta)
  : list (option ToolCall) :=
  let index := d_index tc in
  let entry :=
    match getAt buffer index with
    | Some e => e
    | None => {| tc_id := d_id tc; tc_name := []; tc_arguments := [] |}
    end in
  setAt buffer index
    {| tc_id := if truthyOpt (d_id tc) then d_id tc else tc_id entry;
       tc_name := if truthyOpt (d_name tc) then tc_name entry ++ textOf (d_name tc)
                  else tc_name entry;
       tc_arguments :=
         if truthyOpt (d_arguments tc) then tc_arguments entry ++ textOf (d_arguments tc)
         else tc_arguments entry |}.

(** [/<\/tool_call>/g] *)
Definition closingToolCall : regex := Lit (js "</tool_call>").

(** [for await (const chunk of stream)] over the deltas that arrive. *)
Fixpoint receive {W : World} (ds : list Delta) (currentThought : jsstring)
    (toolCallsBuffer : list (option ToolCall))
  : M (jsstring * list (option ToolCall)) :=
  match ds with
  | [] => ret (currentThought, toolCallsBuffer)
  | delta :: rest =>
      thought1 <-
        (if truthyOpt (delta_content delta) then
           let cleanContent := replaceAll closingToolCall [] (textOf (delta_content delta)) in
           updateLastStep (currentThought ++ cleanContent) streaming ;;
           ret (currentThought ++ cleanContent)
         else ret currentThought) ;;
      let buffer1 :=
        match delta_tool_calls delta with
        | Some tcs => fold_left applyFragment tcs toolCallsBuffer
        | None => toolCallsBuffer
        end in
      receive rest thought1 buffer1
  end.

(** ** The tool dispatcher (lines 480-600) *)

(** [sanitizeSql(fnArgs.query)], whatever [fnArgs.query] is: a falsy value
    is returned as it is, a string is rewritten, and anything else has no
    [replace] to call. *)
Definition sanitizeSqlAny (sql : JSVal) : res JSVal :=
  if negb (truthy sql) then Val sql
  else match sql with
       | VStr s => Val (VStr (sanitizeSql s))
       | _ => Thrown (TypeError NotAFunction)
       end.

Definition mkStep (id : jsstring) (t : StepType) (content : jsstring)
    (status : StepStatus) (tool : option jsstring) (result : option StepResult)
  : AgentStep :=
  {| step_id := id; step_type := t; step_content := content;
     step_status := Some status; step_toolName := tool; step_result := result |}.

(** The progress callback handed to [smartCompressData] (lines 556-562). *)
Definition compressionProgress {W : World} (progressMsg : jsstring) : M unit :=
  fun st =>
    match rev (steps st) with
    | [] => (Thrown (TypeError ReadOfNullish), st)
    | lastStep :: _ =>
        match step_type lastStep with
        | thought =>
            if startsWith (step_id lastStep) (js "compress") then
              (assignLast (setContent progressMsg) ;; onStepUpdate) st
            else (Val tt, st)
        | _ => (Val tt, st)
        end
    end.

(** The non-empty branch of [run_sql] (lines 539-576). *)
Definition compressResult {W : World} (question : jsstring) (sql : JSVal)
    (data : list JSVal) : M jsstring :=
  tryCatch
    (let estimatedBatchSize := calculateAdaptiveBatchSize data in
     t <- now ;;
     pushStep
       (mkStep (js "compress-" ++ decimal t) thought
          (js "正在对 " ++ decimal (N.of_nat (length data))
             ++ js " 行数据进行智能迭代压缩与分析..." ++ [LF]
             ++ js "目标: 提取核心数据并生成业务洞察。" ++ [LF] ++ js "预计每轮处理 "
             ++ Number_toString estimatedBatchSize ++ js " 行。")
          streaming None None) ;;
     compressedText <-
       smartCompressData data question (toStringJS sql) compressionProgress ;;
     assignLast (setStatus complete) ;;
     onStepUpdate ;;
     ret (COMPRESSED_PREFIX ++ compressedText))
    (fun _ =>
       let limitedData := firstn 50 data in
       text <- stringifyText (VArr limitedData) ;;
       ret (RAW_PREFIX ++ text)).

(** The tool proper (lines 511-584): the observation text and the result
    attached to it. *)
Definition invokeTool {W : World} (question : jsstring) (schema : list TableSchema)
    (fnName : jsstring) (fnArgs : JSVal) : M (jsstring * option StepResult) :=
  if jseqb fnName (js "get_database_schema") then
    let schemaStr := join [LF] (map schemaLine schema) in
    ret (if truthyStr schemaStr then schemaStr else DATABASE_EMPTY,
         Some (ResultSchema schema))
  else if jseqb fnName (js "run_sql") then
    query <- lift (getProp fnArgs (js "query")) ;;
    sql <- lift (sanitizeSqlAny query) ;;
    queryResult <- runSql sql ;;
    resultString <-
      (if truthyOpt (qr_error queryResult) then
         ret (SQL_ERROR_PREFIX ++ textOf (qr_error queryResult))
       else
         match qr_data queryResult with
         | [] => ret EMPTY_RESULT
         | data => compressResult question sql data
         end) ;;
    ret (resultString, Some (ResultQuery queryResult))
  else ret (UNKNOWN_TOOL, None).

(** [toolCall.function.arguments || '{}'] *)
Definition argumentsOrEmpty (arguments : jsstring) : jsstring :=
  if truthyStr arguments then arguments else js "{}".

(** The body of [for (const toolCall of toolCallsBuffer)]. A hole of the
    buffer reads as [undefined], whose [function] cannot be read. *)
Definition dispatch {W : World} (question : jsstring) (schema : list TableSchema)
    (slot : option ToolCall) : M unit :=
  match slot with
  | None => throw (TypeError ReadOfNullish)
  | Some toolCall =>
      let fnName := tc_name toolCall in
      t <- now ;;
      pushStep (mkStep (js "action-" ++ decimal t) action (js "parsing...") streaming
                  (Some fnName) None) ;;
      parsed <-
        tryCatch
          (match JSON_parse (argumentsOrEmpty (tc_arguments toolCall)) with
           | None => throw (Failure None)
           | Some fnArgs =>
               text <- stringifyText fnArgs ;;
               assignLast (setContent text) ;;
               assignLast (setStatus complete) ;;
               onStepUpdate ;;
               ret (fnArgs, [])
           end)
          (fun _ =>
             assignLast (setContent (js "Error parsing: " ++ tc_arguments toolCall)) ;;
             assignLast (setStatus error) ;;
             onStepUpdate ;;
             ret (VObj [], INVALID_JSON_ARGUMENTS)) ;;
      let '(fnArgs, resultString0) := parsed in
      outcome <-
        (if negb (truthyStr resultString0) then invokeTool question schema fnName fnArgs
         else ret (resultString0, None)) ;;
      let '(resultString, resultData) := outcome in
      t2 <- now ;;
      pushStep (mkStep (js "obs-" ++ decimal t2) observation resultString complete
                  None resultData) ;;
      pushMessage (ToolMessage (tc_id toolCall) fnName resultString)
  end.

Fixpoint dispatchAll {W : World} (question : jsstring) (schema : list TableSchema)
    (toolCallsBuffer : list (option ToolCall)) : M unit :=
  match toolCallsBuffer with
  | [] => ret tt
  | slot :: rest =>
      dispatch question schema slot ;; dispatchAll question schema rest
  end.

(** ** The loop (lines 413-621) *)

Definition MAX_ITERATIONS : nat := 50.

Inductive Control : Type := Continue | Break.

(** Lines 464-471: the rescue runs on an empty buffer only. *)
Definition rescue {W : World} (currentThought : jsstring)
    (toolCallsBuffer : list (option ToolCall)) : M (list (option ToolCall)) :=
  match toolCallsBuffer with
  | [] =>
      fun st =>
        match detectManualToolCall (Date_now (clock st)) currentThought with
        | Some manualCall => (Val [Some manualCall], ticked st)
        | None => (Val [], st)
        end
  | _ => ret toolCallsBuffer
  end.

(** The [try] block of one iteration (lines 430-608). *)
Definition attempt {W : World} (question : jsstring) (schema : list TableSchema) : M Control :=
  stream <- requestStream ;;
  received <- receive (deltas stream) [] [] ;;
  let '(currentThought, toolCallsBuffer0) := received in
  match interrupted stream with
  | Some e => throw e
  | None =>
      updateLastStep currentThought complete ;;
      toolCallsBuffer <- rescue currentThought toolCallsBuffer0 ;;
      match toolCallsBuffer with
      | _ :: _ =>
          pushMessage (AssistantToolCalls toolCallsBuffer) ;;
          dispatchAll question schema toolCallsBuffer ;;
          ret Continue
      | [] =>
          (if truthyStr currentThought then
             onFinalAnswer currentThought ;;
             pushMessage (AssistantMessage currentThought)
           else ret tt) ;;
          ret Break
      end
  end.

(** The [catch] of the iteration (lines 610-620). *)
Definition recover {W : World} (e : Exn) : M Control :=
  t <- now ;;
  pushStep
    (mkStep (js "err-" ++ decimal t) thought
       (js "Agent Error: "
          ++ match messageOf e with Some m => m | None => js "undefined" end)
       error None None) ;;
  ret Break.

(** One iteration of the [while] loop. *)
Definition iterate {W : World} (question : jsstring) (schema : list TableSchema) : M Control :=
  t <- now ;;
  pushStep (mkStep (js "step-" ++ decimal t) thought [] streaming None None) ;;
  tryCatch (attempt question schema) recover.

(** [while (iteration < MAX_ITERATIONS) { iteration++; ... }], by the
    iterations that remain; the result is the final value of [iteration]. *)
Fixpoint agentLoop {W : World} (question : jsstring) (schema : list TableSchema)
    (remaining : nat) (iteration : nat) : M nat :=
  match remaining with
  | O => ret iteration
  | S remaining' =>
      control <- iterate question schema ;;
      match control with
      | Continue => agentLoop question schema remaining' (S iteration)
      | Break => ret (S iteration)
      end
  end.

Definition initialState {W : World} (question : jsstring) (db : DB) : AgentState :=
  {| steps := [];
     messages := [SystemMessage systemPrompt; UserMessage question];
     database := db; clock := 0; requests := 0;
     stepUpdates := []; finalAnswers := [] |}.

(** [runAgent]: the number of iterations made (or the error that rejects
    the promise) and the final state, from the database as it is when the
    session starts. *)
Definition runAgent {W : World} (question : jsstring) (schema : list TableSchema)
    (settings : AppSettings) (db : DB) : res nat * AgentState :=
  if negb (truthyStr (apiKey settings)) then
    (Thrown (Failure (Some (js "API Key 未配置"))), initialState question db)
  else agentLoop question schema MAX_ITERATIONS 0 (initialState question db).

(** ** Worlds to run the agent in *)

(** Integers print in decimal; the worlds below only print counts. *)
Definition integerText (x : spec_float) : jsstring := decimalZ (integerOf x).

(** A world that answers the n-th request to the model by a script and has
    a database that no statement changes. *)
Definition scriptedWorld (streams : nat -> StreamOutcome)
    (completions : nat -> CompletionOutcome) (engine : JSVal -> AlasqlOutcome) : World :=
  {| Number_toString := integerText;
     typeErrorMessage := fun _ => js "TypeError";
     DB := unit;
     alasql := fun sql db => (engine sql, db);
     chatStream := fun n _ => streams n;
     chatCompletion := fun n _ => completions n;
     Date_now := fun n => N.of_nat (1000 + n);
     systemPrompt := js "You are a data analyst." |}.

Definition quoted (s : jsstring) : jsstring := [DQUOTE] ++ s ++ [DQUOTE].

Definition say (text : jsstring) : Delta :=
  {| delta_content := Some text; delta_tool_calls := None |}.

Definition callFragment (index : nat) (id name arguments : jsstring) : Delta :=
  {| delta_content := None;
     delta_tool_calls :=
       Some [{| d_index := index; d_id := Some id; d_name := Some name;
                d_arguments := Some arguments |}] |}.

Definition finished (ds : list Delta) : StreamOutcome :=
  {| deltas := ds; interrupted := None |}.

Definition noCompletion (n : nat) : CompletionOutcome := Refused (Failure None).
Definition noTable (sql : JSVal) : AlasqlOutcome :=
  Raised (Some (js "Table does not exist: t_9")).

Definition settings0 : AppSettings :=
  {| apiKey := js "sk-test"; baseUrl := js "https://example.test/v1"; model := js "m" |}.

(** The model says nothing at all, turn after turn. *)
Definition silentWorld : World :=
  scriptedWorld (fun _ => finished []) noCompletion noTable.

(** The model asks for the schema in every turn and never answers. *)
Definition schemaForeverWorld : World :=
  scriptedWorld
    (fun _ => finished [callFragment 0 (js "call_1") (js "get_database_schema") (js "{}")])
    noCompletion noTable.

(** A fixture of the specification: a tool call written as text. *)
Definition SELECT_ALL : jsstring := js "SELECT * FROM t_1".
Definition writtenCall : jsstring := js "run_sql(" ++ quoted SELECT_ALL ++ js ")".

(** ** Worlds, fixtures and notions the properties are stated with *)

Definition brokenCall : ToolCall :=
  {| tc_id := Some (js "call_7"); tc_name := js "run_sql";
     tc_arguments := js "{query: SELECT 1" |}.

Definition emptyArgumentsCall : ToolCall :=
  {| tc_id := Some (js "call_8"); tc_name := js "get_database_schema";
     tc_arguments := [] |}.

Definition missingTableCall : ToolCall :=
  {| tc_id := Some (js "call_9"); tc_name := js "run_sql";
     tc_arguments := stringifyQuery (js "SELECT * FROM t_9") |}.

Definition ENGINE_MESSAGE : jsstring := js "Table does not exist: t_9".

Definition manyRows : list JSVal := repeat (VObj [(js "a", VStr (js "x"))]) 250.

(** The first round succeeds, the second fails, the third succeeds. *)
Definition forgetfulWorld : World :=
  scriptedWorld (fun _ => finished [])
    (fun n =>
       match n with
       | 0 => Completed (Some (js "rows seen: 84"))
       | 1 => Refused (Failure (Some (js "rate limit")))
       | _ => Completed (Some (js "X"))
       end)
    noTable.

Definition oneRow : list JSVal := [VObj [(js "a", VStr (js "x"))]].

Definition aliasQuery (alias : jsstring) : jsstring :=
  js "SELECT SUM(x) AS " ++ alias ++ js " FROM t".

(** What the deltas of a stream add up to. *)
Definition spoken (d : Delta) : bool := truthyOpt (delta_content d).

Definition thoughtAfter (ds : list Delta) (t : jsstring) : jsstring :=
  fold_left
    (fun t d =>
       if spoken d then t ++ replaceAll closingToolCall [] (textOf (delta_content d))
       else t)
    ds t.

Definition callsAfter (ds : list Delta) (b : list (option ToolCall))
  : list (option ToolCall) :=
  fold_left
    (fun b d =>
       match delta_tool_calls d with
       | Some tcs => fold_left applyFragment tcs b
       | None => b
       end)
    ds b.

Definition lastStatus (l : list AgentStep) : option StepStatus :=
  match rev l with
  | s :: _ => step_status s
  | [] => None
  end.

(** The thought step an iteration opens, and the state its [try] block
    starts from. *)
Definition openedStep {W : World} (st : AgentState) : AgentStep :=
  mkStep (js "step-" ++ decimal (Date_now (clock st))) thought [] streaming None None.

Definition opened {W : World} (st : AgentState) : AgentState :=
  reported (setSteps (steps st ++ [openedStep st]) (ticked st)).

(** The step a caught error is reported in. *)
Definition errorStep {W : World} (e : Exn) (st : AgentState) : AgentStep :=
  mkStep (js "err-" ++ decimal (Date_now (clock st))) thought
    (js "Agent Error: " ++ match messageOf e with Some m => m | None => js "undefined" end)
    error None None.

(** The stream breaks after the model has begun to speak. *)
Definition brokenStreamWorld : World :=
  scriptedWorld
    (fun _ => {| deltas := [say (js "Let me look at")];
                 interrupted := Some (Failure (Some (js "Connection error."))) |})
    noCompletion noTable.

Definition streamingThought : AgentStep :=
  mkStep (js "step-1000") thought (js "Let me look at") streaming None None.

(** Effects that report no final answer. *)
Definition keepsAnswers {W : World} {A : Type} (c : M A) : Prop :=
  forall st, finalAnswers (snd (c st)) = finalAnswers st.

(** Every turn of the model assembles at least one tool call. *)
Definition alwaysCalls (W : World) : Prop :=
  forall n msgs,
    interrupted (chatStream n msgs) = None
    /\ callsAfter (deltas (chatStream n msgs)) [] <> [].

(** ** The arithmetic of the numbers of the sizer *)

(** The properties of the batch sizer are stated on the binary64 numbers the
    code computes with. Their proofs read a number that is not NaN and not
    negative as a whole count of units of [2^-1074], and every operation as
    the rounding of a fraction of such counts. *)

Local Open Scope Z_scope.

(** The exponent of the last bit of a binary64 number of [e] bits above
    the binary point. *)
Definition fexp64 (e : Z) : Z := Z.max (e - 53) (-1074).

(** Round to nearest, ties to even, of [M / 2^n]. *)
Definition rne (M n : Z) : Z :=
  if n <=? 0 then M
  else
    let q := M / 2 ^ n in
    let r := M mod 2 ^ n in
    let h := 2 ^ (n - 1) in
    if (h <? r) || ((r =? h) && Z.odd q) then q + 1 else q.

(** The float of a rounded mantissa [m1] at exponent [f]. *)
Definition encode (m1 f : Z) : spec_float :=
  match m1 with
  | Zpos p =>
      if Zpos p =? 2 ^ 53 then
        if f + 1 <=? 971 then S754_finite false (2 ^ 52) (f + 1)
        else S754_infinity false
      else if f <=? 971 then S754_finite false p f else S754_infinity false
  | _ => S754_zero false
  end.

(** Round to nearest, ties to even, of the rational [N / D]. *)
Definition rneQ (N D : Z) : Z :=
  let q := N / D in
  match 2 * (N mod D) ?= D with
  | Lt => q
  | Gt => q + 1
  | Eq => if Z.even q then q else q + 1
  end.

(** [a] is the integer nearest to [N / D], the even one at a tie. *)
Definition nearest (N D a : Z) : Prop :=
  (2 * a - 1) * D <= 2 * N <= (2 * a + 1) * D
  /\ (2 * N = (2 * a - 1) * D -> Z.even a = true)
  /\ (2 * N = (2 * a + 1) * D -> Z.even a = true).

(** The rounding exponent of [N / D], counted from the smallest one. *)
Definition binadeOf (N D : Z) : Z := Z.max (Zdigits2 (N / D) - 53) 0.

Definition binade (N D k : Z) : Prop :=
  0 <= k /\ N < D * 2 ^ (53 + k) /\ (k = 0 \/ D * 2 ^ (52 + k) <= N).

(** Infinity, in units of [2^-1074]: the value [2^1024]. *)
Definition INF : Z := 2 ^ 2098.

(** The binary64 number nearest to [N / D] units of [2^-1074], in the same
    units. *)
Definition Rnd (N D : Z) : Z :=
  let k := binadeOf N D in
  Z.min (rneQ N (D * 2 ^ k) * 2 ^ k) INF.

(** The numbers the sizer works with: no NaN, no negative number, no
    negative zero, mantissa and exponent in canonical form. *)
Definition nonneg (x : spec_float) : bool :=
  match x with
  | S754_zero s => negb s
  | S754_infinity s => negb s
  | S754_finite s m e => negb s && bounded prec emax m e
  | S754_nan => false
  end.

(** The value of such a number in units of [2^-1074]; [INF] for infinity. *)
Definition ulps (x : spec_float) : Z :=
  match x with
  | S754_finite _ m e => Zpos m * 2 ^ (e + 1074)
  | S754_infinity _ => INF
  | _ => 0
  end.

Definition finite (x : spec_float) : bool :=
  match x with S754_zero _ | S754_finite _ _ _ => true | _ => false end.

(** Where the remainder [r] of a division by [D] lies in its unit. *)
Definition locOf (D r : Z) : location :=
  if r =? 0 then loc_Exact else loc_Inexact (2 * r ?= D).

(** The same in two more bits of the quotient. *)
Definition stickyOf (l : location) : Z :=
  match l with
  | loc_Exact => 0
  | loc_Inexact Lt => 1
  | loc_Inexact Eq => 2
  | loc_Inexact Gt => 3
  end.

(** A constant one multiplies or divides by: finite and above zero. *)
Definition scalar (c : spec_float) : bool :=
  nonneg c && finite c && (0 <? ulps c).

(** [x] is at most [y], both being numbers of the sizer. *)
Definition atMost (x y : spec_float) : Prop :=
  nonneg x = true /\ nonneg y = true /\ ulps x <= ulps y.

(** [W_F * Cf + W_L * Cl + W_T * Ct] (line 193). *)
Definition weighted (a b c d : spec_float) : spec_float :=
  add (add (mul W_F (Math_min (div a F_NORM) (num 1)))
           (mul W_L (Math_min (div b L_NORM) (num 1))))
      (mul W_T (add (mul ALPHA c) (mul BETA d))).

(** The batch size of a complexity (lines 195-199). *)
Definition sizeOf (C : spec_float) : spec_float :=
  Math_max B_MIN
    (Math_min (Math_floor (sub B_MAX (mul (sub B_MAX B_MIN) C))) B_MAX).

(** The four metrics of a result set with a row (lines 141-186). *)
Definition sampleTally {W : World} (data : list JSVal) : Tally :=
  sampleLoop data 0 (Nat.min (length data) 20) emptyTally.

Definition sampleSize (data : list JSVal) : spec_float :=
  num (Z.of_nat (Nat.min (length data) 20)).

Definition ratio (part total : spec_float) : spec_float :=
  if gt total (num 0) then div part total else num 0.

Definition avgFieldsOf {W : World} (data : list JSVal) : spec_float :=
  div (totalFields (sampleTally data)) (sampleSize data).

Definition avgRowLenOf {W : World} (data : list JSVal) : spec_float :=
  div (totalRowChars (sampleTally data)) (sampleSize data).

Definition textRatioOf {W : World} (data : list JSVal) : spec_float :=
  ratio (textCells (sampleTally data)) (totalCells (sampleTally data)).

Definition longRatioOf {W : World} (data : list JSVal) : spec_float :=
  ratio (longTextCells (sampleTally data)) (totalCells (sampleTally data)).

(** [clamp(x, lo, hi)] *)
Definition clamp (x lo hi : spec_float) : spec_float := Math_min (Math_max x lo) hi.

(** [0.n] *)
Definition tenths (n : Z) : spec_float := numberOfDecimal false n (-1).

(** ** The batch size in the words of the specification (section 4.6) *)

(** The rows sampled: the first [min(rowCount, 20)]. *)
Definition sampledRows (data : list JSVal) : list JSVal :=
  firstn (Nat.min (length data) 20) data.

(** The fields of a sampled row. A row that is no object (a number, a text,
    [null], [undefined]) has no field, and no text. *)
Definition fieldsOfRow (row : JSVal) : list (jsstring * JSVal) :=
  match row with
  | VObj _ | VArr _ => ownFields row
  | _ => []
  end.

(** The serialized text of a row: its JSON text or, where the serialization
    fails, its values as strings ([null] and [undefined] as the empty
    string), joined by spaces. *)
Definition serializedRow {W : World} (row : JSVal) : jsstring :=
  match row with
  | VObj _ | VArr _ =>
      match JSON_stringify row with
      | Val (Some text) => text
      | Val None => []
      | Thrown _ =>
          join (js " ")
            (map (fun field => match snd field with
                               | VUndefined | VNull => []
                               | value => toStringJS value
                               end) (fieldsOfRow row))
      end
  | _ => []
  end.

Definition isNonNull (value : JSVal) : bool :=
  match value with VNull | VUndefined => false | _ => true end.

Definition isTextual (value : JSVal) : bool :=
  match value with VStr _ => true | _ => false end.

Definition isLongText (value : JSVal) : bool :=
  match value with VStr s => (256 <=? length s)%nat | _ => false end.

(** The fields and the serialized characters of the sampled rows, counted. *)
Definition sampledFields (data : list JSVal) : nat :=
  list_sum (map (fun row => length (fieldsOfRow row)) (sampledRows data)).

Definition sampledChars {W : World} (data : list JSVal) : nat :=
  list_sum (map (fun row => length (serializedRow row)) (sampledRows data)).

(** The non-null cells of the sampled rows. *)
Definition sampledCells (data : list JSVal) : list JSVal :=
  filter isNonNull (flat_map (fun row => map snd (fieldsOfRow row)) (sampledRows data)).

Section ExactFormula.
Import QArith_base Qround Qminmax.
Local Open Scope Q_scope.

Definition wholeQ (n : nat) : Q := inject_Z (Z.of_nat n).

(** A fraction of cells; 0 where there is no cell. *)
Definition fractionQ (part total : nat) : Q :=
  if Nat.eqb total 0 then 0 else wholeQ part / wholeQ total.

Definition clampQ (x lo hi : Q) : Q := Qmin (Qmax x lo) hi.

(** The batch size as the specification words it, in exact arithmetic:
    [floor(100 - (100 - 5) * C)], clamped to [5, 100], with
    [C = clamp(0.4 * min(avgFields / 40, 1) + 0.3 * min(avgRowLen / 4000, 1)
               + 0.3 * (0.5 * R_text + 0.5 * R_long), 0, 1)],
    over the first [min(rowCount, 20)] rows, and 10 for no row. *)
Definition exactBatchSize {W : World} (data : list JSVal) : Z :=
  match data with
  | [] => 10%Z
  | _ =>
      let count := length (sampledRows data) in
      let avgFields := wholeQ (sampledFields data) / wholeQ count in
      let avgRowLen := wholeQ (sampledChars data) / wholeQ count in
      let cells := sampledCells data in
      let R_text := fractionQ (length (filter isTextual cells)) (length cells) in
      let R_long := fractionQ (length (filter isLongText cells)) (length cells) in
      let C :=
        clampQ ((4 # 10) * Qmin (avgFields / 40) 1 + (3 # 10) * Qmin (avgRowLen / 4000) 1
                + (3 # 10) * ((5 # 10) * R_text + (5 # 10) * R_long)) 0 1 in
      Z.max 5 (Z.min (Qfloor (100 - (100 - 5) * C)) 100)
  end.

End ExactFormula.

(** A fraction of cells as a binary64 number; 0 where there is no cell. *)
Definition fraction (part total : nat) : spec_float :=
  if Nat.eqb total 0 then num 0 else div (num (Z.of_nat part)) (num (Z.of_nat total)).

(** The same formula over the same counts, each operation of it a binary64
    operation (rounded to nearest, ties to even), in the order written. *)
Definition roundedBatchSize {W : World} (data : list JSVal) : spec_float :=
  match data with
  | [] => num 10
  | _ =>
      let count := num (Z.of_nat (length (sampledRows data))) in
      let avgFields := div (num (Z.of_nat (sampledFields data))) count in
      let avgRowLen := div (num (Z.of_nat (sampledChars data))) count in
      let cells := sampledCells data in
      let R_text := fraction (length (filter isTextual cells)) (length cells) in
      let R_long := fraction (length (filter isLongText cells)) (length cells) in
      let C :=
        clamp
          (add (add (mul (tenths 4) (Math_min (div avgFields (num 40)) (num 1)))
                    (mul (tenths 3) (Math_min (div avgRowLen (num 4000)) (num 1))))
               (mul (tenths 3) (add (mul (tenths 5) R_text) (mul (tenths 5) R_long))))
          (num 0) (num 1) in
      Math_floor (sub (num 100) (mul (sub (num 100) (num 5)) C))
  end.

(** A row of 18 text columns whose JSON text has 3600 characters. *)
Definition wideRow : JSVal :=
  VObj (map (fun key => ([key], VStr (repeat 120%N 193)))
          (firstn 17 (js "abcdefghijklmnopqr"))
        ++ [(js "r", VStr (repeat 120%N 192))]).

(** How many of some cells are of a kind. *)
Definition countOf (p : JSVal -> bool) (cells : list JSVal) : Z :=
  Z.of_nat (length (filter p cells)).

(** The fields and the characters of some rows, counted. *)
Definition fieldsIn (rows : list JSVal) : Z :=
  Z.of_nat (list_sum (map (fun row => length (fieldsOfRow row)) rows)).

Definition charsIn {W : World} (rows : list JSVal) : Z :=
  Z.of_nat (list_sum (map (fun row => length (serializedRow row)) rows)).

Definition cellsIn (rows : list JSVal) : list JSVal :=
  flat_map (fun row => map snd (fieldsOfRow row)) rows.

(** A count of cells: a number up to [2^53]. *)
Definition counted (x : spec_float) : Prop :=
  nonneg x = true /\ ulps x <= 2 ^ 53 * 2 ^ 1074.

(** What the sampling loop keeps true of its five counters. *)
Definition goodTally (t : Tally) : Prop :=
  nonneg (totalFields t) = true /\ nonneg (totalRowChars t) = true
  /\ counted (totalCells t) /\ counted (textCells t) /\ counted (longTextCells t).

(** Metrics for which the sizer is run twice in the example of its order. *)
Definition HALF : spec_float := tenths 5.

Local Close Scope Z_scope.

(** ** The reader of uploaded sheets ([processExcelFile], dataService.ts 12-90) *)

(** What the reader resolves with. *)
Record ProcessedFile : Type := {
  pf_name : jsstring;
  pf_originalName : jsstring;
  pf_data : list JSVal;
  pf_columns : list jsstring
}.

Definition UNDERSCORE : N := 95.

(** [[一-龥a-zA-Z0-9_]] *)
Definition allowedInName (c : N) : bool :=
  isCJK c || isLowerAscii c || isUpperAscii c || isDigit c || (c =? UNDERSCORE)%N.

(** [/[^一-龥a-zA-Z0-9_]/g] *)
Definition notAllowedInName : regex := Class (fun c => negb (allowedInName c)).

(** [/^_+|_+$/g] *)
Definition outerUnderscores : regex :=
  Alt (Seq Bol (Plus true (Chr UNDERSCORE))) (Seq (Plus true (Chr UNDERSCORE)) Eol).

(** Lines 36-40: the name of a column before the fallback for an empty one. *)
Definition cleanName (col : jsstring) : jsstring :=
  let clean := trim col in
  let clean := replaceAll notAllowedInName (js "_") clean in
  replaceAll outerUnderscores [] clean.

(** [s.substr(start, length)] and [s.substring(start, end)] for positions
    in order. *)
Definition substr (s : jsstring) (start len : nat) : jsstring := firstn len (skipn start s).
Definition substring (s : jsstring) (start stop : nat) : jsstring :=
  firstn (stop - start) (skipn start s).
Definition substringFrom (s : jsstring) (start : nat) : jsstring := skipn start s.

(** [originalColumns.map(col => ...)] (lines 35-46). [random36 n] is the
    text of [Math.random().toString(36)] at the [n]-th call; a call is made
    for a column whose name comes out empty, and only then. The result is
    the clean columns and the number of calls made so far. *)
Fixpoint cleanColumnsFrom (random36 : nat -> jsstring) (calls : nat)
    (originalColumns : list jsstring) : list jsstring * nat :=
  match originalColumns with
  | [] => ([], calls)
  | col :: rest =>
      let clean := cleanName col in
      if negb (truthyStr clean) then
        let '(names, calls') := cleanColumnsFrom random36 (S calls) rest in
        ((js "col_" ++ substr (random36 calls) 2 5) :: names, calls')
      else
        let '(names, calls') := cleanColumnsFrom random36 calls rest in
        (clean :: names, calls')
  end.

(** [originalColumns.forEach((oldCol, idx) => ...)] on one row (lines
    51-56). The rows of [sheet_to_json] are objects; a row is given by its
    properties. *)
Fixpoint rebuildRow {W : World} (columnPairs : list (jsstring * jsstring))
    (row : list (jsstring * JSVal)) (newRow : list (jsstring * JSVal))
  : list (jsstring * JSVal) :=
  match columnPairs with
  | [] => newRow
  | (oldCol, newCol) :: rest =>
      let val := getField row oldCol in
      let val := match val with VNull | VUndefined => VStr [] | _ => val end in
      rebuildRow rest row (defineField newRow newCol (VStr (trim (toStringJS val))))
  end.

(** [s.replace(r, t)] for a regular expression without the [g] flag and a
    replacement text without [$]. *)
Definition replaceOnce (r : regex) (t : jsstring) (s : jsstring) : jsstring :=
  match exec r s with
  | Some res => rev (r_before res) ++ t ++ r_after res
  | None => s
  end.

(** [/\.[^\/.]+$/] *)
Definition fileExtension : regex :=
  Seq (Chr 46%N) (Seq (Plus true (Class (notIn [47%N; 46%N]))) Eol).

Definition SHEET_IS_EMPTY : jsstring := js "Sheet is empty".

(** The body of [reader.onload] (lines 17-89), from the rows that
    [sheet_to_json] returns for the first sheet: the file the promise
    resolves with, or the error it rejects with. [now] is the value of
    [Date.now()]. What is written to the log is left out. *)
Definition processExcelFile {W : World} (fileName : jsstring)
    (jsonData : list (list (jsstring * JSVal))) (random36 : nat -> jsstring) (now : N)
  : res ProcessedFile :=
  match jsonData with
  | [] => Thrown (Failure (Some SHEET_IS_EMPTY))
  | first :: _ =>
      let originalColumns := map fst first in
      let '(cleanColumns, calls) := cleanColumnsFrom random36 0 originalColumns in
      let cleanData :=
        map (fun row => VObj (rebuildRow (combine originalColumns cleanColumns) row []))
          jsonData in
      let rawName := replaceOnce fileExtension [] fileName in
      let safeId := substring (random36 calls) 2 8 in
      let timestamp := substringFrom (decimal now) 8 in
      let tableName := js "t_" ++ timestamp ++ js "_" ++ safeId in
      Val {| pf_name := tableName; pf_originalName := rawName;
             pf_data := cleanData; pf_columns := cleanColumns |}
  end.

(** ** The tables of the application ([handleFileUpload], App.tsx 52-119) *)

(** [getDatabaseSchema] (lines 162-170) *)
Definition getDatabaseSchema (tables : list ProcessedFile) : list TableSchema :=
  map (fun t =>
         {| tableName := pf_name t;
            originalName := Some (pf_originalName t);
            columns := pf_columns t;
            rowCount := N.of_nat (length (pf_data t));
            samples := Some (firstn 3 (pf_data t)) |})
      tables.

(** [l.findIndex(p)]: [None] for [-1]. *)
Fixpoint findIndex {A : Type} (p : A -> bool) (l : list A) : option nat :=
  match l with
  | [] => None
  | x :: r => if p x then Some 0 else option_map S (findIndex p r)
  end.

(** [l[index] = v] at an index of the list. *)
Fixpoint replaceAt {A : Type} (l : list A) (index : nat) (v : A) : list A :=
  match l, index with
  | [], _ => []
  | _ :: r, O => v :: r
  | x :: r, S i => x :: replaceAt r i v
  end.

(** The body of [updatedSchema.forEach] (lines 67-71). *)
Definition upsertTable (combined : list TableSchema) (newT : TableSchema)
  : list TableSchema :=
  match findIndex (fun t => jseqb (tableName t) (tableName newT)) combined with
  | Some index => replaceAt combined index newT
  | None => combined ++ [newT]
  end.

(** The updater passed to [setTables] (lines 65-73). *)
Definition mergeTables (prev updatedSchema : list TableSchema) : list TableSchema :=
  fold_left upsertTable updatedSchema prev.

(** Lines 63-73: the tables after the upload of [newTables]. *)
Definition tablesAfterUpload (prev : list TableSchema) (newTables : list ProcessedFile)
  : list TableSchema :=
  mergeTables prev (getDatabaseSchema newTables).

(** [tables.find(t => t.tableName === name)] *)
Definition findTable (name : jsstring) (tables : list TableSchema) : option TableSchema :=
  find (fun t => jseqb (tableName t) name) tables.

(** The last of the files that has a name. *)
Definition lastFile (name : jsstring) (files : list ProcessedFile) : option ProcessedFile :=
  find (fun f => jseqb (pf_name f) name) (rev files).

(** ** The renderer of an action step (ChatMessage.tsx, 192-194) *)

(** [JSON.parse(step.content || '{}')], as the renderer of an action step
    reads the arguments back (ChatMessage.tsx, line 194): [None] when it
    throws. *)
Definition renderedArguments (step : AgentStep) : option JSVal :=
  JSON_parse (if truthyStr (step_content step) then step_content step else js "{}").

(** ** More worlds, fixtures and notions the properties are stated with *)

(** The model answers in plain text, in two deltas. *)
Definition answeringWorld : World :=
  scriptedWorld (fun _ => finished [say (js "There are "); say (js "42 rows.")])
    noCompletion noTable.

(** A column the wrapper shows: its name does not begin with an underscore. *)
Definition shown (k : jsstring) : bool := negb (startsWith k (js "_")).

(** A cleaned row: an object with the columns as its keys, each holding
    what the raw row holds under it. *)
Definition cleaned (columns : list jsstring) (raw clean : JSVal) : Prop :=
  exists fields,
    clean = VObj fields
    /\ (forall k, In k (map fst fields) <-> In k columns)
    /\ (forall k, In k columns -> getProp raw k = Val (getField fields k)).

(** The engine answers every statement with two rows that carry a hidden
    field. *)
Definition hiddenFieldWorld : World :=
  scriptedWorld (fun _ => finished []) noCompletion
    (fun _ =>
       Returned
         (VArr [VObj [(js "city", VStr (js "Oslo")); (js "_rowid", VStr (js "1"))];
                VObj [(js "city", VStr (js "Rome")); (js "_rowid", VStr (js "2"))]])).

(** The fragments of tool calls of a stream, in the order of arrival. *)
Definition fragments (ds : list Delta) : list ToolCallDelta :=
  flat_map (fun d => match delta_tool_calls d with Some tcs => tcs | None => [] end) ds.

Definition fragmentsAt (index : nat) (tcs : list ToolCallDelta) : list ToolCallDelta :=
  filter (fun tc => Nat.eqb (d_index tc) index) tcs.

(** A call with more fragments added: the last id that is not empty, and
    the names and the arguments joined in order. *)
Definition extended (entry : ToolCall) (mine : list ToolCallDelta) : ToolCall :=
  {| tc_id := fold_left (fun id tc => if truthyOpt (d_id tc) then d_id tc else id)
                mine (tc_id entry);
     tc_name := tc_name entry ++ concat (map (fun tc => textOf (d_name tc)) mine);
     tc_arguments :=
       tc_arguments entry ++ concat (map (fun tc => textOf (d_arguments tc)) mine) |}.

(** The call that the fragments of one index add up to. *)
Definition assembled (mine : list ToolCallDelta) : option ToolCall :=
  match mine with
  | [] => None
  | first :: _ =>
      Some (extended {| tc_id := d_id first; tc_name := []; tc_arguments := [] |} mine)
  end.

(** The stream sends one fragment, for the second call of the turn. *)
Definition skippingWorld : World :=
  scriptedWorld
    (fun _ => finished [callFragment 1 (js "call_2") (js "get_database_schema") (js "{}")])
    noCompletion noTable.

(** [BATCH_SIZE], as the loop of line 222 counts with it. *)
Definition batchRows {W : World} (data : list JSVal) : nat :=
  Z.to_nat (integerOf (calculateAdaptiveBatchSize data)).

(** The batches of line 221-224. *)
Definition compressionBatches {W : World} (data : list JSVal) : list (list JSVal) :=
  batchesOf (length data) (batchRows data) data.

(** [JSON.stringify(v)] as a text. *)
Definition jsonText {W : World} (v : JSVal) : jsstring :=
  match JSON_stringify v with
  | Val (Some t) => t
  | _ => js "undefined"
  end.

(** The markers of the batches from the [i]-th on, one after the other. *)
Fixpoint rawMarkers {W : World} (i : nat) (batches : list (list JSVal)) : jsstring :=
  match batches with
  | [] => []
  | batch :: rest => rawMarker i (jsonText (VArr batch)) ++ rawMarkers (S i) rest
  end.

(** A progress callback that always returns. *)
Definition returns {W : World} (onProgress : jsstring -> M unit) : Prop :=
  forall msg st, exists st', onProgress msg st = (Val tt, st').

(** A code unit of an extension: neither a slash nor a dot. *)
Definition inExtension : N -> bool := notIn [47%N; 46%N].

(** What the two passes over a column name come to. *)
Definition safeChar (c : N) : N := if allowedInName c then c else UNDERSCORE.

Fixpoint dropLeading (s : jsstring) : jsstring :=
  match s with
  | c :: r => if (c =? UNDERSCORE)%N then dropLeading r else s
  | [] => []
  end.

Definition allUnderscores (s : jsstring) : bool := forallb (N.eqb UNDERSCORE) s.

Fixpoint dropTrailing (s : jsstring) : jsstring :=
  match s with
  | [] => []
  | c :: r => if allUnderscores s then [] else c :: dropTrailing r
  end.

(** The column that the reader names for a header: the clean name, or, where
    that is empty, [col_] and at most five characters of a random text. *)
Definition columnOf (random36 : nat -> jsstring) (header name : jsstring) : Prop :=
  (cleanName header <> [] /\ name = cleanName header)
  \/ (cleanName header = []
      /\ exists call, name = js "col_" ++ substr (random36 call) 2 5).

(** The original column whose value a rebuilt row holds under a name: the
    last one whose clean name it is. *)
Fixpoint lastSource (columnPairs : list (jsstring * jsstring)) (name : jsstring)
  : option jsstring :=
  match columnPairs with
  | [] => None
  | (oldCol, newCol) :: rest =>
      match lastSource rest name with
      | Some later => Some later
      | None => if jseqb newCol name then Some oldCol else None
      end
  end.

(** [String(val).trim()], with [""] for a value that is missing. *)
Definition cellText {W : World} (val : JSVal) : jsstring :=
  trim (toStringJS (match val with VNull | VUndefined => VStr [] | _ => val end)).

(** Two headers that differ in a character that is not allowed. *)
Definition clashingSheet : list (list (jsstring * JSVal)) :=
  [[(js "unit price", VStr (js " 4 ")); (js "unit-price", VStr (js "5"))];
   [(js "unit price", VStr (js "6")); (js "unit-price", VNull)]].

(** [s.includes(word)] without regard to the case of ASCII letters, for a
    word in upper case. *)
Definition mentions (s : jsstring) (word : jsstring) : bool :=
  includes (map upperAscii s) word.

(** ** The rule of the alias pass, in the words of the specification *)

(** A text without its last code unit, where that is one of [closing]. *)
Fixpoint dropLast (closing : N -> bool) (s : jsstring) : jsstring :=
  match s with
  | [] => []
  | c :: rest =>
      match rest with
      | [] => if closing c then [] else [c]
      | _ => c :: dropLast closing rest
      end
  end.

(** One layer stripped: a first code unit of [opening] and a last one of
    [closing], where they are there. *)
Definition stripLayer (opening closing : N -> bool) (s : jsstring) : jsstring :=
  match s with
  | [] => []
  | c :: rest => if opening c then dropLast closing rest else dropLast closing s
  end.

(** The text ends with its first closing bracket. *)
Fixpoint closesAtEnd (s : jsstring) : bool :=
  match s with
  | [] => false
  | c :: rest =>
      if (c =? RBRACKET)%N then match rest with [] => true | _ => false end
      else closesAtEnd rest
  end.

(** Fully bracket-quoted: an opening bracket, a text that is not empty and
    holds no closing bracket, and a closing bracket. *)
Definition fullyBracketed (s : jsstring) : bool :=
  match s with
  | c :: d :: rest => (c =? LBRACKET)%N && negb (d =? RBRACKET)%N && closesAtEnd rest
  | _ => false
  end.

(** A valid ASCII identifier: letters, digits and underscores, the first of
    them not a digit. *)
Definition isIdentifier (s : jsstring) : bool :=
  match s with
  | [] => false
  | c :: rest =>
      (isUpperAscii c || isLowerAscii c || (c =? 95)%N) && forallb isWordChar rest
  end.

(** What the alias pass does with an alias. *)
Inductive AliasRule : Type :=
| LeftAsWritten
| BareIdentifier (inner : jsstring)
| Bracketed (inner : jsstring)
| Synthetic.

(** The rule of the alias pass: the alias is trimmed and one layer of quotes
    is stripped; a text that is empty or fully bracket-quoted is left; else
    one layer of brackets is stripped, and the inner text is kept bare if it
    is an ASCII identifier, bracketed if it holds any CJK character, and
    replaced by a synthetic name otherwise. *)
Definition aliasRule (alias : jsstring) : AliasRule :=
  let text := stripLayer isQuote isQuote (trim alias) in
  if negb (truthyStr text) || fullyBracketed text then LeftAsWritten
  else
    let inner := stripLayer (N.eqb LBRACKET) (N.eqb RBRACKET) text in
    if isIdentifier inner then BareIdentifier inner
    else if existsb isCJK inner then Bracketed inner
    else Synthetic.

(** ** Relations between the state before and after an effect *)

(** [steady R c]: whatever [c] does, and whether it returns or throws, the
    state it leaves is related by [R] to the one it started from. *)
Definition steady {W : World} (R : AgentState -> AgentState -> Prop) {A : Type}
    (c : M A) : Prop :=
  forall st, R st (snd (c st)).

(** An edit of a step that leaves its identity alone, as the assignments to
    [content] and [status] do. *)
Definition edits (f : AgentStep -> AgentStep) : Prop :=
  forall s, step_id (f s) = step_id s /\ step_type (f s) = step_type s.

(** What a relation must allow for the effects of a tool to be steady: the
    writes of the clock, of the request counter, of the snapshots, of the
    database and of the step log (a push, or an edit of the last step). *)
Record Frame {W : World} (R : AgentState -> AgentState -> Prop) : Prop := {
  frame_refl : forall st, R st st;
  frame_trans : forall a b c, R a b -> R b c -> R a c;
  frame_ticked : forall st, R st (ticked st);
  frame_requested : forall st, R st (requested st);
  frame_reported : forall st, R st (reported st);
  frame_database : forall db st, R st (setDatabase db st);
  frame_pushed : forall s st, R st (setSteps (steps st ++ [s]) st);
  frame_edited : forall f st, edits f -> R st (setSteps (mapLast f (steps st)) st)
}.

(** Neither the conversation nor the final answers have changed. *)
Definition quiet {W : World} (st st' : AgentState) : Prop :=
  messages st' = messages st /\ finalAnswers st' = finalAnswers st.




(** The answer to a tool call, as the conversation holds it. *)
Definition answers (slot : option ToolCall) (m : Message) : Prop :=
  exists toolCall text,
    slot = Some toolCall /\ m = ToolMessage (tc_id toolCall) (tc_name toolCall) text.

(** What an effect adds to the conversation and to the final answers
    reported (latest first), by its outcome. *)
Definition says {W : World} {A : Type}
    (P : res A -> list Message -> list jsstring -> Prop) (c : M A) : Prop :=
  forall st, exists more ans,
    messages (snd (c st)) = messages st ++ more
    /\ finalAnswers (snd (c st)) = ans ++ finalAnswers st
    /\ P (fst (c st)) more ans.

(** The answers of a dispatch: one, unless it throws. *)
Definition answered_once (slot : option ToolCall) (r : res unit)
    (more : list Message) (ans : list jsstring) : Prop :=
  ans = []
  /\ match r with
     | Val _ => exists m, answers slot m /\ more = [m]
     | Thrown _ => more = []
     end.

(** The answers of the dispatches of a turn: one for each call, in the order
    of the calls, up to the call that throws, if one does. *)
Definition answered_in_order (buffer : list (option ToolCall)) (r : res unit)
    (more : list Message) (ans : list jsstring) : Prop :=
  ans = []
  /\ Forall2 answers (firstn (length more) buffer) more
  /\ match r with
     | Val _ => length more = length buffer
     | Thrown _ => length more < length buffer
     end.

(** What an iteration adds: when the loop goes on, the assistant's tool
    calls and the answer to each of them, and no final answer; when it ends,
    nothing, or the final answer (reported, and told as the assistant's
    message), or the tool calls and the answers given before a dispatch
    threw. *)
Definition turnAdds (control : Control) (more : list Message) (ans : list jsstring)
  : Prop :=
  match control with
  | Continue =>
      ans = []
      /\ exists buffer replies,
           buffer <> [] /\ more = AssistantToolCalls buffer :: replies
           /\ Forall2 answers buffer replies
  | Break =>
      (more = [] /\ ans = [])
      \/ (exists a, truthyStr a = true /\ more = [AssistantMessage a] /\ ans = [a])
      \/ (ans = []
          /\ exists buffer replies,
               more = AssistantToolCalls buffer :: replies
               /\ length replies < length buffer
               /\ Forall2 answers (firstn (length replies) buffer) replies)
  end.

(** What the [try] block of an iteration adds. *)
Definition attemptAdds (r : res Control) (more : list Message) (ans : list jsstring)
  : Prop :=
  match r with
  | Val control => turnAdds control more ans
  | Thrown _ => turnAdds Break more ans
  end.


(* ================================================================== *)
(** * Part II: properties *)
(* ================================================================== *)

(** ** Strings and the matcher *)

Lemma startsWith_app (a p rest : jsstring) :
  length p <= length a -> startsWith (a ++ rest) p = startsWith a p.
Proof.
  revert a; induction p as [|y p IH]; intros a Hlen.
  - reflexivity.
  - destruct a as [|x a]; simpl in Hlen; [lia|].
    simpl. rewrite IH by lia. reflexivity.
Qed.

(** A pattern that opens with a literal fails where the subject does not
    continue with that literal. *)
Lemma rmatch_Lit_mismatch (s : jsstring) :
  forall k st, startsWith (ahead st) s = false -> rmatch (Lit s) k st = None.
Proof.
  induction s as [|c s IH]; intros k st Hs.
  - destruct (ahead st); discriminate.
  - simpl. destruct (ahead st) as [|x rest] eqn:Ha; [reflexivity|].
    simpl in Hs. rewrite N.eqb_sym.
    destruct (x =? c)%N; simpl in Hs; [|reflexivity].
    apply IH. exact Hs.
Qed.

Lemma rmatch_Seq_Lit_mismatch (s : jsstring) (r : regex) k st :
  startsWith (ahead st) s = false -> rmatch (Seq (Lit s) r) k st = None.
Proof. intro Hs. simpl. apply rmatch_Lit_mismatch. exact Hs. Qed.

(** The search skips every position before the first occurrence of the
    literal a pattern opens with. *)
Lemma searchFrom_skip (s : jsstring) (r : regex) (rest : jsstring) :
  forall pre bh,
    indexOf (pre ++ s) s = Some (length pre) ->
    searchFrom (Seq (Lit s) r) bh (pre ++ s ++ rest)
    = searchFrom (Seq (Lit s) r) (rev pre ++ bh) (s ++ rest).
Proof.
  induction pre as [|x pre IH]; intros bh Hidx; [reflexivity|].
  assert (Hno : startsWith ((x :: pre) ++ s) s = false
                /\ indexOf (pre ++ s) s = Some (length pre)).
  { change (indexOf ((x :: pre) ++ s) s)
      with (if startsWith ((x :: pre) ++ s) s then Some 0
            else option_map S (indexOf (pre ++ s) s)) in Hidx.
    destruct (startsWith ((x :: pre) ++ s) s); [discriminate|].
    split; [reflexivity|].
    destruct (indexOf (pre ++ s) s); simpl in Hidx; congruence. }
  destruct Hno as [Hno Hidx'].
  change ((x :: pre) ++ s ++ rest) with (x :: (pre ++ s ++ rest)).
  cbn [searchFrom]. unfold matchAt.
  rewrite rmatch_Seq_Lit_mismatch.
  - rewrite IH by exact Hidx'. simpl. rewrite <- app_assoc. reflexivity.
  - cbn [ahead].
    change (x :: pre ++ s ++ rest) with ((x :: pre) ++ s ++ rest).
    rewrite app_assoc. rewrite startsWith_app; [exact Hno|].
    rewrite length_app. lia.
Qed.

(** A lazy [.*?] gives way to what follows as soon as that can match, and
    takes one more code unit when it cannot. *)
Lemma lazy_star_stop (p : N -> bool) k st res :
  k st = Some res -> rmatch (Star false (Class p)) k st = Some res.
Proof.
  intro Hk. cbn [rmatch]. destruct (length (ahead st)); rewrite Hk; reflexivity.
Qed.

Lemma lazy_star_step (p : N -> bool) k bh c rest cs :
  p c = true ->
  k (MState bh (c :: rest) cs) = None ->
  rmatch (Star false (Class p)) k (MState bh (c :: rest) cs)
  = rmatch (Star false (Class p)) k (MState (c :: bh) rest cs).
Proof.
  intros Hp Hk. cbn [rmatch ahead behind caps length].
  rewrite Hk, Hp.
  assert (Hlt : Nat.ltb (length rest) (S (length rest)) = true)
    by (apply Nat.ltb_lt; lia).
  rewrite Hlt. reflexivity.
Qed.

(** A greedy [\s*] takes nothing where no white space stands. *)
Lemma greedy_star_none (p : N -> bool) k bh c rest cs :
  p c = false ->
  rmatch (Star true (Class p)) k (MState bh (c :: rest) cs)
  = k (MState bh (c :: rest) cs).
Proof. intro Hp. cbn [rmatch ahead behind caps length]. rewrite Hp. reflexivity. Qed.

Lemma rmatch_Seq r1 r2 k st : rmatch (Seq r1 r2) k st = rmatch r1 (rmatch r2 k) st.
Proof. reflexivity. Qed.

Lemma rmatch_Class_hit p k bh c rest cs :
  p c = true ->
  rmatch (Class p) k (MState bh (c :: rest) cs) = k (MState (c :: bh) rest cs).
Proof. intro Hp. cbn [rmatch ahead behind caps]. rewrite Hp. reflexivity. Qed.

Lemma rmatch_Lit_prefix (s : jsstring) :
  forall k bh rest cs,
    rmatch (Lit s) k (MState bh (s ++ rest) cs) = k (MState (rev s ++ bh) rest cs).
Proof.
  induction s as [|c s IH]; intros k bh rest cs; [reflexivity|].
  cbn [Lit app]. rewrite rmatch_Seq.
  unfold Chr. rewrite rmatch_Class_hit by apply N.eqb_refl.
  rewrite IH. cbn [rev]. rewrite <- app_assoc. reflexivity.
Qed.

Lemma rmatch_Group i r k st :
  rmatch (Group i r) k st
  = rmatch r (fun st1 =>
                k (MState (behind st1) (ahead st1)
                     (setCap i (firstn (length (ahead st) - length (ahead st1)) (ahead st))
                        (caps st1)))) st.
Proof. reflexivity. Qed.

Lemma searchFrom_hit r bh ah res :
  matchAt r bh ah = Some res -> searchFrom r bh ah = Some res.
Proof. intro Hm. destruct ah; cbn [searchFrom]; rewrite Hm; reflexivity. Qed.

(** ** C6: the manual rescue *)

(** Wherever the written call stands, the quoted pattern matches it there and
    captures the query between the quotes. *)
Lemma matchAt_writtenCall bh post :
  matchAt sqlCallQuoted bh (writtenCall ++ post)
  = Some (RResult bh writtenCall post [(1, SELECT_ALL)]).
Proof.
  unfold matchAt.
  assert (Hlen : length (writtenCall ++ post) - length post = 28)
    by (rewrite length_app; change (length writtenCall) with 28; lia).
  change (writtenCall ++ post)
    with (js "run_sql"
            ++ 40%N :: DQUOTE :: 83%N :: (skipn 1 SELECT_ALL ++ DQUOTE :: 41%N :: post)) at 1.
  unfold sqlCallQuoted.
  rewrite rmatch_Seq, rmatch_Lit_prefix.
  rewrite rmatch_Seq, greedy_star_none by reflexivity.
  rewrite rmatch_Seq. unfold Chr at 1. rewrite rmatch_Class_hit by reflexivity.
  rewrite rmatch_Seq, greedy_star_none by reflexivity.
  rewrite rmatch_Seq, rmatch_Class_hit by reflexivity.
  rewrite rmatch_Seq, rmatch_Group.
  unfold Plus. rewrite rmatch_Seq, rmatch_Class_hit by reflexivity.
  let x := eval vm_compute in (skipn 1 SELECT_ALL) in change (skipn 1 SELECT_ALL) with x.
  cbn [app].
  repeat (rewrite lazy_star_step by reflexivity).
  erewrite lazy_star_stop.
  2:{ cbv beta. cbn [ahead behind caps].
      rewrite rmatch_Seq, rmatch_Class_hit by reflexivity.
      rewrite rmatch_Seq, greedy_star_none by reflexivity.
      unfold Chr. rewrite rmatch_Class_hit by reflexivity. reflexivity. }
  cbn [ahead behind caps]. rewrite Hlen.
  replace (length (83 :: 69 :: 76 :: 69 :: 67 :: 84 :: 32 :: 42 :: 32 :: 70 :: 82 :: 79
                     :: 77 :: 32 :: 116 :: 95 :: 49 :: DQUOTE :: 41 :: post)%N
           - length (DQUOTE :: 41%N :: post)) with 17 by (cbn [length]; lia).
  reflexivity.
Qed.

Lemma exec_writtenCall (pre post : jsstring) :
  indexOf (pre ++ js "run_sql") (js "run_sql") = Some (length pre) ->
  exec sqlCallQuoted (pre ++ writtenCall ++ post)
  = Some (RResult (rev pre) writtenCall post [(1, SELECT_ALL)]).
Proof.
  intro Hfirst. unfold exec.
  change (writtenCall ++ post)
    with (js "run_sql" ++ (skipn 7 writtenCall ++ post)).
  unfold sqlCallQuoted at 1.
  rewrite searchFrom_skip by exact Hfirst.
  apply searchFrom_hit.
  rewrite app_nil_r. apply matchAt_writtenCall.
Qed.

Lemma detect_writtenCall (now : N) (pre post : jsstring) :
  indexOf (pre ++ js "run_sql") (js "run_sql") = Some (length pre) ->
  detectManualToolCall now (pre ++ writtenCall ++ post)
  = Some {| tc_id := Some (js "manual-sql-" ++ decimal now);
            tc_name := js "run_sql";
            tc_arguments := stringifyQuery SELECT_ALL |}.
Proof.
  intro Hfirst. unfold detectManualToolCall.
  rewrite (exec_writtenCall pre post Hfirst). reflexivity.
Qed.

(** The arguments the rescue writes parse back to the query. *)
Lemma parse_stringifyQuery_fixture :
  JSON_parse (stringifyQuery SELECT_ALL) = Some (VObj [(js "query", VStr SELECT_ALL)]).
Proof. vm_compute. reflexivity. Qed.

(** C6, as the code has it. The rescue runs on an empty buffer only. On a thought in which
    [run_sql("SELECT * FROM t_1")] is the first [run_sql] written, and with
    no structured tool call, it yields exactly one call, of [run_sql], whose
    arguments parse to an object whose [query] is [SELECT * FROM t_1]. With a
    structured tool call in the buffer the buffer is left as it is, whatever
    the thought says, and the clock is not even read. *)
Theorem manual_rescue_only_without_structured_calls (W : World) (pre post : jsstring) :
  indexOf (pre ++ js "run_sql") (js "run_sql") = Some (length pre) ->
  (forall st : AgentState,
      exists call fnArgs,
        rescue (pre ++ writtenCall ++ post) [] st = (Val [Some call], snd (now st))
        /\ tc_name call = js "run_sql"
        /\ JSON_parse (argumentsOrEmpty (tc_arguments call)) = Some fnArgs
        /\ getProp fnArgs (js "query") = Val (VStr SELECT_ALL))
  /\ (forall (thought : jsstring) slot buffer (st : AgentState),
         rescue thought (slot :: buffer) st = (Val (slot :: buffer), st)).
Proof.
  intro Hfirst. split.
  - intro st.
    exists {| tc_id := Some (js "manual-sql-" ++ decimal (Date_now (clock st)));
              tc_name := js "run_sql";
              tc_arguments := stringifyQuery SELECT_ALL |}.
    exists (VObj [(js "query", VStr SELECT_ALL)]).
    split; [|split; [|split]].
    + unfold rescue, bind.
      rewrite (detect_writtenCall (Date_now (clock st)) pre post Hfirst).
      reflexivity.
    + reflexivity.
    + vm_compute. reflexivity.
    + vm_compute. reflexivity.
  - intros thought slot buffer st. reflexivity.
Qed.

(** The fixture after some prose, in a world that says nothing. *)
Lemma manual_rescue_witness :
  indexOf (js "I will now " ++ js "run_sql") (js "run_sql")
  = Some (length (js "I will now "))
  /\ ((forall st : @AgentState silentWorld,
         exists call fnArgs,
           rescue (js "I will now " ++ writtenCall ++ js " and report.") [] st
           = (Val [Some call], snd (now st))
           /\ tc_name call = js "run_sql"
           /\ JSON_parse (argumentsOrEmpty (tc_arguments call)) = Some fnArgs
           /\ getProp fnArgs (js "query") = Val (VStr SELECT_ALL))
      /\ (forall (thought : jsstring) slot buffer (st : @AgentState silentWorld),
             rescue thought (slot :: buffer) st = (Val (slot :: buffer), st))).
Proof.
  split; [vm_compute; reflexivity|].
  apply (manual_rescue_only_without_structured_calls silentWorld
           (js "I will now ") (js " and report.")).
  vm_compute; reflexivity.
Defined.

(** The claim as stated fails: in a text that contains
    [run_sql("SELECT * FROM t_1")] after another written call, and with no
    structured tool call, the call that the rescue synthesizes is the earlier
    one; its query is not [SELECT * FROM t_1]. *)
Lemma earlier_written_call_is_rescued :
  let thought := js "run_sql('a') then " ++ writtenCall in
  let st := initialState (W := silentWorld) (js "how many?") tt in
  includes thought writtenCall = true
  /\ (exists call,
        rescue (W := silentWorld) thought [] st = (Val [Some call], snd (now st))
        /\ tc_name call = js "run_sql"
        /\ JSON_parse (argumentsOrEmpty (tc_arguments call))
           = Some (VObj [(js "query", VStr (js "a"))]))
  /\ js "a" <> SELECT_ALL.
Proof.
  intros thought st. split; [vm_compute; reflexivity|]. split.
  - eexists. split; [vm_compute; reflexivity|].
    split; vm_compute; reflexivity.
  - vm_compute. discriminate.
Qed.

(** ** Running the agent's effects *)

Lemma bind_val {W : World} {A B} (c : M A) (k : A -> M B) st a st1 :
  c st = (Val a, st1) -> bind c k st = k a st1.
Proof. unfold bind. intros ->. reflexivity. Qed.

Lemma bind_thrown {W : World} {A B} (c : M A) (k : A -> M B) st e st1 :
  c st = (Thrown e, st1) -> bind c k st = (Thrown e, st1).
Proof. unfold bind. intros ->. reflexivity. Qed.

Lemma tryCatch_val {W : World} {A} (c : M A) h st a st1 :
  c st = (Val a, st1) -> tryCatch c h st = (Val a, st1).
Proof. unfold tryCatch. intros ->. reflexivity. Qed.

Lemma tryCatch_thrown {W : World} {A} (c : M A) h st e st1 :
  c st = (Thrown e, st1) -> tryCatch c h st = h e st1.
Proof. unfold tryCatch. intros ->. reflexivity. Qed.

Lemma mapLast_snoc {A} (f : A -> A) (l : list A) (x : A) :
  mapLast f (l ++ [x]) = l ++ [f x].
Proof.
  induction l as [|y l IH]; [reflexivity|].
  cbn [app mapLast]. rewrite IH.
  destruct (l ++ [x]) eqn:E; [destruct l; discriminate|reflexivity].
Qed.

Lemma assignLast_snoc {W : World} (f : AgentStep -> AgentStep) (st : AgentState) l x :
  steps st = l ++ [x] ->
  assignLast f st = (Val tt, setSteps (l ++ [f x]) st).
Proof.
  intro Hs. unfold assignLast. rewrite Hs, mapLast_snoc.
  destruct (l ++ [x]) eqn:E; [destruct l; discriminate|reflexivity].
Qed.

Lemma updateLastStep_snoc {W : World} content status (st : AgentState) l x :
  steps st = l ++ [x] ->
  updateLastStep content status st
  = (Val tt, reported (setSteps (l ++ [setStatus status (setContent content x)]) st)).
Proof.
  intro Hs. unfold updateLastStep. rewrite Hs, mapLast_snoc.
  destruct (l ++ [x]) eqn:E; [destruct l; discriminate|reflexivity].
Qed.

Lemma truthy_argumentsOrEmpty (a : jsstring) :
  truthyStr a = true -> argumentsOrEmpty a = a.
Proof. unfold argumentsOrEmpty. intros ->. reflexivity. Qed.

(** Evaluation of the effects whose outcome does not depend on the world. *)
Ltac run :=
  cbn [bind ret throw lift now pushStep onStepUpdate onFinalAnswer pushMessage
       requestStream requestCompletion runSql tryCatch
       steps messages database clock requests stepUpdates finalAnswers
       setSteps setDatabase ticked requested reported answered told fst snd].

(** ** C8: tool calls with malformed arguments *)

(** C8, as the code has it. A tool call whose argument text is not empty
    and does not parse as JSON never reaches its tool: the turn records one
    action step, in error status, with the raw text, then the observation
    that says so, and tells the model; the database, the count of requests
    and the final answers are as before; and the calls that follow in the
    turn are dispatched from there. (An empty argument text is read as
    the empty object and is not an error: see
    [empty_arguments_are_not_an_error].) *)
Theorem malformed_arguments_skip_the_tool (W : World) (question : jsstring)
    (schema : list TableSchema) (toolCall : ToolCall)
    (rest : list (option ToolCall)) (st : AgentState) :
  truthyStr (tc_arguments toolCall) = true ->
  JSON_parse (tc_arguments toolCall) = None ->
  exists st' : AgentState,
    dispatch question schema (Some toolCall) st = (Val tt, st')
    /\ steps st'
       = steps st
           ++ [mkStep (js "action-" ++ decimal (Date_now (clock st))) action
                 (js "Error parsing: " ++ tc_arguments toolCall) error
                 (Some (tc_name toolCall)) None;
               mkStep (js "obs-" ++ decimal (Date_now (S (clock st)))) observation
                 INVALID_JSON_ARGUMENTS complete None None]
    /\ messages st'
       = messages st
           ++ [ToolMessage (tc_id toolCall) (tc_name toolCall) INVALID_JSON_ARGUMENTS]
    /\ database st' = database st
    /\ requests st' = requests st
    /\ finalAnswers st' = finalAnswers st
    /\ dispatchAll question schema (Some toolCall :: rest) st
       = dispatchAll question schema rest st'.
Proof.
  intros Hne Hparse.
  assert (Hd : exists st' : AgentState,
             dispatch question schema (Some toolCall) st = (Val tt, st')
             /\ steps st'
                = (steps st
                     ++ [setStatus error
                           (setContent (js "Error parsing: " ++ tc_arguments toolCall)
                              (mkStep (js "action-" ++ decimal (Date_now (clock st)))
                                 action (js "parsing...") streaming
                                 (Some (tc_name toolCall)) None))])
                    ++ [mkStep (js "obs-" ++ decimal (Date_now (S (clock st))))
                          observation INVALID_JSON_ARGUMENTS complete None None]
             /\ messages st'
                = messages st
                    ++ [ToolMessage (tc_id toolCall) (tc_name toolCall)
                          INVALID_JSON_ARGUMENTS]
             /\ database st' = database st
             /\ requests st' = requests st
             /\ finalAnswers st' = finalAnswers st).
  { eexists. split.
    - unfold dispatch. run.
      rewrite truthy_argumentsOrEmpty by exact Hne. rewrite Hparse.
      erewrite bind_val.
      2:{ erewrite tryCatch_thrown by reflexivity.
          erewrite bind_val by (apply assignLast_snoc; run; reflexivity).
          erewrite bind_val by (apply assignLast_snoc; run; reflexivity).
          run. reflexivity. }
      run. change (negb (truthyStr INVALID_JSON_ARGUMENTS)) with false.
      run. reflexivity.
    - run. repeat split. }
  destruct Hd as [st' [Hd [Hs [Hm [Hdb [Hr Hf]]]]]]. exists st'.
  split; [exact Hd|].
  split; [rewrite Hs, <- app_assoc; reflexivity|].
  repeat (split; [assumption|]).
  cbn [dispatchAll]. erewrite bind_val by exact Hd. reflexivity.
Qed.

Lemma malformed_arguments_witness :
  truthyStr (tc_arguments brokenCall) = true
  /\ JSON_parse (tc_arguments brokenCall) = None
  /\ exists st' : @AgentState silentWorld,
       dispatch (js "how many?") [] (Some brokenCall)
         (initialState (W := silentWorld) (js "how many?") tt)
       = (Val tt, st')
       /\ map step_status (steps st') = [Some error; Some complete].
Proof.
  split; [vm_compute; reflexivity|].
  split; [vm_compute; reflexivity|].
  destruct (malformed_arguments_skip_the_tool (W := silentWorld) (js "how many?") []
              brokenCall [] (initialState (W := silentWorld) (js "how many?") tt))
    as [st' [Hd [Hs _]]]; [vm_compute; reflexivity | vm_compute; reflexivity |].
  exists st'. split; [exact Hd|]. rewrite Hs. reflexivity.
Defined.

(** The claim as stated fails on an empty argument text: [JSON.parse("")]
    throws, yet the call is dispatched with [{}] (line 497), no step is in
    error status, and the tool answers. *)
Lemma empty_arguments_are_not_an_error :
  JSON_parse (tc_arguments emptyArgumentsCall) = None
  /\ (let st' := snd (dispatch (W := silentWorld) (js "how many?") []
                        (Some emptyArgumentsCall)
                        (initialState (W := silentWorld) (js "how many?") tt)) in
      map step_status (steps st') = [Some complete; Some complete]
      /\ map step_content (steps st') = [js "{}"; DATABASE_EMPTY]).
Proof. split; [|split]; vm_compute; reflexivity. Qed.

(** ** C2: the observation of a failed query *)

(** What [run_sql] answers when the engine reports an error (lines 525-527). *)
Lemma invokeTool_sql_error (W : World) (question : jsstring) (schema : list TableSchema)
    (fnArgs query sql : JSVal) (e : jsstring) (st : AgentState) :
  getProp fnArgs (js "query") = Val query ->
  sanitizeSqlAny query = Val sql ->
  qr_error (fst (executeSql sql (database st))) = Some e ->
  truthyStr e = true ->
  invokeTool question schema (js "run_sql") fnArgs st
  = (Val (SQL_ERROR_PREFIX ++ e, Some (ResultQuery (fst (executeSql sql (database st))))),
     setDatabase (snd (executeSql sql (database st))) st).
Proof.
  intros Hq Hsql He Hne. unfold invokeTool.
  change (jseqb (js "run_sql") (js "get_database_schema")) with false.
  change (jseqb (js "run_sql") (js "run_sql")) with true.
  cbv iota. rewrite Hq. run. rewrite Hsql. run.
  rewrite He. cbn [truthyOpt textOf]. rewrite Hne. run. reflexivity.
Qed.

(** C2, as the code has it. When [executeSql] reports an error, the
    observation of the [run_sql] call, in the step log and in the message
    sent back to the model, is the text [SQL 执行错误: ] followed by
    the engine's message: the message is there character for character,
    after that prefix. *)
Theorem sql_error_observation_is_prefixed (W : World) (question : jsstring)
    (schema : list TableSchema) (toolCall : ToolCall)
    (fnArgs query sql : JSVal) (text e : jsstring) (st : AgentState) :
  tc_name toolCall = js "run_sql" ->
  JSON_parse (argumentsOrEmpty (tc_arguments toolCall)) = Some fnArgs ->
  JSON_stringify fnArgs = Val (Some text) ->
  getProp fnArgs (js "query") = Val query ->
  sanitizeSqlAny query = Val sql ->
  qr_error (fst (executeSql sql (database st))) = Some e ->
  truthyStr e = true ->
  exists st' : AgentState,
    dispatch question schema (Some toolCall) st = (Val tt, st')
    /\ steps st'
       = steps st
           ++ [mkStep (js "action-" ++ decimal (Date_now (clock st))) action text
                 complete (Some (js "run_sql")) None;
               mkStep (js "obs-" ++ decimal (Date_now (S (clock st)))) observation
                 (SQL_ERROR_PREFIX ++ e) complete None
                 (Some (ResultQuery (fst (executeSql sql (database st)))))]
    /\ messages st'
       = messages st ++ [ToolMessage (tc_id toolCall) (js "run_sql") (SQL_ERROR_PREFIX ++ e)].
Proof.
  intros Hname Hparse Htext Hq Hsql He Hne.
  eexists. split.
  - unfold dispatch. rewrite Hname. run. rewrite Hparse.
    erewrite bind_val.
    2:{ erewrite tryCatch_val; [reflexivity|].
        unfold stringifyText. rewrite Htext. run.
        erewrite bind_val by (apply assignLast_snoc; run; reflexivity).
        erewrite bind_val by (apply assignLast_snoc; run; reflexivity).
        run. reflexivity. }
    run. cbn [truthyStr negb].
    erewrite bind_val
      by (eapply invokeTool_sql_error; eassumption).
    run. reflexivity.
  - run. split; [rewrite <- app_assoc|]; reflexivity.
Qed.

Lemma sql_error_observation_witness :
  exists st' : @AgentState silentWorld,
    dispatch (js "how many?") [] (Some missingTableCall)
      (initialState (W := silentWorld) (js "how many?") tt) = (Val tt, st')
    /\ map step_content (steps st')
       = [stringifyQuery (js "SELECT * FROM t_9"); SQL_ERROR_PREFIX ++ ENGINE_MESSAGE].
Proof.
  destruct (sql_error_observation_is_prefixed (W := silentWorld) (js "how many?") []
              missingTableCall
              (fnArgs := VObj [(js "query", VStr (js "SELECT * FROM t_9"))])
              (query := VStr (js "SELECT * FROM t_9"))
              (sql := VStr (js "SELECT * FROM t_9"))
              (text := stringifyQuery (js "SELECT * FROM t_9"))
              (e := ENGINE_MESSAGE)
              (initialState (W := silentWorld) (js "how many?") tt))
    as [st' [Hd [Hs _]]];
    [vm_compute; reflexivity .. |].
  exists st'. split; [exact Hd|]. rewrite Hs. reflexivity.
Defined.

(** The claim as stated fails: the observation is not the engine's message
    alone, the prefix comes first. *)
Lemma sql_error_observation_is_not_verbatim :
  let st' := snd (dispatch (W := silentWorld) (js "how many?") []
                    (Some missingTableCall)
                    (initialState (W := silentWorld) (js "how many?") tt)) in
  qr_error (fst (executeSql (W := silentWorld) (VStr (js "SELECT * FROM t_9")) tt))
  = Some ENGINE_MESSAGE
  /\ option_map step_content (last (map Some (steps st')) None)
     = Some (js "SQL 执行错误: Table does not exist: t_9")
  /\ option_map step_content (last (map Some (steps st')) None) <> Some ENGINE_MESSAGE.
Proof.
  split; [vm_compute; reflexivity|].
  split; [vm_compute; reflexivity|].
  vm_compute. discriminate.
Qed.

(** ** C7: the compression fold *)

(** C7, as the code has it. In a round of the fold, a batch the model
    answers replaces the accumulated text by the answer (trimmed), whatever
    the text was; a batch the model fails on appends the raw-JSON marker of
    that batch to the accumulated text; either way the fold goes on with the
    next batch, whose prompt shows the text accumulated so far. The result
    of the fold is the outcome of its last round: the earlier text followed
    by the marker if the last batch fails, and the answer to the last batch
    alone if the model answers it, whatever was accumulated before. *)
Theorem compression_round_replaces_or_appends (W : World) (question sql : jsstring)
    (total : nat) (BATCH_SIZE : spec_float) (onProgress : jsstring -> M unit)
    (i : nat) (batch : list JSVal) (rest : list (list JSVal))
    (acc batchJson : jsstring) (st st1 : AgentState) :
  onProgress (progressMessage i total BATCH_SIZE) st = (Val tt, st1) ->
  JSON_stringify (VArr batch) = Val (Some batchJson) ->
  let prompt := compressionPrompt question sql acc batchJson in
  let next := compressLoop question sql total BATCH_SIZE onProgress (S i) rest in
  (forall content,
      chatCompletion (requests st1) prompt = Completed content ->
      compressLoop question sql total BATCH_SIZE onProgress i (batch :: rest) acc st
      = next (newContentOf content) (requested st1))
  /\ (forall e,
         chatCompletion (requests st1) prompt = Refused e ->
         compressLoop question sql total BATCH_SIZE onProgress i (batch :: rest) acc st
         = next (acc ++ rawMarker i batchJson) (requested st1))
  /\ (forall e,
         chatCompletion (requests st1) prompt = Refused e ->
         rest = [] ->
         compressLoop question sql total BATCH_SIZE onProgress i (batch :: rest) acc st
         = (Val (acc ++ [LF] ++ js "[Batch " ++ decimal (N.of_nat i) ++ js " Raw]: "
                   ++ batchJson), requested st1))
  /\ (forall content,
         chatCompletion (requests st1) prompt = Completed content ->
         rest = [] ->
         compressLoop question sql total BATCH_SIZE onProgress i (batch :: rest) acc st
         = (Val (newContentOf content), requested st1))
  /\ (exists before after : jsstring,
         prompt = before ++ previousContext acc ++ after).
Proof.
  intros Hprogress Hjson prompt next.
  assert (Hround : forall out,
             chatCompletion (requests st1) prompt = out ->
             compressBatch question sql total BATCH_SIZE onProgress i batch acc st
             = (Val match out with
                    | Completed content => newContentOf content
                    | Refused _ => acc ++ rawMarker i batchJson
                    end, requested st1)).
  { intros out Hout. unfold compressBatch.
    erewrite bind_val by exact Hprogress.
    unfold stringifyText. rewrite Hjson. run.
    fold prompt. rewrite Hout. destruct out; reflexivity. }
  repeat split.
  - intros content Hout. cbn [compressLoop].
    erewrite bind_val by (apply Hround; exact Hout). reflexivity.
  - intros e Hout. cbn [compressLoop].
    erewrite bind_val by (apply Hround; exact Hout). reflexivity.
  - intros e Hout ->. cbn [compressLoop].
    erewrite bind_val by (apply Hround; exact Hout). reflexivity.
  - intros content Hout ->. cbn [compressLoop].
    erewrite bind_val by (apply Hround; exact Hout). reflexivity.
  - unfold prompt, compressionPrompt.
    eexists. eexists.
    repeat rewrite <- app_assoc.
    repeat (rewrite (app_assoc _ _ (previousContext acc ++ _))).
    reflexivity.
Qed.

(** A fold of one batch whose round fails: the result is the marker. *)
Lemma compression_round_witness :
  let W := forgetfulWorld in
  let st := requested (initialState (W := forgetfulWorld) (js "how many?") tt) in
  JSON_stringify (W := forgetfulWorld) (VArr oneRow)
  = Val (Some (js "[{" ++ quoted (js "a") ++ js ":" ++ quoted (js "x") ++ js "}]"))
  /\ compressLoop (W := forgetfulWorld) (js "how many?") (js "SELECT a FROM t_1") 1
       (num 99) (fun _ => ret tt) 0 [oneRow] (js "so far") st
     = (Val (js "so far" ++ [LF] ++ js "[Batch 0 Raw]: [{" ++ quoted (js "a") ++ js ":"
               ++ quoted (js "x") ++ js "}]"), requested st).
Proof.
  intros W st. split; [vm_compute; reflexivity|].
  destruct (@compression_round_replaces_or_appends forgetfulWorld
              (js "how many?") (js "SELECT a FROM t_1") 1 (num 99)
              (fun _ => ret tt) 0 oneRow [] (js "so far")
              (js "[{" ++ quoted (js "a") ++ js ":" ++ quoted (js "x") ++ js "}]")
              st st)
    as [_ [_ [Hlast _]]];
    [vm_compute; reflexivity | vm_compute; reflexivity |].
  apply (Hlast (Failure (Some (js "rate limit")))); vm_compute; reflexivity.
Defined.

(** The claim's last clause fails: of three batches the second fails and the
    third is answered, and the final text is that answer alone; it carries
    neither the first answer nor the raw rows of the second batch. *)
Lemma later_answer_replaces_the_fallback :
  let run :=
    smartCompressData (W := forgetfulWorld) manyRows (js "how many?")
      (js "SELECT a FROM t_1") (fun _ => ret tt)
      (initialState (W := forgetfulWorld) (js "how many?") tt) in
  fst run = Val (js "X")
  /\ requests (snd run) = 3
  /\ includes (js "X") (js "rows seen: 84") = false
  /\ includes (js "X") (js "[Batch 1 Raw]") = false.
Proof. repeat split; vm_compute; reflexivity. Qed.

(** ** The stream of one turn *)

Lemma lastStatus_snoc (l : list AgentStep) (s : AgentStep) :
  lastStatus (l ++ [s]) = step_status s.
Proof. unfold lastStatus. rewrite rev_app_distr. reflexivity. Qed.

Lemma thoughtAfter_silent (ds : list Delta) :
  forall t, existsb spoken ds = false -> thoughtAfter ds t = t.
Proof.
  induction ds as [|d ds IH]; intros t Hno; [reflexivity|].
  cbn [existsb] in Hno. apply orb_false_iff in Hno. destruct Hno as [Hd Hds].
  cbn [thoughtAfter fold_left]. rewrite Hd. apply IH. exact Hds.
Qed.

Lemma thoughtAfter_grows (ds : list Delta) :
  forall t, exists suffix, thoughtAfter ds t = t ++ suffix.
Proof.
  induction ds as [|d ds IH]; intro t.
  - exists []. symmetry. apply app_nil_r.
  - cbn [thoughtAfter fold_left]. destruct (spoken d).
    + destruct (IH (t ++ replaceAll closingToolCall [] (textOf (delta_content d))))
        as [suffix Hs].
      eexists. unfold thoughtAfter in Hs. rewrite Hs, <- app_assoc. reflexivity.
    + apply IH.
Qed.

(** The parser writes to the step log only: once a delta has spoken, the
    last step holds, in streaming status, the thought assembled so far. *)
Lemma receive_spec (W : World) (ds : list Delta) :
  forall (t : jsstring) (b : list (option ToolCall)) (st : AgentState) l x,
    steps st = l ++ [x] ->
    exists st' : AgentState,
      receive ds t b st = (Val (thoughtAfter ds t, callsAfter ds b), st')
      /\ steps st'
         = l ++ [if existsb spoken ds
                 then setStatus streaming (setContent (thoughtAfter ds t) x)
                 else x]
      /\ messages st' = messages st
      /\ database st' = database st
      /\ clock st' = clock st
      /\ requests st' = requests st
      /\ finalAnswers st' = finalAnswers st.
Proof.
  induction ds as [|d ds IH]; intros t b st l x Hs.
  - exists st. cbn [receive]. repeat split; try reflexivity. exact Hs.
  - cbn [receive thoughtAfter callsAfter fold_left existsb]. fold (spoken d).
    destruct (spoken d) eqn:Hd.
    + erewrite bind_val.
      2:{ erewrite bind_val by (apply updateLastStep_snoc; exact Hs). reflexivity. }
      set (t1 := t ++ replaceAll closingToolCall [] (textOf (delta_content d))).
      destruct (IH t1
                  (match delta_tool_calls d with
                   | Some tcs => fold_left applyFragment tcs b
                   | None => b
                   end)
                  (reported (setSteps (l ++ [setStatus streaming (setContent t1 x)]) st))
                  l (setStatus streaming (setContent t1 x)) eq_refl)
        as [st' [Hr [Hsteps Hframe]]].
      exists st'. split; [exact Hr|]. split; [|exact Hframe].
      rewrite Hsteps. cbn [orb]. fold (thoughtAfter ds t1).
      destruct (existsb spoken ds) eqn:Hlater.
      * reflexivity.
      * rewrite (thoughtAfter_silent ds t1 Hlater). reflexivity.
    + erewrite bind_val by reflexivity.
      destruct (IH t
                  (match delta_tool_calls d with
                   | Some tcs => fold_left applyFragment tcs b
                   | None => b
                   end) st l x Hs) as [st' [Hr Hrest]].
      exists st'. split; [exact Hr|exact Hrest].
Qed.

Lemma iterate_unfold (W : World) question schema (st : AgentState) :
  iterate question schema st = tryCatch (attempt question schema) recover (opened st).
Proof. reflexivity. Qed.

Lemma recover_spec (W : World) (e : Exn) (st : AgentState) :
  recover e st = (Val Break, reported (setSteps (steps st ++ [errorStep e st]) (ticked st))).
Proof. reflexivity. Qed.

(** ** C10: a step left in streaming status *)

(** C10. When the [try] block of an iteration throws while the last step of
    the log is in streaming status, the loop ends with that iteration, the
    error is recorded in one new step in error status appended after it, and
    the earlier step is in the final log as it was, still in streaming
    status. *)
Theorem interrupted_step_stays_streaming (W : World) (question : jsstring)
    (schema : list TableSchema) (remaining iteration : nat)
    (st st1 : AgentState) (e : Exn) (l : list AgentStep) (s : AgentStep) :
  attempt question schema (opened st) = (Thrown e, st1) ->
  steps st1 = l ++ [s] ->
  step_status s = Some streaming ->
  exists stF : AgentState,
    agentLoop question schema (S remaining) iteration st = (Val (S iteration), stF)
    /\ steps stF = l ++ [s; errorStep e st1]
    /\ nth_error (steps stF) (length l) = Some s
    /\ option_map step_status (nth_error (steps stF) (length l)) = Some (Some streaming)
    /\ lastStatus (steps stF) = Some error.
Proof.
  intros Hthrow Hsteps Hstreaming.
  exists (reported (setSteps (steps st1 ++ [errorStep e st1]) (ticked st1))).
  assert (Hlog : steps (reported (setSteps (steps st1 ++ [errorStep e st1]) (ticked st1)))
                 = l ++ [s; errorStep e st1]).
  { run. rewrite Hsteps, <- app_assoc. reflexivity. }
  assert (Hnth : nth_error (l ++ [s; errorStep e st1]) (length l) = Some s).
  { rewrite nth_error_app2 by lia. rewrite Nat.sub_diag. reflexivity. }
  split.
  - cbn [agentLoop]. erewrite bind_val.
    2:{ rewrite iterate_unfold. erewrite tryCatch_thrown by exact Hthrow.
        apply recover_spec. }
    reflexivity.
  - rewrite Hlog, Hnth. repeat split.
    + cbn [option_map]. rewrite Hstreaming. reflexivity.
    + change (l ++ [s; errorStep e st1]) with (l ++ [s] ++ [errorStep e st1]).
      rewrite app_assoc. apply lastStatus_snoc.
Qed.

(** A transport failure is such a throw: whatever arrived before the
    stream broke, the thought step the iteration opened is still the last
    step, in streaming status, when the error is caught. *)
Lemma transport_failure_leaves_thought_streaming (W : World) (question : jsstring)
    (schema : list TableSchema) (st : AgentState) (e : Exn) :
  interrupted (chatStream (requests st) (messages st)) = Some e ->
  exists (st1 : AgentState) (s : AgentStep),
    attempt question schema (opened st) = (Thrown e, st1)
    /\ steps st1 = steps st ++ [s]
    /\ step_status s = Some streaming
    /\ step_type s = thought.
Proof.
  intro Hbroken. unfold attempt. run.
  change (requests (opened st)) with (requests st).
  change (messages (opened st)) with (messages st).
  destruct (receive_spec (deltas (chatStream (requests st) (messages st))) [] []
              (requested (opened st)) (steps st) (openedStep st) eq_refl)
    as [st1 [Hr [Hsteps _]]].
  exists st1. eexists. split; [|split; [exact Hsteps|]].
  - erewrite bind_val by exact Hr. cbv iota. rewrite Hbroken. reflexivity.
  - destruct (existsb spoken (deltas (chatStream (requests st) (messages st))));
      split; reflexivity.
Qed.

Lemma interrupted_step_witness :
  let st := initialState (W := brokenStreamWorld) (js "how many?") tt in
  let thrown := attempt (W := brokenStreamWorld) (js "how many?") [] (opened st) in
  thrown = (Thrown (Failure (Some (js "Connection error."))), snd thrown)
  /\ steps (snd thrown) = [] ++ [streamingThought]
  /\ step_status streamingThought = Some streaming
  /\ exists stF : @AgentState brokenStreamWorld,
       agentLoop (js "how many?") [] 50 0 st = (Val 1, stF)
       /\ map step_status (steps stF) = [Some streaming; Some error]
       /\ map step_content (steps stF)
          = [js "Let me look at"; js "Agent Error: Connection error."].
Proof.
  intros st thrown.
  assert (H1 : thrown = (Thrown (Failure (Some (js "Connection error."))), snd thrown))
    by (vm_compute; reflexivity).
  assert (H2 : steps (snd thrown) = [] ++ [streamingThought])
    by (vm_compute; reflexivity).
  split; [exact H1|]. split; [exact H2|]. split; [reflexivity|].
  destruct (@interrupted_step_stays_streaming brokenStreamWorld (js "how many?") []
              49 0 st (snd thrown) (Failure (Some (js "Connection error."))) []
              streamingThought H1 H2 eq_refl)
    as [stF [Hloop [Hlog _]]].
  exists stF. split; [exact Hloop|]. rewrite Hlog. split; vm_compute; reflexivity.
Defined.

(** ** C1: a turn with nothing in it *)

Lemma detect_nothing_in_empty_text (now : N) : detectManualToolCall now [] = None.
Proof. reflexivity. Qed.

(** C1, as the code has it. An iteration whose turn assembles no tool call
    and an empty thought (so that the rescue finds nothing either) is the
    last one: the loop ends there, whatever remains of the budget, with no
    retry (one request was made in the iteration and none follows), no
    final answer and nothing added to the conversation; the step it opened
    is marked complete with empty content. *)
Theorem empty_turn_ends_the_loop (W : World) (question : jsstring)
    (schema : list TableSchema) (remaining iteration : nat) (st : AgentState) :
  let stream := chatStream (requests st) (messages st) in
  interrupted stream = None ->
  callsAfter (deltas stream) [] = [] ->
  thoughtAfter (deltas stream) [] = [] ->
  exists stF : AgentState,
    agentLoop question schema (S remaining) iteration st = (Val (S iteration), stF)
    /\ steps stF
       = steps st
           ++ [mkStep (js "step-" ++ decimal (Date_now (clock st))) thought []
                 complete None None]
    /\ finalAnswers stF = finalAnswers st
    /\ messages stF = messages st
    /\ requests stF = S (requests st).
Proof.
  intros stream Hok Hcalls Hthought.
  destruct (receive_spec (deltas stream) [] [] (requested (opened st))
              (steps st) (openedStep st) eq_refl)
    as [st1 [Hr [Hsteps [Hm [_ [_ [Hq Hf]]]]]]].
  rewrite Hcalls, Hthought in Hr.
  assert (Hlast : steps st1 = steps st ++ [openedStep st]).
  { rewrite Hsteps, Hthought.
    destruct (existsb spoken (deltas stream)); reflexivity. }
  eexists. split.
  - cbn [agentLoop]. erewrite bind_val.
    2:{ rewrite iterate_unfold. erewrite tryCatch_val; [reflexivity|].
        unfold attempt. run.
        change (requests (opened st)) with (requests st).
        change (messages (opened st)) with (messages st).
        fold stream. erewrite bind_val by exact Hr.
        cbv iota. rewrite Hok.
        erewrite bind_val by (apply updateLastStep_snoc; exact Hlast).
        erewrite (bind_val (rescue [] [])) by reflexivity.
        run. reflexivity. }
    reflexivity.
  - run. repeat split; assumption || reflexivity.
Qed.

Lemma empty_turn_witness :
  let st := initialState (W := silentWorld) (js "how many?") tt in
  let stream := @chatStream silentWorld (requests st) (messages st) in
  interrupted stream = None
  /\ callsAfter (deltas stream) [] = []
  /\ thoughtAfter (deltas stream) [] = []
  /\ exists stF : @AgentState silentWorld,
       agentLoop (js "how many?") [] 50 0 st = (Val 1, stF)
       /\ finalAnswers stF = []
       /\ requests stF = 1.
Proof.
  intros st stream.
  split; [reflexivity|]. split; [reflexivity|]. split; [reflexivity|].
  destruct (@empty_turn_ends_the_loop silentWorld (js "how many?") [] 49 0 st
              eq_refl eq_refl eq_refl)
    as [stF [Hloop [_ [Hf [_ Hq]]]]].
  exists stF. split; [exact Hloop|]. split; [exact Hf|exact Hq].
Defined.

(** The claim as stated fails: a model that says nothing is asked once,
    not until the budget of 50 iterations is spent. *)
Lemma silent_model_is_not_asked_again :
  let run := runAgent (W := silentWorld) (js "how many?") [] settings0 tt in
  fst run = Val 1
  /\ fst run <> Val MAX_ITERATIONS
  /\ requests (snd run) = 1
  /\ finalAnswers (snd run) = [].
Proof.
  split; [vm_compute; reflexivity|].
  split; [vm_compute; discriminate|].
  split; vm_compute; reflexivity.
Qed.

(** ** C9: the iteration budget *)

Lemma keeps_ret {W : World} {A} (a : A) : keepsAnswers (ret a).
Proof. intro st. reflexivity. Qed.

Lemma keeps_throw {W : World} {A} (e : Exn) : keepsAnswers (@throw W A e).
Proof. intro st. reflexivity. Qed.

Lemma keeps_lift {W : World} {A} (r : res A) : keepsAnswers (lift r).
Proof. destruct r; intro st; reflexivity. Qed.

Lemma keeps_bind {W : World} {A B} (c : M A) (k : A -> M B) :
  keepsAnswers c -> (forall a, keepsAnswers (k a)) -> keepsAnswers (bind c k).
Proof.
  intros Hc Hk st. unfold bind. specialize (Hc st).
  destruct (c st) as [[a|e] st1]; cbn [snd] in *.
  - rewrite Hk. exact Hc.
  - exact Hc.
Qed.

Lemma keeps_tryCatch {W : World} {A} (c : M A) (h : Exn -> M A) :
  keepsAnswers c -> (forall e, keepsAnswers (h e)) -> keepsAnswers (tryCatch c h).
Proof.
  intros Hc Hh st. unfold tryCatch. specialize (Hc st).
  destruct (c st) as [[a|e] st1]; cbn [snd] in *.
  - exact Hc.
  - rewrite Hh. exact Hc.
Qed.

Lemma keeps_now {W : World} : keepsAnswers now.
Proof. intro st. reflexivity. Qed.

Lemma keeps_pushStep {W : World} (s : AgentStep) : keepsAnswers (pushStep s).
Proof. intro st. reflexivity. Qed.

Lemma keeps_onStepUpdate {W : World} : keepsAnswers onStepUpdate.
Proof. intro st. reflexivity. Qed.

Lemma keeps_pushMessage {W : World} (m : Message) : keepsAnswers (pushMessage m).
Proof. intro st. reflexivity. Qed.

Lemma keeps_assignLast {W : World} f : keepsAnswers (assignLast f).
Proof. intro st. unfold assignLast. destruct (steps st); reflexivity. Qed.

Lemma keeps_updateLastStep {W : World} c s : keepsAnswers (updateLastStep c s).
Proof. intro st. unfold updateLastStep. destruct (steps st); reflexivity. Qed.

Lemma keeps_requestCompletion {W : World} p : keepsAnswers (requestCompletion p).
Proof. intro st. reflexivity. Qed.

Lemma keeps_runSql {W : World} sql : keepsAnswers (runSql sql).
Proof. intro st. reflexivity. Qed.

Ltac keeps :=
  repeat first
    [ apply keeps_ret | apply keeps_throw | apply keeps_lift | apply keeps_now
    | apply keeps_pushStep | apply keeps_onStepUpdate | apply keeps_pushMessage
    | apply keeps_assignLast | apply keeps_updateLastStep
    | apply keeps_requestCompletion | apply keeps_runSql
    | apply keeps_bind | apply keeps_tryCatch
    | progress intros
    | match goal with
      | |- keepsAnswers (match ?x with _ => _ end) => destruct x
      | |- keepsAnswers (if ?b then _ else _) => destruct b
      end ].

Lemma keeps_compressionProgress {W : World} msg : keepsAnswers (compressionProgress msg).
Proof.
  intro st. unfold compressionProgress.
  destruct (rev (steps st)) as [|lastStep ?]; [reflexivity|].
  destruct (step_type lastStep); try reflexivity.
  destruct (startsWith (step_id lastStep) (js "compress")); [|reflexivity].
  revert st. change (keepsAnswers (assignLast (setContent msg) ;; onStepUpdate)%agent).
  keeps.
Qed.

Lemma keeps_compressLoop {W : World} question sql total size onProgress :
  (forall msg, keepsAnswers (onProgress msg)) ->
  forall batches i acc,
    keepsAnswers (compressLoop question sql total size onProgress i batches acc).
Proof.
  intro Hp. induction batches as [|batch rest IH]; intros i acc; cbn [compressLoop].
  - keeps.
  - apply keeps_bind; [|intro; apply IH].
    unfold compressBatch, stringifyText. apply keeps_bind; [apply Hp|]. keeps.
Qed.

Lemma keeps_smartCompressData {W : World} data question sql onProgress :
  (forall msg, keepsAnswers (onProgress msg)) ->
  keepsAnswers (smartCompressData data question sql onProgress).
Proof.
  intro Hp. unfold smartCompressData. destruct data; [keeps|].
  apply keeps_compressLoop. exact Hp.
Qed.

Lemma keeps_compressResult {W : World} question sql data :
  keepsAnswers (compressResult question sql data).
Proof.
  unfold compressResult, stringifyText. apply keeps_tryCatch; [|keeps].
  apply keeps_bind; [keeps|intro]. apply keeps_bind; [keeps|intro].
  apply keeps_bind; [|keeps].
  apply keeps_smartCompressData. apply keeps_compressionProgress.
Qed.

Lemma keeps_invokeTool {W : World} question schema fnName fnArgs :
  keepsAnswers (invokeTool question schema fnName fnArgs).
Proof.
  unfold invokeTool.
  destruct (jseqb fnName (js "get_database_schema")); [keeps|].
  destruct (jseqb fnName (js "run_sql")); [|keeps].
  apply keeps_bind; [keeps|intro]. apply keeps_bind; [keeps|intro].
  apply keeps_bind; [keeps|intro]. apply keeps_bind; [|keeps].
  destruct (truthyOpt (qr_error a1)); [keeps|].
  destruct (qr_data a1); [keeps|]. apply keeps_compressResult.
Qed.

Lemma keeps_dispatch {W : World} question schema slot :
  keepsAnswers (dispatch question schema slot).
Proof.
  unfold dispatch, stringifyText. destruct slot as [toolCall|]; [|keeps].
  apply keeps_bind; [keeps|intro]. apply keeps_bind; [keeps|intro].
  apply keeps_bind; [keeps|intros [fnArgs resultString0]].
  apply keeps_bind; [|intros [resultString resultData]; keeps].
  destruct (negb (truthyStr resultString0)); [apply keeps_invokeTool|keeps].
Qed.

Lemma keeps_dispatchAll {W : World} question schema buffer :
  keepsAnswers (dispatchAll question schema buffer).
Proof.
  induction buffer as [|slot rest IH]; cbn [dispatchAll]; [keeps|].
  apply keeps_bind; [apply keeps_dispatch|intro; exact IH].
Qed.

(** An iteration never throws: its [catch] turns every error into a step. *)
Lemma iterate_total (W : World) question schema (st : AgentState) :
  exists c st', iterate question schema st = (Val c, st').
Proof.
  rewrite iterate_unfold. unfold tryCatch.
  destruct (attempt question schema (opened st)) as [[c|e] st1].
  - exists c, st1. reflexivity.
  - rewrite recover_spec. eexists. eexists. reflexivity.
Qed.

(** The loop makes at least one and at most [remaining] iterations. *)
Lemma agentLoop_bounded (W : World) question schema :
  forall remaining iteration (st : AgentState),
    exists n stF,
      agentLoop question schema remaining iteration st = (Val n, stF)
      /\ iteration <= n <= iteration + remaining
      /\ (0 < remaining -> iteration < n).
Proof.
  induction remaining as [|remaining IH]; intros iteration st.
  - exists iteration, st. split; [reflexivity|]. lia.
  - cbn [agentLoop].
    destruct (@iterate_total W question schema st) as [c [st' Hi]].
    erewrite bind_val by exact Hi. destruct c.
    + destruct (IH (S iteration) st') as [n [stF [Hl [Hb _]]]].
      exists n, stF. split; [exact Hl|]. lia.
    + exists (S iteration), st'. split; [reflexivity|]. lia.
Qed.

(** A turn that assembles tool calls reports no final answer, and goes on
    to the next iteration unless a dispatch throws. *)
Lemma iterate_with_calls (W : World) question schema (st : AgentState) :
  interrupted (chatStream (requests st) (messages st)) = None ->
  callsAfter (deltas (chatStream (requests st) (messages st))) [] <> [] ->
  exists c st',
    iterate question schema st = (Val c, st')
    /\ finalAnswers st' = finalAnswers st
    /\ (c = Break -> lastStatus (steps st') = Some error).
Proof.
  intros Hok Hcalls. set (stream := chatStream (requests st) (messages st)) in *.
  destruct (receive_spec (deltas stream) [] [] (requested (opened st))
              (steps st) (openedStep st) eq_refl)
    as [st1 [Hr [Hsteps [_ [_ [_ [_ Hf]]]]]]].
  destruct (callsAfter (deltas stream) []) as [|slot buffer] eqn:Hbuf;
    [contradiction|].
  assert (Hattempt :
            attempt question schema (opened st)
            = (let body :=
                 (updateLastStep (thoughtAfter (deltas stream) []) complete ;;
                  pushMessage (AssistantToolCalls (slot :: buffer)) ;;
                  dispatchAll question schema (slot :: buffer) ;;
                  ret Continue)%agent in
               body st1)).
  { unfold attempt. run.
    change (requests (opened st)) with (requests st).
    change (messages (opened st)) with (messages st).
    fold stream. erewrite bind_val by exact Hr.
    cbv iota. rewrite Hok. reflexivity. }
  assert (Hkeeps : forall s0,
             finalAnswers
               (snd ((updateLastStep (thoughtAfter (deltas stream) []) complete ;;
                      pushMessage (AssistantToolCalls (slot :: buffer)) ;;
                      dispatchAll question schema (slot :: buffer) ;;
                      ret Continue)%agent s0))
             = finalAnswers s0).
  { apply keeps_bind; [keeps|intro]. apply keeps_bind; [keeps|intro].
    apply keeps_bind; [apply keeps_dispatchAll|keeps]. }
  assert (Hcontinue : forall s0 c s1,
             (updateLastStep (thoughtAfter (deltas stream) []) complete ;;
              pushMessage (AssistantToolCalls (slot :: buffer)) ;;
              dispatchAll question schema (slot :: buffer) ;;
              ret Continue)%agent s0 = (Val c, s1) -> c = Continue).
  { intros s0 c s1. unfold bind.
    destruct (updateLastStep _ _ s0) as [[?|?] ?]; [|discriminate].
    destruct (pushMessage _ _) as [[?|?] ?]; [|discriminate].
    destruct (dispatchAll _ _ _ _) as [[?|?] ?]; [|discriminate].
    cbn [ret]. intro Heq. inversion Heq. reflexivity. }
  cbv zeta in Hattempt.
  rewrite iterate_unfold. unfold tryCatch. rewrite Hattempt.
  specialize (Hkeeps st1). 
  destruct ((updateLastStep (thoughtAfter (deltas stream) []) complete ;;
             pushMessage (AssistantToolCalls (slot :: buffer)) ;;
             dispatchAll question schema (slot :: buffer) ;;
             ret Continue)%agent st1) as [[c|e] st2] eqn:Hbody; cbn [snd] in Hkeeps.
  - exists c, st2. split; [reflexivity|].
    split; [rewrite Hkeeps, Hf; reflexivity|].
    intro Hb. rewrite (Hcontinue _ _ _ Hbody) in Hb. discriminate.
  - rewrite recover_spec. eexists. eexists. split; [reflexivity|].
    split; [run; rewrite Hkeeps, Hf; reflexivity|].
    intros _. run. apply lastStatus_snoc.
Qed.

Lemma agentLoop_with_calls (W : World) question schema :
  alwaysCalls W ->
  forall remaining iteration (st : AgentState),
    exists n stF,
      agentLoop question schema remaining iteration st = (Val n, stF)
      /\ finalAnswers stF = finalAnswers st
      /\ (n = iteration + remaining \/ lastStatus (steps stF) = Some error).
Proof.
  intros Hcalls. induction remaining as [|remaining IH]; intros iteration st.
  - exists iteration, st. split; [reflexivity|]. split; [reflexivity|]. left. lia.
  - cbn [agentLoop].
    destruct (@iterate_with_calls W question schema st
                (proj1 (Hcalls _ _)) (proj2 (Hcalls _ _)))
      as [c [st' [Hi [Hf Hbreak]]]].
    erewrite bind_val by exact Hi. destruct c.
    + destruct (IH (S iteration) st') as [n [stF [Hl [Hf' Hend]]]].
      exists n, stF. split; [exact Hl|]. split; [congruence|].
      destruct Hend as [Hn|He]; [left; lia|right; exact He].
    + exists (S iteration), st'. split; [reflexivity|]. split; [exact Hf|].
      right. apply Hbreak. reflexivity.
Qed.

(** C9. With a credential, [runAgent] makes at least one and at most
    [MAX_ITERATIONS] = 50 iterations, whatever the model, the engine and the
    clock do. When every turn of the model assembles tool calls, no final
    answer is ever reported, and the session ends either after the 50th
    iteration or, earlier, on an error thrown while dispatching, which is
    its last step. *)
Theorem loop_ends_within_the_budget (W : World) (question : jsstring)
    (schema : list TableSchema) (settings : AppSettings) (db : DB) :
  truthyStr (apiKey settings) = true ->
  MAX_ITERATIONS = 50
  /\ (exists n, fst (runAgent question schema settings db) = Val n
                /\ 1 <= n <= MAX_ITERATIONS)
  /\ (alwaysCalls W ->
      finalAnswers (snd (runAgent question schema settings db)) = []
      /\ (fst (runAgent question schema settings db) = Val MAX_ITERATIONS
          \/ lastStatus (steps (snd (runAgent question schema settings db)))
             = Some error)).
Proof.
  intro Hkey. unfold runAgent. rewrite Hkey. cbn [negb].
  split; [reflexivity|]. split.
  - destruct (@agentLoop_bounded W question schema MAX_ITERATIONS 0
                (initialState question db)) as [n [stF [Hl [Hb Hpos]]]].
    exists n. rewrite Hl. split; [reflexivity|].
    assert (0 < MAX_ITERATIONS) by (unfold MAX_ITERATIONS; lia). lia.
  - intro Hcalls.
    destruct (@agentLoop_with_calls W question schema Hcalls MAX_ITERATIONS 0
                (initialState question db)) as [n [stF [Hl [Hf Hend]]]].
    rewrite Hl. cbn [fst snd]. split; [exact Hf|].
    destruct Hend as [Hn|He]; [left; rewrite Hn; reflexivity|right; exact He].
Qed.

Lemma loop_budget_witness :
  truthyStr (apiKey settings0) = true
  /\ fst (runAgent (W := schemaForeverWorld) (js "how many?") [] settings0 tt)
     = Val 50
  /\ finalAnswers (snd (runAgent (W := schemaForeverWorld) (js "how many?") []
                          settings0 tt)) = [].
Proof.
  split; [reflexivity|].
  destruct (@loop_ends_within_the_budget schemaForeverWorld (js "how many?") []
              settings0 tt eq_refl) as [_ [_ Hcalls]].
  destruct Hcalls as [Hf _].
  - intros n msgs. split; [reflexivity|]. vm_compute. discriminate.
  - split; [vm_compute; reflexivity|exact Hf].
Defined.

(** ** The numbers of the batch sizer *)

(** The operations of [SpecFloat] on numbers that are neither NaN nor
    negative, read in units of [2^-1074]: each one is the rounding [Rnd] of
    the exact result, and [Rnd] is monotone. First the bits: what
    [binary_round_aux] computes. *)

Local Open Scope Z_scope.

Lemma fexp_eq e : SpecFloat.fexp prec emax e = fexp64 e.
Proof. reflexivity. Qed.

Lemma digits2_size p : digits2_pos p = Pos.size p.
Proof. induction p; simpl; congruence. Qed.

Lemma digits_bounds p :
  2 ^ (Zpos (digits2_pos p) - 1) <= Zpos p < 2 ^ Zpos (digits2_pos p).
Proof.
  rewrite digits2_size. split.
  - pose proof (Pos.size_le p) as H.
    assert (Hp : (2 ^ Pos.size p <= p~0)%positive) by exact H.
    apply Pos2Z.pos_le_pos in Hp. rewrite Pos2Z.inj_pow in Hp.
    replace (Zpos (Pos.size p)) with (Z.succ (Zpos (Pos.size p) - 1)) in Hp by lia.
    rewrite Z.pow_succ_r in Hp by lia. lia.
  - pose proof (Pos.size_gt p) as H.
    apply Pos2Z.pos_lt_pos in H. rewrite Pos2Z.inj_pow in H. exact H.
Qed.

Lemma iter_pos_nat {A} (f : A -> A) p x :
  iter_pos f p x = Nat.iter (Pos.to_nat p) f x.
Proof.
  revert x. induction p as [p IH|p IH|]; intro x; cbn [iter_pos].
  - rewrite !IH. rewrite Pos2Nat.inj_xI.
    replace (S (2 * Pos.to_nat p))%nat with (Pos.to_nat p + Pos.to_nat p + 1)%nat by lia.
    rewrite !Nat.iter_add. reflexivity.
  - rewrite !IH. rewrite Pos2Nat.inj_xO.
    replace (2 * Pos.to_nat p)%nat with (Pos.to_nat p + Pos.to_nat p)%nat by lia.
    rewrite Nat.iter_add. reflexivity.
  - reflexivity.
Qed.

(** One right shift of a non-negative mantissa with its round and sticky bits. *)
Lemma shr_1_spec m r s :
  0 <= m ->
  shr_1 (Build_shr_record m r s) = Build_shr_record (m / 2) (Z.odd m) (r || s).
Proof.
  intro Hm. destruct m as [|p|p]; [reflexivity| |lia].
  destruct p as [p|p|]; cbn [shr_1].
  - f_equal. rewrite Pos2Z.inj_xI. apply Z.div_unique with 1; lia.
  - f_equal. rewrite Pos2Z.inj_xO. apply Z.div_unique with 0; lia.
  - reflexivity.
Qed.

Lemma odd_mod2 a : Z.odd a = negb (a mod 2 =? 0).
Proof.
  rewrite Zmod_odd. destruct (Z.odd a); reflexivity.
Qed.

Lemma mod_pow2_succ M k :
  0 <= k ->
  M mod 2 ^ (k + 1) = M mod 2 ^ k + 2 ^ k * ((M / 2 ^ k) mod 2).
Proof.
  intro Hk. rewrite Z.pow_add_r by lia. change (2 ^ 1) with 2.
  rewrite Z.rem_mul_r by lia. reflexivity.
Qed.

Lemma shr_iter_spec M :
  0 <= M ->
  forall n : nat,
    Nat.iter (S n) shr_1 (Build_shr_record M false false)
    = Build_shr_record (M / 2 ^ Z.of_nat (S n)) (Z.odd (M / 2 ^ Z.of_nat n))
        (negb (M mod 2 ^ Z.of_nat n =? 0)).
Proof.
  intros HM n. induction n as [|n IH].
  - cbn [Nat.iter]. rewrite shr_1_spec by exact HM.
    change (2 ^ Z.of_nat 1) with 2. change (2 ^ Z.of_nat 0) with 1.
    rewrite Z.div_1_r, Z.mod_1_r. reflexivity.
  - change (Nat.iter (S (S n)) shr_1 (Build_shr_record M false false))
      with (shr_1 (Nat.iter (S n) shr_1 (Build_shr_record M false false))).
    rewrite IH. rewrite shr_1_spec by (apply Z.div_pos; lia).
    assert (Hpow : 2 ^ Z.of_nat (S (S n)) = 2 ^ Z.of_nat (S n) * 2).
    { rewrite (Nat2Z.inj_succ (S n)), Z.pow_succ_r by lia. lia. }
    f_equal.
    + rewrite Hpow, Z.div_div by lia. reflexivity.
    + rewrite (Nat2Z.inj_succ n). unfold Z.succ.
      rewrite mod_pow2_succ by lia.
      rewrite (odd_mod2 (M / 2 ^ Z.of_nat n)).
      assert (H0 : 0 <= M mod 2 ^ Z.of_nat n) by (apply Z.mod_pos_bound; lia).
      assert (H2 : 0 <= (M / 2 ^ Z.of_nat n) mod 2 < 2) by (apply Z.mod_pos_bound; lia).
      assert (Hp : 0 < 2 ^ Z.of_nat n) by lia.
      clear IH.
      set (a := M mod 2 ^ Z.of_nat n) in *.
      set (b := (M / 2 ^ Z.of_nat n) mod 2) in *.
      set (p := 2 ^ Z.of_nat n) in *.
      destruct (Z.eqb_spec b 0), (Z.eqb_spec a 0), (Z.eqb_spec (a + p * b) 0);
        cbn [negb orb]; try reflexivity; exfalso; nia.
Qed.

Lemma shr_round M E n :
  0 <= M ->
  let res := shr (Build_shr_record M false false) E n in
  round_nearest_even (shr_m (fst res)) (loc_of_shr_record (fst res)) = rne M n
  /\ snd res = E + Z.max n 0.
Proof.
  intros HM res. unfold res, shr, rne. destruct n as [|p|p].
  - cbn. split; [reflexivity|lia].
  - rewrite iter_pos_nat.
    destruct (Pos2Nat.is_succ p) as [k Hk]. rewrite Hk.
    rewrite shr_iter_spec by exact HM. cbn [fst snd shr_m].
    assert (Hp : Zpos p = Z.of_nat (S k)) by lia.
    replace (Zpos p <=? 0) with false by (symmetry; apply Z.leb_gt; lia).
    rewrite Hp. split; [|lia].
    replace (Z.of_nat (S k) - 1) with (Z.of_nat k) by lia.
    replace (Z.of_nat (S k)) with (Z.of_nat k + 1) by lia.
    rewrite mod_pow2_succ by lia.
    rewrite (odd_mod2 (M / 2 ^ Z.of_nat k)).
    assert (H0 : 0 <= M mod 2 ^ Z.of_nat k < 2 ^ Z.of_nat k)
      by (apply Z.mod_pos_bound; lia).
    assert (H2 : 0 <= (M / 2 ^ Z.of_nat k) mod 2 < 2) by (apply Z.mod_pos_bound; lia).
    set (a := M mod 2 ^ Z.of_nat k) in *.
    set (b := (M / 2 ^ Z.of_nat k) mod 2) in *.
    set (h := 2 ^ Z.of_nat k) in *.
    set (q := M / 2 ^ (Z.of_nat k + 1)).
    unfold loc_of_shr_record, round_nearest_even.
    destruct (Z.eqb_spec b 0), (Z.eqb_spec a 0), (Z.ltb_spec h (a + h * b)),
      (Z.eqb_spec (a + h * b) h); cbn [negb orb andb]; try reflexivity;
      try (exfalso; nia).
    + rewrite <- Z.negb_odd. destruct (Z.odd q); reflexivity.
  - cbn. split; [reflexivity|lia].
Qed.

Lemma rne_bounds M n :
  0 <= M -> 0 <= n -> M / 2 ^ n <= rne M n <= M / 2 ^ n + 1.
Proof.
  intros HM Hn. unfold rne. destruct (Z.leb_spec n 0).
  - replace n with 0 by lia. rewrite Z.pow_0_r, Z.div_1_r. lia.
  - cbv zeta. destruct (_ || _); lia.
Qed.

Lemma div_lt_pow M d n :
  0 <= M < 2 ^ d -> 0 <= n <= d -> M / 2 ^ n < 2 ^ (d - n).
Proof.
  intros HM Hn. apply Z.div_lt_upper_bound; [lia|].
  rewrite <- Z.pow_add_r by lia. replace (n + (d - n)) with d by lia. lia.
Qed.

Lemma rne_le_pow M d n :
  0 <= M < 2 ^ d -> 0 <= n <= d -> rne M n <= 2 ^ (d - n).
Proof.
  intros HM Hn. pose proof (@rne_bounds M n (proj1 HM) (proj1 Hn)).
  pose proof (@div_lt_pow M d n HM Hn). lia.
Qed.

Lemma Zdigits2_bounds M :
  0 < M -> 2 ^ (Zdigits2 M - 1) <= M < 2 ^ Zdigits2 M.
Proof. intro HM. destruct M as [|p|p]; try lia. apply digits_bounds. Qed.

Lemma Zdigits2_pos M : 0 < M -> 0 < Zdigits2 M.
Proof. intro HM. destruct M as [|p|p]; try lia. cbn. lia. Qed.

Lemma Zdigits2_le M d : 0 < M -> M < 2 ^ d -> 0 <= d -> Zdigits2 M <= d.
Proof.
  intros HM Hlt Hd. pose proof (@Zdigits2_bounds M HM) as [Hlo _].
  destruct (Z.le_gt_cases (Zdigits2 M) d) as [|Hgt]; [assumption|].
  assert (2 ^ d <= 2 ^ (Zdigits2 M - 1)) by (apply Z.pow_le_mono_r; lia). lia.
Qed.

Lemma Zdigits2_ge M d : 0 < M -> 2 ^ (d - 1) <= M -> Zdigits2 M >= d.
Proof.
  intros HM Hge. pose proof (@Zdigits2_bounds M HM) as [_ Hhi].
  pose proof (@Zdigits2_pos M HM).
  destruct (Z.le_gt_cases d (Zdigits2 M)) as [|Hgt]; [lia|].
  assert (2 ^ Zdigits2 M <= 2 ^ (d - 1)) by (apply Z.pow_le_mono_r; lia). lia.
Qed.

(** A mantissa [M] at exponent [E], with nothing lost yet, is rounded at the
    exponent of its last bit. *)
Lemma binary_round_aux_exact M E :
  0 < M ->
  let f0 := fexp64 (Zdigits2 M + E) in
  E <= f0 ->
  binary_round_aux prec emax false M E loc_Exact = encode (rne M (f0 - E)) f0.
Proof.
  intros HM f0 Hn.
  pose proof (@Zdigits2_bounds M HM) as Hd.
  pose proof (@Zdigits2_pos M HM) as Hdpos.
  set (d := Zdigits2 M) in *. set (n := f0 - E).
  assert (Hf0 : -1074 <= f0 /\ d + E - 53 <= f0) by (unfold f0, fexp64; lia).
  assert (Hnd : 0 <= n <= d \/ d < n).
  { unfold n. lia. }
  unfold binary_round_aux, shr_fexp. cbn [shr_record_of_loc].
  rewrite fexp_eq. fold d. fold f0. fold n.
  pose proof (@shr_round M E n (Z.lt_le_incl _ _ HM)) as Hs. cbv zeta in Hs.
  destruct (shr (Build_shr_record M false false) E n) as [mrs' e'] eqn:Hshr.
  cbn [fst snd] in Hs. destruct Hs as [Hround He']. rewrite Hround.
  assert (He : e' = f0) by (unfold n in *; lia). clear He'. subst e'.
  set (m1 := rne M n).
  assert (Hm1 : 0 <= m1 <= 2 ^ 53).
  { unfold m1. pose proof (@rne_bounds M n (Z.lt_le_incl _ _ HM) ltac:(unfold n; lia)) as Hb.
    split.
    - assert (0 <= M / 2 ^ n) by (apply Z.div_pos; lia). lia.
    - destruct Hnd as [Hnd|Hnd].
      + pose proof (@rne_le_pow M d n (conj (Z.lt_le_incl _ _ HM) (proj2 Hd)) Hnd).
        assert (2 ^ (d - n) <= 2 ^ 53) by (apply Z.pow_le_mono_r; unfold n; lia). lia.
      + assert (M / 2 ^ n = 0).
        { apply Z.div_small. split; [lia|].
          assert (2 ^ d <= 2 ^ n) by (apply Z.pow_le_mono_r; lia). lia. }
        lia. }
  rewrite fexp_eq. unfold encode.
  destruct m1 as [|p|p] eqn:Hm1eq; [| |lia].
  - (* the mantissa rounds to zero *)
    cbn [Zdigits2]. unfold shr.
    destruct (fexp64 (0 + f0) - f0) eqn:Hn2;
      [reflexivity | unfold fexp64 in Hn2; lia | reflexivity].
  - destruct (Z.eqb_spec (Zpos p) (2 ^ 53)) as [Hmax|Hmax].
    + (* the mantissa overflows to the next binade *)
      assert (Hdig : Zdigits2 (Zpos p) = 54) by (rewrite Hmax; reflexivity).
      rewrite Hdig.
      replace (fexp64 (54 + f0) - f0) with 1 by (unfold fexp64; lia).
      unfold shr. cbn [iter_pos]. rewrite Hmax. cbn [shr_1 shr_m].
      replace (f0 + 1 <=? emax - prec) with (f0 + 1 <=? 971) by reflexivity.
      reflexivity.
    + assert (Hdig : Zdigits2 (Zpos p) <= 53).
      { apply Zdigits2_le; lia. }
      unfold shr.
      destruct (fexp64 (Zdigits2 (Zpos p) + f0) - f0) eqn:Hn2;
        [ | unfold fexp64 in Hn2; lia | ]; cbn [shr_m];
        replace (f0 <=? emax - prec) with (f0 <=? 971) by reflexivity; reflexivity.
Qed.

Lemma rneQ_nearest N D : 0 < D -> nearest N D (rneQ N D).
Proof.
  intro HD. unfold rneQ, nearest.
  pose proof (Z.div_mod N D ltac:(lia)) as Hdm.
  pose proof (Z.mod_pos_bound N D HD) as Hr.
  set (q := N / D) in *. set (r := N mod D) in *.
  destruct (Z.compare_spec (2 * r) D) as [Heq|Hlt|Hgt].
  - destruct (Z.even q) eqn:Hev.
    + split; [nia|]. split; [intro; exfalso; nia | intro; exact Hev].
    + split; [nia|]. split.
      * intro. rewrite Z.add_1_r, Z.even_succ, <- Z.negb_even, Hev. reflexivity.
      * intro; exfalso; nia.
  - split; [nia|]. split; intro; exfalso; nia.
  - split; [nia|]. split; intro; exfalso; nia.
Qed.

(** The nearest integer grows with the fraction. *)
Lemma nearest_mono N D a N' D' b :
  0 < D -> 0 < D' -> nearest N D a -> nearest N' D' b ->
  N * D' <= N' * D -> a <= b.
Proof.
  intros HD HD' (Ha & Ha1 & Ha2) (Hb & Hb1 & Hb2) Hle.
  destruct (Z.le_gt_cases a b) as [|Hgt]; [assumption|exfalso].
  assert (H1 : (2 * a - 1) * (D * D') <= 2 * (N * D')) by nia.
  assert (H2 : 2 * (N' * D) <= (2 * b + 1) * (D * D')) by nia.
  assert (HDD : 0 < D * D') by nia.
  assert (Hab : a = b + 1) by nia.
  subst a.
  assert (E1 : 2 * N = (2 * (b + 1) - 1) * D) by nia.
  assert (E2 : 2 * N' = (2 * b + 1) * D') by nia.
  specialize (Ha1 E1). specialize (Hb2 E2).
  rewrite Z.add_1_r, Z.even_succ, <- Z.negb_even, Hb2 in Ha1. discriminate.
Qed.

Lemma rneQ_mono N D N' D' :
  0 < D -> 0 < D' -> N * D' <= N' * D -> rneQ N D <= rneQ N' D'.
Proof.
  intros HD HD' Hle.
  exact (nearest_mono HD HD' (rneQ_nearest N HD) (rneQ_nearest N' HD') Hle).
Qed.

Lemma rneQ_ext N D N' D' :
  0 < D -> 0 < D' -> N * D' = N' * D -> rneQ N D = rneQ N' D'.
Proof.
  intros HD HD' Heq. apply Z.le_antisymm; apply rneQ_mono; lia.
Qed.

Lemma rneQ_exact c D : 0 < D -> rneQ (c * D) D = c.
Proof.
  intro HD. unfold rneQ. rewrite Z.div_mul, Z.mod_mul by lia.
  change (2 * 0) with 0. destruct (Z.compare_spec 0 D); lia.
Qed.

Lemma rneQ_le N D c : 0 < D -> N <= c * D -> rneQ N D <= c.
Proof.
  intros HD H. rewrite <- (rneQ_exact c HD). apply rneQ_mono; nia.
Qed.

Lemma rneQ_ge N D c : 0 < D -> c * D <= N -> c <= rneQ N D.
Proof.
  intros HD H. rewrite <- (rneQ_exact c HD) at 1. apply rneQ_mono; nia.
Qed.

Lemma rne_rneQ M n : 0 <= n -> rne M n = rneQ M (2 ^ n).
Proof.
  intro Hn. unfold rne, rneQ. destruct (Z.leb_spec n 0) as [H0|Hpos].
  - replace n with 0 by lia. rewrite Z.pow_0_r, Z.div_1_r, Z.mod_1_r. reflexivity.
  - cbv zeta.
    assert (Hp : 2 ^ n = 2 * 2 ^ (n - 1)).
    { rewrite <- Z.pow_succ_r by lia. f_equal. lia. }
    set (h := 2 ^ (n - 1)) in *. rewrite Hp.
    set (r := M mod (2 * h)). rewrite <- Z.negb_even.
    destruct (Z.compare_spec (2 * r) (2 * h)), (Z.ltb_spec h r), (Z.eqb_spec r h);
      try lia; cbn [orb andb]; try reflexivity.
    destruct (Z.even (M / (2 * h))); reflexivity.
Qed.

(** ** Binades *)

Lemma binadeOf_binade N D : 0 <= N -> 0 < D -> binade N D (binadeOf N D).
Proof.
  intros HN HD. unfold binade, binadeOf.
  assert (Hq : 0 <= N / D) by (apply Z.div_pos; lia).
  destruct (Z.eq_dec (N / D) 0) as [Hz|Hnz].
  - rewrite Hz. cbn [Zdigits2]. replace (Z.max (0 - 53) 0) with 0 by lia.
    split; [lia|]. split; [|left; reflexivity].
    apply Z.div_small_iff in Hz; [|lia].
    assert (0 < 2 ^ (53 + 0)) by (apply Z.pow_pos_nonneg; lia). nia.
  - pose proof (@Zdigits2_bounds (N / D) ltac:(lia)) as [Hlo Hhi].
    pose proof (@Zdigits2_pos (N / D) ltac:(lia)) as Hd.
    set (d := Zdigits2 (N / D)) in *.
    pose proof (Z.div_mod N D ltac:(lia)) as Hdm.
    pose proof (Z.mod_pos_bound N D HD) as Hr.
    split; [lia|]. split.
    + assert (2 ^ d <= 2 ^ (53 + Z.max (d - 53) 0)) by (apply Z.pow_le_mono_r; lia). nia.
    + destruct (Z.le_gt_cases d 53) as [Hle|Hgt]; [left; lia|right].
      replace (52 + Z.max (d - 53) 0) with (d - 1) by lia. nia.
Qed.

Lemma pow2_pos k : 0 <= k -> 0 < 2 ^ k.
Proof. intro. apply Z.pow_pos_nonneg; lia. Qed.

Lemma binade_le N D k N' D' k' :
  0 < D -> 0 < D' -> binade N D k -> binade N' D' k' ->
  N * D' <= N' * D -> k <= k'.
Proof.
  intros HD HD' (Hk & Hhi & Hlo) (Hk' & Hhi' & Hlo') Hle.
  destruct (Z.le_gt_cases k k') as [|Hgt]; [assumption|exfalso].
  destruct Hlo as [Hlo|Hlo]; [lia|].
  assert (Hp : 2 ^ (53 + k') <= 2 ^ (52 + k)) by (apply Z.pow_le_mono_r; lia).
  pose proof (@pow2_pos (53 + k') ltac:(lia)).
  assert (N' * D < D' * 2 ^ (52 + k) * D) by nia.
  assert (D * 2 ^ (52 + k) * D' <= N * D') by nia.
  nia.
Qed.

Lemma binade_unique N D k k' :
  0 < D -> binade N D k -> binade N D k' -> k = k'.
Proof.
  intros HD H H'. apply Z.le_antisymm; eapply binade_le; eauto; lia.
Qed.

(** ** The rounding of a non-negative rational, in units of [2^-1074] *)

Lemma Rnd_intro N D k :
  0 <= N -> 0 < D -> binade N D k ->
  Rnd N D = Z.min (rneQ N (D * 2 ^ k) * 2 ^ k) INF.
Proof.
  intros HN HD Hk. unfold Rnd.
  rewrite (binade_unique HD (binadeOf_binade HN HD) Hk). reflexivity.
Qed.

(** Rounding is monotone: within a binade by [rneQ_mono], across binades
    through the power of two between them. *)
Lemma Rnd_mono N D N' D' :
  0 <= N -> 0 < D -> 0 <= N' -> 0 < D' ->
  N * D' <= N' * D -> Rnd N D <= Rnd N' D'.
Proof.
  intros HN HD HN' HD' Hle. unfold Rnd.
  pose proof (binadeOf_binade HN HD) as Hb.
  pose proof (binadeOf_binade HN' HD') as Hb'.
  pose proof (binade_le HD HD' Hb Hb' Hle) as Hkk.
  set (k := binadeOf N D) in *. set (k' := binadeOf N' D') in *.
  destruct Hb as (Hk & Hhi & Hlo). destruct Hb' as (Hk' & Hhi' & Hlo').
  pose proof (pow2_pos Hk) as Hpk. pose proof (pow2_pos Hk') as Hpk'.
  apply Z.min_le_compat_r.
  destruct (Z.eq_dec k k') as [Heq|Hne].
  - rewrite <- Heq. apply Z.mul_le_mono_nonneg_r; [lia|].
    apply rneQ_mono; nia.
  - destruct Hlo' as [Hlo'|Hlo']; [lia|].
    assert (Ha : rneQ N (D * 2 ^ k) <= 2 ^ 53).
    { apply rneQ_le; [nia|]. rewrite Z.pow_add_r in Hhi by lia. nia. }
    assert (Hb : 2 ^ 52 <= rneQ N' (D' * 2 ^ k')).
    { apply rneQ_ge; [nia|]. rewrite Z.pow_add_r in Hlo' by lia. nia. }
    assert (Hp : 2 ^ 53 * 2 ^ k <= 2 ^ 52 * 2 ^ k').
    { rewrite <- !Z.pow_add_r by lia. apply Z.pow_le_mono_r; lia. }
    nia.
Qed.

Lemma Rnd_ext N D N' D' :
  0 <= N -> 0 < D -> 0 <= N' -> 0 < D' ->
  N * D' = N' * D -> Rnd N D = Rnd N' D'.
Proof.
  intros. apply Z.le_antisymm; apply Rnd_mono; lia.
Qed.

Lemma Rnd_le_INF N D : Rnd N D <= INF.
Proof. unfold Rnd. lia. Qed.

Lemma Rnd_nonneg N D : 0 <= N -> 0 < D -> 0 <= Rnd N D.
Proof.
  intros HN HD. unfold Rnd.
  pose proof (binadeOf_binade HN HD) as (Hk & _).
  pose proof (pow2_pos Hk).
  assert (0 <= rneQ N (D * 2 ^ binadeOf N D)) by (apply rneQ_ge; nia).
  assert (0 < INF) by (apply pow2_pos; lia).
  apply Z.min_glb; nia.
Qed.

Lemma pow2_le a b : 0 <= a <= b -> 2 ^ a <= 2 ^ b.
Proof. intro. apply Z.pow_le_mono_r; lia. Qed.

Lemma pow2_lt a b : 0 <= a < b -> 2 ^ a < 2 ^ b.
Proof. intro. apply Z.pow_lt_mono_r; lia. Qed.

Lemma pow2_split a b : 0 <= a <= b -> 2 ^ b = 2 ^ a * 2 ^ (b - a).
Proof. intro. rewrite <- Z.pow_add_r by lia. f_equal. lia. Qed.

Lemma bounded_facts m e :
  bounded prec emax m e = true ->
  -1074 <= e <= 971 /\ Zpos m < 2 ^ 53 /\ (-1074 < e -> 2 ^ 52 <= Zpos m).
Proof.
  unfold bounded, canonical_mantissa. rewrite fexp_eq.
  intro H. apply andb_prop in H. destruct H as [Hc Hb].
  apply Z.eqb_eq in Hc. apply Z.leb_le in Hb.
  change (emax - prec) with 971 in Hb.
  change (Zpos (digits2_pos m)) with (Zdigits2 (Zpos m)) in Hc.
  pose proof (@Zdigits2_bounds (Zpos m) ltac:(lia)) as [Hlo Hhi].
  set (d := Zdigits2 (Zpos m)) in *.
  unfold fexp64 in Hc.
  split; [lia|]. split.
  - assert (2 ^ d <= 2 ^ 53) by (apply pow2_le; pose proof (@Zdigits2_pos (Zpos m)); lia). lia.
  - intro He. replace d with 53 in Hlo by lia. exact Hlo.
Qed.

Lemma bounded_intro m e :
  -1074 <= e <= 971 -> Zpos m < 2 ^ 53 -> (-1074 < e -> 2 ^ 52 <= Zpos m) ->
  bounded prec emax m e = true.
Proof.
  intros He Hm Hn. unfold bounded, canonical_mantissa. rewrite fexp_eq.
  change (Zpos (digits2_pos m)) with (Zdigits2 (Zpos m)).
  apply andb_true_intro. split; [|apply Z.leb_le; change (emax - prec) with 971; lia].
  apply Z.eqb_eq. unfold fexp64.
  pose proof (@Zdigits2_le (Zpos m) 53 ltac:(lia) Hm ltac:(lia)).
  destruct (Z.eq_dec e (-1074)) as [->|Hne]; [lia|].
  pose proof (@Zdigits2_ge (Zpos m) 53 ltac:(lia) (Hn ltac:(lia))). lia.
Qed.

Lemma INF_split k : 0 <= k <= 2098 -> INF = 2 ^ k * 2 ^ (2098 - k).
Proof. intro. unfold INF. apply pow2_split. lia. Qed.

Lemma ulps_finite_lt s m e :
  bounded prec emax m e = true -> 0 < ulps (S754_finite s m e) < INF.
Proof.
  intro H. destruct (bounded_facts _ _ H) as (He & Hm & _). cbn [ulps].
  pose proof (@pow2_pos (e + 1074) ltac:(lia)).
  split; [nia|].
  rewrite (@INF_split (e + 1074)) by lia.
  assert (2 ^ 53 <= 2 ^ (2098 - (e + 1074))) by (apply pow2_le; lia). nia.
Qed.

Lemma ulps_range x : nonneg x = true -> 0 <= ulps x <= INF.
Proof.
  destruct x as [s|s| |s m e]; cbn [nonneg ulps]; intro H.
  - unfold INF. pose proof (@pow2_pos 2098 ltac:(lia)). lia.
  - unfold INF. pose proof (@pow2_pos 2098 ltac:(lia)). lia.
  - discriminate.
  - apply andb_prop in H. destruct H as [_ H].
    pose proof (@ulps_finite_lt s m e H) as Hl. cbn [ulps] in Hl. lia.
Qed.

Lemma ulps_finite x : nonneg x = true -> (finite x = true <-> ulps x < INF).
Proof.
  destruct x as [s|s| |s m e]; cbn [nonneg ulps finite]; intro H.
  - unfold INF. pose proof (@pow2_pos 2098 ltac:(lia)). split; [lia|reflexivity].
  - split; [discriminate|lia].
  - discriminate.
  - apply andb_prop in H. destruct H as [_ H].
    pose proof (@ulps_finite_lt s m e H) as Hl. cbn [ulps] in Hl.
    split; [lia|reflexivity].
Qed.

(** Numbers of different exponents. *)
Lemma ulps_lt_exp m e m' e' :
  bounded prec emax m e = true -> bounded prec emax m' e' = true ->
  e < e' -> Zpos m * 2 ^ (e + 1074) < Zpos m' * 2 ^ (e' + 1074).
Proof.
  intros H H' Hlt.
  destruct (bounded_facts _ _ H) as (He & Hm & _).
  destruct (bounded_facts _ _ H') as (He' & _ & Hn').
  specialize (Hn' ltac:(lia)).
  rewrite (@pow2_split (e + 1074) (e' + 1074)) by lia.
  pose proof (@pow2_pos (e + 1074) ltac:(lia)).
  assert (2 ^ 1 <= 2 ^ (e' + 1074 - (e + 1074))) by (apply pow2_le; lia).
  change (2 ^ 1) with 2 in *. change (2 ^ 53) with (2 * 2 ^ 52) in Hm.
  set (p := 2 ^ 52) in *. set (A := 2 ^ (e + 1074)) in *.
  set (B := 2 ^ (e' + 1074 - (e + 1074))) in *.
  assert (Zpos m * A < 2 * p * A) by nia.
  assert (2 * p * A <= p * (A * B)) by nia.
  assert (0 < A * B) by nia.
  assert (p * (A * B) <= Zpos m' * (A * B)) by nia.
  lia.
Qed.

(** The comparison of two numbers is the comparison of their values. *)
Lemma SFcompare_ulps x y :
  nonneg x = true -> nonneg y = true ->
  SFcompare x y = Some (ulps x ?= ulps y).
Proof.
  intros Hx Hy.
  pose proof (ulps_range x Hx) as Rx. pose proof (ulps_range y Hy) as Ry.
  destruct x as [sx|sx| |sx mx ex], y as [sy|sy| |sy my ey];
    cbn [nonneg] in Hx, Hy; try discriminate;
    try (apply andb_prop in Hx; destruct Hx as [Hsx Hx]);
    try (apply andb_prop in Hy; destruct Hy as [Hsy Hy]);
    try (destruct sx; try discriminate); try (destruct sy; try discriminate);
    cbn [SFcompare ulps]; f_equal; symmetry.
  all: assert (HI : 0 < INF) by (unfold INF; apply pow2_pos; lia).
  all: try (pose proof (@ulps_finite_lt false mx ex Hx) as Fx; cbn [ulps] in Fx).
  all: try (pose proof (@ulps_finite_lt false my ey Hy) as Fy; cbn [ulps] in Fy).
  all: try (first [apply Z.compare_eq_iff | apply Z.compare_lt_iff
                  | apply Z.compare_gt_iff]; lia).
  - destruct (Z.compare_spec ex ey) as [Heq|Hlt|Hgt].
    + subst ey. destruct (bounded_facts _ _ Hx) as (He & _).
      rewrite <- Zmult_compare_compat_r by (apply Z.lt_gt, pow2_pos; lia).
      reflexivity.
    + apply Z.compare_lt_iff. apply ulps_lt_exp; assumption.
    + apply Z.compare_gt_iff. apply ulps_lt_exp; assumption.
Qed.

Lemma ulps_inj x y :
  nonneg x = true -> nonneg y = true -> ulps x = ulps y -> x = y.
Proof.
  intros Hx Hy Heq.
  pose proof (SFcompare_ulps x y Hx Hy) as Hc.
  rewrite Heq, Z.compare_refl in Hc.
  destruct x as [sx|sx| |sx mx ex], y as [sy|sy| |sy my ey];
    cbn [nonneg] in Hx, Hy; try discriminate;
    try (apply andb_prop in Hx; destruct Hx as [Hsx Hx]);
    try (apply andb_prop in Hy; destruct Hy as [Hsy Hy]);
    try (destruct sx; try discriminate); try (destruct sy; try discriminate);
    cbn [SFcompare] in Hc; try discriminate; try reflexivity.
  destruct (Z.compare_spec ex ey) as [He|He|He]; try discriminate.
  subst ey. cbn [ulps] in Heq.
  destruct (bounded_facts _ _ Hx) as (He & _).
  pose proof (@pow2_pos (ex + 1074) ltac:(lia)).
  assert (Zpos mx = Zpos my) by nia. congruence.
Qed.

(** ** From the bits to the rounding *)

Lemma encode_spec m f :
  0 <= m <= 2 ^ 53 -> -1074 <= f -> (-1074 < f -> 2 ^ 52 <= m) ->
  nonneg (encode m f) = true
  /\ ulps (encode m f) = Z.min (m * 2 ^ (f + 1074)) INF.
Proof.
  intros Hm Hf Hn. unfold encode.
  pose proof (@pow2_pos (f + 1074) ltac:(lia)) as Hp.
  destruct m as [|p|p]; [| |lia].
  - cbn [nonneg ulps negb]. split; [reflexivity|].
    unfold INF. pose proof (@pow2_pos 2098 ltac:(lia)). lia.
  - destruct (Z.eqb_spec (Zpos p) (2 ^ 53)) as [Hmax|Hmax].
    + rewrite Hmax. destruct (Z.leb_spec (f + 1) 971) as [Hle|Hgt].
      * cbn [nonneg ulps negb andb]. split.
        { apply bounded_intro; [lia| |intro]; cbv; congruence. }
        change (Zpos (2 ^ 52)) with (2 ^ 52).
        replace (f + 1 + 1074) with (f + 1074 + 1) by lia.
        rewrite Z.pow_add_r by lia. change (2 ^ 1) with 2.
        change (2 ^ 53) with (2 ^ 52 * 2).
        assert (2 ^ 52 * 2 * 2 ^ (f + 1074) < INF).
        { rewrite (@INF_split (f + 1074)) by lia.
          assert (2 ^ 54 <= 2 ^ (2098 - (f + 1074))) by (apply pow2_le; lia).
          change (2 ^ 54) with (2 ^ 52 * 2 * 2) in *. nia. }
        lia.
      * cbn [nonneg ulps negb]. split; [reflexivity|].
        assert (INF <= 2 ^ 53 * 2 ^ (f + 1074)).
        { unfold INF. rewrite <- Z.pow_add_r by lia. apply pow2_le. lia. }
        lia.
    + destruct (Z.leb_spec f 971) as [Hle|Hgt].
      * cbn [nonneg ulps negb andb]. split.
        { apply bounded_intro; [lia|lia|exact Hn]. }
        assert (Zpos p * 2 ^ (f + 1074) < INF).
        { rewrite (@INF_split (f + 1074)) by lia.
          assert (2 ^ 53 <= 2 ^ (2098 - (f + 1074))) by (apply pow2_le; lia).
          nia. }
        lia.
      * cbn [nonneg ulps negb]. split; [reflexivity|].
        specialize (Hn ltac:(lia)).
        assert (INF <= 2 ^ 52 * 2 ^ (f + 1074)).
        { unfold INF. rewrite <- Z.pow_add_r by lia. apply pow2_le. lia. }
        assert (2 ^ 52 * 2 ^ (f + 1074) <= Zpos p * 2 ^ (f + 1074)) by nia.
        lia.
Qed.

(** The rounded mantissa of [M] at a shift of [n >= 0] bits. *)
Lemma rne_range M n d :
  0 < M -> 0 <= n -> 2 ^ (d - 1) <= M < 2 ^ d -> 0 < d -> d <= 53 + n ->
  0 <= rne M n <= 2 ^ 53 /\ (d = 53 + n -> 2 ^ 52 <= rne M n).
Proof.
  intros HM Hn Hd Hdpos Hdn.
  rewrite rne_rneQ by lia.
  pose proof (@pow2_pos n Hn) as Hp.
  split; [split|].
  - apply rneQ_ge; lia.
  - apply rneQ_le; [lia|].
    rewrite <- Z.pow_add_r by lia.
    assert (2 ^ d <= 2 ^ (53 + n)) by (apply pow2_le; lia). lia.
  - intro Heq. apply rneQ_ge; [lia|].
    rewrite <- Z.pow_add_r by lia. replace (52 + n) with (d - 1) by lia. lia.
Qed.

(** The value of an exact mantissa after rounding. *)
Lemma binary_round_aux_Rnd M E j :
  0 < M -> E <= fexp64 (Zdigits2 M + E) -> 0 <= j -> 0 <= E + 1074 + j ->
  nonneg (binary_round_aux prec emax false M E loc_Exact) = true
  /\ ulps (binary_round_aux prec emax false M E loc_Exact)
     = Rnd (M * 2 ^ (E + 1074 + j)) (2 ^ j).
Proof.
  intros HM HE Hj Hlow.
  rewrite binary_round_aux_exact by assumption.
  pose proof (@Zdigits2_bounds M HM) as Hd.
  pose proof (@Zdigits2_pos M HM) as Hdpos.
  set (d := Zdigits2 M) in *. set (f0 := fexp64 (d + E)) in *.
  assert (Hf0 : -1074 <= f0 /\ d + E - 53 <= f0
                /\ (-1074 < f0 -> f0 = d + E - 53)) by (unfold f0, fexp64; lia).
  set (n := f0 - E).
  destruct (@rne_range M n d HM ltac:(unfold n; lia) Hd Hdpos ltac:(unfold n; lia))
    as [Hr Hr52].
  destruct (@encode_spec (rne M n) f0 Hr ltac:(lia)
              ltac:(intro; apply Hr52; unfold n; lia)) as [Hnn Hu].
  split; [exact Hnn|]. rewrite Hu.
  set (a := E + 1074 + j) in *.
  pose proof (@pow2_pos a Hlow) as Hpa. pose proof (@pow2_pos j Hj) as Hpj.
  pose proof (@pow2_pos n ltac:(unfold n; lia)) as Hpn.
  assert (Hjk : 2 ^ j * 2 ^ (f0 + 1074) = 2 ^ a * 2 ^ n).
  { rewrite <- !Z.pow_add_r by (unfold n, a in *; lia). f_equal. unfold n, a. lia. }
  rewrite (@Rnd_intro (M * 2 ^ a) (2 ^ j) (f0 + 1074)); [| nia | lia |].
  - rewrite Hjk, rne_rneQ by (unfold n; lia).
    rewrite (@rneQ_ext (M * 2 ^ a) (2 ^ a * 2 ^ n) M (2 ^ n)); [reflexivity|nia|lia|ring].
  - split; [lia|]. split.
    + replace (53 + (f0 + 1074)) with (53 + n + a - j) by (unfold n, a; lia).
      rewrite <- Z.pow_add_r by (unfold n, a in *; lia).
      replace (j + (53 + n + a - j)) with (53 + n + a) by lia.
      rewrite (Z.pow_add_r 2 (53 + n) a) by (unfold n in *; lia).
      assert (2 ^ d <= 2 ^ (53 + n)) by (apply pow2_le; unfold n; lia). nia.
    + destruct (Z.eq_dec f0 (-1074)) as [Hz|Hnz]; [left; lia|right].
      rewrite <- Z.pow_add_r by lia.
      replace (j + (52 + (f0 + 1074))) with (d - 1 + a) by (unfold a; lia).
      rewrite Z.pow_add_r by lia. nia.
Qed.

Lemma iter_xO_pow (d mx : positive) :
  Zpos (Pos.iter xO mx d) = Zpos mx * 2 ^ Zpos d.
Proof.
  induction d as [|d IH] using Pos.peano_ind.
  - cbn [Pos.iter]. rewrite Pos2Z.inj_xO. change (2 ^ 1) with 2. lia.
  - rewrite Pos.iter_succ, Pos2Z.inj_xO, IH, Pos2Z.inj_succ, Z.pow_succ_r by lia. lia.
Qed.

Lemma Zdigits2_shift M k :
  0 < M -> 0 <= k -> Zdigits2 (M * 2 ^ k) = Zdigits2 M + k.
Proof.
  intros HM Hk. pose proof (@Zdigits2_bounds M HM) as [Hlo Hhi].
  pose proof (@Zdigits2_pos M HM) as Hd.
  pose proof (@pow2_pos k Hk) as Hp.
  assert (Hpos : 0 < M * 2 ^ k) by nia.
  apply Z.le_antisymm.
  - apply Zdigits2_le; [exact Hpos| |lia].
    rewrite Z.pow_add_r by lia. nia.
  - apply Z.ge_le, Zdigits2_ge; [exact Hpos|].
    replace (Zdigits2 M + k - 1) with (Zdigits2 M - 1 + k) by lia.
    rewrite Z.pow_add_r by lia. nia.
Qed.

Lemma binary_round_Rnd mx ex :
  -1074 <= ex ->
  nonneg (binary_round prec emax false mx ex) = true
  /\ ulps (binary_round prec emax false mx ex) = Rnd (Zpos mx * 2 ^ (ex + 1074)) 1.
Proof.
  intro Hex. unfold binary_round, shl_align. rewrite fexp_eq.
  change (Zpos (digits2_pos mx)) with (Zdigits2 (Zpos mx)).
  set (f := fexp64 (Zdigits2 (Zpos mx) + ex)).
  assert (Hf : -1074 <= f) by (unfold f, fexp64; lia).
  change (Rnd (Zpos mx * 2 ^ (ex + 1074)) 1)
    with (Rnd (Zpos mx * 2 ^ (ex + 1074)) (2 ^ 0)).
  destruct (f - ex) as [|p|p] eqn:Hd.
  - replace (ex + 1074) with (ex + 1074 + 0) by lia.
    apply binary_round_aux_Rnd; fold f; lia.
  - replace (ex + 1074) with (ex + 1074 + 0) by lia.
    apply binary_round_aux_Rnd; fold f; lia.
  - rewrite iter_xO_pow.
    assert (Hp : Zpos p = ex - f) by lia. rewrite Hp.
    pose proof (@pow2_pos (ex - f) ltac:(lia)).
    replace (Zpos mx * 2 ^ (ex + 1074)) with (Zpos mx * 2 ^ (ex - f) * 2 ^ (f + 1074 + 0)).
    + apply binary_round_aux_Rnd; try lia.
      rewrite Zdigits2_shift by lia.
      replace (Zdigits2 (Zpos mx) + (ex - f) + f) with (Zdigits2 (Zpos mx) + ex) by lia.
      fold f. lia.
    + rewrite <- Z.mul_assoc, <- Z.pow_add_r by lia. do 2 f_equal. lia.
Qed.

Lemma Rnd_zero D : 0 < D -> Rnd 0 D = 0.
Proof.
  intro HD. rewrite (@Rnd_intro 0 D 0); [|lia|lia|].
  - change (2 ^ 0) with 1. rewrite !Z.mul_1_r.
    rewrite (@rneQ_exact 0 D HD : rneQ 0 D = 0).
    unfold INF. pose proof (@pow2_pos 2098 ltac:(lia)). lia.
  - split; [lia|]. split; [|left; reflexivity].
    pose proof (@pow2_pos (53 + 0) ltac:(lia)). nia.
Qed.

Lemma Rnd_exact m t :
  0 <= m < 2 ^ 53 -> 0 <= t -> m * 2 ^ t <= INF -> Rnd (m * 2 ^ t) 1 = m * 2 ^ t.
Proof.
  intros Hm Ht Hinf.
  pose proof (@pow2_pos t Ht) as Hpt.
  assert (HN : 0 <= m * 2 ^ t) by nia.
  pose proof (@binadeOf_binade (m * 2 ^ t) 1 HN ltac:(lia)) as Hb.
  unfold Rnd. set (k := binadeOf (m * 2 ^ t) 1) in *.
  destruct Hb as (Hk & Hhi & Hlo).
  assert (Hkt : k <= t).
  { destruct Hlo as [Hlo|Hlo]; [lia|].
    destruct (Z.le_gt_cases k t) as [|Hgt]; [assumption|exfalso].
    assert (2 ^ (53 + t) <= 2 ^ (52 + k)) by (apply pow2_le; lia).
    rewrite Z.pow_add_r in H by lia. nia. }
  rewrite (@pow2_split k t) by lia.
  pose proof (@pow2_pos k Hk) as Hpk.
  replace (m * (2 ^ k * 2 ^ (t - k))) with (m * 2 ^ (t - k) * (1 * 2 ^ k)) by ring.
  rewrite rneQ_exact by lia.
  rewrite (@pow2_split k t) in Hinf by lia.
  replace (m * 2 ^ (t - k) * (1 * 2 ^ k)) with (m * (2 ^ k * 2 ^ (t - k))) by ring.
  replace (m * 2 ^ (t - k) * 2 ^ k) with (m * (2 ^ k * 2 ^ (t - k))) by ring.
  lia.
Qed.

Lemma Rnd_ulps x : nonneg x = true -> Rnd (ulps x) 1 = ulps x.
Proof.
  destruct x as [s|s| |s m e]; cbn [nonneg ulps]; intro H.
  - apply Rnd_zero. lia.
  - unfold INF. replace (2 ^ 2098) with (1 * 2 ^ 2098) at 1 2 by lia.
    apply Rnd_exact; [cbv; split; congruence|lia|].
    unfold INF. lia.
  - discriminate.
  - apply andb_prop in H. destruct H as [_ H].
    destruct (bounded_facts _ _ H) as (He & Hm & _).
    pose proof (@ulps_finite_lt s m e H) as Hl. cbn [ulps] in Hl.
    apply Rnd_exact; lia.
Qed.

Lemma num_spec z :
  0 <= z -> nonneg (num z) = true /\ ulps (num z) = Rnd (z * 2 ^ 1074) 1.
Proof.
  intro Hz. unfold num, numberOfZ, binary_normalize.
  destruct z as [|p|p]; [| |lia].
  - cbn [nonneg ulps negb]. rewrite Z.mul_0_l, Rnd_zero by lia. split; reflexivity.
  - apply (@binary_round_Rnd p 0). lia.
Qed.

Lemma num_small z :
  0 <= z < 2 ^ 53 -> nonneg (num z) = true /\ ulps (num z) = z * 2 ^ 1074.
Proof.
  intro Hz. destruct (@num_spec z ltac:(lia)) as [Hn Hu].
  split; [exact Hn|]. rewrite Hu. apply Rnd_exact; [lia|lia|].
  rewrite (@INF_split 1074) by lia.
  pose proof (@pow2_pos 1074 ltac:(lia)).
  assert (2 ^ 53 <= 2 ^ (2098 - 1074)) by (apply pow2_le; lia). nia.
Qed.

Lemma INF_pos : 0 < INF.
Proof. unfold INF. apply pow2_pos. lia. Qed.

Lemma Rnd_INF N : INF <= N -> Rnd N 1 = INF.
Proof.
  intro H. pose proof INF_pos as HI. apply Z.le_antisymm; [apply Rnd_le_INF|].
  assert (E : Rnd INF 1 = INF).
  { exact (Rnd_ulps (S754_infinity false) eq_refl). }
  rewrite <- E at 1. apply Rnd_mono; lia.
Qed.

Ltac sign_cases :=
  repeat match goal with
  | H : negb ?s && _ = true |- _ =>
      apply andb_prop in H; let Hs := fresh "Hs" in destruct H as [Hs H];
      destruct s; [discriminate Hs|clear Hs]
  | H : negb ?s = true |- _ => destruct s; [discriminate H|clear H]
  | H : false = true |- _ => discriminate H
  end.

(** ** Comparisons *)

Lemma Math_min_spec x y :
  nonneg x = true -> nonneg y = true ->
  nonneg (Math_min x y) = true /\ ulps (Math_min x y) = Z.min (ulps x) (ulps y).
Proof.
  intros Hx Hy. unfold Math_min. rewrite (SFcompare_ulps x y Hx Hy).
  destruct (Z.compare_spec (ulps x) (ulps y)) as [Heq|Hlt|Hgt].
  - assert (Hz : isNegZero x = false).
    { destruct x as [[|]| | |]; try reflexivity; discriminate. }
    rewrite Hz. split; [exact Hy|lia].
  - split; [exact Hx|lia].
  - split; [exact Hy|lia].
Qed.

Lemma Math_max_spec x y :
  nonneg x = true -> nonneg y = true ->
  nonneg (Math_max x y) = true /\ ulps (Math_max x y) = Z.max (ulps x) (ulps y).
Proof.
  intros Hx Hy. unfold Math_max. rewrite (SFcompare_ulps x y Hx Hy).
  destruct (Z.compare_spec (ulps x) (ulps y)) as [Heq|Hlt|Hgt].
  - destruct (isPosZero x); split; try assumption; lia.
  - split; [exact Hy|lia].
  - split; [exact Hx|lia].
Qed.

Lemma SFleb_ulps x y :
  nonneg x = true -> nonneg y = true ->
  SFleb x y = true <-> ulps x <= ulps y.
Proof.
  intros Hx Hy. unfold SFleb. rewrite (SFcompare_ulps x y Hx Hy).
  destruct (Z.compare_spec (ulps x) (ulps y)); split; intro; try lia;
    try reflexivity; discriminate.
Qed.

Lemma SFltb_ulps x y :
  nonneg x = true -> nonneg y = true ->
  SFltb x y = true <-> ulps x < ulps y.
Proof.
  intros Hx Hy. unfold SFltb. rewrite (SFcompare_ulps x y Hx Hy).
  destruct (Z.compare_spec (ulps x) (ulps y)); split; intro; try lia;
    try reflexivity; discriminate.
Qed.

(** ** Addition and subtraction *)

Lemma shl_align_fst mx ex ez :
  ez <= ex -> Zpos (fst (shl_align mx ex ez)) = Zpos mx * 2 ^ (ex - ez).
Proof.
  intro H. unfold shl_align. destruct (ez - ex) as [|p|p] eqn:Hd; cbn [fst].
  - replace (ex - ez) with 0 by lia. lia.
  - lia.
  - rewrite iter_xO_pow. do 2 f_equal. lia.
Qed.

Lemma aligned_sum mx ex my ey :
  -1074 <= ex -> -1074 <= ey ->
  let ez := Z.min ex ey in
  Zpos mx * 2 ^ (ex - ez) * 2 ^ (ez + 1074) = Zpos mx * 2 ^ (ex + 1074)
  /\ Zpos my * 2 ^ (ey - ez) * 2 ^ (ez + 1074) = Zpos my * 2 ^ (ey + 1074).
Proof.
  intros Hx Hy ez.
  split; rewrite <- Z.mul_assoc, <- Z.pow_add_r by lia; do 2 f_equal; lia.
Qed.

(** [x + y] *)
Lemma add_spec x y :
  nonneg x = true -> nonneg y = true ->
  nonneg (add x y) = true /\ ulps (add x y) = Rnd (ulps x + ulps y) 1.
Proof.
  intros Hx Hy.
  pose proof (ulps_range x Hx) as Rx. pose proof (ulps_range y Hy) as Ry.
  pose proof (Rnd_ulps x Hx) as Ex. pose proof (Rnd_ulps y Hy) as Ey.
  destruct x as [sx|sx| |sx mx ex], y as [sy|sy| |sy my ey];
    cbn [nonneg] in Hx, Hy; sign_cases; unfold add; cbn [SFadd nonneg ulps negb andb] in *;
    try (split; [reflexivity|]); try (rewrite Rnd_INF by lia; reflexivity).
  - rewrite Rnd_zero by lia. reflexivity.
  - rewrite Hy. split; [reflexivity|]. symmetry. exact Ey.
  - rewrite Hx. split; [reflexivity|]. rewrite Z.add_0_r. symmetry. exact Ex.
  - destruct (bounded_facts _ _ Hx) as (Hex & _).
    destruct (bounded_facts _ _ Hy) as (Hey & _).
    cbn [cond_Zopp]. set (ez := Z.min ex ey).
    destruct (@aligned_sum mx ex my ey ltac:(lia) ltac:(lia)) as [Ax Ay]. fold ez in Ax, Ay.
    rewrite <- Ax, <- Ay, <- Z.mul_add_distr_r.
    rewrite <- !shl_align_fst by (unfold ez; lia).
    cbn [Z.add binary_normalize].
    apply binary_round_Rnd. unfold ez. lia.
Qed.

(** [x - y], for [y <= x] *)
Lemma sub_spec x y :
  nonneg x = true -> nonneg y = true -> finite x = true -> ulps y <= ulps x ->
  nonneg (sub x y) = true /\ ulps (sub x y) = Rnd (ulps x - ulps y) 1.
Proof.
  intros Hx Hy Fx Hle.
  pose proof (ulps_range y Hy) as Ry.
  pose proof (Rnd_ulps x Hx) as Ex.
  destruct x as [sx|sx| |sx mx ex], y as [sy|sy| |sy my ey];
    cbn [nonneg finite] in Hx, Hy, Fx; sign_cases; try discriminate Fx;
    unfold sub; cbn [SFsub nonneg ulps negb andb] in *.
  - rewrite Rnd_zero by lia. split; reflexivity.
  - pose proof INF_pos. lia.
  - pose proof (@ulps_finite_lt false my ey Hy) as H. cbn [ulps] in H. lia.
  - rewrite Hx. split; [reflexivity|]. rewrite Z.sub_0_r. symmetry. exact Ex.
  - pose proof (@ulps_finite_lt false mx ex Hx) as H. cbn [ulps] in H. lia.
  - destruct (bounded_facts _ _ Hx) as (Hex & _).
    destruct (bounded_facts _ _ Hy) as (Hey & _).
    cbn [cond_Zopp]. set (ez := Z.min ex ey).
    destruct (@aligned_sum mx ex my ey ltac:(lia) ltac:(lia)) as [Ax Ay]. fold ez in Ax, Ay.
    rewrite <- Ax, <- Ay, <- Z.mul_sub_distr_r.
    rewrite <- Ax, <- Ay in Hle.
    rewrite <- !shl_align_fst by (unfold ez; lia).
    rewrite <- !shl_align_fst in Hle by (unfold ez; lia).
    pose proof (@pow2_pos (ez + 1074) ltac:(unfold ez; lia)) as Hp.
    set (a := Zpos (fst (shl_align mx ex ez))) in *.
    set (b := Zpos (fst (shl_align my ey ez))) in *.
    assert (Hab : 0 <= a - b) by nia.
    destruct (a - b) as [|p|p] eqn:Hd; [| |lia]; cbn [binary_normalize].
    + rewrite Z.mul_0_l, Rnd_zero by lia. split; reflexivity.
    + apply binary_round_Rnd. unfold ez. lia.
Qed.

(** ** Multiplication *)

(** [x * y] *)
Lemma mul_spec x y :
  nonneg x = true -> nonneg y = true -> finite x = true -> finite y = true ->
  nonneg (mul x y) = true /\ ulps (mul x y) = Rnd (ulps x * ulps y) (2 ^ 1074).
Proof.
  intros Hx Hy Fx Fy.
  pose proof (@pow2_pos 1074 ltac:(lia)) as HD.
  destruct x as [sx|sx| |sx mx ex], y as [sy|sy| |sy my ey];
    cbn [nonneg finite] in Hx, Hy, Fx, Fy; sign_cases; try discriminate;
    unfold mul; cbn [SFmul nonneg ulps negb andb xorb] in *;
    rewrite ?Z.mul_0_l, ?Z.mul_0_r, ?Rnd_zero by lia; try (split; reflexivity).
  destruct (bounded_facts _ _ Hx) as (Hex & Hmx & Hnx).
  destruct (bounded_facts _ _ Hy) as (Hey & Hmy & Hny).
  replace (Zpos mx * 2 ^ (ex + 1074) * (Zpos my * 2 ^ (ey + 1074)))
    with (Zpos (mx * my) * 2 ^ (ex + ey + 1074 + 1074)).
  - apply binary_round_aux_Rnd; try lia.
    destruct (Z.eq_dec ex (-1074)) as [Ex|Ex], (Z.eq_dec ey (-1074)) as [Ey|Ey];
      [unfold fexp64; lia| | | ];
      (assert (Hbig : 2 ^ 52 <= Zpos (mx * my))
        by (rewrite Pos2Z.inj_mul;
            try (pose proof (Hnx ltac:(lia))); try (pose proof (Hny ltac:(lia))); nia);
       pose proof (@Zdigits2_ge (Zpos (mx * my)) 53 ltac:(lia) Hbig);
       unfold fexp64; lia).
  - rewrite Pos2Z.inj_mul.
    replace (ex + ey + 1074 + 1074) with ((ex + 1074) + (ey + 1074)) by lia.
    rewrite Z.pow_add_r by lia. ring.
Qed.

(** ** Integers *)

(** [Math.floor(x)] *)
Lemma Math_floor_spec x :
  nonneg x = true ->
  nonneg (Math_floor x) = true
  /\ ulps (Math_floor x) = ulps x / 2 ^ 1074 * 2 ^ 1074.
Proof.
  intro Hx. pose proof (@pow2_pos 1074 ltac:(lia)) as HD.
  destruct x as [sx|sx| |sx mx ex]; cbn [nonneg] in Hx; sign_cases;
    cbn [Math_floor].
  - cbn [nonneg ulps negb]. split; reflexivity.
  - cbn [nonneg ulps negb]. split; [reflexivity|].
    rewrite (@INF_split 1074) by lia. rewrite Z.mul_comm, Z.div_mul by lia. ring.
  - destruct (bounded_facts _ _ Hx) as (Hex & Hmx & Hnx).
    destruct (Z.leb_spec 0 ex) as [Hpos|Hneg].
    + cbn [nonneg ulps negb andb]. split; [exact Hx|].
      rewrite Z.pow_add_r, Z.mul_assoc, Z.div_mul by lia. reflexivity.
    + cbn [cond_Zopp].
      change (binary_normalize prec emax (Zpos mx / 2 ^ (- ex)) 0 false)
        with (num (Zpos mx / 2 ^ (- ex))).
      pose proof (@pow2_pos (- ex) ltac:(lia)) as Hp.
      assert (Hz : 0 <= Zpos mx / 2 ^ (- ex) < 2 ^ 53).
      { split; [apply Z.div_pos; lia|].
        apply Z.div_lt_upper_bound; [lia|]. nia. }
      destruct (num_small Hz) as [Hn Hu]. split; [exact Hn|].
      rewrite Hu. cbn [ulps]. f_equal.
      rewrite (@pow2_split (ex + 1074) 1074) by lia.
      replace (1074 - (ex + 1074)) with (- ex) by lia.
      rewrite (Z.mul_comm (2 ^ (ex + 1074))).
      rewrite Z.div_mul_cancel_r by (pose proof (@pow2_pos (ex + 1074) ltac:(lia)); lia).
      reflexivity.
Qed.

Lemma Math_floor_small x :
  nonneg x = true -> ulps x < 2 ^ 52 * 2 ^ 1074 ->
  Math_floor x = num (ulps x / 2 ^ 1074).
Proof.
  intros Hx Hlt. pose proof (@pow2_pos 1074 ltac:(lia)) as HD.
  destruct x as [sx|sx| |sx mx ex]; cbn [nonneg] in Hx; sign_cases;
    cbn [Math_floor ulps] in *.
  - reflexivity.
  - exfalso. rewrite (@INF_split 1074) in Hlt by lia.
    assert (2 ^ 52 <= 2 ^ (2098 - 1074)) by (apply pow2_le; lia). nia.
  - destruct (bounded_facts _ _ Hx) as (Hex & Hmx & Hnx).
    destruct (Z.leb_spec 0 ex) as [Hpos|Hneg].
    + exfalso. specialize (Hnx ltac:(lia)).
      rewrite Z.pow_add_r in Hlt by lia.
      pose proof (@pow2_pos ex Hpos). nia.
    + cbn [cond_Zopp].
      change (binary_normalize prec emax (Zpos mx / 2 ^ (- ex)) 0 false)
        with (num (Zpos mx / 2 ^ (- ex))).
      f_equal.
      rewrite (@pow2_split (ex + 1074) 1074) by lia.
      replace (1074 - (ex + 1074)) with (- ex) by lia.
      rewrite (Z.mul_comm (2 ^ (ex + 1074))).
      rewrite Z.div_mul_cancel_r
        by (pose proof (@pow2_pos (ex + 1074) ltac:(lia));
            pose proof (@pow2_pos (- ex) ltac:(lia)); lia).
      reflexivity.
Qed.

(** ** Division *)

Lemma new_location_locOf D r : 0 < D -> new_location D r = locOf D r.
Proof.
  intro HD. unfold new_location, locOf.
  destruct (Z.even D) eqn:He; [reflexivity|].
  unfold new_location_odd. destruct (r =? 0); [reflexivity|]. f_equal.
  rewrite <- Z.negb_odd in He. apply negb_false_iff in He.
  apply Z.odd_spec in He. destruct He as [k Hk].
  destruct (Z.compare_spec (2 * r + 1) D), (Z.compare_spec (2 * r) D);
    try reflexivity; lia.
Qed.

Lemma sticky_record q l :
  0 <= q ->
  shr_1 (shr_1 (Build_shr_record (4 * q + stickyOf l) false false))
  = shr_record_of_loc q l.
Proof.
  intro Hq. destruct q as [|p|p]; [| |lia]; destruct l as [|[| |]]; reflexivity.
Qed.

Lemma stickyOf_range l : 0 <= stickyOf l <= 3.
Proof. destruct l as [|[| |]]; cbn; lia. Qed.

Lemma Zdigits2_sticky q c :
  0 < q -> 0 <= c <= 3 -> Zdigits2 (4 * q + c) = Zdigits2 q + 2.
Proof.
  intros Hq Hc. pose proof (@Zdigits2_bounds q Hq) as [Hlo Hhi].
  pose proof (@Zdigits2_pos q Hq) as Hd.
  apply Z.le_antisymm.
  - apply Zdigits2_le; [lia| |lia].
    rewrite Z.pow_add_r by lia. change (2 ^ 2) with 4. lia.
  - apply Z.ge_le, Zdigits2_ge; [lia|].
    replace (Zdigits2 q + 2 - 1) with (Zdigits2 q - 1 + 2) by lia.
    rewrite Z.pow_add_r by lia. change (2 ^ 2) with 4. lia.
Qed.

Lemma shr_fexp_sticky q e l :
  0 <= q -> 0 < 4 * q + stickyOf l ->
  e <= fexp64 (Zdigits2 (4 * q + stickyOf l) + (e - 2)) ->
  (q = 0 -> e <= -1074) ->
  shr_fexp prec emax q e l
  = shr_fexp prec emax (4 * q + stickyOf l) (e - 2) loc_Exact.
Proof.
  intros Hq HG He H0. unfold shr_fexp.
  rewrite (fexp_eq (Zdigits2 q + e)),
    (fexp_eq (Zdigits2 (4 * q + stickyOf l) + (e - 2))).
  pose proof (stickyOf_range l) as Hc.
  set (G := 4 * q + stickyOf l) in *.
  assert (Hf : fexp64 (Zdigits2 q + e) = fexp64 (Zdigits2 G + (e - 2))).
  { destruct (Z.eq_dec q 0) as [Hz|Hnz].
    - specialize (H0 Hz). rewrite Hz. cbn [Zdigits2].
      pose proof (@Zdigits2_le G 2 HG ltac:(change (2 ^ 2) with 4; lia) ltac:(lia)).
      pose proof (@Zdigits2_pos G HG). unfold fexp64. lia.
    - unfold G. rewrite Zdigits2_sticky by lia. f_equal. lia. }
  rewrite Hf. set (f0 := fexp64 (Zdigits2 G + (e - 2))) in *.
  replace (f0 - (e - 2)) with (f0 - e + 2) by lia.
  cbn [shr_record_of_loc].
  destruct (f0 - e) as [|p|p] eqn:Hn; [| |lia].
  - cbn [Z.add shr iter_pos]. unfold G. rewrite sticky_record by exact Hq.
    f_equal. lia.
  - cbn [Z.add shr]. f_equal; [|lia].
    rewrite !iter_pos_nat, Pos2Nat.inj_add, Nat.iter_add.
    change (Nat.iter (Pos.to_nat 2) shr_1 (Build_shr_record G false false))
      with (shr_1 (shr_1 (Build_shr_record G false false))).
    unfold G. rewrite sticky_record by exact Hq. reflexivity.
Qed.

Lemma binary_round_aux_sticky q e l :
  0 <= q -> 0 < 4 * q + stickyOf l ->
  e <= fexp64 (Zdigits2 (4 * q + stickyOf l) + (e - 2)) ->
  (q = 0 -> e <= -1074) ->
  binary_round_aux prec emax false q e l
  = binary_round_aux prec emax false (4 * q + stickyOf l) (e - 2) loc_Exact.
Proof.
  intros Hq HG He H0. unfold binary_round_aux.
  rewrite (shr_fexp_sticky l Hq HG He H0). reflexivity.
Qed.

(** Rounding the quotient with its two more bits is rounding the fraction. *)
Lemma nearest_sticky N D P a :
  0 < D -> 0 < P ->
  nearest (4 * (N / D) + stickyOf (locOf D (N mod D))) (4 * P) a ->
  nearest N (D * P) a.
Proof.
  intros HD HP.
  pose proof (Z.div_mod N D ltac:(lia)) as Hdm.
  pose proof (Z.mod_pos_bound N D HD) as Hr.
  set (q := N / D) in *. set (r := N mod D) in *.
  unfold nearest, locOf.
  set (T := (2 * a - 1) * P). set (U := (2 * a + 1) * P).
  replace ((2 * a - 1) * (4 * P)) with (4 * T) by (unfold T; ring).
  replace ((2 * a + 1) * (4 * P)) with (4 * U) by (unfold U; ring).
  replace ((2 * a - 1) * (D * P)) with (T * D) by (unfold T; ring).
  replace ((2 * a + 1) * (D * P)) with (U * D) by (unfold U; ring).
  clearbody T U. rewrite Hdm. clear Hdm.
  destruct (Z.eqb_spec r 0) as [Hz|Hnz]; [|destruct (Z.compare_spec (2 * r) D)];
    cbn [stickyOf]; intros (Hb & Ht1 & Ht2).
  - subst r. assert (T <= 2 * q <= U) by lia.
    split; [nia|]. split; intro; [apply Ht1|apply Ht2]; nia.
  - assert (T <= 2 * q + 1 <= U) by lia.
    split; [nia|]. split; intro; [apply Ht1|apply Ht2]; nia.
  - assert (T <= 2 * q /\ 2 * q + 1 <= U) by lia.
    split; [nia|]. split; intro; exfalso; nia.
  - assert (T <= 2 * q + 1 /\ 2 * q + 2 <= U) by lia.
    split; [nia|]. split; intro; exfalso; nia.
Qed.

Lemma rneQ_sticky N D P :
  0 < D -> 0 < P ->
  rneQ (4 * (N / D) + stickyOf (locOf D (N mod D))) (4 * P) = rneQ N (D * P).
Proof.
  intros HD HP.
  pose proof (@rneQ_nearest (4 * (N / D) + stickyOf (locOf D (N mod D))) (4 * P)
                ltac:(lia)) as H1.
  apply (nearest_sticky N HD HP) in H1.
  pose proof (@rneQ_nearest N (D * P) ltac:(nia)) as H2.
  assert (HDP : 0 < D * P) by nia.
  apply Z.le_antisymm; eapply nearest_mono; eauto; lia.
Qed.

Lemma encode_Rnd N D f :
  0 <= N -> 0 < D -> -1074 <= f -> N < D * 2 ^ 53 ->
  (-1074 < f -> D * 2 ^ 52 <= N) ->
  nonneg (encode (rneQ N D) f) = true
  /\ ulps (encode (rneQ N D) f) = Rnd (N * 2 ^ (f + 1074)) D.
Proof.
  intros HN HD Hf Hhi Hlo.
  assert (Hr : 0 <= rneQ N D <= 2 ^ 53).
  { split; [apply rneQ_ge; lia|apply rneQ_le; lia]. }
  destruct (@encode_spec (rneQ N D) f Hr Hf
              ltac:(intro H; apply rneQ_ge; [lia|specialize (Hlo H); lia]))
    as [Hnn Hu].
  split; [exact Hnn|]. rewrite Hu.
  pose proof (@pow2_pos (f + 1074) ltac:(lia)) as Hp.
  rewrite (@Rnd_intro (N * 2 ^ (f + 1074)) D (f + 1074)); [|nia|lia|].
  - rewrite (@rneQ_ext (N * 2 ^ (f + 1074)) (D * 2 ^ (f + 1074)) N D);
      [reflexivity|nia|lia|ring].
  - split; [lia|]. split.
    + rewrite (Z.pow_add_r 2 53 (f + 1074)), Z.mul_assoc by lia.
      apply Z.mul_lt_mono_pos_r; lia.
    + destruct (Z.eq_dec f (-1074)) as [Hz|Hnz]; [left; lia|right].
      specialize (Hlo ltac:(lia)).
      rewrite (Z.pow_add_r 2 52 (f + 1074)), Z.mul_assoc by lia.
      apply Z.mul_le_mono_nonneg_r; lia.
Qed.

Lemma shifted_mantissa m s :
  0 <= s ->
  match s with Zpos _ => Z.shiftl m s | Z0 => m | Zneg _ => 0 end = m * 2 ^ s.
Proof.
  intro Hs. destruct s as [|p|p]; [cbn; lia| |lia].
  apply Z.shiftl_mul_pow2. lia.
Qed.

Lemma fexp64_mono a b : a <= b -> fexp64 a <= fexp64 b.
Proof. unfold fexp64. lia. Qed.

(** [x / y]: the quotient [q] and the place of the remainder are rounded as
    the quotient with two more bits is, and that as the fraction itself. *)
Lemma div_finite mx ex my ey :
  bounded prec emax mx ex = true -> bounded prec emax my ey = true ->
  let x := S754_finite false mx ex in
  let y := S754_finite false my ey in
  nonneg (div x y) = true
  /\ ulps (div x y) = Rnd (ulps x * 2 ^ 1074) (ulps y).
Proof.
  intros Hx Hy x y.
  destruct (bounded_facts _ _ Hx) as (Hex & Hmx & _).
  destruct (bounded_facts _ _ Hy) as (Hey & Hmy & _).
  unfold div, x, y. cbn [SFdiv xorb ulps]. unfold SFdiv_core_binary.
  rewrite fexp_eq.
  pose proof (@Zdigits2_bounds (Zpos mx) ltac:(lia)) as [Hlo1 Hhi1].
  pose proof (@Zdigits2_bounds (Zpos my) ltac:(lia)) as [Hlo2 Hhi2].
  pose proof (@Zdigits2_pos (Zpos mx) ltac:(lia)) as Hd1.
  pose proof (@Zdigits2_pos (Zpos my) ltac:(lia)) as Hd2.
  set (d1 := Zdigits2 (Zpos mx)) in *. set (d2 := Zdigits2 (Zpos my)) in *.
  set (v := d1 + ex - (d2 + ey)).
  set (e' := Z.min (fexp64 v) (ex - ey)).
  set (s := ex - ey - e').
  assert (Hs : 0 <= s) by (unfold s, e'; lia).
  rewrite (shifted_mantissa (Zpos mx) Hs).
  set (N := Zpos mx * 2 ^ s). set (D := Zpos my).
  pose proof (@pow2_pos s Hs) as Hps.
  assert (HN : 0 < N) by (unfold N; nia).
  assert (HD : 0 < D) by (unfold D; lia).
  destruct (Z.div_eucl N D) as [q r] eqn:Hqr.
  assert (Eq : q = N / D) by (unfold Z.div; rewrite Hqr; reflexivity).
  assert (Er : r = N mod D) by (unfold Z.modulo; rewrite Hqr; reflexivity).
  rewrite (new_location_locOf r HD).
  pose proof (Z.div_mod N D ltac:(lia)) as Hdm.
  pose proof (Z.mod_pos_bound N D HD) as Hr.
  rewrite <- Eq, <- Er in Hdm. rewrite <- Er in Hr.
  assert (Hq : 0 <= q) by (rewrite Eq; apply Z.div_pos; lia).
  pose proof (stickyOf_range (locOf D r)) as Hc.
  assert (Hc0 : r <> 0 -> 0 < stickyOf (locOf D r)).
  { intro Hnz. unfold locOf. destruct (Z.eqb_spec r 0); [contradiction|].
    destruct (2 * r ?= D); cbn; lia. }
  set (c := stickyOf (locOf D r)) in *.
  assert (HG : 0 < 4 * q + c).
  { destruct (Z.eq_dec r 0) as [Hz|Hnz]; [|specialize (Hc0 Hnz); lia].
    assert (0 < q) by nia. lia. }
  (* the quotient has at least [t] bits *)
  set (t := v - e' + 1).
  assert (Ht : 2 <= t -> 2 ^ (t - 2) <= q).
  { intro H2. rewrite Eq. apply Z.div_le_lower_bound; [lia|].
    assert (D * 2 ^ (t - 2) <= 2 ^ d2 * 2 ^ (t - 2)).
    { apply Z.mul_le_mono_nonneg_r; [apply Z.lt_le_incl, pow2_pos; lia|lia]. }
    rewrite <- Z.pow_add_r in H by lia.
    replace (d2 + (t - 2)) with (d1 - 1 + s) in H by (unfold t, v, s; lia).
    rewrite Z.pow_add_r in H by lia. unfold N. nia. }
  assert (He'v : e' <= fexp64 v) by (unfold e'; lia).
  assert (Hsmall : t < 2 -> e' <= -1074).
  { intro H2. unfold fexp64 in He'v. unfold t in H2. lia. }
  assert (K2 : q = 0 -> e' <= -1074).
  { intro Hz. apply Hsmall. destruct (Z.lt_ge_cases t 2) as [|Hge]; [assumption|].
    specialize (Ht Hge). pose proof (@pow2_pos (t - 2) ltac:(lia)). lia. }
  assert (K1 : e' <= fexp64 (Zdigits2 (4 * q + c) + (e' - 2))).
  { destruct (Z.lt_ge_cases t 2) as [Hlt|Hge].
    - specialize (Hsmall Hlt). unfold fexp64. lia.
    - specialize (Ht Hge).
      assert (2 ^ (t + 1 - 1) <= 4 * q + c).
      { replace (t + 1 - 1) with (2 + (t - 2)) by lia.
        rewrite Z.pow_add_r by lia. change (2 ^ 2) with 4. lia. }
      pose proof (@Zdigits2_ge (4 * q + c) (t + 1) HG H).
      apply Z.le_trans with (fexp64 v); [exact He'v|].
      apply fexp64_mono. unfold t in *. lia. }
  rewrite (@binary_round_aux_sticky q e' (locOf D r) Hq HG K1 K2). fold c.
  rewrite binary_round_aux_exact by (try exact HG; lia).
  pose proof (@Zdigits2_bounds (4 * q + c) HG) as [HloG HhiG].
  pose proof (@Zdigits2_pos (4 * q + c) HG) as HdG.
  set (dG := Zdigits2 (4 * q + c)) in *.
  set (f0 := fexp64 (dG + (e' - 2))) in *.
  assert (Hf0 : -1074 <= f0 /\ dG + (e' - 2) - 53 <= f0
                /\ (-1074 < f0 -> f0 = dG + (e' - 2) - 53))
    by (unfold f0, fexp64; lia).
  set (n := f0 - (e' - 2)).
  assert (Hn : 2 <= n) by (unfold n; lia).
  set (P := 2 ^ (n - 2)).
  assert (HP : 0 < P) by (apply pow2_pos; lia).
  assert (Hpn : 2 ^ n = 4 * P).
  { unfold P. replace n with (2 + (n - 2)) at 1 by lia.
    rewrite Z.pow_add_r by lia. reflexivity. }
  rewrite rne_rneQ by lia. rewrite Hpn.
  unfold c. rewrite Eq, Er. rewrite rneQ_sticky by assumption.
  assert (Hhi : N < D * P * 2 ^ 53).
  { assert (2 ^ dG <= 2 ^ (53 + n)) by (apply pow2_le; unfold n; lia).
    rewrite Z.pow_add_r, Hpn in H by lia.
    assert (q + 1 <= 2 ^ 53 * P) by lia. nia. }
  assert (Hlow : -1074 < f0 -> D * P * 2 ^ 52 <= N).
  { intro Hf. destruct Hf0 as (_ & _ & Hf0). specialize (Hf0 Hf).
    replace (dG - 1) with (52 + n) in HloG by (unfold n; lia).
    rewrite Z.pow_add_r, Hpn in HloG by lia.
    assert (2 ^ 52 * P <= q) by lia. nia. }
  destruct (@encode_Rnd N (D * P) f0 ltac:(lia) ltac:(nia) ltac:(lia) Hhi Hlow)
    as [Hnn Hu].
  split; [exact Hnn|]. rewrite Hu.
  pose proof (@pow2_pos (f0 + 1074) ltac:(lia)) as Hpf.
  pose proof (@pow2_pos (ex + 1074) ltac:(lia)) as Hpx.
  pose proof (@pow2_pos (ey + 1074) ltac:(lia)) as Hpy.
  pose proof (@pow2_pos 1074 ltac:(lia)) as Hp0.
  apply Rnd_ext;
    [ apply Z.mul_nonneg_nonneg; lia
    | apply Z.mul_pos_pos; lia
    | apply Z.mul_nonneg_nonneg; [apply Z.mul_nonneg_nonneg|]; lia
    | apply Z.mul_pos_pos; lia
    | ].
  unfold N, D, P.
  replace (Zpos mx * 2 ^ s * 2 ^ (f0 + 1074) * (Zpos my * 2 ^ (ey + 1074)))
    with (Zpos mx * Zpos my * (2 ^ s * 2 ^ (f0 + 1074) * 2 ^ (ey + 1074))) by ring.
  replace (Zpos mx * 2 ^ (ex + 1074) * 2 ^ 1074 * (Zpos my * 2 ^ (n - 2)))
    with (Zpos mx * Zpos my * (2 ^ (ex + 1074) * 2 ^ 1074 * 2 ^ (n - 2))) by ring.
  f_equal. rewrite <- !Z.pow_add_r by lia. f_equal. unfold n, s. lia.
Qed.

Lemma div_spec x y :
  nonneg x = true -> nonneg y = true -> finite x = true -> finite y = true ->
  0 < ulps y ->
  nonneg (div x y) = true
  /\ ulps (div x y) = Rnd (ulps x * 2 ^ 1074) (ulps y).
Proof.
  intros Hx Hy Fx Fy Hpos.
  destruct x as [sx|sx| |sx mx ex], y as [sy|sy| |sy my ey];
    cbn [nonneg finite] in Hx, Hy, Fx, Fy; sign_cases; try discriminate;
    try (cbn [ulps] in Hpos; lia).
  - unfold div. cbn [SFdiv xorb nonneg ulps negb].
    rewrite Z.mul_0_l, Rnd_zero by assumption. split; reflexivity.
  - apply div_finite; assumption.
Qed.

Lemma div_infinity y :
  nonneg y = true -> finite y = true ->
  div (S754_infinity false) y = S754_infinity false.
Proof.
  intros Hy Fy.
  destruct y as [sy|sy| |sy my ey]; cbn [nonneg finite] in Hy, Fy; sign_cases;
    try discriminate; reflexivity.
Qed.

(** ** The order of the numbers *)

Lemma atMost_refl x : nonneg x = true -> atMost x x.
Proof. intro H. repeat split; try assumption. lia. Qed.

Lemma atMost_trans x y z : atMost x y -> atMost y z -> atMost x z.
Proof. intros (Hx & _ & H1) (_ & Hz & H2). repeat split; try assumption. lia. Qed.

Lemma atMost_SFleb x y : atMost x y -> SFleb x y = true.
Proof. intros (Hx & Hy & H). apply SFleb_ulps; assumption. Qed.

Lemma SFleb_atMost x y :
  nonneg x = true -> nonneg y = true -> SFleb x y = true -> atMost x y.
Proof. intros Hx Hy H. repeat split; try assumption. apply SFleb_ulps; assumption. Qed.

Lemma scalar_facts c :
  scalar c = true -> nonneg c = true /\ finite c = true /\ 0 < ulps c.
Proof.
  unfold scalar. intro H. apply andb_prop in H. destruct H as [H H3].
  apply andb_prop in H. destruct H as [H1 H2]. apply Z.ltb_lt in H3. auto.
Qed.

Lemma infinite_nonneg x :
  nonneg x = true -> finite x = false -> x = S754_infinity false.
Proof.
  destruct x as [s|s| |s m e]; cbn [nonneg finite]; intros H F; try discriminate.
  destruct s; [discriminate|reflexivity].
Qed.

Lemma finite_below x y :
  nonneg x = true -> nonneg y = true -> ulps x <= ulps y -> finite y = true ->
  finite x = true.
Proof.
  intros Hx Hy Hle Fy. apply (ulps_finite x Hx).
  apply (ulps_finite y Hy) in Fy. lia.
Qed.

Lemma mul_scalar c x :
  scalar c = true -> nonneg x = true ->
  nonneg (mul c x) = true
  /\ ulps (mul c x)
     = if finite x then Rnd (ulps c * ulps x) (2 ^ 1074) else INF.
Proof.
  intros Hc Hx. destruct (scalar_facts c Hc) as (Nc & Fc & Pc).
  destruct (finite x) eqn:Fx.
  - apply mul_spec; assumption.
  - rewrite (infinite_nonneg x Hx Fx).
    destruct c as [s|s| |s m e]; cbn [nonneg finite ulps] in *; try discriminate; try lia.
    sign_cases. split; reflexivity.
Qed.

Lemma div_scalar x c :
  scalar c = true -> nonneg x = true ->
  nonneg (div x c) = true
  /\ ulps (div x c)
     = if finite x then Rnd (ulps x * 2 ^ 1074) (ulps c) else INF.
Proof.
  intros Hc Hx. destruct (scalar_facts c Hc) as (Nc & Fc & Pc).
  destruct (finite x) eqn:Fx.
  - apply div_spec; assumption.
  - rewrite (infinite_nonneg x Hx Fx), (div_infinity c Nc Fc).
    split; reflexivity.
Qed.

Lemma mul_atMost c x x' :
  scalar c = true -> atMost x x' -> atMost (mul c x) (mul c x').
Proof.
  intros Hc (Hx & Hx' & Hle).
  destruct (mul_scalar c x Hc Hx) as [N1 U1].
  destruct (mul_scalar c x' Hc Hx') as [N2 U2].
  destruct (scalar_facts c Hc) as (Nc & Fc & Pc).
  split; [exact N1|]. split; [exact N2|].
  destruct (finite x') eqn:Fx'.
  - rewrite (finite_below x x' Hx Hx' Hle Fx') in U1. rewrite U1, U2.
    pose proof (ulps_range x Hx). pose proof (ulps_range x' Hx').
    pose proof (@pow2_pos 1074 ltac:(lia)).
    apply Rnd_mono; nia.
  - rewrite U2. apply (ulps_range _ N1).
Qed.

Lemma div_atMost c x x' :
  scalar c = true -> atMost x x' -> atMost (div x c) (div x' c).
Proof.
  intros Hc (Hx & Hx' & Hle).
  destruct (div_scalar x c Hc Hx) as [N1 U1].
  destruct (div_scalar x' c Hc Hx') as [N2 U2].
  destruct (scalar_facts c Hc) as (Nc & Fc & Pc).
  split; [exact N1|]. split; [exact N2|].
  destruct (finite x') eqn:Fx'.
  - rewrite (finite_below x x' Hx Hx' Hle Fx') in U1. rewrite U1, U2.
    pose proof (ulps_range x Hx). pose proof (ulps_range x' Hx').
    pose proof (@pow2_pos 1074 ltac:(lia)).
    apply Rnd_mono; nia.
  - rewrite U2. apply (ulps_range _ N1).
Qed.

Lemma add_atMost x x' y y' :
  atMost x x' -> atMost y y' -> atMost (add x y) (add x' y').
Proof.
  intros (Hx & Hx' & Hle) (Hy & Hy' & Hle').
  destruct (add_spec x y Hx Hy) as [N1 U1].
  destruct (add_spec x' y' Hx' Hy') as [N2 U2].
  split; [exact N1|]. split; [exact N2|]. rewrite U1, U2.
  pose proof (ulps_range x Hx). pose proof (ulps_range y Hy).
  apply Rnd_mono; lia.
Qed.

Lemma min_atMost x x' y y' :
  atMost x x' -> atMost y y' -> atMost (Math_min x y) (Math_min x' y').
Proof.
  intros (Hx & Hx' & Hle) (Hy & Hy' & Hle').
  destruct (Math_min_spec x y Hx Hy) as [N1 U1].
  destruct (Math_min_spec x' y' Hx' Hy') as [N2 U2].
  split; [exact N1|]. split; [exact N2|]. lia.
Qed.

Lemma max_atMost x x' y y' :
  atMost x x' -> atMost y y' -> atMost (Math_max x y) (Math_max x' y').
Proof.
  intros (Hx & Hx' & Hle) (Hy & Hy' & Hle').
  destruct (Math_max_spec x y Hx Hy) as [N1 U1].
  destruct (Math_max_spec x' y' Hx' Hy') as [N2 U2].
  split; [exact N1|]. split; [exact N2|]. lia.
Qed.

Lemma min_atMost_r x y : nonneg x = true -> nonneg y = true -> atMost (Math_min x y) y.
Proof.
  intros Hx Hy. destruct (Math_min_spec x y Hx Hy) as [N U].
  split; [exact N|]. split; [exact Hy|]. lia.
Qed.

Lemma floor_atMost x x' : atMost x x' -> atMost (Math_floor x) (Math_floor x').
Proof.
  intros (Hx & Hx' & Hle).
  destruct (Math_floor_spec x Hx) as [N1 U1].
  destruct (Math_floor_spec x' Hx') as [N2 U2].
  split; [exact N1|]. split; [exact N2|]. rewrite U1, U2.
  pose proof (@pow2_pos 1074 ltac:(lia)).
  apply Z.mul_le_mono_nonneg_r; [lia|]. apply Z.div_le_mono; lia.
Qed.

Lemma sub_atMost x y y' :
  nonneg x = true -> finite x = true -> atMost y y' -> ulps y' <= ulps x ->
  atMost (sub x y') (sub x y).
Proof.
  intros Hx Fx (Hy & Hy' & Hle) Hb.
  destruct (sub_spec x y Hx Hy Fx ltac:(lia)) as [N1 U1].
  destruct (sub_spec x y' Hx Hy' Fx Hb) as [N2 U2].
  split; [exact N2|]. split; [exact N1|]. rewrite U1, U2.
  pose proof (ulps_range y Hy). pose proof (ulps_range y' Hy').
  apply Rnd_mono; lia.
Qed.

(** ** The sizer *)

Lemma constants_scalar :
  scalar F_NORM = true /\ scalar L_NORM = true /\ scalar ALPHA = true
  /\ scalar BETA = true /\ scalar W_F = true /\ scalar W_L = true
  /\ scalar W_T = true /\ scalar (sub B_MAX B_MIN) = true.
Proof. vm_compute. repeat split. Qed.

Lemma complexity_weighted a b c d :
  complexity a b c d = Math_min (Math_max (weighted a b c d) (num 0)) (num 1).
Proof. reflexivity. Qed.

Lemma weighted_atMost a a' b b' c c' d d' :
  atMost a a' -> atMost b b' -> atMost c c' -> atMost d d' ->
  atMost (weighted a b c d) (weighted a' b' c' d').
Proof.
  intros Ha Hb Hc Hd.
  destruct constants_scalar as (S1 & S2 & S3 & S4 & S5 & S6 & S7 & _).
  unfold weighted.
  repeat first
    [ apply min_atMost | apply add_atMost
    | apply mul_atMost | apply div_atMost | assumption
    | apply atMost_refl; reflexivity ].
Qed.

Lemma complexity_atMost a a' b b' c c' d d' :
  atMost a a' -> atMost b b' -> atMost c c' -> atMost d d' ->
  atMost (complexity a b c d) (complexity a' b' c' d').
Proof.
  intros Ha Hb Hc Hd. rewrite !complexity_weighted.
  apply min_atMost; [|apply atMost_refl; reflexivity].
  apply max_atMost; [|apply atMost_refl; reflexivity].
  apply weighted_atMost; assumption.
Qed.

Lemma complexity_atMost_one a b c d :
  nonneg a = true -> nonneg b = true -> nonneg c = true -> nonneg d = true ->
  atMost (complexity a b c d) (num 1).
Proof.
  intros Ha Hb Hc Hd. rewrite complexity_weighted.
  apply min_atMost_r; [|reflexivity].
  destruct (@weighted_atMost a a b b c c d d
              (atMost_refl a Ha) (atMost_refl b Hb)
              (atMost_refl c Hc) (atMost_refl d Hd)) as (H & _).
  apply (Math_max_spec _ _ H). reflexivity.
Qed.

Lemma batchSizeOf_sizeOf a b c d :
  batchSizeOf a b c d = sizeOf (complexity a b c d).
Proof. reflexivity. Qed.

Lemma ulps_num z : 0 <= z < 2 ^ 53 -> ulps (num z) = z * 2 ^ 1074.
Proof. intro H. apply num_small. exact H. Qed.

Lemma nonneg_num z : 0 <= z -> nonneg (num z) = true.
Proof. intro H. apply num_spec. exact H. Qed.

Lemma scaled_atMost C :
  atMost C (num 1) ->
  nonneg (mul (sub B_MAX B_MIN) C) = true
  /\ ulps (mul (sub B_MAX B_MIN) C) <= 95 * 2 ^ 1074.
Proof.
  intro HC. destruct constants_scalar as (_ & _ & _ & _ & _ & _ & _ & S8).
  destruct (@mul_atMost _ _ _ S8 HC) as (N1 & _ & Hle).
  split; [exact N1|].
  assert (E : ulps (mul (sub B_MAX B_MIN) (num 1)) = 95 * 2 ^ 1074)
    by (vm_compute; reflexivity).
  rewrite E in Hle. exact Hle.
Qed.

Lemma difference_range y :
  nonneg y = true -> ulps y <= 95 * 2 ^ 1074 ->
  nonneg (sub B_MAX y) = true
  /\ 5 * 2 ^ 1074 <= ulps (sub B_MAX y) <= 100 * 2 ^ 1074.
Proof.
  intros Hy Hle.
  assert (EB : ulps B_MAX = 100 * 2 ^ 1074) by (apply ulps_num; cbv; split; congruence).
  pose proof (@pow2_pos 1074 ltac:(lia)) as Hp.
  pose proof (ulps_range y Hy) as Ry.
  destruct (@sub_spec B_MAX y eq_refl Hy eq_refl ltac:(rewrite EB; lia)) as [N U].
  split; [exact N|]. rewrite U, EB.
  assert (I : INF = 2 ^ 1074 * 2 ^ (2098 - 1074)) by (apply INF_split; lia).
  assert (2 ^ 53 <= 2 ^ (2098 - 1074)) by (apply pow2_le; lia).
  assert (L : Rnd (5 * 2 ^ 1074) 1 = 5 * 2 ^ 1074).
  { apply Rnd_exact; [cbv; split; congruence|lia|nia]. }
  assert (U100 : Rnd (100 * 2 ^ 1074) 1 = 100 * 2 ^ 1074).
  { apply Rnd_exact; [cbv; split; congruence|lia|nia]. }
  split.
  - rewrite <- L. apply Rnd_mono; lia.
  - rewrite <- U100 at 2. apply Rnd_mono; lia.
Qed.

(** The final clamp leaves the floor as it is: the size is a whole number
    from 5 to 100. *)
Lemma sizeOf_value C :
  atMost C (num 1) ->
  exists n, 5 <= n <= 100
    /\ Math_floor (sub B_MAX (mul (sub B_MAX B_MIN) C)) = num n
    /\ sizeOf C = num n.
Proof.
  intro HC. destruct (@scaled_atMost _ HC) as [Ny Hy].
  destruct (difference_range _ Ny Hy) as [NB [Blo Bhi]].
  pose proof (@pow2_pos 1074 ltac:(lia)) as Hp.
  set (B := sub B_MAX (mul (sub B_MAX B_MIN) C)) in *.
  exists (ulps B / 2 ^ 1074).
  assert (Hn : 5 <= ulps B / 2 ^ 1074 <= 100).
  { split.
    - apply Z.div_le_lower_bound; lia.
    - apply Z.div_le_upper_bound; lia. }
  assert (Hfl : Math_floor B = num (ulps B / 2 ^ 1074)).
  { apply Math_floor_small; [exact NB|].
    change (2 ^ 52) with 4503599627370496. lia. }
  split; [exact Hn|]. split; [exact Hfl|].
  unfold sizeOf. fold B. rewrite Hfl.
  set (n := ulps B / 2 ^ 1074) in *.
  assert (Hn53 : 0 <= n < 2 ^ 53) by (change (2 ^ 53) with 9007199254740992; lia).
  assert (Nn : nonneg (num n) = true) by (apply nonneg_num; lia).
  assert (E100 : ulps B_MAX = 100 * 2 ^ 1074)
    by (apply ulps_num; cbv; split; congruence).
  assert (E5 : ulps B_MIN = 5 * 2 ^ 1074)
    by (apply ulps_num; cbv; split; congruence).
  destruct (@Math_min_spec (num n) B_MAX Nn eq_refl) as [N1 U1].
  destruct (@Math_max_spec B_MIN (Math_min (num n) B_MAX) eq_refl N1) as [N2 U2].
  apply ulps_inj; [exact N2|exact Nn|].
  rewrite U2, U1, E100, E5, (@ulps_num _ Hn53). nia.
Qed.

Lemma sizeOf_atMost C C' :
  atMost C C' -> atMost C' (num 1) -> atMost (sizeOf C') (sizeOf C).
Proof.
  intros HCC HC'.
  pose proof (@atMost_trans _ _ _ HCC HC') as HC.
  destruct constants_scalar as (_ & _ & _ & _ & _ & _ & _ & S8).
  destruct (@scaled_atMost _ HC') as [Ny' Hy'].
  unfold sizeOf.
  apply max_atMost; [apply atMost_refl; reflexivity|].
  apply min_atMost; [|apply atMost_refl; reflexivity].
  apply floor_atMost.
  apply sub_atMost; [reflexivity|reflexivity|apply mul_atMost; assumption|].
  assert (EB : ulps B_MAX = 100 * 2 ^ 1074) by (apply ulps_num; cbv; split; congruence).
  rewrite EB. pose proof (@pow2_pos 1074 ltac:(lia)). lia.
Qed.

Lemma batchSizeOf_atMost a a' b b' c c' d d' :
  atMost a a' -> atMost b b' -> atMost c c' -> atMost d d' ->
  atMost (batchSizeOf a' b' c' d') (batchSizeOf a b c d).
Proof.
  intros Ha Hb Hc Hd. rewrite !batchSizeOf_sizeOf.
  apply sizeOf_atMost.
  - apply complexity_atMost; assumption.
  - apply complexity_atMost_one; [apply Ha|apply Hb|apply Hc|apply Hd].
Qed.



Lemma nonneg_zero : nonneg (num 0) = true.
Proof. reflexivity. Qed.

Lemma nonneg_one : nonneg (num 1) = true.
Proof. vm_compute. reflexivity. Qed.

Lemma ulps_one : ulps (num 1) = 2 ^ 1074.
Proof. rewrite ulps_num by (cbv; split; congruence). lia. Qed.

Lemma counted_zero : counted (num 0).
Proof.
  split; [reflexivity|]. change (ulps (num 0)) with 0.
  pose proof (@pow2_pos 1074 ltac:(lia)). lia.
Qed.

Lemma counted_succ x : counted x -> counted (add x (num 1)).
Proof.
  intros [Hx Hle]. destruct (add_spec x (num 1) Hx nonneg_one) as [N U].
  split; [exact N|]. rewrite U, ulps_one.
  assert (E : Rnd (2 ^ 53 * 2 ^ 1074 + 2 ^ 1074) 1 = 2 ^ 53 * 2 ^ 1074)
    by (vm_compute; reflexivity).
  pose proof (ulps_range x Hx).
  pose proof (@pow2_pos 1074 ltac:(lia)).
  apply Z.le_trans with (Rnd (2 ^ 53 * 2 ^ 1074 + 2 ^ 1074) 1);
    [apply Rnd_mono; lia|rewrite E; lia].
Qed.

Lemma counted_finite x : counted x -> finite x = true.
Proof.
  intros [Hx Hle]. apply (ulps_finite x Hx).
  rewrite (@INF_split 1074) by lia.
  assert (2 ^ 53 < 2 ^ (2098 - 1074)) by (apply pow2_lt; lia).
  pose proof (@pow2_pos 1074 ltac:(lia)). nia.
Qed.

Lemma emptyTally_good : goodTally emptyTally.
Proof.
  unfold goodTally, emptyTally. cbn [totalFields totalRowChars totalCells textCells longTextCells].
  pose proof counted_zero. pose proof nonneg_zero. auto.
Qed.

Lemma tallyCell_good t v : goodTally t -> goodTally (tallyCell t v).
Proof.
  intros (H1 & H2 & H3 & H4 & H5). unfold goodTally.
  destruct v; cbn [tallyCell totalFields totalRowChars totalCells textCells longTextCells];
    try (repeat split; first [assumption | apply H3 | apply H4 | apply H5
                             | apply counted_succ; assumption]).
  destruct (256 <=? length s)%nat;
    repeat split; first [assumption | apply H3 | apply H4 | apply H5
                        | apply counted_succ; assumption].
Qed.

Lemma tallyCells_good cells : forall t, goodTally t -> goodTally (fold_left tallyCell cells t).
Proof.
  induction cells as [|v cells IH]; intros t Ht; [exact Ht|].
  cbn [fold_left]. apply IH, tallyCell_good, Ht.
Qed.

Lemma tallyRow_good {W : World} t row : goodTally t -> goodTally (tallyRow t row).
Proof.
  intro Ht. unfold tallyRow.
  destruct (negb (truthy row) || negb (isObjectType row)); [exact Ht|].
  apply tallyCells_good. destruct Ht as (H1 & H2 & H3 & H4 & H5).
  unfold goodTally. cbn [totalFields totalRowChars totalCells textCells longTextCells].
  repeat split; try assumption; try apply H3; try apply H4; try apply H5.
  - apply add_spec; [assumption|]. apply nonneg_num. lia.
  - apply add_spec; [assumption|]. apply nonneg_num. lia.
Qed.

Lemma tallyRows_good {W : World} rows :
  forall t, goodTally t -> goodTally (fold_left tallyRow rows t).
Proof.
  induction rows as [|r rows IH]; intros t Ht; [exact Ht|].
  cbn [fold_left]. apply IH, tallyRow_good, Ht.
Qed.

(** The sampling loop reads the rows [i], [i+1], ... in turn. *)
Lemma skipn_nth (l : list JSVal) : forall i,
  (i < length l)%nat -> skipn i l = nth i l VUndefined :: skipn (S i) l.
Proof.
  induction l as [|x l IH]; intros i Hi; [cbn in Hi; lia|].
  destruct i as [|i]; [reflexivity|].
  cbn [skipn nth length] in *. apply IH. lia.
Qed.

Lemma sampleLoop_fold {W : World} data n : forall i t,
  (i + n <= length data)%nat ->
  sampleLoop data i n t = fold_left tallyRow (firstn n (skipn i data)) t.
Proof.
  induction n as [|n IH]; intros i t Hi; [reflexivity|].
  cbn [sampleLoop]. rewrite IH by lia.
  rewrite (@skipn_nth data i) by lia. reflexivity.
Qed.

Lemma scalar_num z : 0 < z < 2 ^ 53 -> scalar (num z) = true.
Proof.
  intro Hz. destruct (@num_small z ltac:(lia)) as [N U].
  pose proof (@pow2_pos 1074 ltac:(lia)) as Hp.
  unfold scalar. rewrite N. cbn [andb].
  apply andb_true_intro. split.
  - apply (ulps_finite _ N). rewrite U.
    rewrite (@INF_split 1074) by lia.
    assert (2 ^ 53 <= 2 ^ (2098 - 1074)) by (apply pow2_le; lia). nia.
  - apply Z.ltb_lt. rewrite U. nia.
Qed.

(** ** C4 and C5: the batch sizer *)

Lemma ratio_nonneg x y :
  nonneg x = true -> counted y -> nonneg (ratio x y) = true.
Proof.
  intros Hx Hy. unfold ratio, gt.
  destruct (SFltb (num 0) y) eqn:Hlt; [|reflexivity].
  apply (SFltb_ulps (num 0) y nonneg_zero (proj1 Hy)) in Hlt.
  change (ulps (num 0)) with 0 in Hlt.
  apply div_scalar; [|exact Hx].
  unfold scalar. rewrite (proj1 Hy), (counted_finite Hy). cbn [andb].
  apply Z.ltb_lt. exact Hlt.
Qed.

(** The sample is the first [min(rowCount, 20)] rows. *)
Lemma sampleTally_fold {W : World} (data : list JSVal) :
  sampleTally data
  = fold_left tallyRow (firstn (Nat.min (length data) 20) data) emptyTally.
Proof. unfold sampleTally. rewrite sampleLoop_fold by lia. reflexivity. Qed.

Lemma sampleTally_good {W : World} (data : list JSVal) : goodTally (sampleTally data).
Proof. rewrite sampleTally_fold. apply tallyRows_good, emptyTally_good. Qed.

Lemma sampleSize_scalar (data : list JSVal) :
  data <> [] -> scalar (sampleSize data) = true.
Proof.
  intro Hne. apply scalar_num. change (2 ^ 53) with 9007199254740992.
  destruct data as [|x data]; [contradiction|]. cbn [length]. lia.
Qed.

(** The sizer of a result set with a row is the sizer of its four metrics. *)
Lemma calculateAdaptiveBatchSize_metrics {W : World} (data : list JSVal) :
  data <> [] ->
  calculateAdaptiveBatchSize data
  = batchSizeOf (avgFieldsOf data) (avgRowLenOf data) (textRatioOf data)
      (longRatioOf data).
Proof.
  intro Hne. destruct data as [|x data]; [contradiction|].
  unfold calculateAdaptiveBatchSize.
  destruct (Nat.eqb_spec (Nat.min (length (x :: data)) 20) 0) as [H0|_];
    [cbn [length] in H0; lia|].
  reflexivity.
Qed.

(** The four metrics of a result set with a row are numbers of the sizer. *)
Lemma metrics_nonneg {W : World} (data : list JSVal) :
  data <> [] ->
  nonneg (avgFieldsOf data) = true /\ nonneg (avgRowLenOf data) = true
  /\ nonneg (textRatioOf data) = true /\ nonneg (longRatioOf data) = true.
Proof.
  intro Hne. pose proof (sampleSize_scalar Hne) as Sc.
  destruct (sampleTally_good data) as (H1 & H2 & H3 & H4 & H5).
  split; [apply div_scalar; assumption|].
  split; [apply div_scalar; assumption|].
  split; apply ratio_nonneg; try assumption; [apply H4|apply H5].
Qed.

(** X20: of two result sets, the one whose four metrics are the larger ones
    gets the smaller batches, or batches of the same size. *)
Lemma batch_size_of_result_sets {W : World} (data data' : list JSVal) :
  data <> [] -> data' <> [] ->
  SFleb (avgFieldsOf data) (avgFieldsOf data') = true ->
  SFleb (avgRowLenOf data) (avgRowLenOf data') = true ->
  SFleb (textRatioOf data) (textRatioOf data') = true ->
  SFleb (longRatioOf data) (longRatioOf data') = true ->
  SFleb (calculateAdaptiveBatchSize data') (calculateAdaptiveBatchSize data) = true.
Proof.
  intros Hne Hne' Ha Hb Hc Hd.
  destruct (metrics_nonneg Hne) as (M1 & M2 & M3 & M4).
  destruct (metrics_nonneg Hne') as (M1' & M2' & M3' & M4').
  rewrite (calculateAdaptiveBatchSize_metrics Hne),
    (calculateAdaptiveBatchSize_metrics Hne').
  apply atMost_SFleb, batchSizeOf_atMost; apply SFleb_atMost; assumption.
Qed.

(** ** The counters of the sampling loop are exact *)

(** Whole numbers below [2^53] are added without rounding. *)
Lemma add_num (a b : Z) :
  0 <= a -> 0 <= b -> a + b < 2 ^ 53 -> add (num a) (num b) = num (a + b).
Proof.
  intros Ha Hb Hab.
  destruct (@num_small a ltac:(lia)) as [Na Ua].
  destruct (@num_small b ltac:(lia)) as [Nb Ub].
  destruct (@num_small (a + b) ltac:(lia)) as [Nab Uab].
  destruct (add_spec (num a) (num b) Na Nb) as [N U].
  apply ulps_inj; [exact N|exact Nab|].
  rewrite U, Ua, Ub, Uab, <- Z.mul_add_distr_r.
  pose proof (@pow2_pos 1074 ltac:(lia)) as Hp.
  apply Rnd_exact; [lia|lia|].
  rewrite (@INF_split 1074) by lia.
  assert (2 ^ 53 <= 2 ^ (2098 - 1074)) by (apply pow2_le; lia). nia.
Qed.

Lemma countOf_cons (p : JSVal -> bool) (v : JSVal) (cells : list JSVal) :
  countOf p (v :: cells) = (if p v then 1 else 0) + countOf p cells.
Proof.
  unfold countOf. cbn [filter]. destruct (p v); cbn [length]; lia.
Qed.

Lemma countOf_range (p : JSVal -> bool) (cells : list JSVal) :
  0 <= countOf p cells <= Z.of_nat (length cells).
Proof.
  unfold countOf. pose proof (filter_length_le p cells). lia.
Qed.

Lemma tallyCells_counts (F L : spec_float) (cells : list JSVal) :
  forall c x g,
    0 <= g -> 0 <= x -> 0 <= c ->
    c + Z.of_nat (length cells) < 2 ^ 53 ->
    x + Z.of_nat (length cells) < 2 ^ 53 ->
    g + Z.of_nat (length cells) < 2 ^ 53 ->
    fold_left tallyCell cells
      {| totalFields := F; totalRowChars := L; totalCells := num c;
         textCells := num x; longTextCells := num g |}
    = {| totalFields := F; totalRowChars := L;
         totalCells := num (c + countOf isNonNull cells);
         textCells := num (x + countOf isTextual cells);
         longTextCells := num (g + countOf isLongText cells) |}.
Proof.
  induction cells as [|v cells IH]; intros c x g Hg Hx Hc Bc Bx Bg.
  - unfold countOf. cbn [filter length fold_left]. rewrite !Z.add_0_r. reflexivity.
  - cbn [length] in Bc, Bx, Bg. cbn [fold_left]. rewrite !countOf_cons.
    destruct v; cbn [tallyCell isNonNull isTextual isLongText
                     totalFields totalRowChars totalCells textCells longTextCells];
      try (rewrite !Z.add_assoc, ?Z.add_0_r; rewrite <- ?(@add_num c 1) by lia;
           try (rewrite (IH c x g) by lia; f_equal; f_equal; lia);
           rewrite (@add_num c 1) by lia;
           rewrite (IH (c + 1) x g) by lia; f_equal; f_equal; lia).
    destruct (256 <=? length s)%nat.
    + rewrite !(@add_num _ 1) by lia.
      rewrite (IH (c + 1) (x + 1) (g + 1)) by lia. f_equal; f_equal; lia.
    + rewrite !(@add_num _ 1) by lia.
      rewrite (IH (c + 1) (x + 1) g) by lia. f_equal; f_equal; lia.
Qed.

Lemma countOf_app (p : JSVal -> bool) (a b : list JSVal) :
  countOf p (a ++ b) = countOf p a + countOf p b.
Proof. unfold countOf. rewrite filter_app, length_app. lia. Qed.

Lemma tallyRow_counts {W : World} (row : JSVal) (f l c x g : Z) :
  0 <= f -> 0 <= l -> 0 <= g -> 0 <= x -> 0 <= c ->
  f + Z.of_nat (length (fieldsOfRow row)) < 2 ^ 53 ->
  l + Z.of_nat (length (serializedRow row)) < 2 ^ 53 ->
  c + Z.of_nat (length (fieldsOfRow row)) < 2 ^ 53 ->
  x + Z.of_nat (length (fieldsOfRow row)) < 2 ^ 53 ->
  g + Z.of_nat (length (fieldsOfRow row)) < 2 ^ 53 ->
  tallyRow
    {| totalFields := num f; totalRowChars := num l; totalCells := num c;
       textCells := num x; longTextCells := num g |} row
  = {| totalFields := num (f + Z.of_nat (length (fieldsOfRow row)));
       totalRowChars := num (l + Z.of_nat (length (serializedRow row)));
       totalCells := num (c + countOf isNonNull (map snd (fieldsOfRow row)));
       textCells := num (x + countOf isTextual (map snd (fieldsOfRow row)));
       longTextCells := num (g + countOf isLongText (map snd (fieldsOfRow row))) |}.
Proof.
  intros Hf Hl Hg Hx Hc Bf Bl Bc Bx Bg.
  assert (Hskip : negb (truthy row) || negb (isObjectType row) = true ->
                  fieldsOfRow row = [] /\ serializedRow row = []).
  { destruct row as [| |b|n|z|s|items|fields]; cbn [truthy isObjectType negb orb];
      try discriminate; intros _; split; reflexivity. }
  unfold tallyRow.
  destruct (negb (truthy row) || negb (isObjectType row)) eqn:Hrow.
  - destruct (Hskip eq_refl) as [-> ->]. unfold countOf.
    cbn [length map filter]. rewrite !Z.add_0_r. reflexivity.
  - assert (Hfields : ownFields row = fieldsOfRow row).
    { destruct row; try reflexivity;
        cbn [truthy isObjectType negb orb] in Hrow; rewrite ?orb_true_r in Hrow;
        discriminate. }
    assert (Htext : rowText row = serializedRow row).
    { destruct row; try reflexivity;
        cbn [truthy isObjectType negb orb] in Hrow; rewrite ?orb_true_r in Hrow;
        discriminate. }
    cbv zeta. cbn [totalFields totalRowChars totalCells textCells longTextCells].
    rewrite Htext, Hfields.
    rewrite !add_num by lia.
    apply tallyCells_counts; rewrite ?length_map; lia.
Qed.

Lemma fieldsIn_cons (row : JSVal) (rows : list JSVal) :
  fieldsIn (row :: rows) = Z.of_nat (length (fieldsOfRow row)) + fieldsIn rows.
Proof. unfold fieldsIn. cbn [map]. change (list_sum (?a :: ?l)) with (a + list_sum l)%nat. lia. Qed.

Lemma charsIn_cons {W : World} (row : JSVal) (rows : list JSVal) :
  charsIn (row :: rows) = Z.of_nat (length (serializedRow row)) + charsIn rows.
Proof. unfold charsIn. cbn [map]. change (list_sum (?a :: ?l)) with (a + list_sum l)%nat. lia. Qed.

Lemma tallyRows_counts {W : World} (rows : list JSVal) :
  forall f l c x g,
    0 <= l -> 0 <= g <= f -> 0 <= x <= f -> 0 <= c <= f ->
    f + fieldsIn rows < 2 ^ 53 ->
    l + charsIn rows < 2 ^ 53 ->
    fold_left tallyRow rows
      {| totalFields := num f; totalRowChars := num l; totalCells := num c;
         textCells := num x; longTextCells := num g |}
    = {| totalFields := num (f + fieldsIn rows);
         totalRowChars := num (l + charsIn rows);
         totalCells := num (c + countOf isNonNull (cellsIn rows));
         textCells := num (x + countOf isTextual (cellsIn rows));
         longTextCells := num (g + countOf isLongText (cellsIn rows)) |}.
Proof.
  induction rows as [|row rows IH]; intros f l c x g Hl Hg Hx Hc Bf Bl.
  - unfold fieldsIn, charsIn, countOf.
    cbn [map list_sum cellsIn flat_map filter length fold_left fold_right].
    rewrite !Z.add_0_r. reflexivity.
  - rewrite fieldsIn_cons in Bf. rewrite charsIn_cons in Bl.
    assert (0 <= fieldsIn rows) by (unfold fieldsIn; lia).
    assert (0 <= charsIn rows) by (unfold charsIn; lia).
    pose proof (countOf_range isNonNull (map snd (fieldsOfRow row))) as R1.
    pose proof (countOf_range isTextual (map snd (fieldsOfRow row))) as R2.
    pose proof (countOf_range isLongText (map snd (fieldsOfRow row))) as R3.
    rewrite length_map in R1, R2, R3.
    cbn [fold_left]. rewrite tallyRow_counts by lia.
    rewrite IH by lia.
    rewrite fieldsIn_cons, charsIn_cons. cbn [cellsIn flat_map].
    fold (cellsIn rows). rewrite !countOf_app.
    f_equal; f_equal; lia.
Qed.

Lemma filter_of_nonNull (p : JSVal -> bool) (cells : list JSVal) :
  (forall v, p v = true -> isNonNull v = true) ->
  filter p (filter isNonNull cells) = filter p cells.
Proof.
  intro Hp. induction cells as [|v cells IH]; [reflexivity|].
  cbn [filter]. destruct (isNonNull v) eqn:Hv; cbn [filter].
  - rewrite IH. reflexivity.
  - destruct (p v) eqn:Hpv; [|exact IH].
    rewrite (Hp v Hpv) in Hv. discriminate.
Qed.

(** The ratio of two counts, as the sizer computes it. *)
Lemma ratio_fraction (part total : nat) :
  Z.of_nat total < 2 ^ 53 ->
  ratio (num (Z.of_nat part)) (num (Z.of_nat total)) = fraction part total.
Proof.
  intro Ht. unfold ratio, fraction, gt.
  destruct (@num_small (Z.of_nat total) ltac:(lia)) as [N U].
  pose proof (@pow2_pos 1074 ltac:(lia)) as Hp.
  destruct (Nat.eqb_spec total 0) as [->|Hne].
  - reflexivity.
  - assert (Hlt : SFltb (num 0) (num (Z.of_nat total)) = true).
    { apply (SFltb_ulps (num 0) _ nonneg_zero N). rewrite U.
      change (ulps (num 0)) with 0. nia. }
    rewrite Hlt. reflexivity.
Qed.

(** The tally of the sampling loop holds the counts of the sampled rows. *)
Lemma sampleTally_counts {W : World} (data : list JSVal) :
  Z.of_nat (sampledFields data) < 2 ^ 53 ->
  Z.of_nat (sampledChars data) < 2 ^ 53 ->
  sampleTally data
  = {| totalFields := num (Z.of_nat (sampledFields data));
       totalRowChars := num (Z.of_nat (sampledChars data));
       totalCells := num (Z.of_nat (length (sampledCells data)));
       textCells := num (Z.of_nat (length (filter isTextual (sampledCells data))));
       longTextCells :=
         num (Z.of_nat (length (filter isLongText (sampledCells data)))) |}.
Proof.
  intros Bf Bl. rewrite sampleTally_fold. fold (sampledRows data).
  unfold emptyTally. rewrite (@tallyRows_counts W (sampledRows data) 0 0 0 0 0);
    try lia; try exact Bf; try exact Bl.
  unfold sampledCells. fold (cellsIn (sampledRows data)).
  rewrite !filter_of_nonNull by (intros [] Hv; try discriminate; reflexivity).
  reflexivity.
Qed.

Lemma length_cellsIn (rows : list JSVal) : Z.of_nat (length (cellsIn rows)) = fieldsIn rows.
Proof.
  induction rows as [|row rows IH]; [reflexivity|].
  rewrite fieldsIn_cons, <- IH. cbn [cellsIn flat_map]. fold (cellsIn rows).
  rewrite length_app, length_map. lia.
Qed.

Lemma sampledCells_bound (data : list JSVal) :
  (length (sampledCells data) <= sampledFields data)%nat.
Proof.
  unfold sampledCells. fold (cellsIn (sampledRows data)).
  pose proof (filter_length_le isNonNull (cellsIn (sampledRows data))) as H.
  pose proof (length_cellsIn (sampledRows data)) as E. unfold fieldsIn in E.
  fold (sampledFields data) in E. lia.
Qed.

(** The four metrics of the sizer are the quotients of the counts. *)
Lemma metrics_of_counts {W : World} (data : list JSVal) :
  Z.of_nat (sampledFields data) < 2 ^ 53 ->
  Z.of_nat (sampledChars data) < 2 ^ 53 ->
  let count := num (Z.of_nat (length (sampledRows data))) in
  let cells := sampledCells data in
  avgFieldsOf data = div (num (Z.of_nat (sampledFields data))) count
  /\ avgRowLenOf data = div (num (Z.of_nat (sampledChars data))) count
  /\ textRatioOf data = fraction (length (filter isTextual cells)) (length cells)
  /\ longRatioOf data = fraction (length (filter isLongText cells)) (length cells).
Proof.
  intros Bf Bl count cells.
  pose proof (sampledCells_bound data) as Bc.
  assert (Esize : sampleSize data = count).
  { unfold sampleSize, count, sampledRows. rewrite length_firstn.
    f_equal. f_equal. lia. }
  unfold avgFieldsOf, avgRowLenOf, textRatioOf, longRatioOf.
  rewrite (sampleTally_counts data Bf Bl), Esize.
  cbn [totalFields totalRowChars totalCells textCells longTextCells].
  fold cells. rewrite !ratio_fraction by (unfold cells; lia).
  repeat split; reflexivity.
Qed.

(** C4, as the code has it. For every result set the batch sizer returns a
    whole number from 5 to 100, and 10 for no row, before any sampling. For a
    result set with a row it is [floor(100 - (100 - 5) * C)] with
    [C = clamp(0.4 * min(avgFields / 40, 1) + 0.3 * min(avgRowLen / 4000, 1)
    + 0.3 * (0.5 * R_text + 0.5 * R_long), 0, 1)] over the first
    [min(rowCount, 20)] rows, where [avgFields] and [avgRowLen] are the
    fields and the serialized characters of the sampled rows divided by their
    number, [R_text] and [R_long] the textual cells and the textual cells of
    256 characters or more among the non-null cells, and every operation of
    the formula is the binary64 operation, in the order written (the final
    clamp to [5, 100] changes nothing). The counts are below [2^53], as those
    of every array that the runtime holds are. *)
Theorem batch_size_is_the_floor_of_the_formula {W : World} (data : list JSVal) :
  calculateAdaptiveBatchSize [] = num 10
  /\ (exists n, 5 <= n <= 100 /\ calculateAdaptiveBatchSize data = num n)
  /\ (Z.of_nat (sampledFields data) < 2 ^ 53 ->
      Z.of_nat (sampledChars data) < 2 ^ 53 ->
      calculateAdaptiveBatchSize data = roundedBatchSize data).
Proof.
  split; [reflexivity|].
  destruct data as [|x data].
  - split; [exists 10; split; [lia|reflexivity]|]. intros _ _. reflexivity.
  - assert (Hne : x :: data <> []) by discriminate.
    set (rows := x :: data) in *.
    destruct (metrics_nonneg Hne) as (M1 & M2 & M3 & M4).
    rewrite (calculateAdaptiveBatchSize_metrics Hne), batchSizeOf_sizeOf.
    destruct (sizeOf_value (complexity_atMost_one _ _ _ _ M1 M2 M3 M4))
      as (n & Hn & Hfloor & Hsize).
    split; [exists n; split; assumption|].
    intros Bf Bl.
    destruct (metrics_of_counts rows Bf Bl) as (E1 & E2 & E3 & E4).
    rewrite Hsize, <- Hfloor, E1, E2, E3, E4.
    unfold roundedBatchSize, rows at 1. fold rows. reflexivity.
Qed.

(** The row of 18 text columns: its counts are small, and the sizer returns
    the binary64 value of the formula. *)
Lemma batch_size_formula_witness :
  calculateAdaptiveBatchSize (W := silentWorld) [wideRow]
  = roundedBatchSize (W := silentWorld) [wideRow].
Proof.
  pose proof (batch_size_is_the_floor_of_the_formula (W := silentWorld) [wideRow]) as H.
  apply (proj2 (proj2 H)); vm_compute; reflexivity.
Defined.

(** The counts of the row of 18 text columns. *)
Example wideRow_metrics :
  sampledFields [wideRow] = 18%nat
  /\ sampledChars (W := silentWorld) [wideRow] = 3600%nat
  /\ length (sampledCells [wideRow]) = 18%nat
  /\ length (filter isTextual (sampledCells [wideRow])) = 18%nat
  /\ length (filter isLongText (sampledCells [wideRow])) = 0%nat.
Proof. repeat split; vm_compute; reflexivity. Qed.

(** The claim as stated fails: for one row of 18 text columns serialized in
    3600 characters, the formula gives 43 and the sizer returns 42. *)
Lemma rounding_misses_the_exact_formula :
  exactBatchSize (W := silentWorld) [wideRow] = 43
  /\ calculateAdaptiveBatchSize (W := silentWorld) [wideRow] = num 42
  /\ num 42 <> num 43.
Proof.
  split; [vm_compute; reflexivity|].
  split; [vm_compute; reflexivity|].
  vm_compute. discriminate.
Qed.

(** C5: the batch size never grows when one of the four metrics (average
    field count, average row length, ratio of text cells, ratio of long text
    cells) grows and the other three stay as they are. The metrics are
    numbers that are neither NaN nor negative, as those of every result set
    are. *)
Theorem batch_size_never_grows_with_a_metric a b c d x :
  nonneg a = true -> nonneg b = true -> nonneg c = true -> nonneg d = true ->
  nonneg x = true ->
  (SFleb a x = true -> SFleb (batchSizeOf x b c d) (batchSizeOf a b c d) = true)
  /\ (SFleb b x = true -> SFleb (batchSizeOf a x c d) (batchSizeOf a b c d) = true)
  /\ (SFleb c x = true -> SFleb (batchSizeOf a b x d) (batchSizeOf a b c d) = true)
  /\ (SFleb d x = true -> SFleb (batchSizeOf a b c x) (batchSizeOf a b c d) = true).
Proof.
  intros Ha Hb Hc Hd Hx.
  pose proof (atMost_refl a Ha). pose proof (atMost_refl b Hb).
  pose proof (atMost_refl c Hc). pose proof (atMost_refl d Hd).
  repeat split; intro Hle; apply atMost_SFleb, batchSizeOf_atMost;
    try assumption; apply SFleb_atMost; assumption.
Qed.

(** Ten fields, rows of 500 characters, half of the cells text and half of
    them long: each metric raised to 1000 in its turn. *)
Lemma batch_size_metric_witness :
  SFleb (batchSizeOf (num 1000) (num 500) HALF HALF)
        (batchSizeOf (num 10) (num 500) HALF HALF) = true
  /\ SFleb (batchSizeOf (num 10) (num 1000) HALF HALF)
           (batchSizeOf (num 10) (num 500) HALF HALF) = true
  /\ SFleb (batchSizeOf (num 10) (num 500) (num 1000) HALF)
           (batchSizeOf (num 10) (num 500) HALF HALF) = true
  /\ SFleb (batchSizeOf (num 10) (num 500) HALF (num 1000))
           (batchSizeOf (num 10) (num 500) HALF HALF) = true.
Proof.
  pose proof (@batch_size_never_grows_with_a_metric (num 10) (num 500) HALF HALF
                (num 1000)) as H.
  split; [|split; [|split]].
  - apply H; vm_compute; reflexivity.
  - apply H; vm_compute; reflexivity.
  - apply H; vm_compute; reflexivity.
  - apply H; vm_compute; reflexivity.
Defined.

Local Close Scope Z_scope.

(** ** The final answer *)

(** X1: the final answer. An iteration whose turn assembles no tool call and
    a thought that is not empty, in which the rescue finds no call written
    out, is the last one: the thought (the text of the deltas, with every
    closing tool-call tag removed) is reported once as the final answer and
    told to the model as the assistant's message; the step the iteration
    opened holds it, marked complete; one request was made and the database
    is untouched. *)
Theorem text_turn_is_the_final_answer (W : World) (question : jsstring)
    (schema : list TableSchema) (remaining iteration : nat) (st : AgentState) :
  let stream := chatStream (requests st) (messages st) in
  let answer := thoughtAfter (deltas stream) [] in
  interrupted stream = None ->
  callsAfter (deltas stream) [] = [] ->
  truthyStr answer = true ->
  detectManualToolCall (Date_now (S (clock st))) answer = None ->
  exists stF : AgentState,
    agentLoop question schema (S remaining) iteration st = (Val (S iteration), stF)
    /\ steps stF
       = steps st
           ++ [mkStep (js "step-" ++ decimal (Date_now (clock st))) thought answer
                 complete None None]
    /\ finalAnswers stF = answer :: finalAnswers st
    /\ messages stF = messages st ++ [AssistantMessage answer]
    /\ requests stF = S (requests st)
    /\ database stF = database st.
Proof.
  intros stream answer Hok Hcalls Hanswer Hrescue.
  destruct (receive_spec (deltas stream) [] [] (requested (opened st))
              (steps st) (openedStep st) eq_refl)
    as [st1 [Hr [Hsteps [Hm [Hdb [Hc [Hq Hf]]]]]]].
  rewrite Hcalls in Hr. fold answer in Hr, Hsteps.
  eexists. split.
  - cbn [agentLoop]. erewrite bind_val.
    2:{ rewrite iterate_unfold. erewrite tryCatch_val; [reflexivity|].
        unfold attempt. run.
        change (requests (opened st)) with (requests st).
        change (messages (opened st)) with (messages st).
        fold stream. erewrite bind_val by exact Hr.
        cbv iota. rewrite Hok.
        erewrite bind_val by (apply updateLastStep_snoc; exact Hsteps).
        erewrite (bind_val (rescue answer [])).
        2:{ cbn [rescue]. run. rewrite Hc.
            change (clock (requested (opened st))) with (S (clock st)).
            rewrite Hrescue. reflexivity. }
        cbv iota. rewrite Hanswer. run. reflexivity. }
    reflexivity.
  - run. rewrite Hf, Hm, Hq, Hdb.
    repeat split.
    destruct (existsb spoken (deltas stream)); reflexivity.
Qed.

Lemma text_turn_witness :
  let st := initialState (W := answeringWorld) (js "how many?") tt in
  exists stF : @AgentState answeringWorld,
    agentLoop (js "how many?") [] 50 0 st = (Val 1, stF)
    /\ finalAnswers stF = [js "There are 42 rows."]
    /\ messages stF = messages st ++ [AssistantMessage (js "There are 42 rows.")].
Proof.
  intro st.
  destruct (@text_turn_is_the_final_answer answeringWorld (js "how many?") [] 49 0 st)
    as [stF [Hloop [_ [Hf [Hm _]]]]];
    [vm_compute; reflexivity ..|].
  exists stF. split; [exact Hloop|]. split; [exact Hf|exact Hm].
Defined.

(** ** What the effects of the agent leave as it was *)

Section Frames.
Context {W : World}.
Variable R : AgentState -> AgentState -> Prop.
Hypothesis F : Frame R.

Lemma steady_ret {A} (a : A) : steady R (ret a).
Proof. intro st. apply F. Qed.

Lemma steady_throw {A} (e : Exn) : steady R (@throw W A e).
Proof. intro st. apply F. Qed.

Lemma steady_lift {A} (r : res A) : steady R (lift r).
Proof. destruct r; intro st; apply F. Qed.

Lemma steady_bind {A B} (c : M A) (k : A -> M B) :
  steady R c -> (forall a, steady R (k a)) -> steady R (bind c k).
Proof.
  intros Hc Hk st. unfold bind. specialize (Hc st).
  destruct (c st) as [[a|e] st1]; cbn [snd] in *.
  - eapply (frame_trans F); [exact Hc|apply Hk].
  - exact Hc.
Qed.

Lemma steady_tryCatch {A} (c : M A) (h : Exn -> M A) :
  steady R c -> (forall e, steady R (h e)) -> steady R (tryCatch c h).
Proof.
  intros Hc Hh st. unfold tryCatch. specialize (Hc st).
  destruct (c st) as [[a|e] st1]; cbn [snd] in *.
  - exact Hc.
  - eapply (frame_trans F); [exact Hc|apply Hh].
Qed.

Lemma steady_now : steady R now.
Proof. intro st. apply (frame_ticked F). Qed.

Lemma steady_onStepUpdate : steady R onStepUpdate.
Proof. intro st. apply (frame_reported F). Qed.

Lemma steady_pushStep (s : AgentStep) : steady R (pushStep s).
Proof.
  intro st. cbn [pushStep snd].
  eapply (frame_trans F); [apply (frame_pushed F s)|apply (frame_reported F)].
Qed.

Lemma edits_setContent c : edits (setContent c).
Proof. intro s. split; reflexivity. Qed.

Lemma edits_setStatus c : edits (setStatus c).
Proof. intro s. split; reflexivity. Qed.

Lemma edits_both c s : edits (fun x => setStatus s (setContent c x)).
Proof. intro x. split; reflexivity. Qed.

Lemma steady_assignLast f : edits f -> steady R (assignLast f).
Proof.
  intros Hf st. unfold assignLast.
  destruct (steps st) eqn:E; cbn [snd]; [apply F|].
  rewrite <- E. apply (frame_edited F). exact Hf.
Qed.

Lemma steady_updateLastStep c s : steady R (updateLastStep c s).
Proof.
  intro st. unfold updateLastStep.
  destruct (steps st) eqn:E; cbn [snd]; [apply F|].
  rewrite <- E.
  eapply (frame_trans F); [apply (frame_edited F); apply edits_both|].
  apply (frame_reported F).
Qed.

Lemma steady_requestCompletion p : steady R (requestCompletion p).
Proof. intro st. apply (frame_requested F). Qed.

Lemma steady_requestStream : steady R requestStream.
Proof. intro st. apply (frame_requested F). Qed.

Lemma steady_runSql sql : steady R (runSql sql).
Proof. intro st. apply (frame_database F). Qed.

Lemma steady_compressionProgress msg : steady R (compressionProgress msg).
Proof.
  intro st. unfold compressionProgress.
  destruct (rev (steps st)) as [|lastStep ?]; [apply F|].
  destruct (step_type lastStep); try apply F.
  destruct (startsWith (step_id lastStep) (js "compress")); [|apply F].
  revert st. change (steady R (assignLast (setContent msg) ;; onStepUpdate)).
  apply steady_bind; [apply steady_assignLast, edits_setContent|].
  intro. apply steady_onStepUpdate.
Qed.

Lemma steady_stringifyText v : steady R (stringifyText v).
Proof.
  unfold stringifyText. apply steady_bind; [apply steady_lift|].
  intro. apply steady_ret.
Qed.

Lemma steady_compressLoop question sql total size onProgress :
  (forall msg, steady R (onProgress msg)) ->
  forall batches i acc,
    steady R (compressLoop question sql total size onProgress i batches acc).
Proof.
  intro Hp. induction batches as [|batch rest IH]; intros i acc; cbn [compressLoop].
  - apply steady_ret.
  - apply steady_bind; [|intro; apply IH].
    unfold compressBatch. apply steady_bind; [apply Hp|intro].
    apply steady_bind; [apply steady_stringifyText|intro].
    apply steady_bind; [apply steady_requestCompletion|intros []; apply steady_ret].
Qed.

Lemma steady_smartCompressData data question sql onProgress :
  (forall msg, steady R (onProgress msg)) ->
  steady R (smartCompressData data question sql onProgress).
Proof.
  intro Hp. unfold smartCompressData. destruct data; [apply steady_ret|].
  apply steady_compressLoop. exact Hp.
Qed.

Lemma steady_compressResult question sql data :
  steady R (compressResult question sql data).
Proof.
  unfold compressResult. apply steady_tryCatch.
  - apply steady_bind; [apply steady_now|intro].
    apply steady_bind; [apply steady_pushStep|intro].
    apply steady_bind;
      [apply steady_smartCompressData, steady_compressionProgress|intro].
    apply steady_bind; [apply steady_assignLast, edits_setStatus|intro].
    apply steady_bind; [apply steady_onStepUpdate|intro]. apply steady_ret.
  - intro. apply steady_bind; [apply steady_stringifyText|intro]. apply steady_ret.
Qed.

Lemma steady_invokeTool question schema fnName fnArgs :
  steady R (invokeTool question schema fnName fnArgs).
Proof.
  unfold invokeTool.
  destruct (jseqb fnName (js "get_database_schema")); [apply steady_ret|].
  destruct (jseqb fnName (js "run_sql")); [|apply steady_ret].
  apply steady_bind; [apply steady_lift|intro].
  apply steady_bind; [apply steady_lift|intro].
  apply steady_bind; [apply steady_runSql|intro queryResult].
  apply steady_bind; [|intro; apply steady_ret].
  destruct (truthyOpt (qr_error queryResult)); [apply steady_ret|].
  destruct (qr_data queryResult); [apply steady_ret|]. apply steady_compressResult.
Qed.

(** The part of a dispatch that reads the arguments (lines 494-508). *)
Lemma steady_parseArguments (toolCall : ToolCall) :
  steady R
    (tryCatch
       (match JSON_parse (argumentsOrEmpty (tc_arguments toolCall)) with
        | None => throw (Failure None)
        | Some fnArgs =>
            text <- stringifyText fnArgs ;;
            assignLast (setContent text) ;;
            assignLast (setStatus complete) ;;
            onStepUpdate ;;
            ret (fnArgs, @nil N)
        end)
       (fun _ =>
          assignLast (setContent (js "Error parsing: " ++ tc_arguments toolCall)) ;;
          assignLast (setStatus error) ;;
          onStepUpdate ;;
          ret (VObj [], INVALID_JSON_ARGUMENTS))).
Proof.
  apply steady_tryCatch.
  - destruct (JSON_parse _); [|apply steady_throw].
    apply steady_bind; [apply steady_stringifyText|intro].
    apply steady_bind; [apply steady_assignLast, edits_setContent|intro].
    apply steady_bind; [apply steady_assignLast, edits_setStatus|intro].
    apply steady_bind; [apply steady_onStepUpdate|intro]. apply steady_ret.
  - intro.
    apply steady_bind; [apply steady_assignLast, edits_setContent|intro].
    apply steady_bind; [apply steady_assignLast, edits_setStatus|intro].
    apply steady_bind; [apply steady_onStepUpdate|intro]. apply steady_ret.
Qed.

Lemma steady_receive (ds : list Delta) :
  forall t b, steady R (receive ds t b).
Proof.
  induction ds as [|d ds IH]; intros t b; cbn [receive]; [apply steady_ret|].
  apply steady_bind; [|intro; apply IH].
  destruct (truthyOpt (delta_content d)); [|apply steady_ret].
  apply steady_bind; [apply steady_updateLastStep|intro; apply steady_ret].
Qed.

Lemma steady_rescue t b : steady R (rescue t b).
Proof.
  destruct b; [|apply steady_ret].
  intro st. cbn [rescue]. destruct (detectManualToolCall _ _); cbn [snd].
  - apply (frame_ticked F).
  - apply F.
Qed.


(** With the conversation allowed to grow by a message. *)
Section Telling.
Hypothesis told_ok : forall m st, R st (told m st).




(** With a final answer allowed as well. *)
Section Answering.
Hypothesis answered_ok : forall a st, R st (answered a st).




End Answering.
End Telling.
End Frames.

(** ** The conversation *)

Lemma quiet_frame {W : World} : Frame quiet.
Proof.
  constructor; unfold quiet; intros; try (split; reflexivity).
  destruct H, H0. split; congruence.
Qed.

Lemma says_quiet_bind {W : World} {A B}
    (P : res B -> list Message -> list jsstring -> Prop) (c : M A) (k : A -> M B) :
  steady quiet c -> (forall e, P (Thrown e) [] []) ->
  (forall a, says P (k a)) -> says P (bind c k).
Proof.
  intros Hc Hthrow Hk st. unfold bind. destruct (Hc st) as [Hm Ha].
  destruct (c st) as [[a|e] st1]; cbn [snd] in Hm, Ha.
  - destruct (Hk a st1) as [more [ans [Hm' [Ha' HP]]]]. exists more, ans.
    rewrite Hm', Ha', Hm, Ha. auto.
  - exists [], []. cbn [fst snd app]. rewrite app_nil_r. auto.
Qed.

(** A dispatch that returns has told the model one answer, under the id and
    the name of the call; one that throws has told it nothing. *)
Lemma dispatch_says {W : World} question schema slot :
  says (answered_once slot) (dispatch question schema slot).
Proof.
  pose proof (@quiet_frame W) as F.
  assert (Hthrow : forall e, answered_once slot (Thrown e) [] [])
    by (split; reflexivity).
  unfold dispatch. destruct slot as [toolCall|].
  - apply says_quiet_bind; [apply (steady_now F)|exact Hthrow|intro].
    apply says_quiet_bind; [apply (steady_pushStep F)|exact Hthrow|intro].
    apply says_quiet_bind;
      [apply (steady_parseArguments F)|exact Hthrow|intros [fnArgs resultString0]].
    apply says_quiet_bind;
      [|exact Hthrow|intros [resultString resultData]].
    { destruct (negb (truthyStr resultString0));
        [apply (steady_invokeTool F)|apply (steady_ret F)]. }
    apply says_quiet_bind; [apply (steady_now F)|exact Hthrow|intro].
    apply says_quiet_bind; [apply (steady_pushStep F)|exact Hthrow|intro].
    intro st. exists [ToolMessage (tc_id toolCall) (tc_name toolCall) resultString], [].
    split; [reflexivity|]. split; [reflexivity|]. split; [reflexivity|].
    eexists. split; [|reflexivity]. eexists. eexists. split; reflexivity.
  - intro st. exists [], []. cbn [throw fst snd app]. rewrite app_nil_r.
    repeat split.
Qed.

Lemma dispatchAll_says {W : World} question schema buffer :
  says (answered_in_order buffer) (dispatchAll question schema buffer).
Proof.
  induction buffer as [|slot rest IH]; intro st; cbn [dispatchAll].
  - exists [], []. cbn [ret fst snd app]. rewrite app_nil_r.
    repeat split. constructor.
  - unfold bind.
    destruct (dispatch_says question schema slot st) as [one [ans [Hm [Ha [-> Hone]]]]].
    destruct (dispatch question schema slot st) as [[[]|e] st1]; cbn [fst snd app] in *.
    + destruct Hone as [m [Hans ->]].
      destruct (IH st1) as [more [ans [Hm' [Ha' [-> [Hall Hlen]]]]]].
      exists (m :: more), []. rewrite Hm', Hm, <- app_assoc. split; [reflexivity|].
      split; [rewrite Ha'; exact Ha|]. split; [reflexivity|]. split.
      * cbn [length firstn]. constructor; assumption.
      * destruct (fst (dispatchAll question schema rest st1)); cbn [length]; lia.
    + subst one. exists [], []. split; [exact Hm|]. split; [exact Ha|].
      split; [reflexivity|]. split; [constructor|cbn [length]; lia].
Qed.

Lemma attempt_says {W : World} question schema :
  says attemptAdds (attempt question schema).
Proof.
  pose proof (@quiet_frame W) as F.
  assert (Hthrow : forall e, attemptAdds (Thrown e) [] [])
    by (intro; left; split; reflexivity).
  unfold attempt.
  apply says_quiet_bind; [apply (steady_requestStream F)|exact Hthrow|intro stream].
  apply says_quiet_bind;
    [apply (steady_receive F)|exact Hthrow|intros [currentThought buffer0]].
  destruct (interrupted stream) as [e|].
  { intro st. exists [], []. cbn [throw fst snd app]. rewrite app_nil_r.
    split; [reflexivity|]. split; [reflexivity|apply Hthrow]. }
  apply says_quiet_bind; [apply (steady_updateLastStep F)|exact Hthrow|intro].
  apply says_quiet_bind; [apply (steady_rescue F)|exact Hthrow|intros [|slot buffer]].
  - intro st. destruct currentThought as [|c t].
    + exists [], []. cbn. rewrite app_nil_r. split; [reflexivity|].
      split; [reflexivity|]. left. split; reflexivity.
    + exists [AssistantMessage (c :: t)], [c :: t]. cbn. split; [reflexivity|].
      split; [reflexivity|]. right. left. exists (c :: t). repeat split.
  - intro st. unfold bind. cbn [pushMessage].
    destruct (dispatchAll_says question schema (slot :: buffer)
                (told (AssistantToolCalls (slot :: buffer)) st))
      as [replies [ans [Hm [Ha [-> [Hall Hlen]]]]]].
    destruct (dispatchAll question schema (slot :: buffer) _) as [[[]|e] st1];
      cbn [fst snd ret] in *.
    + exists (AssistantToolCalls (slot :: buffer) :: replies), [].
      split; [rewrite Hm; cbn [told messages]; rewrite <- app_assoc; reflexivity|].
      split; [exact Ha|].
      unfold attemptAdds, turnAdds. split; [reflexivity|].
      exists (slot :: buffer), replies. split; [discriminate|]. split; [reflexivity|].
      rewrite Hlen, firstn_all in Hall. exact Hall.
    + exists (AssistantToolCalls (slot :: buffer) :: replies), [].
      split; [rewrite Hm; cbn [told messages]; rewrite <- app_assoc; reflexivity|].
      split; [exact Ha|].
      unfold attemptAdds, turnAdds.
      right. right. split; [reflexivity|]. exists (slot :: buffer), replies. auto.
Qed.

(** Every iteration returns, and adds a whole turn. *)
Lemma iterate_says (W : World) (question : jsstring) (schema : list TableSchema)
    (st : AgentState) :
  exists control more ans,
    iterate question schema st = (Val control, snd (iterate question schema st))
    /\ messages (snd (iterate question schema st)) = messages st ++ more
    /\ finalAnswers (snd (iterate question schema st)) = ans ++ finalAnswers st
    /\ turnAdds control more ans.
Proof.
  rewrite iterate_unfold. unfold tryCatch.
  destruct (attempt_says question schema (opened st)) as [more [ans [Hm [Ha Hadds]]]].
  change (messages (opened st)) with (messages st) in Hm.
  change (finalAnswers (opened st)) with (finalAnswers st) in Ha.
  destruct (attempt question schema (opened st)) as [[control|e] st1];
    cbn [fst snd] in *.
  - exists control, more, ans. auto.
  - rewrite recover_spec. exists Break, more, ans. cbn [fst snd].
    split; [reflexivity|]. split; [exact Hm|]. split; [exact Ha|exact Hadds].
Qed.

(** X2: every iteration returns, and what it adds to the conversation is a
    whole turn. When the loop goes on, that is the assistant's message with
    its tool calls followed by one tool message for each call, in the order
    of the calls and under the id and name of each, and no final answer is
    reported; when the loop ends, it is nothing, or the final answer alone
    (which is then the one answer reported), or the tool calls with the
    answers given before a dispatch threw. Nothing already in the
    conversation is changed. *)
Theorem iteration_adds_a_whole_turn (W : World) (question : jsstring)
    (schema : list TableSchema) (st : AgentState) :
  exists control more ans,
    fst (iterate question schema st) = Val control
    /\ messages (snd (iterate question schema st)) = messages st ++ more
    /\ finalAnswers (snd (iterate question schema st)) = ans ++ finalAnswers st
    /\ turnAdds control more ans.
Proof.
  destruct (iterate_says question schema st) as [control [more [ans [Hi H]]]].
  exists control, more, ans. rewrite Hi. split; [reflexivity|exact H].
Qed.

(** The loop reports at most one final answer, in its last iteration. *)
Lemma agentLoop_answers (W : World) question schema :
  forall remaining iteration (st : AgentState),
    exists more,
      messages (snd (agentLoop question schema remaining iteration st))
      = messages st ++ more
      /\ (finalAnswers (snd (agentLoop question schema remaining iteration st))
          = finalAnswers st
          \/ exists a earlier,
               truthyStr a = true
               /\ finalAnswers (snd (agentLoop question schema remaining iteration st))
                  = a :: finalAnswers st
               /\ more = earlier ++ [AssistantMessage a]).
Proof.
  induction remaining as [|remaining IH]; intros iteration st.
  - exists []. cbn [agentLoop ret snd]. rewrite app_nil_r. auto.
  - cbn [agentLoop].
    destruct (iterate_says question schema st)
      as [control [more [ans [Hi [Hm [Ha Hadds]]]]]].
    erewrite bind_val by exact Hi.
    set (st1 := snd (iterate question schema st)) in *.
    destruct control.
    + destruct Hadds as [-> _]. cbn [app] in Ha.
      destruct (IH (S iteration) st1) as [more' [Hm' Hans]].
      exists (more ++ more'). rewrite Hm', Hm, <- app_assoc. split; [reflexivity|].
      rewrite Ha in Hans. destruct Hans as [Hsame|[a [earlier [Ht [Hone ->]]]]];
        [left; exact Hsame|].
      right. exists a, (more ++ earlier). rewrite <- app_assoc. auto.
    + exists more. cbn [ret snd]. split; [exact Hm|].
      destruct Hadds as [[-> ->]|[[a [Ht [-> ->]]]|[-> _]]]; cbn [app] in Ha; auto.
      right. exists a, []. auto.
Qed.

(** X3: a session reports at most one final answer. When it reports one, the
    answer is not empty and is the last message of the conversation, as the
    assistant's; and the conversation still begins with the system prompt
    and the question, whatever was added. *)
Theorem session_reports_one_answer_at_most (W : World) (question : jsstring)
    (schema : list TableSchema) (settings : AppSettings) (db : DB) :
  let final := snd (runAgent question schema settings db) in
  exists more,
    messages final = SystemMessage systemPrompt :: UserMessage question :: more
    /\ (finalAnswers final = []
        \/ exists a earlier,
             truthyStr a = true /\ finalAnswers final = [a]
             /\ more = earlier ++ [AssistantMessage a]).
Proof.
  unfold runAgent. destruct (negb (truthyStr (apiKey settings))).
  - exists []. cbn. auto.
  - destruct (agentLoop_answers question schema MAX_ITERATIONS 0
                (initialState question db)) as [more H].
    exists more. exact H.
Qed.

(** ** The step log and its snapshots *)

Lemma snoc_cases {A} (l : list A) : l = [] \/ exists l' x, l = l' ++ [x].
Proof.
  induction l as [|x l _] using rev_ind; [left; reflexivity|].
  right. exists l, x. reflexivity.
Qed.










(** ** The buffer of tool calls *)

Lemma getAt_nil {A} (i : nat) : getAt (@nil (option A)) i = None.
Proof. unfold getAt. destruct i; reflexivity. Qed.

Lemma getAt_cons {A} (x : option A) (l : list (option A)) (i : nat) :
  getAt (x :: l) (S i) = getAt l i.
Proof. reflexivity. Qed.

Lemma getAt_setAt_same {A} (v : A) : forall i l, getAt (setAt l i v) i = Some v.
Proof.
  induction i as [|i IH]; intros [|x l]; cbn [setAt]; try reflexivity;
    rewrite getAt_cons; apply IH.
Qed.

Lemma getAt_setAt_other {A} (v : A) :
  forall i j l, i <> j -> getAt (setAt l i v) j = getAt l j.
Proof.
  induction i as [|i IH]; intros j [|x l] Hij; cbn [setAt].
  - destruct j as [|j]; [contradiction|]. rewrite getAt_cons, !getAt_nil. reflexivity.
  - destruct j as [|j]; [contradiction|]. reflexivity.
  - destruct j as [|j]; [reflexivity|].
    rewrite getAt_cons, getAt_nil, IH by lia. apply getAt_nil.
  - destruct j as [|j]; [reflexivity|]. rewrite !getAt_cons. apply IH. lia.
Qed.

Lemma length_setAt {A} (v : A) :
  forall i l, length (setAt l i v) = Nat.max (length l) (S i).
Proof.
  induction i as [|i IH]; intros [|x l]; cbn [setAt length]; try reflexivity.
  - lia.
  - rewrite IH. cbn [length]. lia.
  - rewrite IH. lia.
Qed.

Lemma extended_step (entry : ToolCall) (tc : ToolCallDelta) (mine : list ToolCallDelta) :
  extended
    {| tc_id := if truthyOpt (d_id tc) then d_id tc else tc_id entry;
       tc_name := if truthyOpt (d_name tc) then tc_name entry ++ textOf (d_name tc)
                  else tc_name entry;
       tc_arguments :=
         if truthyOpt (d_arguments tc) then tc_arguments entry ++ textOf (d_arguments tc)
         else tc_arguments entry |} mine
  = extended entry (tc :: mine).
Proof.
  assert (Hquiet : forall (o : option jsstring) (t : jsstring),
             (if truthyOpt o then t ++ textOf o else t) = t ++ textOf o).
  { intros [[|c s]|] t; cbn [truthyOpt truthyStr textOf]; try reflexivity;
      rewrite app_nil_r; reflexivity. }
  unfold extended. cbn [tc_id tc_name tc_arguments fold_left map concat].
  rewrite !Hquiet, <- !app_assoc. reflexivity.
Qed.

Lemma applyFragment_at (b : list (option ToolCall)) (tc : ToolCallDelta) (i : nat) :
  getAt (applyFragment b tc) i
  = if Nat.eqb (d_index tc) i
    then Some (extended
                 (match getAt b i with
                  | Some e => e
                  | None => {| tc_id := d_id tc; tc_name := []; tc_arguments := [] |}
                  end) [tc])
    else getAt b i.
Proof.
  unfold applyFragment. destruct (Nat.eqb_spec (d_index tc) i) as [<-|Hne].
  - rewrite getAt_setAt_same, <- extended_step. unfold extended.
    cbn [fold_left map concat]. rewrite !app_nil_r. reflexivity.
  - apply getAt_setAt_other. exact Hne.
Qed.

Lemma extended_app (entry : ToolCall) (a b : list ToolCallDelta) :
  extended (extended entry a) b = extended entry (a ++ b).
Proof.
  unfold extended. cbn [tc_id tc_name tc_arguments].
  rewrite fold_left_app, !map_app, !concat_app, <- !app_assoc. reflexivity.
Qed.

Lemma assemble_from (tcs : list ToolCallDelta) (i : nat) :
  forall b,
    getAt (fold_left applyFragment tcs b) i
    = match getAt b i with
      | Some e => Some (extended e (fragmentsAt i tcs))
      | None => assembled (fragmentsAt i tcs)
      end.
Proof.
  induction tcs as [|tc tcs IH]; intro b; cbn [fold_left fragmentsAt filter].
  - destruct (getAt b i) as [[id name args]|]; [|reflexivity].
    unfold extended. cbn. rewrite !app_nil_r. reflexivity.
  - rewrite IH, applyFragment_at. fold (fragmentsAt i tcs).
    destruct (Nat.eqb (d_index tc) i); [|reflexivity].
    rewrite extended_app. destruct (getAt b i) as [e|]; reflexivity.
Qed.

Lemma callsAfter_fragments (ds : list Delta) :
  forall b, callsAfter ds b = fold_left applyFragment (fragments ds) b.
Proof.
  induction ds as [|d ds IH]; intro b; [reflexivity|].
  unfold fragments. cbn [callsAfter fold_left flat_map]. rewrite fold_left_app.
  fold (fragments ds). rewrite <- IH.
  destruct (delta_tool_calls d); reflexivity.
Qed.

(** The parser never throws, and returns what the deltas add up to. *)
Lemma receive_result (W : World) (ds : list Delta) :
  forall t b (st : AgentState),
    fst (receive ds t b st) = Val (thoughtAfter ds t, callsAfter ds b).
Proof.
  induction ds as [|d ds IH]; intros t b st; [reflexivity|].
  cbn [receive thoughtAfter callsAfter fold_left]. fold (spoken d).
  destruct (spoken d).
  - assert (Hu : exists st1, updateLastStep
                                (t ++ replaceAll closingToolCall []
                                        (textOf (delta_content d))) streaming st
                              = (Val tt, st1))
      by (unfold updateLastStep; destruct (steps st); eexists; reflexivity).
    destruct Hu as [st1 Hu].
    erewrite bind_val by (erewrite bind_val by exact Hu; reflexivity).
    apply IH.
  - erewrite bind_val by reflexivity. apply IH.
Qed.

(** X5: the tool calls of a turn are assembled by index. The parser of the
    stream always returns; in the buffer it returns, the call at an index
    is made of the fragments that name this index, and of no other: its
    arguments are their argument texts joined in the order of arrival, its
    name their names joined likewise, its id the last id among them that is
    not empty (the id of the first fragment, if none is). An index that no
    fragment names holds no call. *)
Theorem tool_calls_are_assembled_by_index (W : World) (ds : list Delta)
    (st : AgentState) :
  exists thought buffer,
    fst (receive ds [] [] st) = Val (thought, buffer)
    /\ forall index,
         getAt buffer index = assembled (fragmentsAt index (fragments ds)).
Proof.
  exists (thoughtAfter ds []), (callsAfter ds []). split; [apply receive_result|].
  intro index. rewrite callsAfter_fragments, assemble_from, getAt_nil. reflexivity.
Qed.

Lemma length_applyFragment (b : list (option ToolCall)) (tc : ToolCallDelta) :
  length (applyFragment b tc) = Nat.max (length b) (S (d_index tc)).
Proof. unfold applyFragment. apply length_setAt. Qed.

Lemma length_assembled (tcs : list ToolCallDelta) :
  forall b,
    length b <= length (fold_left applyFragment tcs b)
    /\ forall j, In j (map d_index tcs) -> j < length (fold_left applyFragment tcs b).
Proof.
  induction tcs as [|tc tcs IH]; intro b; cbn [fold_left map In].
  - split; [lia|intros j []].
  - destruct (IH (applyFragment b tc)) as [Hlen Hin].
    rewrite length_applyFragment in Hlen. split; [lia|].
    intros j [<-|Hj]; [lia|]. apply Hin. exact Hj.
Qed.

Lemma fragmentsAt_none (tcs : list ToolCallDelta) (i : nat) :
  ~ In i (map d_index tcs) -> fragmentsAt i tcs = [].
Proof.
  induction tcs as [|tc tcs IH]; intro H; [reflexivity|].
  cbn [fragmentsAt filter map In] in *.
  destruct (Nat.eqb_spec (d_index tc) i) as [E|_]; [exfalso; apply H; left; exact E|].
  apply IH. intro; apply H; right; assumption.
Qed.

(** An index that the stream skips below one that it names is a hole of
    the buffer. *)
Lemma skipped_index_is_a_hole (ds : list Delta) (i j : nat) :
  i < j -> In j (map d_index (fragments ds)) -> ~ In i (map d_index (fragments ds)) ->
  nth_error (callsAfter ds []) i = Some None.
Proof.
  intros Hij Hj Hi.
  assert (Hget : getAt (callsAfter ds []) i = None).
  { rewrite callsAfter_fragments, assemble_from, getAt_nil, fragmentsAt_none by exact Hi.
    reflexivity. }
  assert (Hlen : i < length (callsAfter ds [])).
  { rewrite callsAfter_fragments.
    destruct (length_assembled (fragments ds) []) as [_ Hin].
    specialize (Hin j Hj). lia. }
  unfold getAt in Hget. apply nth_error_Some in Hlen.
  destruct (nth_error (callsAfter ds []) i) as [[call|]|];
    [discriminate|reflexivity|contradiction].
Qed.

(** The dispatches of a turn stop at a hole of the buffer: no slot from the
    hole on is answered, and the turn throws. *)
Lemma dispatchAll_stops_at_a_hole {W : World} question schema buffer (i : nat)
    (st : AgentState) :
  nth_error buffer i = Some None ->
  exists e replies,
    fst (dispatchAll question schema buffer st) = Thrown e
    /\ messages (snd (dispatchAll question schema buffer st)) = messages st ++ replies
    /\ finalAnswers (snd (dispatchAll question schema buffer st)) = finalAnswers st
    /\ length replies <= i.
Proof.
  intro Hhole.
  destruct (dispatchAll_says question schema buffer st)
    as [replies [ans [Hm [Ha [-> [Hall Hlen]]]]]].
  assert (Hshort : length replies <= i).
  { destruct (Nat.le_gt_cases (length replies) i) as [|Hgt]; [assumption|exfalso].
    assert (Hnth : nth_error (firstn (length replies) buffer) i = Some None)
      by (rewrite nth_error_firstn; apply Nat.ltb_lt in Hgt; rewrite Hgt; exact Hhole).
    clear - Hall Hnth. revert i Hnth.
    induction Hall as [|slot m slots ms Hans _ IH]; intros i Hnth.
    - destruct i; discriminate.
    - destruct i as [|i]; [|eapply IH; exact Hnth].
      cbn in Hnth. inversion Hnth; subst slot.
      destruct Hans as [call [text [Hs _]]]. discriminate. }
  assert (Hi : i < length buffer) by (apply nth_error_Some; rewrite Hhole; discriminate).
  destruct (fst (dispatchAll question schema buffer st)) as [u|e]; [lia|].
  exists e, replies. auto.
Qed.

(** The [try] block of a turn that has assembled tool calls: the calls are
    told to the model and dispatched, and the loop goes on unless a dispatch
    throws. *)
Lemma attempt_with_calls (W : World) question schema (st : AgentState) slot buffer :
  interrupted (chatStream (requests st) (messages st)) = None ->
  callsAfter (deltas (chatStream (requests st) (messages st))) [] = slot :: buffer ->
  exists st1 : AgentState,
    attempt question schema (opened st)
    = (let r := dispatchAll question schema (slot :: buffer)
                  (told (AssistantToolCalls (slot :: buffer)) st1) in
       (match fst r with Val _ => Val Continue | Thrown e => Thrown e end, snd r))
    /\ messages st1 = messages st
    /\ finalAnswers st1 = finalAnswers st.
Proof.
  intros Hok Hbuf. set (stream := chatStream (requests st) (messages st)) in *.
  destruct (receive_spec (deltas stream) [] [] (requested (opened st))
              (steps st) (openedStep st) eq_refl)
    as [st1 [Hr [Hsteps [Hm [_ [_ [_ Hf]]]]]]].
  rewrite Hbuf in Hr.
  pose proof (updateLastStep_snoc (thoughtAfter (deltas stream) []) complete st1 _ _
                Hsteps) as Hu.
  exists (snd (updateLastStep (thoughtAfter (deltas stream) []) complete st1)).
  split.
  - unfold attempt. run.
    change (requests (opened st)) with (requests st).
    change (messages (opened st)) with (messages st).
    fold stream. erewrite bind_val by exact Hr.
    cbv iota. rewrite Hok.
    erewrite bind_val by exact Hu.
    rewrite Hu. cbn [rescue snd]. run. unfold bind.
    destruct (dispatchAll question schema (slot :: buffer) _) as [[[]|e] st3];
      reflexivity.
  - rewrite Hu. run. split; assumption.
Qed.

(** X6: a skipped index ends the session. When the stream of a turn names an
    index of the buffer of tool calls and no fragment names some lower
    index, the buffer has a hole there; the dispatches stop at the hole at
    the latest, so that fewer calls are answered than the index of the
    hole; the iteration ends the loop with an error step, and no final
    answer is reported. *)
Theorem skipped_index_ends_the_session (W : World) (question : jsstring)
    (schema : list TableSchema) (st : AgentState) (i j : nat) :
  let stream := chatStream (requests st) (messages st) in
  interrupted stream = None ->
  i < j ->
  In j (map d_index (fragments (deltas stream))) ->
  ~ In i (map d_index (fragments (deltas stream))) ->
  exists (st' : AgentState) (replies : list Message),
    iterate question schema st = (Val Break, st')
    /\ lastStatus (steps st') = Some error
    /\ finalAnswers st' = finalAnswers st
    /\ messages st'
       = messages st ++ AssistantToolCalls (callsAfter (deltas stream) []) :: replies
    /\ length replies <= i.
Proof.
  intros stream Hok Hij Hj Hi.
  pose proof (skipped_index_is_a_hole (deltas stream) Hij Hj Hi) as Hhole.
  destruct (callsAfter (deltas stream) []) as [|slot buffer] eqn:Hbuf;
    [destruct i; discriminate|].
  destruct (attempt_with_calls question schema st Hok Hbuf) as [st1 [Hattempt [Hm Hf]]].
  destruct (dispatchAll_stops_at_a_hole question schema (slot :: buffer) i
              (told (AssistantToolCalls (slot :: buffer)) st1) Hhole)
    as [e [replies [Hthrown [Hm' [Hf' Hshort]]]]].
  cbv zeta in Hattempt. rewrite Hthrown in Hattempt.
  rewrite iterate_unfold. erewrite tryCatch_thrown by exact Hattempt.
  rewrite recover_spec. eexists. exists replies. split; [reflexivity|].
  run. split; [apply lastStatus_snoc|].
  split; [rewrite Hf'; exact Hf|].
  split; [|exact Hshort].
  rewrite Hm'. cbn [told messages]. rewrite Hm, <- app_assoc. reflexivity.
Qed.

Lemma skipped_index_witness :
  let st := initialState (W := skippingWorld) (js "how many?") tt in
  exists (st' : @AgentState skippingWorld),
    iterate (js "how many?") [] st = (Val Break, st')
    /\ lastStatus (steps st') = Some error
    /\ messages st'
       = messages st
           ++ [AssistantToolCalls
                 [None; Some {| tc_id := Some (js "call_2");
                                tc_name := js "get_database_schema";
                                tc_arguments := js "{}" |}]].
Proof.
  intro st.
  destruct (@skipped_index_ends_the_session skippingWorld (js "how many?") [] st 0 1)
    as [st' [replies [Hi [Hs [_ [Hm Hlen]]]]]].
  - reflexivity.
  - lia.
  - left. reflexivity.
  - intros [H|[]]. discriminate.
  - exists st'. split; [exact Hi|]. split; [exact Hs|].
    destruct replies; [|cbn [length] in Hlen; lia]. exact Hm.
Defined.

(** ** A text that names no tool *)

Lemma indexOf_none (s lit : jsstring) :
  indexOf s lit = None ->
  startsWith s lit = false
  /\ match s with [] => True | _ :: rest => indexOf rest lit = None end.
Proof.
  destruct s as [|c rest]; cbn [indexOf].
  - destruct (startsWith [] lit); [discriminate|]. auto.
  - destruct (startsWith (c :: rest) lit); [discriminate|].
    destruct (indexOf rest lit); [discriminate|]. auto.
Qed.

(** A pattern that opens with a literal matches nowhere in a text in which
    the literal does not occur. *)
Lemma searchFrom_without_literal (lit : jsstring) (r : regex) :
  forall s bh, indexOf s lit = None -> searchFrom (Seq (Lit lit) r) bh s = None.
Proof.
  induction s as [|c rest IH]; intros bh H;
    destruct (indexOf_none _ _ H) as [Hstart Hrest].
  - cbn [searchFrom]. unfold matchAt.
    rewrite rmatch_Seq_Lit_mismatch by exact Hstart. reflexivity.
  - cbn [searchFrom]. unfold matchAt.
    rewrite rmatch_Seq_Lit_mismatch by exact Hstart. apply IH. exact Hrest.
Qed.

(** X7: the rescue never fires on a text that names no tool. A text in which
    neither [run_sql] nor [get_database_schema] occurs, letter for letter,
    yields no manual call, whatever else it says: such an answer of the
    model is never dispatched as a tool call. *)
Theorem rescue_needs_a_tool_name (now : N) (content : jsstring) :
  includes content (js "run_sql") = false ->
  includes content (js "get_database_schema") = false ->
  detectManualToolCall now content = None.
Proof.
  unfold includes. intros Hsql Hschema.
  destruct (indexOf content (js "run_sql")) eqn:E; [discriminate|].
  unfold detectManualToolCall, exec, sqlCallQuoted, sqlCallBacktick.
  rewrite !searchFrom_without_literal by exact E.
  unfold includes at 1.
  destruct (indexOf content (js "get_database_schema")); [discriminate|]. reflexivity.
Qed.

Lemma rescue_needs_a_tool_name_witness :
  detectManualToolCall 7 (js "I would call the schema tool, then sum the sales.") = None.
Proof.
  apply rescue_needs_a_tool_name; vm_compute; reflexivity.
Defined.

(** ** Strings through JSON *)

Lemma hexValue_toHexDigit (n : N) : (n < 16)%N -> hexValue (toHexDigit n) = Some n.
Proof.
  intro Hn. unfold toHexDigit, hexValue, isDigit.
  destruct (N.ltb_spec n 10).
  - replace ((48 <=? 48 + n) && (48 + n <=? 57))%N with true
      by (symmetry; apply andb_true_iff; split; apply N.leb_le; lia).
    f_equal. lia.
  - replace ((48 <=? 87 + n) && (87 + n <=? 57))%N with false
      by (symmetry; apply andb_false_iff; right; apply N.leb_gt; lia).
    replace ((97 <=? 87 + n) && (87 + n <=? 102))%N with true
      by (symmetry; apply andb_true_iff; split; apply N.leb_le; lia).
    f_equal. lia.
Qed.

Lemma hex_digits (c : N) :
  (c < 65536)%N ->
  (c / 4096 mod 16 * 4096 + c / 256 mod 16 * 256 + c / 16 mod 16 * 16 + c mod 16 = c)%N.
Proof.
  intro Hc.
  pose proof (N.div_mod c 16 ltac:(lia)).
  pose proof (N.div_mod (c / 16) 16 ltac:(lia)).
  pose proof (N.div_mod (c / 16 / 16) 16 ltac:(lia)).
  rewrite N.Div0.div_div in *.
  change (16 * 16)%N with 256%N in *.
  assert (c / 256 / 16 = c / 4096)%N by (rewrite N.Div0.div_div; reflexivity).
  assert (c / 4096 < 16)%N by (apply N.Div0.div_lt_upper_bound; lia).
  rewrite (N.mod_small (c / 4096) 16) by assumption.
  lia.
Qed.

(** An escape [\uXXXX] reads back as the code unit it was written for. *)
Lemma parse_unicodeEscape (c : N) (rest : jsstring) :
  (c < 65536)%N ->
  parseJSONChars (unicodeEscape c ++ rest)
  = option_map (fun p => (c :: fst p, snd p)) (parseJSONChars rest).
Proof.
  intro Hc. unfold unicodeEscape. cbn [app parseJSONChars].
  change (BACKSLASH =? DQUOTE)%N with false. change (BACKSLASH <? 32)%N with false.
  change (BACKSLASH =? BACKSLASH)%N with true.
  change (117 =? DQUOTE)%N with false. change (117 =? BACKSLASH)%N with false.
  change (117 =? 47)%N with false. change (117 =? 98)%N with false.
  change (117 =? 102)%N with false. change (117 =? 110)%N with false.
  change (117 =? 114)%N with false. change (117 =? 116)%N with false.
  change (117 =? 117)%N with true. cbv iota.
  rewrite !hexValue_toHexDigit by (apply N.mod_lt; lia).
  rewrite hex_digits by exact Hc. reflexivity.
Qed.

Lemma parse_plain (c : N) (rest : jsstring) :
  (c =? DQUOTE)%N = false -> (c <? 32)%N = false -> (c =? BACKSLASH)%N = false ->
  parseJSONChars (c :: rest)
  = option_map (fun p => (c :: fst p, snd p)) (parseJSONChars rest).
Proof. intros H1 H2 H3. cbn [parseJSONChars]. rewrite H1, H2, H3. reflexivity. Qed.

Lemma quoteJSONBody_cons (c : N) (r : jsstring) :
  quoteJSONBody (c :: r)
  = if (c =? 8)%N then [BACKSLASH; 98%N] ++ quoteJSONBody r
    else if (c =? 9)%N then [BACKSLASH; 116%N] ++ quoteJSONBody r
    else if (c =? 10)%N then [BACKSLASH; 110%N] ++ quoteJSONBody r
    else if (c =? 12)%N then [BACKSLASH; 102%N] ++ quoteJSONBody r
    else if (c =? 13)%N then [BACKSLASH; 114%N] ++ quoteJSONBody r
    else if (c =? DQUOTE)%N then [BACKSLASH; DQUOTE] ++ quoteJSONBody r
    else if (c =? BACKSLASH)%N then [BACKSLASH; BACKSLASH] ++ quoteJSONBody r
    else if (c <? 32)%N then unicodeEscape c ++ quoteJSONBody r
    else if isHighSurrogate c then
      match r with
      | d :: r' =>
          if isLowSurrogate d then c :: d :: quoteJSONBody r'
          else unicodeEscape c ++ quoteJSONBody r
      | [] => unicodeEscape c
      end
    else if isLowSurrogate c then unicodeEscape c ++ quoteJSONBody r
    else c :: quoteJSONBody r.
Proof. destruct r; reflexivity. Qed.

(** What [JSON.stringify] writes for a string, [JSON.parse] reads back as
    that string, code unit for code unit. *)
Lemma parse_quoteJSONBody (n : nat) :
  forall (s rest : jsstring),
    length s <= n ->
    parseJSONChars (quoteJSONBody s ++ DQUOTE :: rest) = Some (s, rest).
Proof.
  induction n as [|n IH]; intros s rest Hlen.
  - destruct s; [|cbn [length] in Hlen; lia]. reflexivity.
  - destruct s as [|c r]; [reflexivity|]. cbn [length] in Hlen.
    assert (IHr : parseJSONChars (quoteJSONBody r ++ DQUOTE :: rest) = Some (r, rest))
      by (apply IH; lia).
    rewrite quoteJSONBody_cons.
    destruct (N.eqb_spec c 8) as [->|H8]; [cbn; rewrite IHr; reflexivity|].
    destruct (N.eqb_spec c 9) as [->|H9]; [cbn; rewrite IHr; reflexivity|].
    destruct (N.eqb_spec c 10) as [->|H10]; [cbn; rewrite IHr; reflexivity|].
    destruct (N.eqb_spec c 12) as [->|H12]; [cbn; rewrite IHr; reflexivity|].
    destruct (N.eqb_spec c 13) as [->|H13]; [cbn; rewrite IHr; reflexivity|].
    destruct (N.eqb_spec c DQUOTE) as [->|Hq]; [cbn; rewrite IHr; reflexivity|].
    destruct (N.eqb_spec c BACKSLASH) as [->|Hb]; [cbn; rewrite IHr; reflexivity|].
    destruct (N.ltb_spec c 32) as [Hlow|Hhigh].
    { rewrite <- app_assoc, parse_unicodeEscape, IHr by lia. reflexivity. }
    assert (Pc : forall t, parseJSONChars (c :: t)
                           = option_map (fun p => (c :: fst p, snd p)) (parseJSONChars t)).
    { intro t. apply parse_plain.
      - apply N.eqb_neq. exact Hq.
      - apply N.ltb_ge. exact Hhigh.
      - apply N.eqb_neq. exact Hb. }
    destruct (isHighSurrogate c) eqn:Hhs.
    { assert (Hc : (c < 65536)%N).
      { unfold isHighSurrogate in Hhs. apply andb_true_iff in Hhs.
        destruct Hhs as [_ Hhs]. apply N.leb_le in Hhs. lia. }
      destruct r as [|d r'].
      - rewrite parse_unicodeEscape by exact Hc. reflexivity.
      - destruct (isLowSurrogate d) eqn:Hls.
        + cbn [app]. rewrite Pc.
          unfold isLowSurrogate in Hls. apply andb_true_iff in Hls.
          destruct Hls as [Hls _]. apply N.leb_le in Hls.
          rewrite parse_plain.
          * rewrite IH by (cbn [length] in Hlen; lia). reflexivity.
          * apply N.eqb_neq. unfold DQUOTE. lia.
          * apply N.ltb_ge. lia.
          * apply N.eqb_neq. unfold BACKSLASH. lia.
        + rewrite <- app_assoc, parse_unicodeEscape, IHr by exact Hc. reflexivity. }
    destruct (isLowSurrogate c) eqn:Hls.
    { assert (Hc : (c < 65536)%N).
      { unfold isLowSurrogate in Hls. apply andb_true_iff in Hls.
        destruct Hls as [_ Hls]. apply N.leb_le in Hls. lia. }
      rewrite <- app_assoc, parse_unicodeEscape, IHr by exact Hc. reflexivity. }
    cbn [app]. rewrite Pc, IHr. reflexivity.
Qed.

Lemma parse_quoteJSONString (s rest : jsstring) :
  parseJSONChars (quoteJSONBody s ++ DQUOTE :: rest) = Some (s, rest).
Proof. apply (parse_quoteJSONBody (n := length s)). lia. Qed.

(** [JSON.parse(JSON.stringify({ query: s }))] is [{ query: s }]. *)
Lemma parse_stringifyQuery (s : jsstring) :
  JSON_parse (stringifyQuery s) = Some (VObj [(js "query", VStr s)]).
Proof.
  unfold JSON_parse.
  assert (Hfuel : exists fuel, 2 * length (stringifyQuery s) + 2 = S (S (S fuel))).
  { exists (2 * length (stringifyQuery s) - 1).
    unfold stringifyQuery, quoteJSONString. rewrite !length_app. cbn [length]. lia. }
  destruct Hfuel as [fuel ->].
  unfold stringifyQuery, quoteJSONString.
  change (js "{" ++ ([DQUOTE] ++ quoteJSONBody (js "query") ++ [DQUOTE]) ++ js ":"
            ++ ([DQUOTE] ++ quoteJSONBody s ++ [DQUOTE]) ++ js "}")
    with (123 :: DQUOTE :: 113 :: 117 :: 101 :: 114 :: 121 :: DQUOTE :: 58 :: DQUOTE
            :: (quoteJSONBody s ++ [DQUOTE]) ++ js "}")%N.
  rewrite <- app_assoc. cbn [app].
  cbn [parseJSONValue parseJSONMembers skipJSONSpace isJSONSpace N.eqb Pos.eqb orb
       parseJSONChars N.ltb N.compare Pos.compare Pos.compare_cont option_map fst snd
       DQUOTE BACKSLASH LBRACKET].
  change 34%N with DQUOTE. rewrite parse_quoteJSONString.
  reflexivity.
Qed.

(** ** The rescue and the arguments it writes *)

Lemma truthy_stringifyQuery (s : jsstring) :
  argumentsOrEmpty (stringifyQuery s) = stringifyQuery s.
Proof. reflexivity. Qed.

(** X8: a call that the rescue reads out of the model's text is always
    dispatched to its tool. It is a call of [run_sql] or of
    [get_database_schema], and the arguments the rescue writes for it always
    parse: for [run_sql] to an object whose only field is [query], holding
    (as a string, whatever quotes, backslashes, line breaks or other
    characters it is made of) the text captured between the quotes; for
    [get_database_schema] to the empty object. *)
Theorem rescued_arguments_always_parse (now : N) (content : jsstring) (call : ToolCall) :
  detectManualToolCall now content = Some call ->
  (tc_name call = js "run_sql"
   /\ exists m,
        (exec sqlCallQuoted content = Some m
         \/ exec sqlCallQuoted content = None /\ exec sqlCallBacktick content = Some m)
        /\ JSON_parse (argumentsOrEmpty (tc_arguments call))
           = Some (VObj [(js "query", VStr (cap m 1))]))
  \/ (tc_name call = js "get_database_schema"
      /\ JSON_parse (argumentsOrEmpty (tc_arguments call)) = Some (VObj [])).
Proof.
  unfold detectManualToolCall. intro H.
  destruct (exec sqlCallQuoted content) as [m|] eqn:Hq.
  - inversion H; subst call; clear H. left. split; [reflexivity|].
    exists m. split; [left; reflexivity|]. cbn [tc_arguments].
    rewrite truthy_stringifyQuery. apply parse_stringifyQuery.
  - destruct (exec sqlCallBacktick content) as [m|] eqn:Hb.
    + inversion H; subst call; clear H. left. split; [reflexivity|].
      exists m. split; [right; split; reflexivity|]. cbn [tc_arguments].
      rewrite truthy_stringifyQuery. apply parse_stringifyQuery.
    + destruct (includes content (js "get_database_schema")
                && (includes content (js "()") || includesCallIgnoringCase content));
        [|discriminate].
      inversion H; subst call; clear H. right. split; reflexivity.
Qed.

(** A query with quotes and a backslash in it, written out in single
    quotes. *)
Lemma rescued_arguments_witness :
  let query := js "SELECT " ++ quoted (js "a\b") ++ js " FROM t" in
  let content := js "run_sql('" ++ query ++ js "')" in
  let call := {| tc_id := Some (js "manual-sql-7"); tc_name := js "run_sql";
                 tc_arguments := stringifyQuery query |} in
  detectManualToolCall 7 content = Some call
  /\ ((tc_name call = js "run_sql"
       /\ exists m,
            (exec sqlCallQuoted content = Some m
             \/ exec sqlCallQuoted content = None
                /\ exec sqlCallBacktick content = Some m)
            /\ JSON_parse (argumentsOrEmpty (tc_arguments call))
               = Some (VObj [(js "query", VStr (cap m 1))]))
      \/ (tc_name call = js "get_database_schema"
          /\ JSON_parse (argumentsOrEmpty (tc_arguments call)) = Some (VObj []))).
Proof.
  intros query content call.
  split; [vm_compute; reflexivity|].
  apply (@rescued_arguments_always_parse 7 content call).
  vm_compute; reflexivity.
Defined.

(** ** The arguments of an action step, read back *)

(** A text that begins with [Error parsing: ] is not JSON. *)
Lemma error_text_is_not_JSON (arguments : jsstring) :
  JSON_parse (js "Error parsing: " ++ arguments) = None.
Proof.
  unfold JSON_parse.
  replace (2 * length (js "Error parsing: " ++ arguments) + 2)
    with (S (2 * length (js "Error parsing: " ++ arguments) + 1)) by lia.
  reflexivity.
Qed.

(** X9: an action step of malformed arguments cannot be read back. When the
    argument text of a tool call is not empty and does not parse, the
    action step that the dispatch leaves in the log, in error status, has a
    content that is not JSON either, whatever the arguments were: the
    [JSON.parse] by which the step renderer reads the arguments of an action
    step throws on it. *)
Theorem malformed_arguments_step_is_not_JSON (W : World) (question : jsstring)
    (schema : list TableSchema) (toolCall : ToolCall) (st : AgentState) :
  truthyStr (tc_arguments toolCall) = true ->
  JSON_parse (tc_arguments toolCall) = None ->
  exists (st' : AgentState) (actionStep observationStep : AgentStep),
    dispatch question schema (Some toolCall) st = (Val tt, st')
    /\ steps st' = steps st ++ [actionStep; observationStep]
    /\ step_type actionStep = action
    /\ step_status actionStep = Some error
    /\ step_type observationStep = observation
    /\ renderedArguments actionStep = None.
Proof.
  intros Hne Hparse. eexists. eexists. eexists. split.
  - unfold dispatch. run.
    rewrite truthy_argumentsOrEmpty by exact Hne. rewrite Hparse.
    erewrite bind_val.
    2:{ erewrite tryCatch_thrown by reflexivity.
        erewrite bind_val by (apply assignLast_snoc; run; reflexivity).
        erewrite bind_val by (apply assignLast_snoc; run; reflexivity).
        run. reflexivity. }
    run. change (negb (truthyStr INVALID_JSON_ARGUMENTS)) with false.
    run. reflexivity.
  - run. split; [rewrite <- app_assoc; reflexivity|].
    repeat (split; [reflexivity|]).
    unfold renderedArguments. cbn [step_content setStatus setContent].
    change (truthyStr (js "Error parsing: " ++ tc_arguments toolCall)) with true.
    cbv iota. apply error_text_is_not_JSON.
Qed.

Lemma malformed_arguments_step_witness :
  exists (st' : @AgentState silentWorld) (actionStep observationStep : AgentStep),
    dispatch (js "how many?") [] (Some brokenCall)
      (initialState (W := silentWorld) (js "how many?") tt) = (Val tt, st')
    /\ steps st' = [actionStep; observationStep]
    /\ renderedArguments actionStep = None.
Proof.
  destruct (@malformed_arguments_step_is_not_JSON silentWorld (js "how many?") []
              brokenCall (initialState (W := silentWorld) (js "how many?") tt))
    as [st' [a [o [Hd [Hs [_ [_ [_ Hr]]]]]]]];
    [vm_compute; reflexivity ..|].
  exists st', a, o. split; [exact Hd|]. split; [exact Hs|exact Hr].
Defined.

(** ** The batches of a compression *)

Lemma integerOf_num (n : Z) : (0 <= n <= 100)%Z -> integerOf (num n) = n.
Proof.
  intro Hn.
  assert (H : forallb (fun k => (integerOf (num (Z.of_nat k)) =? Z.of_nat k)%Z)
                (seq 0 101) = true) by (vm_compute; reflexivity).
  rewrite forallb_forall in H. specialize (H (Z.to_nat n)).
  rewrite Z2Nat.id in H by lia. apply Z.eqb_eq, H, in_seq. lia.
Qed.

Lemma batchRows_range {W : World} (data : list JSVal) : 5 <= batchRows data <= 100.
Proof.
  unfold batchRows.
  assert (H : exists n, (5 <= n <= 100)%Z /\ calculateAdaptiveBatchSize data = num n).
  { destruct data as [|x data]; [exists 10%Z; split; [lia|reflexivity]|].
    assert (Hne : x :: data <> []) by discriminate.
    destruct (metrics_nonneg Hne) as (M1 & M2 & M3 & M4).
    rewrite (calculateAdaptiveBatchSize_metrics Hne), batchSizeOf_sizeOf.
    destruct (sizeOf_value (complexity_atMost_one _ _ _ _ M1 M2 M3 M4))
      as (n & Hn & _ & Hsize).
    exists n. split; assumption. }
  destruct H as [n [Hn ->]]. rewrite integerOf_num by lia. lia.
Qed.

Lemma batchesOf_partition {A} (size : nat) :
  0 < size ->
  forall fuel (data : list A),
    length data <= fuel ->
    concat (batchesOf fuel size data) = data
    /\ Forall (fun batch => 1 <= length batch <= size) (batchesOf fuel size data)
    /\ length (batchesOf fuel size data) = (length data + size - 1) / size.
Proof.
  intros Hsize. induction fuel as [|fuel IH]; intros data Hlen.
  - destruct data; [|cbn [length] in Hlen; lia]. cbn [batchesOf concat length].
    split; [reflexivity|]. split; [constructor|].
    symmetry. apply Nat.div_small. lia.
  - destruct data as [|x data].
    + cbn [batchesOf concat length]. split; [reflexivity|]. split; [constructor|].
      symmetry. apply Nat.div_small. lia.
    + cbn [batchesOf]. set (rows := x :: data) in *.
      assert (Hrows : 0 < length rows) by (cbn [rows length]; lia).
      destruct (IH (skipn size rows)) as [Hc [Hf Hl]].
      { rewrite length_skipn. lia. }
      cbn [concat length]. rewrite Hc, firstn_skipn. split; [reflexivity|].
      split.
      * constructor; [|exact Hf]. rewrite length_firstn. lia.
      * rewrite Hl, length_skipn.
        destruct (Nat.le_gt_cases size (length rows)) as [Hge|Hlt].
        -- replace (length rows + size - 1) with (length rows - size + size - 1 + 1 * size)
             by lia.
           rewrite Nat.div_add by lia. lia.
        -- replace (length rows - size + size - 1) with (size - 1) by lia.
           rewrite Nat.div_small by lia.
           apply Nat.div_unique with (r := length rows - 1); lia.
Qed.

(** X10: the batches of a compression. The batch size is a whole number of
    rows from 5 to 100; the batches, joined in order, are the rows of the
    result, each row once; no batch is empty or longer than the batch size;
    and there are as many batches as the rows need at that size (the count
    of rows divided by the batch size, rounded up). *)
Theorem compression_batches_partition_the_rows (W : World) (data : list JSVal) :
  5 <= batchRows data <= 100
  /\ concat (compressionBatches data) = data
  /\ Forall (fun batch => 1 <= length batch <= batchRows data) (compressionBatches data)
  /\ length (compressionBatches data)
     = (length data + batchRows data - 1) / batchRows data.
Proof.
  pose proof (batchRows_range data) as Hsize. split; [exact Hsize|].
  apply batchesOf_partition; lia.
Qed.

Lemma compressionProgress_requests {W : World} msg (st : AgentState) :
  requests (snd (compressionProgress msg st)) = requests st.
Proof.
  unfold compressionProgress.
  destruct (rev (steps st)) as [|lastStep ?]; [reflexivity|].
  destruct (step_type lastStep); try reflexivity.
  destruct (startsWith (step_id lastStep) (js "compress")); [|reflexivity].
  unfold bind, assignLast. destruct (steps st); reflexivity.
Qed.

(** A round of the loop asks the model once, unless it throws before it
    asks. *)
Lemma compressBatch_requests {W : World} question sql total size i batch acc
    (st : AgentState) :
  let r := compressBatch question sql total size compressionProgress i batch acc st in
  match fst r with
  | Val _ => requests (snd r) = S (requests st)
  | Thrown _ => requests (snd r) = requests st
  end.
Proof.
  cbv zeta.
  destruct (compressBatch question sql total size compressionProgress i batch acc st)
    as [r st'] eqn:E. cbn [fst snd].
  unfold compressBatch, bind, stringifyText, lift in E.
  pose proof (compressionProgress_requests (progressMessage i total size) st) as Hp.
  destruct (compressionProgress _ st) as [[[]|e] st1]; cbn [snd] in Hp.
  2:{ inversion E; subst. exact Hp. }
  destruct (JSON_stringify (VArr batch)) as [t|e]; cbn [bind ret throw] in E.
  2:{ inversion E; subst. exact Hp. }
  cbn [requestCompletion] in E.
  destruct (chatCompletion (requests st1) _); cbn [ret] in E; inversion E; subst;
    cbn [requested requests]; congruence.
Qed.

Lemma compressLoop_requests {W : World} question sql total size :
  forall batches i acc (st : AgentState),
    let r := compressLoop question sql total size compressionProgress i batches acc st in
    match fst r with
    | Val _ => requests (snd r) = requests st + length batches
    | Thrown _ => requests (snd r) < requests st + length batches
    end.
Proof.
  induction batches as [|batch rest IH]; intros i acc st; cbn [compressLoop length].
  - cbn [ret fst snd]. lia.
  - unfold bind.
    pose proof (compressBatch_requests question sql total size i batch acc st) as Hb.
    cbv zeta in Hb.
    destruct (compressBatch _ _ _ _ _ _ _ _ st) as [[acc1|e] st1]; cbn [fst snd] in *.
    + specialize (IH (S i) acc1 st1). cbv zeta in IH.
      destruct (fst (compressLoop _ _ _ _ _ _ _ _ _)); lia.
    + lia.
Qed.

Lemma smartCompressData_loop {W : World} (x : JSVal) (data : list JSVal)
    (question sql : jsstring) (onProgress : jsstring -> M unit) :
  smartCompressData (x :: data) question sql onProgress
  = compressLoop question sql (length (compressionBatches (x :: data)))
      (calculateAdaptiveBatchSize (x :: data)) onProgress 0
      (compressionBatches (x :: data)) [].
Proof. unfold smartCompressData, compressionBatches, batchRows. reflexivity. Qed.

(** X11: a compression asks the model once for each batch. When
    [smartCompressData], with the progress callback of the dispatcher,
    returns, the model has been asked exactly as many times as there are
    batches, whether it answered or refused; when it throws (a value that
    JSON cannot hold, or no step to report progress in), it has been asked
    fewer times. *)
Theorem compression_asks_once_for_each_batch (W : World) (data : list JSVal)
    (question sql : jsstring) (st : AgentState) :
  let r := smartCompressData data question sql compressionProgress st in
  match fst r with
  | Val _ => requests (snd r) = requests st + length (compressionBatches data)
  | Thrown _ => requests (snd r) < requests st + length (compressionBatches data)
  end.
Proof.
  destruct data as [|x data].
  - unfold compressionBatches. cbn [smartCompressData ret fst snd length batchesOf]. lia.
  - rewrite smartCompressData_loop. apply compressLoop_requests.
Qed.


(** ** A compression the model never answers *)

Lemma stringify_array_some {W : World} (items : list JSVal) (t : option jsstring) :
  JSON_stringify (VArr items) = Val t -> exists u, t = Some u.
Proof.
  cbn [JSON_stringify]. intro H.
  match type of H with
  | match ?x with _ => _ end = _ => destruct x; [|discriminate]
  end.
  inversion H. eauto.
Qed.

Lemma compressLoop_refused {W : World} question sql total size onProgress :
  returns onProgress ->
  (forall n prompt, exists e, chatCompletion n prompt = Refused e) ->
  forall batches i acc (st : AgentState),
    Forall (fun batch => exists t, JSON_stringify (VArr batch) = Val t) batches ->
    fst (compressLoop question sql total size onProgress i batches acc st)
    = Val (acc ++ rawMarkers i batches).
Proof.
  intros Hp Hrefused. induction batches as [|batch rest IH]; intros i acc st Hjson.
  - cbn [compressLoop rawMarkers ret fst]. rewrite app_nil_r. reflexivity.
  - inversion Hjson as [|? ? [t Ht] Hrest]; subst. cbn [compressLoop rawMarkers].
    unfold compressBatch.
    destruct (Hp (progressMessage i total size) st) as [st1 Hprogress].
    erewrite bind_val.
    2:{ erewrite bind_val by exact Hprogress.
        unfold stringifyText. rewrite Ht. cbn [lift]. run.
        destruct (Hrefused (requests st1)
                    (compressionPrompt question sql acc
                       match t with Some u => u | None => js "undefined" end))
          as [e ->].
        reflexivity. }
    rewrite IH by exact Hrest. unfold jsonText. rewrite Ht.
    destruct (stringify_array_some _ Ht) as [u ->]. rewrite <- app_assoc. reflexivity.
Qed.

(** X12: a compression that the model never answers returns every batch. When
    every request of the compression fails, [smartCompressData] still
    returns: its result is, for each batch in order, the marker of the batch
    with its number followed by the JSON text of its rows, and nothing else
    (so that every row of the result set is in it, once). *)
Theorem refused_compression_returns_every_batch (W : World) (data : list JSVal)
    (question sql : jsstring) (onProgress : jsstring -> M unit) (st : AgentState) :
  data <> [] ->
  returns onProgress ->
  (forall n prompt, exists e, chatCompletion n prompt = Refused e) ->
  Forall (fun batch => exists t, JSON_stringify (VArr batch) = Val t)
    (compressionBatches data) ->
  fst (smartCompressData data question sql onProgress st)
  = Val (rawMarkers 0 (compressionBatches data)).
Proof.
  intros Hne Hp Hrefused Hjson. destruct data as [|x data]; [contradiction|].
  rewrite smartCompressData_loop.
  rewrite (@compressLoop_refused W _ _ _ _ _ Hp Hrefused _ _ _ _ Hjson). reflexivity.
Qed.

Lemma refused_compression_witness :
  fst (smartCompressData (W := silentWorld) oneRow (js "how many?") (js "SELECT 1")
         (fun _ => ret tt) (initialState (W := silentWorld) (js "how many?") tt))
  = Val (rawMarkers (W := silentWorld) 0 (compressionBatches (W := silentWorld) oneRow)).
Proof.
  apply refused_compression_returns_every_batch.
  - discriminate.
  - intros msg st. exists st. reflexivity.
  - intros n prompt. eexists. reflexivity.
  - assert (E : compressionBatches (W := silentWorld) oneRow = [oneRow])
      by (vm_compute; reflexivity).
    rewrite E. constructor; [|constructor].
    exists (Some (jsonText (W := silentWorld) (VArr oneRow))). vm_compute. reflexivity.
Defined.

(** ** The query engine's wrapper *)

Lemma jseqb_eq (a b : jsstring) : jseqb a b = true <-> a = b.
Proof.
  revert b. induction a as [|x a IH]; intros [|y b]; cbn [jseqb];
    try (split; [discriminate|discriminate]); [split; reflexivity|].
  rewrite andb_true_iff, N.eqb_eq, IH. split.
  - intros [-> ->]. reflexivity.
  - intro H. inversion H. auto.
Qed.

Lemma jseqb_refl (a : jsstring) : jseqb a a = true.
Proof. apply jseqb_eq. reflexivity. Qed.

Lemma jseqb_neq (a b : jsstring) : a <> b -> jseqb a b = false.
Proof.
  intro H. destruct (jseqb a b) eqn:E; [|reflexivity].
  apply jseqb_eq in E. contradiction.
Qed.

Lemma errorText_truthy (m : option jsstring) : truthyStr (errorText m) = true.
Proof.
  unfold errorText. destruct m as [t|]; [|reflexivity].
  destruct (truthyStr t) eqn:E; [exact E|reflexivity].
Qed.

Lemma shown_filter (l : list jsstring) :
  Forall (fun c => shown c = true) (filter (fun k => negb (startsWith k (js "_"))) l).
Proof.
  apply Forall_forall. intros c Hc. apply filter_In in Hc. exact (proj2 Hc).
Qed.

(** X13: a result of [executeSql] that reports an error reports it with a text
    that is not empty, and has neither columns nor rows: what the engine
    throws, even with an empty message or none, and what it returns as
    [undefined] or [null], is always seen by a test of [result.error]. A
    result without an error names no column that begins with an
    underscore. *)
Theorem executeSql_results_are_well_formed (W : World) (sql : JSVal) (db : DB) :
  let result := fst (executeSql sql db) in
  match qr_error result with
  | Some e => truthyStr e = true /\ qr_columns result = [] /\ qr_data result = []
  | None => Forall (fun c => shown c = true) (qr_columns result)
  end.
Proof.
  unfold executeSql. destruct (alasql sql db) as [[v|m] db']; cbn [fst]; cbv zeta.
  - destruct v as [| |b|x|z|s|items|fields];
      try (repeat split; fail);
      try (repeat constructor; fail).
    + destruct items as [|first others]; [constructor|].
      destruct first; try (repeat constructor; fail);
        (destruct (cleanRows _ _);
         [cbn [qr_error qr_columns];
          apply Forall_forall; intros c Hc; apply filter_In in Hc;
          destruct Hc as [_ Hc]; apply andb_true_iff in Hc; exact (proj2 Hc)|]);
        cbn [qr_error qr_columns qr_data]; pose proof (errorText_truthy (messageOf e));
        auto.
    + destruct (filter _ _) eqn:E; [repeat constructor|].
      cbn [qr_error qr_columns]. rewrite <- E. apply shown_filter.
  - cbn [qr_error qr_columns qr_data]. pose proof (errorText_truthy m). auto.
Qed.

Lemma replaceField_some k v l l' :
  replaceField k v l = Some l' ->
  map fst l' = map fst l
  /\ getField l' k = v
  /\ (forall k', k' <> k -> getField l' k' = getField l k')
  /\ In k (map fst l).
Proof.
  revert l'. induction l as [|[k0 v0] l IH]; intros l' H; cbn [replaceField] in H;
    [discriminate|].
  destruct (jseqb k0 k) eqn:E.
  - apply jseqb_eq in E. subst k0. inversion H; subst l'; clear H.
    cbn [map fst getField]. rewrite jseqb_refl.
    split; [reflexivity|]. split; [reflexivity|]. split; [|left; reflexivity].
    intros k' Hk'. rewrite (jseqb_neq (a := k) (b := k')) by congruence. reflexivity.
  - destruct (replaceField k v l) as [l1|]; [|discriminate].
    cbn [option_map] in H. inversion H; subst l'; clear H.
    destruct (IH l1 eq_refl) as [Hk [Hv [Ho Hin]]].
    cbn [map fst getField]. rewrite E, Hk.
    split; [reflexivity|]. split; [exact Hv|]. split; [|right; exact Hin].
    intros k' Hk'. destruct (jseqb k0 k'); [reflexivity|]. apply Ho. exact Hk'.
Qed.

Lemma replaceField_none k v l :
  replaceField k v l = None -> ~ In k (map fst l) /\ getField l k = VUndefined.
Proof.
  induction l as [|[k0 v0] l IH]; intro H; cbn [replaceField] in H.
  - split; [intros []|reflexivity].
  - destruct (jseqb k0 k) eqn:E; [discriminate|].
    destruct (replaceField k v l); [discriminate|].
    destruct (IH eq_refl) as [Hn Hu]. cbn [map fst getField In]. rewrite E.
    split; [|exact Hu]. intros [->|Hin]; [|contradiction].
    rewrite jseqb_refl in E. discriminate.
Qed.

Lemma getField_absent l k : ~ In k (map fst l) -> getField l k = VUndefined.
Proof.
  induction l as [|[k0 v0] l IH]; intro H; [reflexivity|].
  cbn [getField map fst In] in *.
  rewrite jseqb_neq by (intro; apply H; left; assumption).
  apply IH. intro; apply H; right; assumption.
Qed.

Lemma insertIndexKey_spec n k v l :
  (forall k', In k' (map fst (insertIndexKey n (k, v) l)) <-> k' = k \/ In k' (map fst l))
  /\ (~ In k (map fst l) ->
      getField (insertIndexKey n (k, v) l) k = v
      /\ forall k', k' <> k -> getField (insertIndexKey n (k, v) l) k' = getField l k').
Proof.
  induction l as [|[k0 v0] l [IHk IHv]]; cbn [insertIndexKey].
  - split.
    + intro k'. cbn. intuition congruence.
    + intros _. cbn [getField]. rewrite jseqb_refl. split; [reflexivity|].
      intros k' Hk'. rewrite jseqb_neq by congruence. reflexivity.
  - assert (Hfront :
      (forall k', In k' (map fst ((k, v) :: (k0, v0) :: l))
                  <-> k' = k \/ In k' (map fst ((k0, v0) :: l)))
      /\ (~ In k (map fst ((k0, v0) :: l)) ->
          getField ((k, v) :: (k0, v0) :: l) k = v
          /\ forall k', k' <> k ->
               getField ((k, v) :: (k0, v0) :: l) k' = getField ((k0, v0) :: l) k')).
    { split.
      - intro k'. cbn. intuition congruence.
      - intros _. cbn [getField]. rewrite jseqb_refl. split; [reflexivity|].
        intros k' Hk'. rewrite (jseqb_neq (a := k) (b := k')) by congruence.
        reflexivity. }
    destruct (arrayIndexOf k0); [|exact Hfront].
    destruct (n <? n0)%N; [exact Hfront|].
    split.
    + intro k'. cbn [map fst In]. rewrite IHk. intuition congruence.
    + intro Hn. cbn [map fst In] in Hn.
      destruct IHv as [Hv Ho]; [intro; apply Hn; right; assumption|].
      cbn [getField]. rewrite (jseqb_neq (a := k0) (b := k))
        by (intro; apply Hn; left; assumption).
      split; [exact Hv|].
      intros k' Hk'. destruct (jseqb k0 k'); [reflexivity|]. apply Ho. exact Hk'.
Qed.

Lemma getField_app l k v k' :
  getField (l ++ [(k, v)]) k'
  = if existsb (fun p => jseqb (fst p) k') l then getField l k'
    else if jseqb k k' then v else VUndefined.
Proof.
  induction l as [|[k0 v0] l IH]; cbn [app getField existsb fst]; [reflexivity|].
  destruct (jseqb k0 k'); [reflexivity|]. exact IH.
Qed.

Lemma existsb_key l k :
  existsb (fun p : jsstring * JSVal => jseqb (fst p) k) l = false <-> ~ In k (map fst l).
Proof.
  induction l as [|[k0 v0] l IH]; cbn [existsb map fst In]; [intuition|].
  rewrite orb_false_iff, IH. split.
  - intros [E Hn] [->|Hin]; [rewrite jseqb_refl in E; discriminate|contradiction].
  - intro H. split; [apply jseqb_neq; intro; apply H; left; assumption|].
    intro; apply H; right; assumption.
Qed.

(** [newRow[k] = v] and the reads that follow it. *)
Lemma defineField_spec l k v :
  (forall k', In k' (map fst (defineField l k v)) <-> k' = k \/ In k' (map fst l))
  /\ getField (defineField l k v) k = v
  /\ (forall k', k' <> k -> getField (defineField l k v) k' = getField l k').
Proof.
  unfold defineField. destruct (replaceField k v l) as [l'|] eqn:E.
  - destruct (replaceField_some _ _ _ E) as [Hk [Hv [Ho Hin]]].
    split; [|split; assumption].
    intro k'. rewrite Hk. split; [auto|]. intros [->|H]; assumption.
  - destruct (replaceField_none _ _ _ E) as [Hn _].
    destruct (arrayIndexOf k) as [n|].
    + destruct (insertIndexKey_spec n k v l) as [Hk Hv].
      destruct (Hv Hn) as [Hsame Hother]. auto.
    + split; [|split].
      * intro k'. rewrite map_app, in_app_iff. cbn. intuition congruence.
      * rewrite getField_app. rewrite (proj2 (existsb_key l k) Hn), jseqb_refl.
        reflexivity.
      * intros k' Hk'. rewrite getField_app.
        destruct (existsb _ l) eqn:Ex; [reflexivity|].
        rewrite jseqb_neq by congruence.
        symmetry. apply getField_absent. apply existsb_key. exact Ex.
Qed.

Lemma cleanRow_spec (columns : list jsstring) (row : JSVal) :
  forall acc clean,
    cleanRow columns row acc = Val clean ->
    exists fields,
      clean = VObj fields
      /\ (forall k, In k (map fst fields) <-> In k columns \/ In k (map fst acc))
      /\ (forall k, In k columns -> getProp row k = Val (getField fields k))
      /\ (forall k, ~ In k columns -> getField fields k = getField acc k).
Proof.
  induction columns as [|col rest IH]; intros acc clean H; cbn [cleanRow] in H.
  - inversion H; subst clean. exists acc. split; [reflexivity|].
    split; [intro k; cbn; intuition|]. split; [intros k []|reflexivity].
  - destruct (getProp row col) as [v|e] eqn:Hv; [|discriminate].
    destruct (IH _ _ H) as [fields [-> [Hk [Hin Hout]]]].
    destruct (defineField_spec acc col v) as [Dk [Dv Do]].
    exists fields. split; [reflexivity|]. split; [|split].
    + intro k. rewrite Hk, Dk. cbn [In]. intuition congruence.
    + intros k [<-|Hr].
      * destruct (in_dec (list_eq_dec N.eq_dec) col rest) as [Hr|Hr];
          [apply Hin; exact Hr|].
        rewrite (Hout _ Hr), Dv. exact Hv.
      * apply Hin. exact Hr.
    + intros k Hn. cbn [In] in Hn. rewrite Hout by (intro; apply Hn; right; assumption).
      apply Do. intro; apply Hn; left; congruence.
Qed.

Lemma cleanRows_spec (columns : list jsstring) :
  forall rows cleanData,
    cleanRows columns rows = Val cleanData ->
    Forall2 (cleaned columns) rows cleanData.
Proof.
  induction rows as [|row rest IH]; intros cleanData H; cbn [cleanRows] in H.
  - inversion H. constructor.
  - destruct (cleanRow columns row []) as [r|] eqn:Hr; [|discriminate].
    destruct (cleanRows columns rest) as [rs|]; [|discriminate].
    inversion H; subst cleanData. constructor; [|apply IH; reflexivity].
    destruct (cleanRow_spec _ _ _ Hr) as [fields [-> [Hk [Hin _]]]].
    exists fields. split; [reflexivity|]. split; [|exact Hin].
    intro k. rewrite Hk. cbn [map In]. intuition.
Qed.

Lemma getProp_thrown (row : JSVal) (k : jsstring) (e : Exn) :
  getProp row k = Thrown e -> row = VNull \/ row = VUndefined.
Proof.
  destruct row; cbn [getProp]; auto; try discriminate;
    destruct (jseqb k (js "length")); discriminate.
Qed.

Lemma cleanRow_thrown (columns : list jsstring) (row : JSVal) (e : Exn) :
  forall acc, cleanRow columns row acc = Thrown e -> row = VNull \/ row = VUndefined.
Proof.
  induction columns as [|col rest IH]; intros acc H; cbn [cleanRow] in H;
    [discriminate|].
  destruct (getProp row col) eqn:Hv; [eapply IH; exact H|].
  eapply getProp_thrown. exact Hv.
Qed.

Lemma cleanRows_thrown (columns : list jsstring) (e : Exn) :
  forall rows, cleanRows columns rows = Thrown e ->
               exists row, In row rows /\ (row = VNull \/ row = VUndefined).
Proof.
  induction rows as [|row rest IH]; intro H; cbn [cleanRows] in H; [discriminate|].
  destruct (cleanRow columns row []) eqn:Hr.
  - destruct (cleanRows columns rest); [discriminate|].
    inversion H; subst. destruct (IH eq_refl) as [r [Hin Hr']].
    exists r. split; [right; exact Hin|exact Hr'].
  - exists row. split; [left; reflexivity|]. eapply cleanRow_thrown. exact Hr.
Qed.

Lemma visible_columns (first : JSVal) (c : jsstring) :
  In c (filter (fun k => negb (jseqb k (js "undefined")) && negb (jseqb k [])
                         && negb (startsWith k (js "_"))) (Object_keys first))
  <-> In c (Object_keys first) /\ c <> js "undefined" /\ c <> [] /\ shown c = true.
Proof.
  rewrite filter_In, !andb_true_iff, !negb_true_iff. unfold shown.
  rewrite negb_true_iff. split.
  - intros [Hin [[H1 H2] H3]]. repeat split; try assumption.
    + intro E. apply jseqb_eq in E. congruence.
    + intro E. apply jseqb_eq in E. congruence.
  - intros [Hin [H1 [H2 H3]]]. repeat split; try assumption; apply jseqb_neq; assumption.
Qed.

(** X14: the rows of a result. When the engine returns rows of which the first
    is an object, the columns of the result are the keys of that first row
    other than [undefined], the empty name and the names that begin with an
    underscore; and the result has one row for each row of the engine, in
    order, each an object with exactly those columns as its keys and, under
    each, what the engine's row holds under it. A hidden field of a row
    never reaches the result. (A row that is [null] or [undefined] makes the
    whole query an error.) *)
Theorem executeSql_rows_keep_the_visible_columns (W : World) (sql : JSVal) (db db' : DB)
    (first : JSVal) (others : list JSVal) :
  alasql sql db = (Returned (VArr (first :: others)), db') ->
  isObjectType first = true -> first <> VNull ->
  let result := fst (executeSql sql db) in
  match qr_error result with
  | Some _ => exists row, In row others /\ (row = VNull \/ row = VUndefined)
  | None =>
      (forall c, In c (qr_columns result)
                 <-> In c (Object_keys first) /\ c <> js "undefined" /\ c <> []
                     /\ shown c = true)
      /\ Forall2 (cleaned (qr_columns result)) (first :: others) (qr_data result)
  end.
Proof.
  intros Hengine Hobject Hnull result. subst result.
  unfold executeSql. rewrite Hengine. cbn [fst].
  assert (Hbody :
    forall columns,
      columns = filter (fun k => negb (jseqb k (js "undefined")) && negb (jseqb k [])
                                 && negb (startsWith k (js "_"))) (Object_keys first) ->
      let result :=
        match cleanRows columns (first :: others) with
        | Val cleanData =>
            {| qr_columns := columns; qr_data := cleanData; qr_error := None |}
        | Thrown e =>
            {| qr_columns := []; qr_data := [];
               qr_error := Some (errorText (messageOf e)) |}
        end in
      match qr_error result with
      | Some _ => exists row, In row others /\ (row = VNull \/ row = VUndefined)
      | None =>
          (forall c, In c (qr_columns result)
                     <-> In c (Object_keys first) /\ c <> js "undefined" /\ c <> []
                         /\ shown c = true)
          /\ Forall2 (cleaned (qr_columns result)) (first :: others) (qr_data result)
      end).
  { intros columns Hc. cbv zeta.
    destruct (cleanRows columns (first :: others)) as [cleanData|e] eqn:Hrows;
      cbn [qr_error qr_columns qr_data].
    - split; [intro c; rewrite Hc; apply visible_columns|].
      apply cleanRows_spec. exact Hrows.
    - destruct (cleanRows_thrown _ _ Hrows) as [row [[<-|Hin] Hrow]].
      + destruct Hrow as [->| ->]; [contradiction|discriminate].
      + exists row. auto. }
  destruct first; try discriminate; try contradiction; apply (Hbody _ eq_refl).
Qed.

Lemma executeSql_rows_witness :
  let result :=
    fst (executeSql (W := hiddenFieldWorld) (VStr (js "SELECT * FROM t_1")) tt) in
  qr_columns result = [js "city"]
  /\ Forall2 (cleaned (qr_columns result))
       [VObj [(js "city", VStr (js "Oslo")); (js "_rowid", VStr (js "1"))];
        VObj [(js "city", VStr (js "Rome")); (js "_rowid", VStr (js "2"))]]
       (qr_data result).
Proof.
  intro result.
  assert (E : qr_error result = None) by (vm_compute; reflexivity).
  pose proof (@executeSql_rows_keep_the_visible_columns hiddenFieldWorld
                (VStr (js "SELECT * FROM t_1")) tt tt _ _ eq_refl eq_refl) as H.
  cbv zeta in H. fold result in H. rewrite E in H.
  split; [vm_compute; reflexivity|]. apply H. discriminate.
Defined.

(** ** The matcher on runs of a class *)

Lemma greedy_star_end (p : N -> bool) k bh cs :
  rmatch (Star true (Class p)) k (MState bh [] cs) = k (MState bh [] cs).
Proof. reflexivity. Qed.

(** A greedy [c*] takes a code unit of the class and goes on, and gives it
    back if what follows cannot match. *)
Lemma greedy_star_step (p : N -> bool) k bh c rest cs :
  p c = true ->
  rmatch (Star true (Class p)) k (MState bh (c :: rest) cs)
  = match rmatch (Star true (Class p)) k (MState (c :: bh) rest cs) with
    | Some res => Some res
    | None => k (MState bh (c :: rest) cs)
    end.
Proof.
  intro Hp. cbn [rmatch ahead behind caps length]. rewrite Hp.
  assert (Hlt : Nat.ltb (length rest) (S (length rest)) = true)
    by (apply Nat.ltb_lt; lia).
  rewrite Hlt. reflexivity.
Qed.

Lemma one_consumed {A} (c : A) (rest : list A) :
  firstn (length (c :: rest) - length rest) (c :: rest) = [c].
Proof.
  replace (length (c :: rest) - length rest) with 1 by (cbn [length]; lia). reflexivity.
Qed.

(** A global replacement of one class of code units rewrites each of them
    and leaves the others. *)
Lemma replaceLoop_class {S : Type} (p : N -> bool) (t : jsstring) (s : S) :
  forall ah fuel bh,
    length ah < fuel ->
    replaceLoop (Class p) (fun u _ => (t, u)) fuel bh ah s
    = (flat_map (fun c => if p c then t else [c]) ah, s).
Proof.
  induction ah as [|c rest IH]; intros fuel bh Hfuel;
    (destruct fuel as [|fuel]; [cbn [length] in Hfuel; lia|]).
  - reflexivity.
  - cbn [length] in Hfuel. cbn [replaceLoop flat_map]. unfold matchAt.
    cbn [rmatch ahead behind caps]. destruct (p c) eqn:Hp.
    + cbn [ahead caps]. rewrite one_consumed. cbn [r_text r_after].
      rewrite IH by lia. reflexivity.
    + rewrite IH by lia. reflexivity.
Qed.

Lemma replaceAll_class (p : N -> bool) (t s : jsstring) :
  replaceAll (Class p) t s = flat_map (fun c => if p c then t else [c]) s.
Proof.
  unfold replaceAll, replaceAllWith. rewrite replaceLoop_class by lia. reflexivity.
Qed.

Lemma replace_notAllowed (s : jsstring) :
  replaceAll notAllowedInName (js "_") s = map safeChar s.
Proof.
  unfold notAllowedInName. rewrite replaceAll_class.
  induction s as [|c s IH]; [reflexivity|].
  cbn [flat_map map]. rewrite IH. unfold safeChar.
  destruct (allowedInName c); reflexivity.
Qed.

(** ** The outer underscores *)

Lemma star_to_the_end cs :
  forall ah bh,
    allUnderscores ah = true ->
    rmatch (Star true (Chr UNDERSCORE)) (rmatch Eol Some) (MState bh ah cs)
    = Some (MState (rev ah ++ bh) [] cs).
Proof.
  induction ah as [|c rest IH]; intros bh Hall.
  - reflexivity.
  - cbn [allUnderscores forallb] in Hall. apply andb_true_iff in Hall.
    destruct Hall as [Hc Hrest].
    unfold Chr in *. rewrite greedy_star_step by exact Hc.
    rewrite (IH (c :: bh) Hrest). cbn [rev]. rewrite <- app_assoc. reflexivity.
Qed.

Lemma star_not_to_the_end cs :
  forall ah bh,
    allUnderscores ah = false ->
    rmatch (Star true (Chr UNDERSCORE)) (rmatch Eol Some) (MState bh ah cs) = None.
Proof.
  induction ah as [|c rest IH]; intros bh Hall; [discriminate|].
  cbn [allUnderscores forallb] in Hall. unfold Chr in *.
  destruct (N.eqb UNDERSCORE c) eqn:Hc.
  - rewrite greedy_star_step by exact Hc. rewrite IH by exact Hall. reflexivity.
  - rewrite greedy_star_none by exact Hc. reflexivity.
Qed.

Lemma star_leading cs :
  forall ah bh,
    exists taken,
      rmatch (Star true (Chr UNDERSCORE)) Some (MState bh ah cs)
      = Some (MState (taken ++ bh) (dropLeading ah) cs)
      /\ length taken + length (dropLeading ah) = length ah.
Proof.
  induction ah as [|c rest IH]; intro bh.
  - exists []. split; reflexivity.
  - unfold Chr in *. cbn [dropLeading]. rewrite (N.eqb_sym c).
    destruct (N.eqb UNDERSCORE c) eqn:Hc.
    + rewrite greedy_star_step by exact Hc.
      destruct (IH (c :: bh)) as [taken [-> Hlen]].
      exists (taken ++ [c]). rewrite <- app_assoc. split; [reflexivity|].
      rewrite length_app. cbn [length]. lia.
    + rewrite greedy_star_none by exact Hc. exists []. split; reflexivity.
Qed.

Lemma rmatch_Alt r1 r2 k st :
  rmatch (Alt r1 r2) k st
  = match rmatch r1 k st with Some res => Some res | None => rmatch r2 k st end.
Proof. reflexivity. Qed.

Lemma rmatch_Bol_inside k b bh ah cs : rmatch Bol k (MState (b :: bh) ah cs) = None.
Proof. reflexivity. Qed.

Lemma rmatch_Bol_start k ah cs : rmatch Bol k (MState [] ah cs) = k (MState [] ah cs).
Proof. reflexivity. Qed.

Lemma rmatch_Eol_end k bh cs : rmatch Eol k (MState bh [] cs) = k (MState bh [] cs).
Proof. reflexivity. Qed.

Lemma rmatch_Eol_inside k bh c ah cs : rmatch Eol k (MState bh (c :: ah) cs) = None.
Proof. reflexivity. Qed.

Lemma rmatch_Class_cons p k bh c rest cs :
  rmatch (Class p) k (MState bh (c :: rest) cs)
  = if p c then k (MState (c :: bh) rest cs) else None.
Proof. reflexivity. Qed.

Lemma rmatch_Class_nil p k bh cs : rmatch (Class p) k (MState bh [] cs) = None.
Proof. reflexivity. Qed.

Lemma all_consumed {A} (l : list A) : firstn (length l - length (@nil A)) l = l.
Proof. cbn [length]. rewrite Nat.sub_0_r. apply firstn_all. Qed.

(** Where something stands behind, the pattern matches only a run of
    underscores that reaches the end. *)
Lemma matchAt_outer_inside (b : N) (bh ah : jsstring) :
  matchAt outerUnderscores (b :: bh) ah
  = match ah with
    | [] => None
    | _ => if allUnderscores ah then Some (RResult (b :: bh) ah [] []) else None
    end.
Proof.
  unfold matchAt, outerUnderscores, Plus.
  rewrite rmatch_Alt, rmatch_Seq, rmatch_Bol_inside, !rmatch_Seq.
  destruct ah as [|c rest]; [reflexivity|].
  unfold Chr at 1. rewrite rmatch_Class_cons.
  cbn [allUnderscores forallb].
  destruct (N.eqb UNDERSCORE c) eqn:Hc; [|reflexivity]. cbn [andb].
  destruct (forallb (N.eqb UNDERSCORE) rest) eqn:Hrest.
  - rewrite star_to_the_end by exact Hrest. cbn [ahead caps].
    rewrite all_consumed. reflexivity.
  - rewrite star_not_to_the_end by exact Hrest. reflexivity.
Qed.

(** At the start, it matches the underscores that lead. *)
Lemma matchAt_outer_start (rest : jsstring) :
  exists text,
    matchAt outerUnderscores [] (UNDERSCORE :: rest)
    = Some (RResult [] (UNDERSCORE :: text) (dropLeading rest) [])
    /\ exists taken, rev (UNDERSCORE :: text) = taken ++ [UNDERSCORE].
Proof.
  unfold matchAt, outerUnderscores, Plus.
  rewrite rmatch_Alt, rmatch_Seq, rmatch_Bol_start, rmatch_Seq.
  unfold Chr at 1. rewrite rmatch_Class_cons. cbn [N.eqb UNDERSCORE Pos.eqb].
  destruct (star_leading [] rest [95%N]) as [taken [Hstar Hlen]].
  fold UNDERSCORE. change [95%N] with [UNDERSCORE] in Hstar. rewrite Hstar.
  cbn [ahead caps].
  assert (Hn : length (UNDERSCORE :: rest) - length (dropLeading rest) = S (length taken))
    by (cbn [length]; lia).
  rewrite Hn. cbn [firstn]. eexists. split; [reflexivity|].
  exists (rev (firstn (length taken) rest)). reflexivity.
Qed.

Lemma matchAt_outer_other (c : N) (bh rest : jsstring) :
  (c =? UNDERSCORE)%N = false ->
  matchAt outerUnderscores bh (c :: rest) = None.
Proof.
  intro Hc. rewrite N.eqb_sym in Hc. unfold matchAt, outerUnderscores, Plus.
  rewrite rmatch_Alt, !rmatch_Seq.
  assert (H2 : forall k, rmatch (Chr UNDERSCORE) k (MState bh (c :: rest) []) = None).
  { intro k. unfold Chr. rewrite rmatch_Class_cons, Hc. reflexivity. }
  rewrite H2. destruct bh; [rewrite rmatch_Bol_start, rmatch_Seq, H2|rewrite rmatch_Bol_inside];
    reflexivity.
Qed.

Lemma allUnderscores_head (c : N) (rest : jsstring) :
  (c =? UNDERSCORE)%N = false -> allUnderscores (c :: rest) = false.
Proof.
  intro Hc. cbn [allUnderscores forallb]. rewrite N.eqb_sym, Hc. reflexivity.
Qed.

Lemma matchAt_outer_nil (bh : jsstring) : matchAt outerUnderscores bh [] = None.
Proof. destruct bh; reflexivity. Qed.

Lemma replaceLoop_outer_nil (fuel : nat) (bh : jsstring) :
  replaceLoop outerUnderscores (fun (u : unit) _ => (@nil N, u)) fuel bh [] tt = ([], tt).
Proof. destruct fuel; [reflexivity|]. cbn [replaceLoop]. rewrite matchAt_outer_nil. reflexivity. Qed.

(** Past the start, the replacement drops the underscores at the end. *)
Lemma replaceLoop_outer_inside :
  forall ah fuel b bh,
    length ah < fuel ->
    replaceLoop outerUnderscores (fun (u : unit) _ => ([], u)) fuel (b :: bh) ah tt
    = (dropTrailing ah, tt).
Proof.
  induction ah as [|c rest IH]; intros fuel b bh Hfuel;
    (destruct fuel as [|fuel]; [cbn [length] in Hfuel; lia|]).
  - reflexivity.
  - cbn [length] in Hfuel. cbn [replaceLoop]. rewrite matchAt_outer_inside.
    cbn [dropTrailing]. destruct (allUnderscores (c :: rest)) eqn:Hall.
    + cbn [r_text r_after]. rewrite replaceLoop_outer_nil. reflexivity.
    + rewrite (IH fuel c (b :: bh)) by lia. reflexivity.
Qed.

Lemma dropTrailing_other (c : N) (rest : jsstring) :
  (c =? UNDERSCORE)%N = false -> dropTrailing (c :: rest) = c :: dropTrailing rest.
Proof. intro Hc. cbn [dropTrailing]. rewrite allUnderscores_head by exact Hc. reflexivity. Qed.

Lemma length_dropLeading (s : jsstring) : length (dropLeading s) <= length s.
Proof.
  induction s as [|c r IH]; cbn [dropLeading length]; [lia|].
  destruct (c =? UNDERSCORE)%N; cbn [length]; lia.
Qed.

(** The second pass removes the underscores that lead and those at the
    end. *)
Lemma replace_outerUnderscores (s : jsstring) :
  replaceAll outerUnderscores [] s = dropTrailing (dropLeading s).
Proof.
  unfold replaceAll, replaceAllWith. destruct s as [|c rest]; [reflexivity|].
  cbn [replaceLoop dropLeading]. destruct (N.eqb_spec c UNDERSCORE) as [->|Hc].
  - destruct (matchAt_outer_start rest) as [text [-> [taken Hrev]]].
    cbn [r_text r_after]. rewrite Hrev.
    pose proof (length_dropLeading rest) as Hlen.
    destruct taken as [|b taken]; cbn [app];
      (rewrite replaceLoop_outer_inside; [reflexivity|cbn [length]; lia]).
  - apply N.eqb_neq in Hc. rewrite matchAt_outer_other by exact Hc.
    rewrite replaceLoop_outer_inside by (cbn [length]; lia).
    rewrite dropTrailing_other by exact Hc. reflexivity.
Qed.

(** The column name before the fallback, as a function of its text. *)
Lemma cleanName_spec (col : jsstring) :
  cleanName col = dropTrailing (dropLeading (map safeChar (trim col))).
Proof. unfold cleanName. rewrite replace_notAllowed, replace_outerUnderscores. reflexivity. Qed.

(** ** The names of the columns of a sheet *)


Lemma allowed_cases (c : N) :
  allowedInName c = true <->
  (19968 <= c <= 40869 \/ 97 <= c <= 122 \/ 65 <= c <= 90 \/ 48 <= c <= 57 \/ c = 95)%N.
Proof.
  unfold allowedInName, isCJK, isLowerAscii, isUpperAscii, isDigit, UNDERSCORE.
  rewrite !orb_true_iff, !andb_true_iff, !N.leb_le, N.eqb_eq. tauto.
Qed.

Lemma allowed_not_space (c : N) : allowedInName c = true -> isWhiteSpace c = false.
Proof.
  intro H. apply allowed_cases in H. unfold isWhiteSpace.
  repeat (apply orb_false_intro);
    try (apply N.eqb_neq; lia);
    apply andb_false_iff;
    destruct H as [H|[H|[H|[H|H]]]];
    first [left; apply N.leb_gt; lia | right; apply N.leb_gt; lia].
Qed.

Lemma trimStart_id (s : jsstring) :
  match s with c :: _ => isWhiteSpace c = false | [] => True end -> trimStart s = s.
Proof. destruct s as [|c r]; [reflexivity|]. cbn [trimStart]. intros ->. reflexivity. Qed.

Lemma trim_id (s : jsstring) :
  Forall (fun c => isWhiteSpace c = false) s -> trim s = s.
Proof.
  intro H. unfold trim. rewrite (trimStart_id s) by (destruct H; auto).
  rewrite trimStart_id; [apply rev_involutive|].
  apply Forall_rev in H. destruct H; auto.
Qed.

Lemma safeChar_allowed (c : N) : allowedInName (safeChar c) = true.
Proof. unfold safeChar. destruct (allowedInName c) eqn:E; [exact E|reflexivity]. Qed.

Lemma dropLeading_sub (P : N -> Prop) (s : jsstring) :
  Forall P s -> Forall P (dropLeading s).
Proof.
  induction 1 as [|c r Hc Hr IH]; cbn [dropLeading]; [constructor|].
  destruct (c =? UNDERSCORE)%N; [exact IH|constructor; assumption].
Qed.

Lemma dropTrailing_sub (P : N -> Prop) (s : jsstring) :
  Forall P s -> Forall P (dropTrailing s).
Proof.
  induction 1 as [|c r Hc Hr IH]; cbn [dropTrailing]; [constructor|].
  destruct (allUnderscores (c :: r)); constructor; assumption.
Qed.

Lemma dropLeading_head (s rest : jsstring) : dropLeading s <> UNDERSCORE :: rest.
Proof.
  induction s as [|c r IH]; cbn [dropLeading]; [discriminate|].
  destruct (N.eqb_spec c UNDERSCORE) as [_|Hc]; [exact IH|].
  intro H. inversion H. contradiction.
Qed.

Lemma dropTrailing_head (s rest : jsstring) :
  (forall r, s <> UNDERSCORE :: r) -> dropTrailing s <> UNDERSCORE :: rest.
Proof.
  destruct s as [|c r]; cbn [dropTrailing]; [discriminate|].
  intros Hs. destruct (allUnderscores (c :: r)); [discriminate|].
  intro H. inversion H. subst c. exact (Hs r eq_refl).
Qed.

Lemma allUnderscores_snoc (front : jsstring) (c : N) :
  allUnderscores (front ++ [c]) = allUnderscores front && (UNDERSCORE =? c)%N.
Proof.
  unfold allUnderscores. rewrite forallb_app. cbn [forallb]. rewrite andb_true_r.
  reflexivity.
Qed.

Lemma dropTrailing_last (s front : jsstring) : dropTrailing s <> front ++ [UNDERSCORE].
Proof.
  revert front. induction s as [|c r IH]; intro front; cbn [dropTrailing].
  - destruct front; discriminate.
  - destruct (allUnderscores (c :: r)) eqn:Hall; [destruct front; discriminate|].
    destruct front as [|d front]; cbn [app].
    + intro H. inversion H. subst c.
      cbn [allUnderscores forallb] in Hall. cbn [N.eqb UNDERSCORE Pos.eqb andb] in Hall.
      destruct r as [|c' r']; [discriminate|].
      cbn [dropTrailing] in H2. unfold allUnderscores in H2. rewrite Hall in H2.
      discriminate.
    + intro H. inversion H. eapply IH. eassumption.
Qed.

Lemma dropLeading_id (s : jsstring) :
  (forall r, s <> UNDERSCORE :: r) -> dropLeading s = s.
Proof.
  destruct s as [|c r]; [reflexivity|]. intro H. cbn [dropLeading].
  destruct (N.eqb_spec c UNDERSCORE) as [->|_]; [exfalso; exact (H r eq_refl)|reflexivity].
Qed.

Lemma dropTrailing_id (s : jsstring) :
  (forall front, s <> front ++ [UNDERSCORE]) -> dropTrailing s = s.
Proof.
  induction s as [|c r IH]; intro H; [reflexivity|]. cbn [dropTrailing].
  destruct (allUnderscores (c :: r)) eqn:Hall.
  - exfalso. destruct (@snoc_cases N (c :: r)) as [E|[front [d E]]]; [discriminate|].
    rewrite E, allUnderscores_snoc in Hall. apply andb_true_iff in Hall.
    destruct Hall as [_ Hd]. apply N.eqb_eq in Hd. subst d. exact (H front E).
  - f_equal. apply IH. intros front E. apply (H (c :: front)). rewrite E. reflexivity.
Qed.

Lemma cleanName_clean (col : jsstring) :
  Forall (fun c => allowedInName c = true) (cleanName col)
  /\ (forall rest, cleanName col <> UNDERSCORE :: rest)
  /\ (forall front, cleanName col <> front ++ [UNDERSCORE]).
Proof.
  rewrite cleanName_spec. split; [|split].
  - apply dropTrailing_sub, dropLeading_sub, Forall_forall.
    intros c Hc. apply in_map_iff in Hc. destruct Hc as [x [<- _]].
    apply safeChar_allowed.
  - intro rest. apply dropTrailing_head. intro r. apply dropLeading_head.
  - intro front. apply dropTrailing_last.
Qed.

Lemma cleanName_keeps (col : jsstring) :
  Forall (fun c => allowedInName c = true) col ->
  (forall rest, col <> UNDERSCORE :: rest) ->
  (forall front, col <> front ++ [UNDERSCORE]) ->
  cleanName col = col.
Proof.
  intros Hall Hhead Hlast. rewrite cleanName_spec.
  rewrite trim_id
    by (eapply Forall_impl; [|exact Hall]; intros c Hc; apply allowed_not_space; exact Hc).
  assert (Hmap : map safeChar col = col).
  { clear Hhead Hlast. induction Hall as [|c r Hc _ IH]; [reflexivity|].
    cbn [map]. rewrite IH. unfold safeChar. rewrite Hc. reflexivity. }
  rewrite Hmap, dropLeading_id by exact Hhead. apply dropTrailing_id. exact Hlast.
Qed.

(** X15: the names of the columns of an uploaded sheet. The name that the
    reader computes for a column (before the random fallback for a name that
    comes out empty) holds only CJK ideographs, ASCII letters, digits and
    underscores, and neither begins nor ends with an underscore; a header
    that is already such a name is kept as it is, and only such a header
    is; so cleaning a cleaned name changes nothing. *)
Theorem cleaned_names_are_identifiers (col : jsstring) :
  Forall (fun c => allowedInName c = true) (cleanName col)
  /\ (forall rest, cleanName col <> UNDERSCORE :: rest)
  /\ (forall front, cleanName col <> front ++ [UNDERSCORE])
  /\ (cleanName col = col
      <-> Forall (fun c => allowedInName c = true) col
          /\ (forall rest, col <> UNDERSCORE :: rest)
          /\ (forall front, col <> front ++ [UNDERSCORE]))
  /\ cleanName (cleanName col) = cleanName col.
Proof.
  destruct (cleanName_clean col) as [Hall [Hhead Hlast]].
  repeat (split; [assumption|]). split; [split|].
  - intro E. rewrite <- E. auto.
  - intros [H1 [H2 H3]]. apply cleanName_keeps; assumption.
  - apply cleanName_keeps; assumption.
Qed.

(** ** The rows of a sheet *)

Lemma rebuildRow_spec {W : World} (row : list (jsstring * JSVal)) :
  forall columnPairs acc,
    (forall k, In k (map fst (rebuildRow columnPairs row acc))
               <-> In k (map snd columnPairs) \/ In k (map fst acc))
    /\ (forall name,
          getField (rebuildRow columnPairs row acc) name
          = match lastSource columnPairs name with
            | Some oldCol => VStr (cellText (getField row oldCol))
            | None => getField acc name
            end).
Proof.
  induction columnPairs as [|[oldCol newCol] rest IH]; intro acc;
    cbn [rebuildRow lastSource map snd In].
  - split; [intro k; tauto|reflexivity].
  - fold (cellText (getField row oldCol)).
    destruct (IH (defineField acc newCol (VStr (cellText (getField row oldCol)))))
      as [Hk Hv].
    destruct (defineField_spec acc newCol (VStr (cellText (getField row oldCol))))
      as [Dk [Dv Do]].
    split.
    + intro k. rewrite Hk, Dk. intuition congruence.
    + intro name. rewrite Hv. destruct (lastSource rest name); [reflexivity|].
      destruct (jseqb newCol name) eqn:E.
      * apply jseqb_eq in E. subst name. exact Dv.
      * apply Do. intro Hn. subst name. rewrite jseqb_refl in E. discriminate.
Qed.

Lemma length_cleanColumnsFrom (random36 : nat -> jsstring) :
  forall originalColumns calls,
    length (fst (cleanColumnsFrom random36 calls originalColumns))
    = length originalColumns.
Proof.
  induction originalColumns as [|col rest IH]; intro calls; [reflexivity|].
  cbn [cleanColumnsFrom]. destruct (negb (truthyStr (cleanName col))).
  - specialize (IH (S calls)). destruct (cleanColumnsFrom random36 (S calls) rest).
    cbn [fst length] in *. congruence.
  - specialize (IH calls). destruct (cleanColumnsFrom random36 calls rest).
    cbn [fst length] in *. congruence.
Qed.

Lemma cleanColumnsFrom_spec (random36 : nat -> jsstring) :
  forall originalColumns calls,
    Forall2 (columnOf random36) originalColumns
      (fst (cleanColumnsFrom random36 calls originalColumns)).
Proof.
  induction originalColumns as [|col rest IH]; intro calls; [constructor|].
  cbn [cleanColumnsFrom]. destruct (cleanName col) as [|c name] eqn:E; cbn [truthyStr negb].
  - specialize (IH (S calls)). destruct (cleanColumnsFrom random36 (S calls) rest).
    cbn [fst] in *. constructor; [|exact IH].
    right. split; [exact E|]. exists calls. reflexivity.
  - specialize (IH calls). destruct (cleanColumnsFrom random36 calls rest).
    cbn [fst] in *. constructor; [|exact IH].
    left. rewrite E. split; [discriminate|reflexivity].
Qed.

Lemma lastSource_none (columnPairs : list (jsstring * jsstring)) (name : jsstring) :
  ~ In name (map snd columnPairs) -> lastSource columnPairs name = None.
Proof.
  induction columnPairs as [|[oldCol newCol] rest IH]; intro H; [reflexivity|].
  cbn [map snd In lastSource] in *. rewrite IH by tauto.
  rewrite jseqb_neq by tauto. reflexivity.
Qed.

Lemma lastSource_some (columnPairs : list (jsstring * jsstring)) (name : jsstring) :
  In name (map snd columnPairs) ->
  exists oldCol, lastSource columnPairs name = Some oldCol
                 /\ In (oldCol, name) columnPairs.
Proof.
  induction columnPairs as [|[oldCol newCol] rest IH]; intro H; [destruct H|].
  cbn [map snd In lastSource] in *.
  destruct (in_dec (list_eq_dec N.eq_dec) name (map snd rest)) as [Hin|Hout].
  - destruct (IH Hin) as [o [-> Hp]]. exists o. auto.
  - rewrite (lastSource_none _ _ Hout). destruct H as [->|Hin]; [|contradiction].
    rewrite jseqb_refl. exists oldCol. auto.
Qed.

(** X16: the file read from an uploaded sheet. A sheet without rows is
    rejected as empty. Otherwise the file has one column for each header of
    the first row, in order: the clean name of the header or, where that is
    empty, [col_] and five characters at most of a random text; and it has
    one row for each row of the sheet, in order. A row of the file is an
    object whose keys are the columns, and under each column it holds, as a
    trimmed string, the cell of the last header that has this column (so,
    where two headers come to the same column, the later one is kept). *)
Theorem sheet_rows_are_rebuilt_under_the_clean_names (W : World) (fileName : jsstring)
    (jsonData : list (list (jsstring * JSVal))) (random36 : nat -> jsstring) (now : N) :
  match processExcelFile fileName jsonData random36 now with
  | Thrown e => jsonData = [] /\ e = Failure (Some SHEET_IS_EMPTY)
  | Val file =>
      exists first others,
        jsonData = first :: others
        /\ Forall2 (columnOf random36) (map fst first) (pf_columns file)
        /\ Forall2
             (fun row clean =>
                exists fields,
                  clean = VObj fields
                  /\ (forall k, In k (map fst fields) <-> In k (pf_columns file))
                  /\ forall name,
                       In name (pf_columns file) ->
                       exists oldCol,
                         lastSource (combine (map fst first) (pf_columns file)) name
                         = Some oldCol
                         /\ In oldCol (map fst first)
                         /\ getField fields name = VStr (cellText (getField row oldCol)))
             jsonData (pf_data file)
  end.
Proof.
  unfold processExcelFile. destruct jsonData as [|first others]; [split; reflexivity|].
  pose proof (length_cleanColumnsFrom random36 (map fst first) 0) as Hlen.
  pose proof (cleanColumnsFrom_spec random36 (map fst first) 0) as Hcols.
  destruct (cleanColumnsFrom random36 0 (map fst first)) as [cleanColumns calls].
  cbn [fst] in Hlen, Hcols. rewrite length_map in Hlen.
  exists first, others. cbn [pf_columns pf_data]. split; [reflexivity|].
  split; [exact Hcols|].
  assert (Hsnd : map snd (combine (map fst first) cleanColumns) = cleanColumns).
  { clear - Hlen. revert cleanColumns Hlen.
    induction first as [|p first IH]; intros [|c cs] Hlen; try discriminate;
      [reflexivity|].
    cbn [map combine snd]. rewrite IH by (cbn [length] in Hlen; congruence). reflexivity. }
  set (rows := first :: others). clearbody rows.
  induction rows as [|row rows IH]; cbn [map]; constructor; [|exact IH].
  destruct (rebuildRow_spec row (combine (map fst first) cleanColumns) []) as [Hk Hv].
  eexists. split; [reflexivity|]. split.
  - intro k. rewrite Hk, Hsnd. cbn [map In]. tauto.
  - intros name Hname. rewrite <- Hsnd in Hname.
    destruct (lastSource_some _ _ Hname) as [oldCol [Hsrc Hpair]].
    exists oldCol. split; [exact Hsrc|]. split.
    + apply in_combine_l in Hpair. exact Hpair.
    + rewrite Hv, Hsrc. reflexivity.
Qed.

(** Two headers that clean to one name: the file names it twice, and its
    rows keep the later column. *)
Example clashing_headers_keep_the_later_column :
  processExcelFile (W := silentWorld) (js "prices.2024.xlsx") clashingSheet
    (fun _ => js "0.k3j9x2m") 1700000000123%N
  = Val {| pf_name := js "t_00123_k3j9x2";
           pf_originalName := js "prices.2024";
           pf_data := [VObj [(js "unit_price", VStr (js "5"))];
                       VObj [(js "unit_price", VStr [])]];
           pf_columns := [js "unit_price"; js "unit_price"] |}.
Proof. vm_compute. reflexivity. Qed.

(** ** The name of the file without its extension *)

Lemma star_reaches_the_end (p : N -> bool) cs :
  forall ah bh,
    forallb p ah = true ->
    rmatch (Star true (Class p)) (rmatch Eol Some) (MState bh ah cs)
    = Some (MState (rev ah ++ bh) [] cs).
Proof.
  induction ah as [|c rest IH]; intros bh Hall; [reflexivity|].
  cbn [forallb] in Hall. apply andb_true_iff in Hall. destruct Hall as [Hc Hrest].
  rewrite greedy_star_step by exact Hc.
  rewrite (IH (c :: bh) Hrest). cbn [rev]. rewrite <- app_assoc. reflexivity.
Qed.

Lemma star_stops_short (p : N -> bool) cs :
  forall ah bh,
    forallb p ah = false ->
    rmatch (Star true (Class p)) (rmatch Eol Some) (MState bh ah cs) = None.
Proof.
  induction ah as [|c rest IH]; intros bh Hall; [discriminate|].
  cbn [forallb] in Hall. destruct (p c) eqn:Hc.
  - rewrite greedy_star_step by exact Hc. rewrite IH by exact Hall. reflexivity.
  - rewrite greedy_star_none by exact Hc. reflexivity.
Qed.

(** The pattern matches at a dot exactly when what follows the dot, to the
    end, is an extension: not empty, and without dot or slash. *)
Lemma matchAt_fileExtension (bh ah : jsstring) :
  matchAt fileExtension bh ah
  = match ah with
    | c :: d :: rest =>
        if (46 =? c)%N && forallb inExtension (d :: rest)
        then Some (RResult bh ah [] []) else None
    | _ => None
    end.
Proof.
  unfold matchAt, fileExtension, Plus. rewrite !rmatch_Seq.
  destruct ah as [|c [|d rest]]; [reflexivity| |].
  - unfold Chr. rewrite rmatch_Class_cons. destruct (46 =? c)%N; reflexivity.
  - unfold Chr. rewrite rmatch_Class_cons. destruct (46 =? c)%N; [|reflexivity].
    rewrite !rmatch_Seq, rmatch_Class_cons. cbn [andb forallb]. fold inExtension.
    destruct (inExtension d); [|reflexivity]. cbn [andb].
    destruct (forallb inExtension rest) eqn:Hrest.
    + unfold inExtension in Hrest. rewrite star_reaches_the_end by exact Hrest.
      cbn [ahead caps]. rewrite all_consumed. reflexivity.
    + unfold inExtension in Hrest. rewrite star_stops_short by exact Hrest.
      reflexivity.
Qed.

Lemma forallb_dot (a b : jsstring) : forallb inExtension (a ++ 46%N :: b) = false.
Proof.
  rewrite forallb_app. cbn [forallb]. change (inExtension 46) with false.
  apply andb_false_r.
Qed.

(** The search passes over every position before the last dot. *)
Lemma searchFrom_before_the_dot (ext : jsstring) :
  forall base bh,
    searchFrom fileExtension bh (base ++ 46%N :: ext)
    = searchFrom fileExtension (rev base ++ bh) (46%N :: ext).
Proof.
  induction base as [|c base IH]; intro bh; [reflexivity|].
  assert (Hm : matchAt fileExtension bh (c :: base ++ 46%N :: ext) = None).
  { rewrite matchAt_fileExtension.
    destruct (base ++ 46%N :: ext) as [|d rest] eqn:E; [reflexivity|].
    rewrite <- E, forallb_dot, andb_false_r. reflexivity. }
  cbn [app searchFrom]. rewrite Hm, IH. cbn [rev]. rewrite <- app_assoc. reflexivity.
Qed.

Lemma searchFrom_no_dot :
  forall name bh,
    forallb (fun c => negb (46 =? c)%N) name = true ->
    searchFrom fileExtension bh name = None.
Proof.
  induction name as [|c rest IH]; intros bh H; [reflexivity|].
  cbn [forallb] in H. apply andb_true_iff in H. destruct H as [Hc Hrest].
  cbn [searchFrom]. rewrite matchAt_fileExtension. apply negb_true_iff in Hc.
  rewrite Hc. cbn [andb]. destruct rest; apply IH; exact Hrest.
Qed.

(** X17: the original name of an uploaded file is its name without the last
    extension. Where the name ends in a dot followed by an extension (at
    least one character, none of them a dot or a slash), the extension and
    its dot are removed, and nothing else, whatever dots stand before; a
    name without a dot is kept as it is. *)
Theorem original_name_drops_the_last_extension (base ext : jsstring) :
  (ext <> [] -> forallb inExtension ext = true ->
   replaceOnce fileExtension [] (base ++ 46%N :: ext) = base)
  /\ (forallb (fun c => negb (46 =? c)%N) base = true ->
      replaceOnce fileExtension [] base = base).
Proof.
  split.
  - intros Hne Hext. unfold replaceOnce, exec.
    rewrite searchFrom_before_the_dot. rewrite app_nil_r.
    rewrite (searchFrom_hit fileExtension (rev base) (46%N :: ext)
               (res := RResult (rev base) (46%N :: ext) [] [])).
    + cbn [r_before r_after]. rewrite rev_involutive, app_nil_r. reflexivity.
    + rewrite matchAt_fileExtension. destruct ext as [|d rest]; [contradiction|].
      rewrite Hext. reflexivity.
  - intro Hno. unfold replaceOnce, exec. rewrite searchFrom_no_dot by exact Hno.
    reflexivity.
Qed.

Lemma original_name_witness :
  replaceOnce fileExtension [] (js "sales.2024" ++ 46%N :: js "xlsx") = js "sales.2024"
  /\ replaceOnce fileExtension [] (js "README") = js "README".
Proof.
  destruct (original_name_drops_the_last_extension (js "sales.2024") (js "xlsx"))
    as [H1 _].
  destruct (original_name_drops_the_last_extension (js "README") (js "xlsx"))
    as [_ H2].
  split; [apply H1; [discriminate|reflexivity]|apply H2; reflexivity].
Defined.

(** ** The tables after an upload *)

Lemma upsertTable_nil (t : TableSchema) : upsertTable [] t = [t].
Proof. reflexivity. Qed.

Lemma upsertTable_cons (x : TableSchema) (l : list TableSchema) (t : TableSchema) :
  upsertTable (x :: l) t
  = if jseqb (tableName x) (tableName t) then t :: l else x :: upsertTable l t.
Proof.
  unfold upsertTable. cbn [findIndex].
  destruct (jseqb (tableName x) (tableName t)); [reflexivity|].
  destruct (findIndex _ l); reflexivity.
Qed.

Lemma findTable_upsert (name : jsstring) (t : TableSchema) :
  forall l,
    findTable name (upsertTable l t)
    = if jseqb (tableName t) name then Some t else findTable name l.
Proof.
  induction l as [|x l IH].
  - rewrite upsertTable_nil. unfold findTable. cbn [find].
    destruct (jseqb (tableName t) name); reflexivity.
  - rewrite upsertTable_cons. destruct (jseqb (tableName x) (tableName t)) eqn:E.
    + apply jseqb_eq in E. unfold findTable. cbn [find]. rewrite E.
      destruct (jseqb (tableName t) name); reflexivity.
    + unfold findTable in *. cbn [find]. rewrite IH.
      destruct (jseqb (tableName x) name) eqn:Ex; [|reflexivity].
      apply jseqb_eq in Ex. subst name. rewrite jseqb_neq; [reflexivity|].
      intro H. rewrite H, jseqb_refl in E. discriminate.
Qed.

Lemma names_upsert (t : TableSchema) :
  forall l,
    map tableName (upsertTable l t)
    = if existsb (fun x => jseqb (tableName x) (tableName t)) l
      then map tableName l else map tableName l ++ [tableName t].
Proof.
  induction l as [|x l IH]; [reflexivity|].
  rewrite upsertTable_cons. cbn [existsb map].
  destruct (jseqb (tableName x) (tableName t)) eqn:E; cbn [orb map].
  - apply jseqb_eq in E. rewrite E. reflexivity.
  - rewrite IH. destruct (existsb _ l); reflexivity.
Qed.

Lemma existsb_name (name : jsstring) (l : list TableSchema) :
  existsb (fun x => jseqb (tableName x) name) l = false -> ~ In name (map tableName l).
Proof.
  induction l as [|x l IH]; cbn [existsb map In]; [tauto|].
  intro H. apply orb_false_iff in H. destruct H as [Hx Hl].
  intros [E|Hin]; [rewrite E, jseqb_refl in Hx; discriminate|]. exact (IH Hl Hin).
Qed.

Lemma find_app_last (name : jsstring) (l : list TableSchema) (t : TableSchema) :
  findTable name (l ++ [t])
  = match findTable name l with
    | Some x => Some x
    | None => if jseqb (tableName t) name then Some t else None
    end.
Proof.
  unfold findTable. induction l as [|x l IH]; cbn [app find]; [reflexivity|].
  destruct (jseqb (tableName x) name); [reflexivity|exact IH].
Qed.

Lemma mergeTables_spec (prev updatedSchema : list TableSchema) :
  (forall name,
      findTable name (mergeTables prev updatedSchema)
      = match findTable name (rev updatedSchema) with
        | Some t => Some t
        | None => findTable name prev
        end)
  /\ (exists added,
        map tableName (mergeTables prev updatedSchema) = map tableName prev ++ added)
  /\ (NoDup (map tableName prev) ->
      NoDup (map tableName (mergeTables prev updatedSchema))).
Proof.
  unfold mergeTables. revert prev.
  induction updatedSchema as [|t rest IH]; intro prev; cbn [fold_left rev].
  - split; [reflexivity|]. split; [exists []; symmetry; apply app_nil_r|auto].
  - destruct (IH (upsertTable prev t)) as [Hfind [[added Hnames] Hnodup]].
    split; [|split].
    + intro name. rewrite Hfind, find_app_last, findTable_upsert.
      destruct (findTable name (rev rest)); [reflexivity|].
      destruct (jseqb (tableName t) name); reflexivity.
    + rewrite Hnames, names_upsert.
      destruct (existsb _ prev); [exists added; reflexivity|].
      exists (tableName t :: added). rewrite <- app_assoc. reflexivity.
    + intro Hprev. apply Hnodup. rewrite names_upsert.
      destruct (existsb _ prev) eqn:E; [exact Hprev|].
      apply existsb_name in E.
      apply NoDup_app; [exact Hprev|repeat constructor; intros []|].
      intros x Hx [<-|[]]. contradiction.
Qed.

Lemma find_schema (name : jsstring) (files : list ProcessedFile) :
  findTable name (getDatabaseSchema files)
  = match find (fun f => jseqb (pf_name f) name) files with
    | Some f =>
        Some {| tableName := pf_name f;
                originalName := Some (pf_originalName f);
                columns := pf_columns f;
                rowCount := N.of_nat (length (pf_data f));
                samples := Some (firstn 3 (pf_data f)) |}
    | None => None
    end.
Proof.
  unfold findTable, getDatabaseSchema.
  induction files as [|f files IH]; cbn [map find tableName]; [reflexivity|].
  destruct (jseqb (pf_name f) name); [reflexivity|exact IH].
Qed.

(** X18: an upload merges the new tables into the list by name. After the
    upload, the table found under the name of an uploaded file describes
    the last uploaded file of that name: its columns, the count of its
    rows, and its first three rows at most as samples; under any other name
    the table found is the one the list had. The names of the tables that
    were there stay where they were and the new names follow; and a list
    without two tables of one name stays one. *)
Theorem upload_merges_tables_by_name (prev : list TableSchema)
    (newTables : list ProcessedFile) :
  let merged := tablesAfterUpload prev newTables in
  (forall name,
      findTable name merged
      = match lastFile name newTables with
        | Some f =>
            Some {| tableName := name;
                    originalName := Some (pf_originalName f);
                    columns := pf_columns f;
                    rowCount := N.of_nat (length (pf_data f));
                    samples := Some (firstn 3 (pf_data f)) |}
        | None => findTable name prev
        end)
  /\ (exists added, map tableName merged = map tableName prev ++ added)
  /\ (NoDup (map tableName prev) -> NoDup (map tableName merged)).
Proof.
  cbv zeta. unfold tablesAfterUpload.
  destruct (mergeTables_spec prev (getDatabaseSchema newTables)) as [Hfind Hrest].
  split; [|exact Hrest].
  intro name. rewrite Hfind. unfold getDatabaseSchema at 1.
  rewrite <- map_rev. fold (getDatabaseSchema (rev newTables)).
  rewrite find_schema. unfold lastFile.
  destruct (find _ (rev newTables)) as [f|] eqn:E; [|reflexivity].
  apply find_some in E. destruct E as [_ E]. apply jseqb_eq in E. rewrite E.
  reflexivity.
Qed.

(** ** Queries the sanitizer has nothing to do with *)

(** A literal under the [i] flag fails where the subject does not go on
    with the letters of the literal, in either case. *)
Lemma rmatch_LitI_mismatch (lit : jsstring) :
  forall k st,
    startsWith (map upperAscii (ahead st)) (map upperAscii lit) = false ->
    rmatch (LitI lit) k st = None.
Proof.
  induction lit as [|c lit IH]; intros k st Hs.
  - destruct (ahead st); discriminate.
  - cbn [LitI]. rewrite rmatch_Seq. unfold ChrI at 1.
    destruct st as [bh [|x rest] cs]; [reflexivity|].
    rewrite rmatch_Class_cons. cbn [ahead map startsWith] in Hs.
    destruct (upperAscii x =? upperAscii c)%N; [|reflexivity].
    cbn [andb] in Hs. apply IH. exact Hs.
Qed.

Lemma matchAt_keyword_absent (lit : jsstring) (r : regex) (bh ah : jsstring) :
  startsWith (map upperAscii ah) (map upperAscii lit) = false ->
  matchAt (Seq WordBoundary (Seq (LitI lit) r)) bh ah = None.
Proof.
  intro Hs. unfold matchAt. rewrite rmatch_Seq.
  assert (H : rmatch (Seq (LitI lit) r) Some (MState bh ah []) = None)
    by (rewrite rmatch_Seq; apply rmatch_LitI_mismatch; exact Hs).
  cbn [rmatch] in *. destruct (xorb _ _); [rewrite H|]; reflexivity.
Qed.

(** A global replacement changes nothing in a subject in which its pattern,
    which opens with a keyword, finds the keyword nowhere. *)
Lemma replaceLoop_keyword_absent {S : Type} (lit : jsstring) (r : regex)
    (f : S -> rresult -> jsstring * S) (s : S) :
  forall ah fuel bh,
    indexOf (map upperAscii ah) (map upperAscii lit) = None ->
    replaceLoop (Seq WordBoundary (Seq (LitI lit) r)) f fuel bh ah s = (ah, s).
Proof.
  induction ah as [|c rest IH]; intros fuel bh Habsent;
    (destruct fuel as [|fuel]; [reflexivity|]);
    destruct (indexOf_none _ _ Habsent) as [Hstart Hrest];
    cbn [replaceLoop]; rewrite matchAt_keyword_absent by exact Hstart.
  - reflexivity.
  - cbn [map] in Hrest. rewrite IH by exact Hrest. reflexivity.
Qed.

Lemma replaceAllWith_keyword_absent {S : Type} (lit : jsstring) (r : regex)
    (f : S -> rresult -> jsstring * S) (subject : jsstring) (s : S) :
  mentions subject (map upperAscii lit) = false ->
  replaceAllWith (Seq WordBoundary (Seq (LitI lit) r)) f subject s = (subject, s).
Proof.
  unfold mentions, includes. intro H.
  destruct (indexOf (map upperAscii subject) (map upperAscii lit)) eqn:E;
    [discriminate|].
  apply replaceLoop_keyword_absent. exact E.
Qed.

Lemma aliasPass_keyword_absent (sql : jsstring) :
  mentions sql (js "AS") = false -> aliasPass sql = sql.
Proof.
  intro H. unfold aliasPass, aliasPattern.
  rewrite (replaceAllWith_keyword_absent (js "AS") _ _ _ _ H). reflexivity.
Qed.

Lemma clause_keyword_absent (input : jsstring) (clause : Clause) :
  mentions input (match clause with ORDER_BY => js "ORDER" | GROUP_BY => js "GROUP" end)
  = false ->
  wrapChineseIdentifierInOrderGroup input clause = input.
Proof.
  intro H. unfold wrapChineseIdentifierInOrderGroup, clausePattern.
  destruct clause.
  - rewrite (replaceAllWith_keyword_absent (js "ORDER") _ _ _ _ H). reflexivity.
  - rewrite (replaceAllWith_keyword_absent (js "GROUP") _ _ _ _ H). reflexivity.
Qed.

(** X19: the sanitizer leaves a query alone that has none of its keywords. A
    query in which no letter A is directly followed by a letter S, and in
    which neither ORDER nor GROUP is spelled, in any mix of upper and lower
    case, comes back from [sanitizeSql] character for character. *)
Theorem sanitizer_leaves_plain_queries_alone (sql : jsstring) :
  mentions sql (js "AS") = false ->
  mentions sql (js "ORDER") = false ->
  mentions sql (js "GROUP") = false ->
  sanitizeSql sql = sql.
Proof.
  intros Has Horder Hgroup. unfold sanitizeSql.
  destruct (negb (truthyStr sql)); [reflexivity|]. cbv zeta.
  rewrite (aliasPass_keyword_absent _ Has).
  rewrite (clause_keyword_absent _ ORDER_BY Horder).
  apply (clause_keyword_absent _ GROUP_BY Hgroup).
Qed.

Lemma sanitizer_witness :
  sanitizeSql (js "SELECT 城市, COUNT(*) FROM t_1 WHERE 销量 > 10 LIMIT 5")
  = js "SELECT 城市, COUNT(*) FROM t_1 WHERE 销量 > 10 LIMIT 5".
Proof.
  apply sanitizer_leaves_plain_queries_alone; vm_compute; reflexivity.
Defined.

(** ** The order of result sets, at work *)

(** Rows of three short fields against rows of one. *)
Lemma batch_size_of_result_sets_witness :
  let wide := [VObj [(js "a", VStr (js "x")); (js "b", VStr (js "y"));
                     (js "c", VStr (js "z"))]] in
  SFleb (calculateAdaptiveBatchSize (W := silentWorld) wide)
        (calculateAdaptiveBatchSize (W := silentWorld) oneRow) = true.
Proof.
  intro wide.
  apply (@batch_size_of_result_sets silentWorld oneRow wide);
    first [discriminate | vm_compute; reflexivity].
Defined.

(** ** C3: the rule of the alias pass *)

(** A pattern anchored at the start matches nowhere else. *)
Lemma searchFrom_Bol_inside (r : regex) :
  forall ah b bh, searchFrom (Seq Bol r) (b :: bh) ah = None.
Proof.
  induction ah as [|c rest IH]; intros b bh; cbn [searchFrom]; unfold matchAt;
    rewrite rmatch_Seq, rmatch_Bol_inside; [reflexivity|apply IH].
Qed.

Lemma test_anchored (r : regex) (s : jsstring) :
  test (Seq Bol r) s
  = match rmatch r Some (MState [] s []) with Some _ => true | None => false end.
Proof.
  unfold test, exec. destruct s as [|c rest]; cbn [searchFrom]; unfold matchAt;
    rewrite rmatch_Seq, rmatch_Bol_start.
  - destruct (rmatch r Some (MState [] [] [])); reflexivity.
  - destruct (rmatch r Some (MState [] (c :: rest) [])); [reflexivity|].
    rewrite searchFrom_Bol_inside. reflexivity.
Qed.

(** A greedy run of a class that must reach the end. *)
Lemma class_run_to_the_end (p : N -> bool) cs :
  forall ah bh,
    rmatch (Star true (Class p)) (rmatch Eol Some) (MState bh ah cs)
    = if forallb p ah then Some (MState (rev ah ++ bh) [] cs) else None.
Proof.
  induction ah as [|c rest IH]; intro bh; [reflexivity|].
  cbn [forallb]. destruct (p c) eqn:Hc; cbn [andb].
  - rewrite greedy_star_step by exact Hc. rewrite IH.
    destruct (forallb p rest); [|reflexivity].
    cbn [rev]. rewrite <- app_assoc. reflexivity.
  - rewrite greedy_star_none by exact Hc. reflexivity.
Qed.

Lemma test_asciiIdentifier (s : jsstring) : test asciiIdentifier s = isIdentifier s.
Proof.
  unfold asciiIdentifier. rewrite test_anchored, rmatch_Seq.
  destruct s as [|c rest]; [reflexivity|].
  rewrite rmatch_Class_cons. cbn [isIdentifier].
  destruct (isUpperAscii c || isLowerAscii c || (c =? 95)%N); [|reflexivity].
  rewrite rmatch_Seq, class_run_to_the_end. cbn [andb].
  destruct (forallb isWordChar rest); reflexivity.
Qed.

Lemma test_hasCJK (s : jsstring) : test hasCJK s = existsb isCJK s.
Proof.
  unfold test, exec, hasCJK. generalize (@nil N) as bh.
  induction s as [|c rest IH]; intro bh; [reflexivity|].
  cbn [searchFrom existsb]. unfold matchAt. rewrite rmatch_Class_cons.
  destruct (isCJK c); [reflexivity|]. cbn [orb]. apply IH.
Qed.

(** A greedy run of code units other than the closing bracket, then the
    closing bracket at the end. *)
Lemma run_to_the_closing_bracket cs :
  forall ah bh,
    rmatch (Star true (Class (notIn [RBRACKET])))
      (rmatch (Seq (Chr RBRACKET) Eol) Some) (MState bh ah cs)
    = if closesAtEnd ah then Some (MState (rev ah ++ bh) [] cs) else None.
Proof.
  induction ah as [|c rest IH]; intro bh; [reflexivity|].
  cbn [closesAtEnd]. destruct (N.eqb_spec c RBRACKET) as [->|Hc].
  - rewrite greedy_star_none by reflexivity.
    rewrite rmatch_Seq. unfold Chr. rewrite rmatch_Class_cons, N.eqb_refl.
    destruct rest; reflexivity.
  - assert (Hp : notIn [RBRACKET] c = true).
    { unfold notIn. cbn [existsb]. apply N.eqb_neq in Hc. rewrite Hc. reflexivity. }
    rewrite greedy_star_step by exact Hp. rewrite IH.
    destruct (closesAtEnd rest).
    + cbn [rev]. rewrite <- app_assoc. reflexivity.
    + rewrite rmatch_Seq. unfold Chr. rewrite rmatch_Class_cons.
      rewrite N.eqb_sym. apply N.eqb_neq in Hc. rewrite Hc. reflexivity.
Qed.

Lemma test_bracketQuoted (s : jsstring) : test bracketQuoted s = fullyBracketed s.
Proof.
  unfold bracketQuoted. rewrite test_anchored, rmatch_Seq.
  destruct s as [|c rest]; [reflexivity|].
  unfold Chr at 1. rewrite rmatch_Class_cons, (N.eqb_sym LBRACKET).
  destruct rest as [|d rest].
  - destruct (c =? LBRACKET)%N; reflexivity.
  - cbn [fullyBracketed]. destruct (c =? LBRACKET)%N; [|reflexivity]. cbn [andb].
    unfold Plus. rewrite !rmatch_Seq, rmatch_Class_cons.
    unfold notIn at 1. cbn [existsb]. rewrite orb_false_r.
    destruct (d =? RBRACKET)%N eqn:Hd; [reflexivity|]. cbn [negb andb].
    pose proof (run_to_the_closing_bracket [] rest [d; c]) as H.
    rewrite H. destruct (closesAtEnd rest); reflexivity.
Qed.

(** Past the start, a global replacement of the two ends removes the last
    code unit, where it closes. *)
Lemma replaceLoop_layer_inside (opening closing : N -> bool) :
  forall ah fuel b bh,
    length ah < fuel ->
    replaceLoop (Alt (Seq Bol (Class opening)) (Seq (Class closing) Eol))
      (fun (u : unit) _ => ([], u)) fuel (b :: bh) ah tt
    = (dropLast closing ah, tt).
Proof.
  induction ah as [|c rest IH]; intros fuel b bh Hfuel;
    (destruct fuel as [|fuel]; [cbn [length] in Hfuel; lia|]).
  - reflexivity.
  - cbn [length] in Hfuel. cbn [replaceLoop]. unfold matchAt.
    rewrite rmatch_Alt, rmatch_Seq, rmatch_Bol_inside, rmatch_Seq, rmatch_Class_cons.
    cbn [dropLast]. destruct rest as [|d rest].
    + destruct (closing c).
      * rewrite rmatch_Eol_end. cbn [ahead caps r_text r_after firstn length Nat.sub].
        destruct fuel; reflexivity.
      * rewrite (IH fuel c (b :: bh)) by lia. reflexivity.
    + assert (Hno : (if closing c
                     then rmatch Eol Some (MState (c :: b :: bh) (d :: rest) [])
                     else None) = None)
        by (destruct (closing c); reflexivity).
      rewrite Hno. rewrite (IH fuel c (b :: bh)) by lia. reflexivity.
Qed.

Lemma replaceAll_layer (opening closing : N -> bool) (s : jsstring) :
  replaceAll (Alt (Seq Bol (Class opening)) (Seq (Class closing) Eol)) [] s
  = stripLayer opening closing s.
Proof.
  unfold replaceAll, replaceAllWith. destruct s as [|c rest]; [reflexivity|].
  cbn [replaceLoop stripLayer]. unfold matchAt.
  rewrite rmatch_Alt, rmatch_Seq, rmatch_Bol_start, rmatch_Class_cons.
  destruct (opening c).
  - cbn [ahead caps]. rewrite one_consumed. cbn [r_text r_after rev app].
    rewrite replaceLoop_layer_inside by (cbn [length]; lia). reflexivity.
  - rewrite rmatch_Seq, rmatch_Class_cons. cbn [dropLast].
    destruct rest as [|d rest].
    + destruct (closing c).
      * rewrite rmatch_Eol_end. cbn [ahead caps r_text r_after firstn length Nat.sub].
        reflexivity.
      * reflexivity.
    + assert (Hno : (if closing c
                     then rmatch Eol Some (MState [c] (d :: rest) [])
                     else None) = None)
        by (destruct (closing c); reflexivity).
      rewrite Hno. rewrite replaceLoop_layer_inside by (cbn [length]; lia).
      reflexivity.
Qed.

Lemma replace_quoteEnds (s : jsstring) :
  replaceAll quoteEnds [] s = stripLayer isQuote isQuote s.
Proof. apply replaceAll_layer. Qed.

Lemma replace_bracketEnds (s : jsstring) :
  replaceAll bracketEnds [] s = stripLayer (N.eqb LBRACKET) (N.eqb RBRACKET) s.
Proof. apply replaceAll_layer. Qed.

(** The replacer of the alias pass follows the rule, whatever the match. *)
Lemma aliasReplacer_rule (aliasIndex : N) (res : rresult) :
  aliasReplacer aliasIndex res
  = match aliasRule (cap res 1) with
    | LeftAsWritten => (r_text res, aliasIndex)
    | BareIdentifier inner => (replaceFirst (r_text res) (cap res 1) inner, aliasIndex)
    | Bracketed inner =>
        (replaceFirst (r_text res) (cap res 1) ([LBRACKET] ++ inner ++ [RBRACKET]),
         aliasIndex)
    | Synthetic =>
        (replaceFirst (r_text res) (cap res 1) (js "col_" ++ decimal aliasIndex),
         (aliasIndex + 1)%N)
    end.
Proof.
  unfold aliasReplacer, aliasRule. cbv zeta.
  rewrite replace_quoteEnds, test_bracketQuoted, replace_bracketEnds,
    test_asciiIdentifier, test_hasCJK.
  destruct (negb (truthyStr (stripLayer isQuote isQuote (trim (cap res 1)))));
    [reflexivity|].
  cbn [orb].
  destruct (fullyBracketed (stripLayer isQuote isQuote (trim (cap res 1))));
    [reflexivity|].
  destruct (isIdentifier _); [reflexivity|].
  destruct (existsb isCJK _); reflexivity.
Qed.

(** The fixtures of the pass. *)
Lemma aliasReplacer_ascii (n : N) :
  aliasReplacer n (RResult [] (js "AS total_sum") [] [(1, js "total_sum")])
  = (js "AS total_sum", n).
Proof. reflexivity. Qed.

Lemma aliasReplacer_cjk (n : N) :
  aliasReplacer n (RResult [] (js "AS 总计") [] [(1, js "总计")])
  = (js "AS [总计]", n).
Proof. reflexivity. Qed.

(** The alias the pattern captures from [AS "总 计"] ends at the space: it is
    the opening quote and the first ideograph. *)
Lemma aliasPattern_stops_at_space :
  option_map (fun m => (r_text m, cap m 1, r_after m))
    (exec aliasPattern (aliasQuery (quoted (js "总 计"))))
  = Some (js "AS " ++ [DQUOTE] ++ js "总", [DQUOTE] ++ js "总",
          js " 计" ++ [DQUOTE] ++ js " FROM t").
Proof. vm_compute. reflexivity. Qed.

(** C3, as the code has it. For every match of the alias pattern the replacer
    follows the rule of the pass: the captured alias is trimmed and one layer
    of quotes is stripped; the match is left as written if that text is empty
    or fully bracket-quoted; otherwise one layer of brackets is stripped, and
    the inner text is kept bare if it is an ASCII identifier, put in brackets
    if it holds any CJK character, and replaced by [col_<n>] (with the
    counter stepped) only otherwise. So the alias [total_sum] stays the bare
    identifier, [总计] becomes [[总计]], and [总计%], which holds ideographs
    beside a character that is not allowed, is bracketed too, while
    [total-sum!] becomes [col_1]. The alias written ["总 计"] is not replaced
    by a synthetic name: it holds an ideograph, so the rule brackets it. *)
Theorem alias_pass_follows_the_rule :
  (forall (aliasIndex : N) (res : rresult),
      aliasReplacer aliasIndex res
      = match aliasRule (cap res 1) with
        | LeftAsWritten => (r_text res, aliasIndex)
        | BareIdentifier inner =>
            (replaceFirst (r_text res) (cap res 1) inner, aliasIndex)
        | Bracketed inner =>
            (replaceFirst (r_text res) (cap res 1) ([LBRACKET] ++ inner ++ [RBRACKET]),
             aliasIndex)
        | Synthetic =>
            (replaceFirst (r_text res) (cap res 1) (js "col_" ++ decimal aliasIndex),
             (aliasIndex + 1)%N)
        end)
  /\ aliasPass (aliasQuery (js "total_sum")) = aliasQuery (js "total_sum")
  /\ sanitizeSql (aliasQuery (js "total_sum")) = aliasQuery (js "total_sum")
  /\ aliasPass (aliasQuery (js "总计")) = aliasQuery (js "[总计]")
  /\ sanitizeSql (aliasQuery (js "总计")) = aliasQuery (js "[总计]")
  /\ aliasRule (quoted (js "总 计")) = Bracketed (js "总 计")
  /\ includes (aliasPass (aliasQuery (quoted (js "总 计")))) (js "col_") = false
  /\ includes (sanitizeSql (aliasQuery (quoted (js "总 计")))) (js "col_") = false
  /\ sanitizeSql (aliasQuery (js "总计%")) = aliasQuery (js "[总计%]")
  /\ sanitizeSql (aliasQuery (js "total-sum!")) = aliasQuery (js "col_1")
  /\ sanitizeSql (js "SELECT a AS x-y, b AS z! FROM t")
     = js "SELECT a AS col_1, b AS col_2 FROM t".
Proof.
  split; [exact aliasReplacer_rule|].
  assert (Hpass : forall a b, aliasPass a = b ->
                    wrapChineseIdentifierInOrderGroup
                      (wrapChineseIdentifierInOrderGroup b ORDER_BY) GROUP_BY = b ->
                    truthyStr a = true -> sanitizeSql a = b).
  { intros a b Ha Hb Hne. unfold sanitizeSql. rewrite Hne, Ha. exact Hb. }
  assert (H1 : aliasPass (aliasQuery (js "total_sum")) = aliasQuery (js "total_sum"))
    by (vm_compute; reflexivity).
  assert (H2 : aliasPass (aliasQuery (js "总计")) = aliasQuery (js "[总计]"))
    by (vm_compute; reflexivity).
  split; [exact H1|].
  split; [apply Hpass; [exact H1 | vm_compute; reflexivity | reflexivity]|].
  split; [exact H2|].
  split; [apply Hpass; [exact H2 | vm_compute; reflexivity | reflexivity]|].
  repeat split; vm_compute; reflexivity.
Qed.

(** The claim as stated fails on its third fixture. *)
Lemma quoted_alias_with_space_is_not_col_1 :
  sanitizeSql (aliasQuery (quoted (js "总 计"))) <> aliasQuery (js "col_1")
  /\ includes (sanitizeSql (aliasQuery (quoted (js "总 计")))) (js "col_") = false.
Proof.
  split; [|vm_compute; reflexivity].
  intro H. apply (f_equal (fun s => nth 17 s 0%N)) in H.
  vm_compute in H. discriminate.
Qed.
